(** * GRCI: a shallow embedding of the simulator and of the compiler tables

    The development follows [src/grci.c].  Part I embeds the elaborated
    netlist ([struct grci_node], [struct grci_ram64k], [struct
    grci_simulator]), the two evaluators [grci_eval_dff] and
    [grci_eval_node] and the public [grci_step_module].  Pointers into the
    node arena are indices into [nodes]; a NULL pointer is [None]; a failed
    [assert] makes a function return [None]. *)

From stdpp Require Import base option list strings pretty.
From Stdlib Require Import ZArith Lia.

Set Warnings "-register-all".
Set Default Proof Using "Type".

(** ** Primitive nodes *)

(** [struct grci_node *]: an index into [sim->nodes], or NULL. *)
Definition ptr := option nat.

(** The union [as] of [struct grci_node] together with its [type] tag.
    [struct grci_dff] and [struct grci_ram64kOut] both carry a
    [last_state] field at the same offset, which the simulator relies on
    when it writes [as.dff.last_state] through the DFF reference list. *)
Inductive node_as : Type :=
| AsConstant (constant : bool)
| AsNand (a b : ptr)
| AsDff (input : ptr) (last_state : bool)
| AsRam64KOut (ram : nat) (last_state : bool).

Record grci_node : Type := Node {
  as_ : node_as;
  visited : bool;
  cached_state : bool
}.

(** [struct grci_ram64k]; [data] is the 65536-byte store, one [Z] in
    [0, 256) per byte. *)
Record grci_ram64k : Type := Ram64k {
  ram_inputs : list ptr;
  ram_load : ptr;
  ram_addrs : list ptr;
  ram_data : list Z;
  ram_outputs : list nat
}.

(** [struct grci_simulator]; [node_count] and [dff_node_count] are the
    lengths of [nodes] and [dff_nodes]. *)
Record grci_simulator : Type := Simulator {
  nodes : list grci_node;
  dff_nodes : list nat;
  rams : list grci_ram64k;
  const0 : nat;
  const1 : nat;
  clock : nat
}.

Definition is_dff_type (n : grci_node) : bool :=
  match as_ n with AsDff _ _ => true | _ => false end.

Definition is_ram64kout_type (n : grci_node) : bool :=
  match as_ n with AsRam64KOut _ _ => true | _ => false end.

Definition set_visited (v : bool) (n : grci_node) : grci_node :=
  {| as_ := as_ n; visited := v; cached_state := cached_state n |}.

Definition set_cached (c : bool) (n : grci_node) : grci_node :=
  {| as_ := as_ n; visited := visited n; cached_state := c |}.

(** [node->as.constant = c] on a constant node. *)
Definition set_constant (c : bool) (n : grci_node) : grci_node :=
  match as_ n with
  | AsConstant _ =>
      {| as_ := AsConstant c; visited := visited n; cached_state := cached_state n |}
  | _ => n
  end.

(** [node->as.dff.last_state = b]; through the shared layout this also
    is the [last_state] of a RAM-OUT node. *)
Definition set_last_state (b : bool) (n : grci_node) : grci_node :=
  match as_ n with
  | AsDff i _ =>
      {| as_ := AsDff i b; visited := visited n; cached_state := cached_state n |}
  | AsRam64KOut r _ =>
      {| as_ := AsRam64KOut r b; visited := visited n; cached_state := cached_state n |}
  | _ => n
  end.

(** [node->as.dff.last_state] read through the same layout. *)
Definition last_state_of (n : grci_node) : option bool :=
  match as_ n with
  | AsDff _ l => Some l
  | AsRam64KOut _ l => Some l
  | _ => None
  end.

Definition with_nodes (s : grci_simulator) (ns : list grci_node) : grci_simulator :=
  {| nodes := ns; dff_nodes := dff_nodes s; rams := rams s;
     const0 := const0 s; const1 := const1 s; clock := clock s |}.

Definition with_rams (s : grci_simulator) (rs : list grci_ram64k) : grci_simulator :=
  {| nodes := nodes s; dff_nodes := dff_nodes s; rams := rs;
     const0 := const0 s; const1 := const1 s; clock := clock s |}.

(** In-place update of the node at index [i]. *)
Definition upd_node (f : grci_node → grci_node) (i : nat) (s : grci_simulator)
  : grci_simulator :=
  with_nodes s (alter f i (nodes s)).

Definition with_data (d : list Z) (r : grci_ram64k) : grci_ram64k :=
  {| ram_inputs := ram_inputs r; ram_load := ram_load r; ram_addrs := ram_addrs r;
     ram_data := d; ram_outputs := ram_outputs r |}.

(** ** RAM byte store

    [ram->data[i]] for reading and writing.  The C code does not check
    bounds; outside the 64 KiB block a read is modelled as 0 and a write
    as dropped. *)
Definition data_get (d : list Z) (i : Z) : Z :=
  if (i <? 0)%Z then 0%Z else default 0%Z (d !! Z.to_nat i).

Definition data_set (d : list Z) (i : Z) (v : Z) : list Z :=
  if (i <? 0)%Z then d else <[Z.to_nat i := v]> d.

(** [*((int* ) &ram->data[addr])] restricted to the 16 bits the callers
    use, on a little-endian host. *)
Definition data_word (d : list Z) (addr : Z) : Z :=
  (data_get d addr + 256 * data_get d (addr + 1))%Z.

(** The index range [0 .. 15] of the loops over the sixteen bits of a RAM
    word. *)
Definition ram_bits : list nat := seq 0 16.

(** The loop [for i < 16: outputs[i]->visited = true;
    outputs[i]->cached_state = (output >> i) & 1]. *)
Fixpoint publish_ram_outputs (outs : list nat) (i : nat) (output : Z)
    (s : grci_simulator) : grci_simulator :=
  match outs with
  | [] => s
  | o :: outs' =>
      publish_ram_outputs outs' (S i) output
        (upd_node (λ n, set_cached (Z.testbit output (Z.of_nat i)) (set_visited true n)) o s)
  end.

(** ** [grci_eval_dff]

    The body of the [for i < 16] loop of the RAM-OUT case, which reads one
    data input and one address input per round; [ev] is the recursive
    evaluator. *)
Fixpoint ram_scan (ev : grci_simulator → ptr → option (bool * grci_simulator))
    (ram : grci_ram64k) (idx : list nat) (acc : Z * Z * Z) (s : grci_simulator)
  : option ((Z * Z * Z) * grci_simulator) :=
  match idx with
  | [] => Some (acc, s)
  | i :: idx' =>
      let '(input1, input2, addr) := acc in
      pin ← ram_inputs ram !! i;
      '(vi, s1) ← ev s pin;
      pad ← ram_addrs ram !! i;
      '(va, s2) ← ev s1 pad;
      let input1' :=
        if i <? 8 then Z.lor input1 (Z.shiftl (Z.b2z vi) (Z.of_nat i)) else input1 in
      let input2' :=
        if i <? 8 then input2 else Z.lor input2 (Z.shiftl (Z.b2z vi) (Z.of_nat (i - 8))) in
      let addr' := Z.lor addr (Z.shiftl (Z.b2z va) (Z.of_nat i)) in
      ram_scan ev ram idx' (input1', input2', addr') s2
  end.

(** The address loop of the RAM-OUT case of [grci_eval_node]. *)
Fixpoint ram_scan_addr (ev : grci_simulator → ptr → option (bool * grci_simulator))
    (ram : grci_ram64k) (idx : list nat) (addr : Z) (s : grci_simulator)
  : option (Z * grci_simulator) :=
  match idx with
  | [] => Some (addr, s)
  | i :: idx' =>
      pad ← ram_addrs ram !! i;
      '(va, s1) ← ev s pad;
      ram_scan_addr ev ram idx' (Z.lor addr (Z.shiftl (Z.b2z va) (Z.of_nat i))) s1
  end.

(** [return node->cached_state]. *)
Definition ret_cached (i : nat) (s : grci_simulator) : option (bool * grci_simulator) :=
  n ← nodes s !! i; Some (cached_state n, s).

(** [grci_eval_dff(node, root)].  The C function recurses through the
    node graph; [fuel] bounds the recursion depth.  Every call that does
    not return at once marks a node visited, so a depth of one more than
    the number of nodes is never exceeded (see [eval_dff_total]). *)
Fixpoint grci_eval_dff_fuel (fuel : nat) (s : grci_simulator) (p : ptr) (root : bool)
  : option (bool * grci_simulator) :=
  match fuel with
  | O => None
  | S f =>
      i ← p;
      node ← nodes s !! i;
      if visited node then
        match as_ node with
        | AsDff _ last => Some (last, s)
        | _ => Some (cached_state node, s)
        end
      else
        let s1 := upd_node (set_visited true) i s in
        match as_ node with
        | AsConstant c => ret_cached i (upd_node (set_cached c) i s1)
        | AsNand a b =>
            '(vl, s2) ← grci_eval_dff_fuel f s1 a false;
            '(vr, s3) ← grci_eval_dff_fuel f s2 b false;
            ret_cached i (upd_node (set_cached (negb (vl && vr))) i s3)
        | AsDff input _ =>
            if negb root then Some (cached_state node, s1)
            else
              '(v, s2) ← grci_eval_dff_fuel f s1 input false;
              ret_cached i (upd_node (set_cached v) i s2)
        | AsRam64KOut r _ =>
            ram ← rams s1 !! r;
            '(ld, s2) ← grci_eval_dff_fuel f s1 (ram_load ram) false;
            '(acc, s3) ← ram_scan (λ s' p', grci_eval_dff_fuel f s' p' false)
                           ram ram_bits (0, 0, 0)%Z s2;
            let '(input1, input2, addr) := acc in
            ram3 ← rams s3 !! r;
            let d :=
              if (ld : bool)
              then data_set (data_set (ram_data ram3) addr input1) (addr + 1)%Z input2
              else ram_data ram3 in
            let s4 := with_rams s3 (<[r := with_data d ram3]> (rams s3)) in
            ret_cached i (publish_ram_outputs (ram_outputs ram3) 0 (data_word d addr) s4)
        end
  end.

Definition grci_eval_dff (s : grci_simulator) (p : ptr) (root : bool)
  : option (bool * grci_simulator) :=
  grci_eval_dff_fuel (S (length (nodes s))) s p root.

(** ** [grci_eval_node]

    The output evaluator.  Its RAM-OUT case calls [grci_eval_dff] (not
    itself) on the address inputs. *)
Fixpoint grci_eval_node_fuel (fuel : nat) (s : grci_simulator) (p : ptr)
  : option (bool * grci_simulator) :=
  match fuel with
  | O => None
  | S f =>
      i ← p;
      node ← nodes s !! i;
      if visited node then
        match as_ node with
        | AsDff _ last => Some (last, s)
        | _ => Some (cached_state node, s)
        end
      else
        let s1 := upd_node (set_visited true) i s in
        match as_ node with
        | AsConstant c => ret_cached i (upd_node (set_cached c) i s1)
        | AsNand a b =>
            '(vl, s2) ← grci_eval_node_fuel f s1 a;
            '(vr, s3) ← grci_eval_node_fuel f s2 b;
            ret_cached i (upd_node (set_cached (negb (vl && vr))) i s3)
        | AsDff input _ =>
            _ ← input;
            Some (cached_state node, s1)
        | AsRam64KOut r _ =>
            ram ← rams s1 !! r;
            '(addr, s2) ← ram_scan_addr (λ s' p', grci_eval_dff_fuel f s' p' false)
                            ram ram_bits 0%Z s1;
            ram2 ← rams s2 !! r;
            ret_cached i
              (publish_ram_outputs (ram_outputs ram2) 0 (data_word (ram_data ram2) addr) s2)
        end
  end.

Definition grci_eval_node (s : grci_simulator) (p : ptr)
  : option (bool * grci_simulator) :=
  grci_eval_node_fuel (S (length (nodes s))) s p.

(** ** Module descriptions and module instances *)

Definition GRCI_MAX_PARTS : nat := 64.
Definition GRCI_MAX_WIRES : nat := 32.
Definition GRCI_MAX_INPUTS : nat := 160.
Definition GRCI_MAX_OUTPUTS : nat := 128.
Definition GRCI_MAX_MODULES : nat := 64.

Definition GRCI_OUTPUT_NONE : Z := (-1)%Z.
Definition GRCI_OUTPUT_0 : Z := (-2)%Z.
Definition GRCI_OUTPUT_1 : Z := (-3)%Z.

(** [#define GRCI_RAM64K_STATE_COUNT 65536 * 8]. *)
Definition GRCI_RAM64K_STATE_COUNT : nat := Z.to_nat (65536 * 8).

(** [struct grci_connection] with its [enum grci_input_type] tag. *)
Inductive grci_connection : Type :=
| intern_conn (part_idx output_idx : nat)
| extern_conn (parameter_idx : nat)
| const_conn (constant : bool)
| clock_conn.

(** [struct grci_element]; [idx] may hold the sentinels [GRCI_OUTPUT_0]
    and [GRCI_OUTPUT_1]. *)
Record grci_element : Type := output_part {
  idx : Z;
  output_idx : Z
}.

(** [struct grci_module_desc].  The fixed-capacity arrays are lists;
    [part_count] is the length of [parts]; a part without instance name
    has [part_names[i].ptr == NULL], here [None].  [parts] holds pointers
    to descriptions that are never modified once registered, so the
    pointee is embedded. *)
Inductive grci_module_desc : Type := ModuleDesc {
  name : string;
  parts : list grci_module_desc;
  part_names : list (option string);
  part_connections : list (list grci_connection);
  input_count : nat;
  input_param_count : nat;
  outputs : list grci_element;
  output_count : nat;
  output_param_count : nat;
  input_widths : list nat;
  output_widths : list nat;
  is_nand : bool;
  is_dff : bool;
  is_ram64K : bool;
  sink_counts : list nat;
  node_count : nat;
  dff_count : nat
}.

Definition part_count (d : grci_module_desc) : nat := length (parts d).

(** [part_names[i].ptr], NULL when the part is unnamed. *)
Definition part_name (d : grci_module_desc) (i : nat) : option string :=
  mjoin (part_names d !! i).

(** [struct grci_submodule] of [grci.h]; [grci_submodule] itself names the
    API function below. *)
Record struct_grci_submodule : Type := Submodule {
  state_count : nat;
  states : list bool
}.

(** An input slot of a primitive: the address of one [struct grci_node *]
    field, as stored in [struct grc_input_sink]. *)
Inductive slot : Type :=
| SlotNandA (n : nat)
| SlotNandB (n : nat)
| SlotDffInput (n : nat)
| SlotRamInput (r i : nat)
| SlotRamLoad (r : nat)
| SlotRamAddr (r i : nat).

(** [struct grc_input_sink]: [ptps] is allocated with the sink count of
    the input bit and filled from index [count]. *)
Record grc_input_sink : Type := MkInputSink {
  ptps : list (option slot);
  count : nat
}.

(** [struct grci_module_instance]. *)
Record grci_module_instance : Type := ModuleInstance {
  desc : grci_module_desc;
  sinks : list grc_input_sink;
  inst_inputs : list ptr;
  inst_outputs : list ptr;
  submodules : list struct_grci_submodule;
  dff_off_len : list (nat * nat)
}.

(** [struct grci_module] with the [struct grci_sim] it points to. *)
Record grci_module : Type := Module_ {
  m_inputs : list bool;
  m_outputs : list bool;
  m_sim : grci_simulator;
  m_module : grci_module_instance
}.

(** A [for] loop over the elements of [l] whose body may fail. *)
Fixpoint for_each {A S : Type} (l : list A) (body : A → S → option S) (s : S)
  : option S :=
  match l with
  | [] => Some s
  | x :: l' => s' ← body x s; for_each l' body s'
  end.

(** ** [grci_step_module] *)

(** [for i < input_count: module.inputs[i]->as.constant = m->inputs[i]]. *)
Definition publish_inputs (m : grci_module) : option grci_simulator :=
  for_each (seq 0 (input_count (desc (m_module m))))
    (λ i s,
       p ← inst_inputs (m_module m) !! i;
       k ← p;
       v ← m_inputs m !! i;
       Some (upd_node (set_constant v) k s))
    (m_sim m).

(** The packing loop of the RAM64K branch:
    [c |= states[i] << (i % 8); if (i % 8 == 7) { data[i / 8] = c; c = 0; }]
    for [i] from [i] to [i + n - 1]. *)
Fixpoint load_ram_loop (n i : nat) (c : Z) (sts : list bool) (data : list Z) : list Z :=
  match n with
  | O => data
  | S n' =>
      let c' := Z.lor c (Z.shiftl (Z.b2z (default false (sts !! i))) (Z.of_nat (i mod 8))) in
      if i mod 8 =? 7
      then load_ram_loop n' (S i) 0%Z sts (<[i / 8 := c']> data)
      else load_ram_loop n' (S i) c' sts data
  end.

Definition load_ram_states (sts : list bool) (data : list Z) : list Z :=
  load_ram_loop GRCI_RAM64K_STATE_COUNT 0 0%Z sts data.

(** The unpacking loop of the RAM64K branch:
    [c = data[i / 8]; states[i] = (c >> (i % 8)) & 1]. *)
Fixpoint snapshot_ram_loop (n i : nat) (data : list Z) (sts : list bool) : list bool :=
  match n with
  | O => sts
  | S n' =>
      let c := default 0%Z (data !! (i / 8)) in
      snapshot_ram_loop n' (S i) data
        (<[i := negb (Z.land (Z.shiftr c (Z.of_nat (i mod 8))) 1 =? 0)%Z]> sts)
  end.

Definition snapshot_ram_states (data : list Z) (sts : list bool) : list bool :=
  snapshot_ram_loop GRCI_RAM64K_STATE_COUNT 0 data sts.

(** The RAM block behind the first DFF reference of part [i]; [None] is
    the failed [assert(node->type == GRCI_NT_RAM64KOUT)]. *)
Definition part_ram (s : grci_simulator) (off : nat) : option nat :=
  k ← dff_nodes s !! off;
  node ← nodes s !! k;
  match as_ node with
  | AsRam64KOut r _ => Some r
  | _ => None
  end.

(** One round of the first "set submodule states" loop. *)
Definition load_part_state (mi : grci_module_instance) (i : nat) (s : grci_simulator)
  : option grci_simulator :=
  match part_name (desc mi) i with
  | None => Some s
  | Some _ =>
      sub ← submodules mi !! i;
      part ← parts (desc mi) !! i;
      '(dff_off, dff_len) ← dff_off_len mi !! i;
      if String.eqb (name part) "Ram64K" then
        r ← part_ram s dff_off;
        ram ← rams s !! r;
        Some (with_rams s
                (<[r := with_data (load_ram_states (states sub) (ram_data ram)) ram]> (rams s)))
      else
        for_each (seq 0 dff_len)
          (λ j s',
             k ← dff_nodes s' !! (j + dff_off);
             v ← states sub !! j;
             Some (upd_node (λ n, set_cached v (set_last_state v n)) k s'))
          s
  end.

Definition load_states (mi : grci_module_instance) (s : grci_simulator)
  : option grci_simulator :=
  for_each (seq 0 (part_count (desc mi))) (load_part_state mi) s.

(** [sim->clock->as.constant = sim->clock->as.constant == 0 ? 1 : 0]. *)
Definition clock_level (s : grci_simulator) : option bool :=
  n ← nodes s !! clock s;
  match as_ n with
  | AsConstant c => Some c
  | _ => None
  end.

Definition toggle_clock (s : grci_simulator) : option grci_simulator :=
  c ← clock_level s;
  Some (upd_node (set_constant (negb c)) (clock s) s).

(** [for k < node_count: nodes[k].visited = false]. *)
Definition clear_visited (s : grci_simulator) : grci_simulator :=
  with_nodes s (set_visited false <$> nodes s).

(** [for k < node_count: if (nodes[k].type != GRCI_NT_DFF) nodes[k].visited = false]. *)
Definition clear_comb_visited (s : grci_simulator) : grci_simulator :=
  with_nodes s ((λ n, if is_dff_type n then n else set_visited false n) <$> nodes s).

(** The rising-edge loop over the DFF reference list. *)
Fixpoint dff_pass (ks : list nat) (s : grci_simulator) : option grci_simulator :=
  match ks with
  | [] => Some s
  | k :: ks' =>
      '(_, s') ← grci_eval_dff (upd_node (set_visited false) k s) (Some k) true;
      dff_pass ks' (clear_comb_visited s')
  end.

(** [dff_nodes[k]->as.dff.last_state = dff_nodes[k]->cached_state]. *)
Fixpoint commit_dffs (ks : list nat) (s : grci_simulator) : grci_simulator :=
  match ks with
  | [] => s
  | k :: ks' => commit_dffs ks' (upd_node (λ n, set_last_state (cached_state n) n) k s)
  end.

(** The output loop: [m->outputs[k] = grci_eval_node(module.outputs[k])]. *)
Fixpoint eval_outputs (ks : list nat) (mi : grci_module_instance)
    (outs : list bool) (s : grci_simulator) : option (list bool * grci_simulator) :=
  match ks with
  | [] => Some (outs, s)
  | k :: ks' =>
      p ← inst_outputs mi !! k;
      '(v, s1) ← grci_eval_node s p;
      eval_outputs ks' mi (<[k := v]> outs) s1
  end.

(** One round of the second "set submodule states" loop. *)
Definition snapshot_part_state (s : grci_simulator) (mi : grci_module_instance) (i : nat)
    (subs : list struct_grci_submodule) : option (list struct_grci_submodule) :=
  match part_name (desc mi) i with
  | None => Some subs
  | Some _ =>
      sub ← subs !! i;
      part ← parts (desc mi) !! i;
      '(dff_off, dff_len) ← dff_off_len mi !! i;
      if String.eqb (name part) "Ram64K" then
        r ← part_ram s dff_off;
        ram ← rams s !! r;
        Some (<[i := {| state_count := state_count sub;
                        states := snapshot_ram_states (ram_data ram) (states sub) |}]> subs)
      else
        sts ← for_each (seq 0 dff_len)
                 (λ j st,
                    k ← dff_nodes s !! (j + dff_off);
                    node ← nodes s !! k;
                    l ← last_state_of node;
                    Some (<[j := l]> st))
                 (states sub);
        Some (<[i := {| state_count := state_count sub; states := sts |}]> subs)
  end.

Definition snapshot_states (s : grci_simulator) (mi : grci_module_instance)
  : option (list struct_grci_submodule) :=
  for_each (seq 0 (part_count (desc mi))) (snapshot_part_state s mi) (submodules mi).

Definition with_submodules (mi : grci_module_instance) (subs : list struct_grci_submodule)
  : grci_module_instance :=
  {| desc := desc mi; sinks := sinks mi; inst_inputs := inst_inputs mi;
     inst_outputs := inst_outputs mi; submodules := subs; dff_off_len := dff_off_len mi |}.

(** [grci_step_module(m)]: the module after the step and the returned
    clock level. *)
Definition grci_step_module (m : grci_module) : option (grci_module * bool) :=
  let mi := m_module m in
  s1 ← publish_inputs m;
  s2 ← load_states mi s1;
  s3 ← toggle_clock s2;
  let s4 := clear_visited s3 in
  high ← clock_level s4;
  s5 ← (if (high : bool)
        then commit_dffs (dff_nodes s4) <$> dff_pass (dff_nodes s4) s4
        else Some s4);
  '(outs, s6) ← eval_outputs (seq 0 (output_count (desc mi))) mi (m_outputs m) s5;
  subs ← snapshot_states s6 mi;
  r ← clock_level s6;
  Some ({| m_inputs := m_inputs m; m_outputs := outs; m_sim := s6;
           m_module := with_submodules mi subs |}, r).

(** ** Elaboration: [grci_simulator_init], the node constructors,
    [grci_make_module] and [grci_init_module]

    Arena allocation is taken to succeed.  Memory that the C code leaves
    uninitialised after allocation (a DFF's [input], the slots of a RAM
    block, the RAM bytes, the client's [inputs] and [outputs] arrays) is
    modelled as NULL, 0 and [false]. *)

Definition push_node (n : grci_node) (s : grci_simulator) : nat * grci_simulator :=
  (length (nodes s), with_nodes s (nodes s ++ [n])).

Definition push_dff_ref (k : nat) (s : grci_simulator) : grci_simulator :=
  {| nodes := nodes s; dff_nodes := dff_nodes s ++ [k]; rams := rams s;
     const0 := const0 s; const1 := const1 s; clock := clock s |}.

Definition grci_constant_new (s : grci_simulator) (c : bool) : nat * grci_simulator :=
  push_node {| as_ := AsConstant c; visited := false; cached_state := c |} s.

Definition grci_nand_new (s : grci_simulator) (a b : ptr) : nat * grci_simulator :=
  push_node {| as_ := AsNand a b; visited := false; cached_state := false |} s.

Definition grci_dff_new (s : grci_simulator) : nat * grci_simulator :=
  let '(n, s1) :=
    push_node {| as_ := AsDff None false; visited := false; cached_state := false |} s in
  (n, push_dff_ref n s1).

Definition grci_ram64kout_new (s : grci_simulator) (ram : nat) : nat * grci_simulator :=
  let '(n, s1) :=
    push_node {| as_ := AsRam64KOut ram false; visited := false; cached_state := false |} s in
  (n, push_dff_ref n s1).

(** The loop [for i < 16: ram->outputs[i] = grci_ram64kout_new(sim, ram)]. *)
Fixpoint ram64k_new_outputs (n : nat) (ram : nat) (s : grci_simulator)
  : list nat * grci_simulator :=
  match n with
  | O => ([], s)
  | S n' =>
      let '(o, s1) := grci_ram64kout_new s ram in
      let '(os, s2) := ram64k_new_outputs n' ram s1 in
      (o :: os, s2)
  end.

(** The 65536 bytes a fresh RAM block starts with. *)
Definition ram64k_fresh_data : list Z := replicate (Z.to_nat 65536) 0%Z.

Definition grci_ram64k_new (s : grci_simulator) : nat * grci_simulator :=
  let r := length (rams s) in
  let '(outs, s1) := ram64k_new_outputs 16 r s in
  (r, with_rams s1
        (rams s1 ++ [ {| ram_inputs := replicate 16 None; ram_load := None;
                         ram_addrs := replicate 16 None;
                         ram_data := ram64k_fresh_data;
                         ram_outputs := outs |} ])).

(** [grci_simulator_init]: the arena starts with const0, const1 and the
    clock node, whose level is 1. *)
Definition grci_simulator_init : grci_simulator :=
  let s0 := {| nodes := []; dff_nodes := []; rams := [];
               const0 := 0; const1 := 0; clock := 0 |} in
  let '(c0, s1) := grci_constant_new s0 false in
  let '(c1, s2) := grci_constant_new s1 true in
  let '(ck, s3) := grci_constant_new s2 true in
  {| nodes := nodes s3; dff_nodes := dff_nodes s3; rams := rams s3;
     const0 := c0; const1 := c1; clock := ck |}.

Definition set_ram_inputs (l : list ptr) (r : grci_ram64k) : grci_ram64k :=
  {| ram_inputs := l; ram_load := ram_load r; ram_addrs := ram_addrs r;
     ram_data := ram_data r; ram_outputs := ram_outputs r |}.

Definition set_ram_load (p : ptr) (r : grci_ram64k) : grci_ram64k :=
  {| ram_inputs := ram_inputs r; ram_load := p; ram_addrs := ram_addrs r;
     ram_data := ram_data r; ram_outputs := ram_outputs r |}.

Definition set_ram_addrs (l : list ptr) (r : grci_ram64k) : grci_ram64k :=
  {| ram_inputs := ram_inputs r; ram_load := ram_load r; ram_addrs := l;
     ram_data := ram_data r; ram_outputs := ram_outputs r |}.

Definition set_slot_field (sl : slot) (obj : ptr) (n : grci_node) : grci_node :=
  match sl, as_ n with
  | SlotNandA _, AsNand _ b =>
      {| as_ := AsNand obj b; visited := visited n; cached_state := cached_state n |}
  | SlotNandB _, AsNand a _ =>
      {| as_ := AsNand a obj; visited := visited n; cached_state := cached_state n |}
  | SlotDffInput _, AsDff _ l =>
      {| as_ := AsDff obj l; visited := visited n; cached_state := cached_state n |}
  | _, _ => n
  end.

(** [*slot = obj]: the store through a [struct grci_node **]. *)
Definition write_slot (sl : slot) (obj : ptr) (s : grci_simulator) : grci_simulator :=
  match sl with
  | SlotNandA n | SlotNandB n | SlotDffInput n => upd_node (set_slot_field sl obj) n s
  | SlotRamInput r i =>
      with_rams s (alter (λ ram, set_ram_inputs (<[i := obj]> (ram_inputs ram)) ram) r (rams s))
  | SlotRamLoad r => with_rams s (alter (set_ram_load obj) r (rams s))
  | SlotRamAddr r i =>
      with_rams s (alter (λ ram, set_ram_addrs (<[i := obj]> (ram_addrs ram)) ram) r (rams s))
  end.

(** [struct grci_input_data]: a driver node (internal, constant, clock)
    or a reference to a sink set of the enclosing instance (external). *)
Inductive grci_input_data : Type :=
| InputObj (obj : ptr)
| InputSink (parameter_idx : nat).

(** [grci_set_module_inputs(api, inputs)]; [psinks] are the sink sets of
    the enclosing instance, which the external case appends to. *)
Definition grci_set_module_inputs (api : grci_module_instance)
    (inputs : list grci_input_data) (st : grci_simulator * list grc_input_sink)
  : option (grci_simulator * list grc_input_sink) :=
  for_each (seq 0 (input_count (desc api)))
    (λ i st1,
       input ← inputs !! i;
       cnt ← sink_counts (desc api) !! i;
       for_each (seq 0 cnt)
         (λ j '(s, psinks),
            sk ← sinks api !! i;
            sl ← ptps sk !! j;
            match input with
            | InputObj obj => sl' ← sl; Some (write_slot sl' obj s, psinks)
            | InputSink p =>
                psk ← psinks !! p;
                Some (s, <[p := {| ptps := <[count psk := sl]> (ptps psk);
                                   count := S (count psk) |}]> psinks)
            end)
         st1)
    st.

(** The sink sets allocated for every input bit of [d]. *)
Definition alloc_sinks (d : grci_module_desc) : list grc_input_sink :=
  (λ i, {| ptps := replicate (default 0 (sink_counts d !! i)) None; count := 0 |})
    <$> seq 0 (input_count d).

Definition set_sink0 (i : nat) (sl : slot) (sks : list grc_input_sink)
  : list grc_input_sink :=
  alter (λ sk, {| ptps := <[0 := Some sl]> (ptps sk); count := count sk |}) i sks.

(** The input list built from the connection list of one part. *)
Definition connection_input (s : grci_simulator) (apis : list grci_module_instance)
    (c : grci_connection) : grci_input_data :=
  match c with
  | extern_conn p => InputSink p
  | intern_conn pi oi => InputObj (api ← apis !! pi; mjoin (inst_outputs api !! oi))
  | const_conn b => InputObj (Some (if b then const1 s else const0 s))
  | clock_conn => InputObj (Some (clock s))
  end.

(** The driver of output bit [e]. *)
Definition output_driver (s : grci_simulator) (apis : list grci_module_instance)
    (e : grci_element) : ptr :=
  if (idx e =? GRCI_OUTPUT_0)%Z then Some (const0 s)
  else if (idx e =? GRCI_OUTPUT_1)%Z then Some (const1 s)
  else if (idx e <? 0)%Z then None
  else if (output_idx e <? 0)%Z then None
  else api ← apis !! Z.to_nat (idx e); mjoin (inst_outputs api !! Z.to_nat (output_idx e)).

(** The first loop of [grci_make_module]: instantiate every part with
    [mk] (the recursive call) and record the range of the DFF reference
    list that its subtree occupies. *)
Definition make_parts
    (mk : grci_module_desc → grci_simulator → option (grci_simulator * grci_module_instance))
  : list grci_module_desc → grci_simulator →
    option (grci_simulator * list grci_module_instance * list (nat * nat)) :=
  fix go (ps : list grci_module_desc) (s : grci_simulator) :=
    match ps with
    | [] => Some (s, [], [])
    | p :: ps' =>
        let off := length (dff_nodes s) in
        '(s1, api) ← mk p s;
        let len := length (dff_nodes s1) - off in
        '(s2, apis, ols) ← go ps' s1;
        Some (s2, api :: apis, (off, len) :: ols)
    end.

(** The wiring loop of [grci_make_module]: for every part, build its
    input list from the connection list and call
    [grci_set_module_inputs]. *)
Definition connect_parts (d : grci_module_desc) (apis : list grci_module_instance)
    (st : grci_simulator * list grc_input_sink)
  : option (grci_simulator * list grc_input_sink) :=
  for_each (seq 0 (part_count d))
    (λ part_idx st1,
       api ← apis !! part_idx;
       conns ← part_connections d !! part_idx;
       grci_set_module_inputs api (connection_input (fst st1) apis <$> conns) st1)
    st.

(** [grci_make_module(sim, api)] for [api->desc = d]. *)
Fixpoint grci_make_module (d : grci_module_desc) (s : grci_simulator)
  : option (grci_simulator * grci_module_instance) :=
  '(s1, apis, ols) ← make_parts grci_make_module (parts d) s;
  let sks := alloc_sinks d in
  let mk sks outs :=
    {| desc := d; sinks := sks; inst_inputs := []; inst_outputs := outs;
       submodules := []; dff_off_len := ols |} in
  if is_nand d then
    let '(n, s2) := grci_nand_new s1 None None in
    Some (s2, mk (set_sink0 1 (SlotNandB n) (set_sink0 0 (SlotNandA n) sks)) [Some n])
  else if is_dff d then
    let '(n, s2) := grci_dff_new s1 in
    Some (s2, mk (set_sink0 0 (SlotDffInput n) sks) [Some n])
  else if is_ram64K d then
    let '(r, s2) := grci_ram64k_new s1 in
    ram ← rams s2 !! r;
    let sks1 := foldl (λ acc i, set_sink0 i (SlotRamInput r i) acc) sks (seq 0 16) in
    let sks2 := set_sink0 16 (SlotRamLoad r) sks1 in
    let sks3 := foldl (λ acc i, set_sink0 i (SlotRamAddr r (i - 17)) acc) sks2 (seq 17 16) in
    Some (s2, mk sks3 (Some <$> ram_outputs ram))
  else
    '(s2, sks') ← connect_parts d apis (s1, sks);
    Some (s2, mk sks' (output_driver s2 apis <$> take (output_count d) (outputs d))).

(** ** The error buffer and the [grci_ensure] macros *)

Inductive grci_err_type : Type :=
| GRCI_ERR_COMP
| GRCI_ERR_SIM
| GRCI_ERR_MEM
| GRCI_ERR_INTERN.

Definition grci_status := bool.
Definition GRCI_OK : grci_status := true.
Definition GRCI_ERR : grci_status := false.

(** [grci_err_prefix(type, line)]: the new contents of [grci_err_buf] and
    the returned offset [strlen(grci_err_buf)]. *)
Definition grci_err_prefix (type : grci_err_type) (line : Z) : string * nat :=
  let buf :=
    match type with
    | GRCI_ERR_COMP => "GRCI compilation error [near line " +:+ pretty line +:+ "]: "
    | GRCI_ERR_SIM => "GRCI simulation error: "
    | GRCI_ERR_MEM => "GRCI memory allocation error: "
    | GRCI_ERR_INTERN => "GRCI internal error: "
    end in
  (buf, String.length buf).

(** The guarded write shared by both macros:
    [if (strlen(grci_err_buf) == 0) { off = grci_err_prefix(type, line);
    sprintf(grci_err_buf + off, fmt, ...); }] with [detail] the formatted
    text. *)
Definition grci_report (type : grci_err_type) (line : Z) (detail : string)
    (err_buf : string) : string :=
  if String.length err_buf =? 0 then
    let '(buf, off) := grci_err_prefix type line in
    String.substring 0 off buf +:+ detail
  else err_buf.

(** [grci_ensure(cond, type, line, fmt, ...)]: [None] when execution
    continues after the macro, [Some GRCI_ERR] when the macro returns. *)
Definition grci_ensure (cond : bool) (type : grci_err_type) (line : Z) (detail : string)
    (err_buf : string) : option grci_status * string :=
  if cond then (None, err_buf)
  else (Some GRCI_ERR, grci_report type line detail err_buf).

(** [grci_ensure_retnull(cond, type, line, fmt, ...)]: [true] when the
    macro returns NULL.  The [return NULL] sits inside the test on the
    buffer, so with a message already recorded execution continues. *)
Definition grci_ensure_retnull (cond : bool) (type : grci_err_type) (line : Z)
    (detail : string) (err_buf : string) : bool * string :=
  if cond then (false, err_buf)
  else if String.length err_buf =? 0 then (true, grci_report type line detail err_buf)
  else (false, err_buf).

(** [grci_err()]. *)
Definition grci_err (err_buf : string) : string := err_buf.

(** The store [grci_err_buf[0] = '\0'] at the end of [grci_init]. *)
Definition grci_init_reset (err_buf : string) : string := EmptyString.

(** ** The module table of the compiler *)

(** [struct grci_module_desc_list]: [count] is the length of [entries],
    the capacity is [GRCI_MAX_MODULES]. *)
Record grci_module_desc_list : Type := ModuleDescList {
  entries : list grci_module_desc
}.

Definition grci_module_desc_list_init : grci_module_desc_list :=
  {| entries := [] |}.

(** [grci_module_desc_list_append]; [None] is the failed
    [assert(list->count < GRCI_MAX_MODULES)]. *)
Definition grci_module_desc_list_append (list : grci_module_desc_list)
    (module_def : grci_module_desc) : option grci_module_desc_list :=
  if length (entries list) <? GRCI_MAX_MODULES
  then Some {| entries := entries list ++ [module_def] |}
  else None.

(** [grci_strings_equal]. *)
Definition grci_strings_equal (s1 s2 : string) : bool := String.eqb s1 s2.

(** [grci_string_matches(s, c, len)] with [c] of length [len]. *)
Definition grci_string_matches (s c : string) : bool := String.eqb s c.

(** [grci_module_desc_list_get]: the first entry whose name equals [s],
    or NULL. *)
Fixpoint module_desc_list_find (es : list grci_module_desc) (s : string)
  : option grci_module_desc :=
  match es with
  | [] => None
  | cur :: es' =>
      if grci_strings_equal (name cur) s then Some cur else module_desc_list_find es' s
  end.

Definition grci_module_desc_list_get (list : grci_module_desc_list) (s : string)
  : option grci_module_desc :=
  module_desc_list_find (entries list) s.

Definition nand_decl : grci_module_desc :=
  {| name := "Nand"; parts := []; part_names := []; part_connections := [];
     input_count := 2; input_param_count := 2;
     outputs := [output_part GRCI_OUTPUT_NONE GRCI_OUTPUT_NONE];
     output_count := 1; output_param_count := 1;
     input_widths := [1; 1]; output_widths := [1];
     is_nand := true; is_dff := false; is_ram64K := false;
     sink_counts := [1; 1]; node_count := 1; dff_count := 0 |}.

Definition dff_decl : grci_module_desc :=
  {| name := "Dff"; parts := []; part_names := []; part_connections := [];
     input_count := 1; input_param_count := 1;
     outputs := [output_part GRCI_OUTPUT_NONE GRCI_OUTPUT_NONE];
     output_count := 1; output_param_count := 1;
     input_widths := [1]; output_widths := [1];
     is_nand := false; is_dff := true; is_ram64K := false;
     sink_counts := [1]; node_count := 1; dff_count := 1 |}.

Definition ram64K_decl : grci_module_desc :=
  {| name := "Ram64K"; parts := []; part_names := []; part_connections := [];
     input_count := 33; input_param_count := 3;
     outputs := replicate 16 (output_part GRCI_OUTPUT_NONE GRCI_OUTPUT_NONE);
     output_count := 16; output_param_count := 1;
     input_widths := [16; 1; 16]; output_widths := [16];
     is_nand := false; is_dff := false; is_ram64K := true;
     sink_counts := replicate 33 1; node_count := 16; dff_count := 16 |}.

(** The part of [grci_compiler_init] that fills the module table. *)
Definition grci_compiler_init : option grci_module_desc_list :=
  l1 ← grci_module_desc_list_append grci_module_desc_list_init nand_decl;
  l2 ← grci_module_desc_list_append l1 dff_decl;
  grci_module_desc_list_append l2 ram64K_decl.

(** ** [grci_init_module] and [grci_submodule] *)

(** The loop creating one constant node per input bit. *)
Fixpoint new_input_nodes (n : nat) (s : grci_simulator) : list nat * grci_simulator :=
  match n with
  | O => ([], s)
  | S n' =>
      let '(k, s1) := grci_constant_new s false in
      let '(ks, s2) := new_input_nodes n' s1 in
      (k :: ks, s2)
  end.

(** The state buffers allocated (zeroed) for every part. *)
Definition init_submodules (decl : grci_module_desc) (ols : list (nat * nat))
  : list struct_grci_submodule :=
  (λ i,
     let len := default 0 (snd <$> ols !! i) in
     let is_ram :=
       default false ((λ p, grci_string_matches (name p) "Ram64K") <$> parts decl !! i) in
     let cnt := if is_ram then GRCI_RAM64K_STATE_COUNT else len in
     {| state_count := cnt; states := replicate cnt false |})
    <$> seq 0 (part_count decl).

(** [grci_init_module(g, module_name, len)]; [None] is the failed
    [assert(decl)] or a NULL slot dereferenced while wiring. *)
Definition grci_init_module (module_defs : grci_module_desc_list) (module_name : string)
  : option grci_module :=
  decl ← grci_module_desc_list_get module_defs module_name;
  '(s1, mi) ← grci_make_module decl grci_simulator_init;
  let '(ins, s2) := new_input_nodes (input_count decl) s1 in
  '(s3, _) ← grci_set_module_inputs mi (InputObj <$> (Some <$> ins)) (s2, []);
  Some {| m_inputs := replicate (input_count decl) false;
          m_outputs := replicate (output_count decl) false;
          m_sim := s3;
          m_module :=
            {| desc := decl; sinks := sinks mi; inst_inputs := Some <$> ins;
               inst_outputs := inst_outputs mi;
               submodules := init_submodules decl (dff_off_len mi);
               dff_off_len := dff_off_len mi |} |}.

(** The search loop of [grci_submodule]: the index of the first named
    part whose name matches. *)
Fixpoint find_submodule (names : list (option string)) (i : nat) (submodule_name : string)
  : option nat :=
  match names with
  | [] => None
  | None :: names' => find_submodule names' (S i) submodule_name
  | Some nm :: names' =>
      if grci_string_matches nm submodule_name then Some i
      else find_submodule names' (S i) submodule_name
  end.

(** [grci_submodule(m, submodule_name, len)]: the returned pointer, as
    the index of the entry of [submodules] it points to, and the error
    buffer afterwards. *)
Definition grci_submodule (m : grci_module) (submodule_name : string) (err_buf : string)
  : option nat * string :=
  let d := desc (m_module m) in
  match find_submodule (take (part_count d) (part_names d)) 0 submodule_name with
  | Some i => (Some i, err_buf)
  | None =>
      let '(_, err_buf') :=
        grci_ensure_retnull false GRCI_ERR_SIM 0
          ("submodule " +:+ submodule_name +:+ " does not exist") err_buf in
      (None, err_buf')
  end.

(** ** The counting skeleton of [grci_compile_part_list]

    The loop over the items of a module body, reduced to what it does
    with the two counters.  After its peek the loop takes an item for a
    part instance or for a wire.  At the top of every round it checks
    [symbols->parts.count < GRCI_MAX_PARTS] with [grci_ensure]; a part
    then takes index [parts.count++], a wire index [wires.count++] and is
    stored into [symbols->wires.inputs[wire_idx]], an array of
    [GRCI_MAX_WIRES] entries, with no check on the index.  The syntax
    checks inside a round are left out: the items are taken as well
    formed. *)
Inductive body_item : Type := ItemPart | ItemWire.

Inductive part_list_outcome : Type :=
| PartListOk (parts_count wires_count : nat) (err_buf : string)
| PartListErr (err_buf : string)
| PartListOutOfBounds (wire_idx : nat) (err_buf : string).

Fixpoint grci_compile_part_list (items : list body_item) (parts_count wires_count : nat)
    (line : Z) (err_buf : string) : part_list_outcome :=
  match items with
  | [] => PartListOk parts_count wires_count err_buf
  | item :: items' =>
      match grci_ensure (parts_count <? GRCI_MAX_PARTS) GRCI_ERR_COMP line
              ("Internal parts exceeding GRCI_MAX_PARTS " +:+ pretty (Z.of_nat GRCI_MAX_PARTS))
              err_buf with
      | (Some _, err_buf') => PartListErr err_buf'
      | (None, err_buf') =>
          match item with
          | ItemPart =>
              grci_compile_part_list items' (S parts_count) wires_count line err_buf'
          | ItemWire =>
              if wires_count <? GRCI_MAX_WIRES
              then grci_compile_part_list items' parts_count (S wires_count) line err_buf'
              else PartListOutOfBounds wires_count err_buf'
          end
      end
  end.

(** * Part II: what an evaluation leaves unchanged *)

(** ** Skeleton of a netlist

    The skeleton of a node keeps its tag and pointers and forgets the
    stored bits.  Well-formedness of the pointer structure only depends on
    the skeleton, which no simulation step changes. *)

Definition skel_as (a : node_as) : node_as :=
  match a with
  | AsConstant _ => AsConstant false
  | AsNand a b => AsNand a b
  | AsDff i _ => AsDff i false
  | AsRam64KOut r _ => AsRam64KOut r false
  end.

Definition node_ass (s : grci_simulator) : list node_as := as_ <$> nodes s.
Definition node_skels (s : grci_simulator) : list node_as := skel_as <$> node_ass s.
Definition ram_shapes (s : grci_simulator) : list grci_ram64k := with_data [] <$> rams s.

Definition vis (s : grci_simulator) (i : nat) : bool :=
  default false (visited <$> nodes s !! i).
Definition cch (s : grci_simulator) (i : nat) : bool :=
  default false (cached_state <$> nodes s !! i).

Definition is_dff_as (a : node_as) : bool :=
  match a with AsDff _ _ => true | _ => false end.
Definition is_ram64kout_as (a : node_as) : bool :=
  match a with AsRam64KOut _ _ => true | _ => false end.

Definition dff_at (s : grci_simulator) (i : nat) : bool :=
  default false (is_dff_as <$> node_ass s !! i).

(** The number of nodes not yet visited: the termination measure of the
    evaluators. *)
Fixpoint unvisited_count (l : list grci_node) : nat :=
  match l with
  | [] => 0
  | n :: l' => (if visited n then 0 else 1) + unvisited_count l'
  end.

Definition unvisited (s : grci_simulator) : nat := unvisited_count (nodes s).

Definition ptr_ok (nn : nat) (p : ptr) : Prop :=
  match p with Some i => i < nn | None => False end.

Definition node_ok (nn nr : nat) (a : node_as) : Prop :=
  match a with
  | AsConstant _ => True
  | AsNand a b => ptr_ok nn a ∧ ptr_ok nn b
  | AsDff i _ => ptr_ok nn i
  | AsRam64KOut r _ => r < nr
  end.

Definition ram_out_ok (sk : list node_as) (o : nat) : Prop :=
  default false (is_ram64kout_as <$> sk !! o) = true.

Definition ram_ok (sk : list node_as) (r : grci_ram64k) : Prop :=
  length (ram_inputs r) = 16 ∧ Forall (ptr_ok (length sk)) (ram_inputs r) ∧
  ptr_ok (length sk) (ram_load r) ∧
  length (ram_addrs r) = 16 ∧ Forall (ptr_ok (length sk)) (ram_addrs r) ∧
  Forall (ram_out_ok sk) (ram_outputs r).

(** Every pointer of the netlist is set and in range, and the output list
    of a RAM block refers to RAM-OUT nodes. *)
Definition sim_ok (s : grci_simulator) : Prop :=
  Forall (node_ok (length (node_skels s)) (length (ram_shapes s))) (node_skels s) ∧
  Forall (ram_ok (node_skels s)) (ram_shapes s).

(** Same skeleton: what every phase of a step preserves. *)
Record same_skel (s s' : grci_simulator) : Prop := SameSkel {
  sk_nodes : node_skels s' = node_skels s;
  sk_rams : ram_shapes s' = ram_shapes s;
  sk_dffs : dff_nodes s' = dff_nodes s;
  sk_const0 : const0 s' = const0 s;
  sk_const1 : const1 s' = const1 s;
  sk_clock : clock s' = clock s
}.

(** What a call of an evaluator preserves: the [as] part of every node
    (so every [last_state] and every constant), visited marks once set,
    and the cached bit of every DFF other than the root [ex]. *)
Record eval_frame (ex : option nat) (s s' : grci_simulator) : Prop := EvalFrame {
  ef_as : node_ass s' = node_ass s;
  ef_rams : ram_shapes s' = ram_shapes s;
  ef_dffs : dff_nodes s' = dff_nodes s;
  ef_const0 : const0 s' = const0 s;
  ef_const1 : const1 s' = const1 s;
  ef_clock : clock s' = clock s;
  ef_vis : ∀ i, vis s i = true → vis s' i = true;
  ef_cch : ∀ i, dff_at s i = true → Some i ≠ ex → cch s' i = cch s i;
  ef_unvisited : unvisited s' ≤ unvisited s
}.

(** The specification of an evaluator call that the loops rely on. *)
Definition ev_total (F : nat)
    (ev : grci_simulator → ptr → option (bool * grci_simulator)) : Prop :=
  ∀ s p, sim_ok s → ptr_ok (length (node_skels s)) p → unvisited s < F →
    ∃ v s', ev s p = Some (v, s') ∧ eval_frame None s s'.

(** * Part III: the phases of a step *)

(** The [last_state] stored at node [i], if it has one, and the constant
    stored at node [i], if it is a constant node. *)
Definition last_state_as (a : node_as) : option bool :=
  match a with
  | AsDff _ l => Some l
  | AsRam64KOut _ l => Some l
  | _ => None
  end.

Definition const_as (a : node_as) : option bool :=
  match a with AsConstant c => Some c | _ => None end.

Definition lst (s : grci_simulator) (i : nat) : option bool :=
  node_ass s !! i ≫= last_state_as.

Definition const_at (s : grci_simulator) (i : nat) : option bool :=
  node_ass s !! i ≫= const_as.

(** A phase that only writes nodes in [K] and keeps the skeleton. *)
Record upd_frame (K : nat → Prop) (s s' : grci_simulator) : Prop := UpdFrame {
  uf_skel : same_skel s s';
  uf_off : ∀ i, ¬ K i → nodes s' !! i = nodes s !! i
}.

(** ** Well-formed module instances *)

(** The state table of part [i] is usable by the two "set submodule
    states" loops: a named RAM64K part starts at a RAM-OUT reference, any
    other named part has its DFF range inside the reference list and a
    buffer that covers it. *)
Definition part_ok (s : grci_simulator) (mi : grci_module_instance) (i : nat) : Prop :=
  match part_name (desc mi) i with
  | None => True
  | Some _ =>
      ∃ sub part off len,
        submodules mi !! i = Some sub ∧ parts (desc mi) !! i = Some part ∧
        dff_off_len mi !! i = Some (off, len) ∧
        if String.eqb (name part) "Ram64K" then is_Some (part_ram s off)
        else off + len ≤ length (dff_nodes s) ∧ len ≤ length (states sub)
  end.

(** What elaboration establishes for a module whose description has every
    input and output connected; the hypotheses of the simulator theorems. *)
Record module_ok (m : grci_module) : Prop := ModuleOk {
  mo_sim : sim_ok (m_sim m);
  mo_clock : is_Some (clock_level (m_sim m));
  mo_dffs : Forall (λ k, is_Some (lst (m_sim m) k)) (dff_nodes (m_sim m));
  mo_nodup : NoDup (dff_nodes (m_sim m));
  mo_inputs :
    Forall (λ i, ∃ k, inst_inputs (m_module m) !! i = Some (Some k) ∧
                      k ≠ clock (m_sim m) ∧ is_Some (m_inputs m !! i))
           (seq 0 (input_count (desc (m_module m))));
  mo_outputs :
    Forall (λ k, ∃ p, inst_outputs (m_module m) !! k = Some p ∧
                      ptr_ok (length (node_skels (m_sim m))) p)
           (seq 0 (output_count (desc (m_module m))));
  mo_parts :
    Forall (part_ok (m_sim m) (m_module m)) (seq 0 (part_count (desc (m_module m))))
}.

(** Every DFF holds the same bit in [cached_state] and [last_state]: true
    after elaboration and after every step. *)
Definition dff_sync (s : grci_simulator) : Prop :=
  ∀ i, dff_at s i = true → Some (cch s i) = lst s i.

(** ** What a client does between two steps *)

(** [grci_set_input(m, idx, value)]. *)
Definition grci_set_input (m : grci_module) (idx : nat) (value : bool) : grci_module :=
  {| m_inputs := <[idx := value]> (m_inputs m); m_outputs := m_outputs m;
     m_sim := m_sim m; m_module := m_module m |}.

(** [sub->states[j] = value] through the pointer to entry [i] of the
    submodule table that [grci_submodule] returned. *)
Definition set_state (m : grci_module) (i j : nat) (value : bool) : grci_module :=
  {| m_inputs := m_inputs m; m_outputs := m_outputs m; m_sim := m_sim m;
     m_module :=
       with_submodules (m_module m)
         (alter (λ sub, {| state_count := state_count sub;
                           states := <[j := value]> (states sub) |})
                i (submodules (m_module m))) |}.

Inductive client_write : Type :=
| SetInput (idx : nat) (value : bool)
| SetState (i j : nat) (value : bool).

Definition apply_write (m : grci_module) (w : client_write) : grci_module :=
  match w with
  | SetInput idx v => grci_set_input m idx v
  | SetState i j v => set_state m i j v
  end.

(** A run: before each step the client performs a list of writes; the
    result is the final module and the clock levels the steps returned. *)
Fixpoint run_steps (m : grci_module) (ws : list (list client_write))
  : option (grci_module * list bool) :=
  match ws with
  | [] => Some (m, [])
  | w :: ws' =>
      '(m1, r) ← grci_step_module (foldl apply_write m w);
      '(m2, rs) ← run_steps m1 ws';
      Some (m2, r :: rs)
  end.

(** The state a step evaluates from: inputs published, submodule state
    loaded, clock toggled, visited marks cleared. *)
Definition pre_pass (m : grci_module) : option grci_simulator :=
  s1 ← publish_inputs m;
  s2 ← load_states (m_module m) s1;
  s3 ← toggle_clock s2;
  Some (clear_visited s3).

(** The buffers of the named non-RAM parts hold the [last_state] of the
    DFFs they cover, as after the snapshot at the end of a step. *)
Definition buffers_agree (m : grci_module) : Prop :=
  ∀ i sub part off len j k,
    i < part_count (desc (m_module m)) →
    is_Some (part_name (desc (m_module m)) i) →
    submodules (m_module m) !! i = Some sub →
    parts (desc (m_module m)) !! i = Some part →
    String.eqb (name part) "Ram64K" = false →
    dff_off_len (m_module m) !! i = Some (off, len) →
    j < len → dff_nodes (m_sim m) !! (j + off) = Some k →
    lst (m_sim m) k = states sub !! j.

(** What the rising-edge pass preserves: as [eval_frame], without the
    visited marks. *)
Record as_frame (s s' : grci_simulator) : Prop := AsFrame {
  af_as : node_ass s' = node_ass s;
  af_rams : ram_shapes s' = ram_shapes s;
  af_dffs : dff_nodes s' = dff_nodes s;
  af_const0 : const0 s' = const0 s;
  af_const1 : const1 s' = const1 s;
  af_clock : clock s' = clock s
}.

(** The state buffers keep their sizes. *)
Definition same_sizes (subs subs' : list struct_grci_submodule) : Prop :=
  Forall2 (λ a b, length (states b) = length (states a)) subs subs'.

(** The result of a step spelled out phase by phase. *)
Record step_trace (m : grci_module) (c : bool) (s1 s2 s3 s5 s6 : grci_simulator)
    (m' : grci_module) : Prop := StepTrace {
  st_publish : publish_inputs m = Some s1;
  st_load : load_states (m_module m) s1 = Some s2;
  st_toggle : toggle_clock s2 = Some s3;
  st_pre : pre_pass m = Some (clear_visited s3);
  st_level : clock_level (clear_visited s3) = Some (negb c);
  st_pass :
    (if negb c
     then commit_dffs (dff_nodes (clear_visited s3))
            <$> dff_pass (dff_nodes (clear_visited s3)) (clear_visited s3)
     else Some (clear_visited s3)) = Some s5;
  st_step : grci_step_module m = Some (m', negb c);
  st_sim : m_sim m' = s6;
  st_f1 : upd_frame (λ k, k ≠ clock (m_sim m) ∧ is_Some (const_at (m_sim m) k)) (m_sim m) s1;
  st_r1 : rams s1 = rams (m_sim m);
  st_f2 : upd_frame (λ k, k ∈ dff_nodes s1) s1 s2;
  st_f3 : upd_frame (λ k, k = clock s2) s2 s3;
  st_r3 : rams s3 = rams s2;
  st_f5 : same_skel (clear_visited s3) s5;
  st_f6 : eval_frame None s5 s6;
  st_inputs : m_inputs m' = m_inputs m;
  st_out_len : length (m_outputs m') = length (m_outputs m);
  st_sizes : same_sizes (submodules (m_module m)) (submodules (m_module m'));
  st_mi : m_module m' = with_submodules (m_module m) (submodules (m_module m'));
  st_level' : clock_level s6 = Some (negb c);
  st_skel : same_skel (m_sim m) s6
}.

(** ** Elaboration

    The size of a description tree, for induction over [grci_make_module]. *)
Fixpoint desc_size (d : grci_module_desc) : nat :=
  S (foldr (λ p acc, desc_size p + acc) 0 (parts d)).

(** What elaboration never does: overwrite a constant node, or move the
    three shared nodes. *)
Definition elab_frame (s s' : grci_simulator) : Prop :=
  clock s' = clock s ∧ const0 s' = const0 s ∧ const1 s' = const1 s ∧
  ∀ i, is_Some (const_at s i) → nodes s' !! i = nodes s !! i.

(** ** The reference evaluation of a combinational network

    [net_value h A p] evaluates the network that drives [p] over the [as]
    parts [A] of the nodes: a constant gives its bit, a NAND the negated
    conjunction of its two inputs, and every DFF reached gives the
    [last_state] recorded in [A]; nothing is memoised.  [h] bounds the
    depth of the network; RAM-OUT nodes are not combinational and have no
    value. *)
Fixpoint net_value (h : nat) (A : list node_as) (p : ptr) : option bool :=
  match h with
  | O => None
  | S h' =>
      i ← p;
      a ← A !! i;
      match a with
      | AsConstant c => Some c
      | AsNand x y =>
          vx ← net_value h' A x;
          vy ← net_value h' A y;
          Some (negb (vx && vy))
      | AsDff _ last => Some last
      | AsRam64KOut _ _ => None
      end
  end.

(** Memoisation is sound: a visited combinational node outside the nodes
    [P] under evaluation caches its reference value. *)
Definition memo_ok (P : list nat) (s : grci_simulator) : Prop :=
  ∀ i h v, vis s i = true → dff_at s i = false → i ∉ P →
           net_value h (node_ass s) (Some i) = Some v → cch s i = v.

(** A DFF not yet visited still caches its [last_state]. *)
Definition dff_fresh (s : grci_simulator) : Prop :=
  ∀ i, dff_at s i = true → vis s i = false → Some (cch s i) = lst s i.

(** The states a client can reach from [m0]: writes into the inputs and
    the state buffers, and steps. *)
Inductive reachable (m0 : grci_module) : grci_module → Prop :=
| reach_init : reachable m0 m0
| reach_write m w : reachable m0 m → reachable m0 (apply_write m w)
| reach_step m m' r :
    reachable m0 m → grci_step_module m = Some (m', r) → reachable m0 m'.

(** The invariant of the rising-edge loop, between two rounds: [s0] is
    the state the pass started from and [rooted] the DFF references
    already evaluated. *)
Record pass_inv (s0 : grci_simulator) (rooted : list nat) (s : grci_simulator)
  : Prop := PassInv {
  pi_as : as_frame s0 s;
  pi_unrooted : ∀ i, dff_at s0 i = true → i ∉ rooted → Some (cch s i) = lst s0 i;
  pi_comb : ∀ i, dff_at s0 i = false → vis s i = false;
  pi_rooted_vis : ∀ i, i ∈ rooted → dff_at s0 i = true → vis s i = true;
  pi_rooted_val :
    ∀ i inp l h v, i ∈ rooted → node_ass s0 !! i = Some (AsDff inp l) →
                   net_value h (node_ass s0) inp = Some v → cch s i = v
}.

(** The nodes the constructors create: a fresh DFF caches its
    [last_state]. *)
Definition new_node (n : grci_node) : Prop :=
  match as_ n with
  | AsDff _ l => cached_state n = l
  | _ => True
  end.

(** The module with the state buffer of part [i] replaced. *)
Definition put_states (m : grci_module) (i : nat) (l : list bool) : grci_module :=
  {| m_inputs := m_inputs m; m_outputs := m_outputs m; m_sim := m_sim m;
     m_module :=
       with_submodules (m_module m)
         (alter (λ sub, {| state_count := state_count sub; states := l |})
                i (submodules (m_module m))) |}.

(** Restoring a state buffer: [sub->states[j] = vs[j]] for every [j]. *)
Definition restore_states (m : grci_module) (i : nat) (vs : list bool) : grci_module :=
  foldl apply_write m (imap (λ j v, SetState i j v) vs).

(** Writing an input vector: [m->inputs[idx] = vs[idx]] for every [idx]. *)
Definition set_inputs (m : grci_module) (vs : list bool) : grci_module :=
  foldl apply_write m (imap (λ idx v, SetInput idx v) vs).

(** The byte the packing loop builds from the eight buffer entries
    [8 * j .. 8 * j + 7]. *)
Definition pack_byte (sts : list bool) (j : nat) : Z :=
  foldl (λ c b, Z.lor c (Z.shiftl (Z.b2z (default false (sts !! (8 * j + b)))) (Z.of_nat b)))
        0%Z (seq 0 8).

(** The module table after the compiler has registered the modules
    [defs], in order, as [grci_compiler_compile_module] does at its end. *)
Fixpoint register_modules (defs : grci_module_desc_list) (ds : list grci_module_desc)
  : option grci_module_desc_list :=
  match ds with
  | [] => Some defs
  | d :: ds' => l ← grci_module_desc_list_append defs d; register_modules l ds'
  end.

(** One use of an error macro: which macro, the value of its condition,
    and the message arguments. *)
Inductive ensure_macro : Type := MacroEnsure | MacroEnsureRetnull.

Record ensure_call : Type := EnsureCall {
  ec_macro : ensure_macro;
  ec_cond : bool;
  ec_type : grci_err_type;
  ec_line : Z;
  ec_detail : string
}.

(** The error buffer after one use of a macro. *)
Definition run_ensure_call (c : ensure_call) (err_buf : string) : string :=
  match ec_macro c with
  | MacroEnsure =>
      (grci_ensure (ec_cond c) (ec_type c) (ec_line c) (ec_detail c) err_buf).2
  | MacroEnsureRetnull =>
      (grci_ensure_retnull (ec_cond c) (ec_type c) (ec_line c) (ec_detail c) err_buf).2
  end.

(** The error buffer after the macro uses of a sequence of API calls. *)
Definition run_ensure_calls (cs : list ensure_call) (err_buf : string) : string :=
  foldl (λ buf c, run_ensure_call c buf) err_buf cs.

(** The message a failing use writes into an empty buffer. *)
Definition ensure_message (c : ensure_call) : string :=
  (grci_err_prefix (ec_type c) (ec_line c)).1 +:+ ec_detail c.


(** * Part IV-b: further definitions *)

(** The network behind [p] is made of constants, NANDs and DFFs and has
    no combinational loop: the reference evaluation gives it a value. *)
Definition comb_defined (s : grci_simulator) (p : ptr) : Prop :=
  ∃ h, is_Some (net_value h (node_ass s) p).

(** ** Links between the tables of the simulator

    Every node with a [last_state], a DFF or a RAM-OUT node, is on the
    DFF reference list, and the output list of RAM block [r] refers to
    RAM-OUT nodes that point back to [r]. *)
Definition dff_listed (s : grci_simulator) : Prop :=
  ∀ k, is_Some (lst s k) → k ∈ dff_nodes s.

Definition ram_backlinks (s : grci_simulator) : Prop :=
  ∀ r ram o, rams s !! r = Some ram → o ∈ ram_outputs ram →
    ∃ l, node_ass s !! o = Some (AsRam64KOut r l).

Definition links_ok (s : grci_simulator) : Prop := dff_listed s ∧ ram_backlinks s.

(** ** The reference evaluation of a network on a rising edge

    [edge_value h A R p] extends [net_value] to RAM-OUT nodes.  [A] holds
    the [as] parts of the nodes and [R] the RAM blocks of the state the
    rising-edge pass starts from.  A constant gives its bit, a NAND the
    negated conjunction of its inputs and a DFF the [last_state] recorded
    in [A].  A RAM-OUT node of block [r] gives a bit of the 16-bit word
    that [r] holds at its address once the store of this edge is done:
    the load, data and address inputs of [r] are evaluated in the same
    way, the two data bytes are stored at the address when load is high,
    and the word at the address is read.  [h] bounds the depth. *)

(** The data bytes and the address that the sixteen rounds of the RAM-OUT
    case assemble, from the value [ev] of each input slot. *)
Fixpoint ram_scan_value (ev : ptr → option bool) (ram : grci_ram64k) (idx : list nat)
    (acc : Z * Z * Z) : option (Z * Z * Z) :=
  match idx with
  | [] => Some acc
  | i :: idx' =>
      let '(input1, input2, addr) := acc in
      pin ← ram_inputs ram !! i;
      vi ← ev pin;
      pad ← ram_addrs ram !! i;
      va ← ev pad;
      let input1' :=
        if i <? 8 then Z.lor input1 (Z.shiftl (Z.b2z vi) (Z.of_nat i)) else input1 in
      let input2' :=
        if i <? 8 then input2 else Z.lor input2 (Z.shiftl (Z.b2z vi) (Z.of_nat (i - 8))) in
      let addr' := Z.lor addr (Z.shiftl (Z.b2z va) (Z.of_nat i)) in
      ram_scan_value ev ram idx' (input1', input2', addr')
  end.

(** The bytes of a RAM block after the store of this edge, and the
    address it reads. *)
Definition ram_edge (ev : ptr → option bool) (ram : grci_ram64k) : option (list Z * Z) :=
  ld ← ev (ram_load ram);
  '(input1, input2, addr) ← ram_scan_value ev ram ram_bits (0, 0, 0)%Z;
  Some (if (ld : bool)
        then data_set (data_set (ram_data ram) addr input1) (addr + 1)%Z input2
        else ram_data ram,
        addr).

(** The bit that [publish_ram_outputs outs k output] leaves in the cache
    of node [i]: bit [k + j] of [output] for the last [j] with
    [outs !! j = Some i]. *)
Fixpoint published_bit (outs : list nat) (k : nat) (output : Z) (i : nat) : option bool :=
  match outs with
  | [] => None
  | o :: outs' =>
      match published_bit outs' (S k) output i with
      | Some b => Some b
      | None => if decide (o = i) then Some (Z.testbit output (Z.of_nat k)) else None
      end
  end.

Fixpoint edge_value (h : nat) (A : list node_as) (R : list grci_ram64k) (p : ptr)
  : option bool :=
  match h with
  | O => None
  | S h' =>
      i ← p;
      a ← A !! i;
      match a with
      | AsConstant c => Some c
      | AsNand x y =>
          vx ← edge_value h' A R x;
          vy ← edge_value h' A R y;
          Some (negb (vx && vy))
      | AsDff _ last => Some last
      | AsRam64KOut r _ =>
          ram ← R !! r;
          '(d, addr) ← ram_edge (λ q, edge_value h' A R q) ram;
          published_bit (ram_outputs ram) 0 (data_word d addr) i
      end
  end.

(** Memoisation is sound for [edge_value]: a visited node that is not a
    DFF and not under evaluation caches its reference value. *)
Definition edge_memo_ok (A : list node_as) (R : list grci_ram64k) (P : list nat)
    (s : grci_simulator) : Prop :=
  ∀ i h v, vis s i = true → dff_at s i = false → i ∉ P →
           edge_value h A R (Some i) = Some v → cch s i = v.

(** The RAM blocks keep their slots, and a block whose inputs have a
    reference value holds the bytes of [R] or those after its store. *)
Definition stores_ok (A : list node_as) (R : list grci_ram64k) (s : grci_simulator)
  : Prop :=
  ram_shapes s = with_data [] <$> R ∧
  ∀ r ram0 ram h d addr,
    R !! r = Some ram0 → rams s !! r = Some ram →
    ram_edge (λ q, edge_value h A R q) ram0 = Some (d, addr) →
    ram_data ram = ram_data ram0 ∨ ram_data ram = d.

(** The nodes [P] under evaluation lie above [p]: when one of them has a
    reference value, [p] has one at a smaller depth. *)
Definition edge_chain (A : list node_as) (R : list grci_ram64k) (P : list nat) (p : ptr)
  : Prop :=
  ∀ j h, j ∈ P → is_Some (edge_value h A R (Some j)) →
         ∃ h', h' < h ∧ is_Some (edge_value h' A R p).

(** What an evaluation during the rising-edge pass maintains. *)
Record edge_state (A : list node_as) (R : list grci_ram64k) (P : list nat)
    (s : grci_simulator) : Prop := EdgeState {
  es_as : node_ass s = A;
  es_ok : sim_ok s;
  es_links : ram_backlinks s;
  es_memo : edge_memo_ok A R P s;
  es_fresh : dff_fresh s;
  es_stores : stores_ok A R s
}.

(** The invariant of the rising-edge loop for [edge_value]. *)
Record edge_pass_inv (s0 : grci_simulator) (rooted : list nat) (s : grci_simulator)
  : Prop := EdgePassInv {
  ep_as : as_frame s0 s;
  ep_unrooted : ∀ i, dff_at s0 i = true → i ∉ rooted → Some (cch s i) = lst s0 i;
  ep_comb : ∀ i, dff_at s0 i = false → vis s i = false;
  ep_rooted_vis : ∀ i, i ∈ rooted → dff_at s0 i = true → vis s i = true;
  ep_rooted_val :
    ∀ i inp l h v, i ∈ rooted → node_ass s0 !! i = Some (AsDff inp l) →
                   edge_value h (node_ass s0) (rams s0) inp = Some v → cch s i = v;
  ep_stores : stores_ok (node_ass s0) (rams s0) s
}.

(** Part [i] of the instance is a named RAM64K part, and the RAM-OUT
    node its DFF range starts at belongs to RAM block [r]: the block the
    two "set submodule states" loops load and snapshot for part [i]. *)
Definition ram_part (mi : grci_module_instance) (s : grci_simulator) (i r : nat) : Prop :=
  ∃ part off len,
    is_Some (part_name (desc mi) i) ∧ parts (desc mi) !! i = Some part ∧
    String.eqb (name part) "Ram64K" = true ∧
    dff_off_len mi !! i = Some (off, len) ∧ part_ram s off = Some r.

(** ** Restoring the state of a part

    [forget_state] drops the two stored bits of a node; [part_dffs] are
    the nodes that the "set submodule states" loops touch for a part with
    DFF range [(off, len)]; [same_but_states ks s s'] says that [s'] is
    [s] except for the [last_state] and [cached_state] of the nodes
    [ks], which may hold anything. *)
Definition forget_state (n : grci_node) : grci_node :=
  set_cached false (set_last_state false n).

Definition part_dffs (s : grci_simulator) (off len : nat) : list nat :=
  omap (λ j, dff_nodes s !! (j + off)) (seq 0 len).

Definition same_but_states (ks : list nat) (s s' : grci_simulator) : Prop :=
  dff_nodes s' = dff_nodes s ∧ rams s' = rams s ∧ const0 s' = const0 s ∧
  const1 s' = const1 s ∧ clock s' = clock s ∧ length (nodes s') = length (nodes s) ∧
  ∀ k, forget_state <$> nodes s' !! k = forget_state <$> nodes s !! k ∧
       (k ∉ ks → nodes s' !! k = nodes s !! k).

(** The module with another simulator state. *)
Definition with_sim (m : grci_module) (s : grci_simulator) : grci_module :=
  {| m_inputs := m_inputs m; m_outputs := m_outputs m; m_sim := s;
     m_module := m_module m |}.

(** Two runs of a loop, from states that agree where [P] holds and have
    the DFF list [D]. *)
Definition agree_on (D : list nat) (P : nat → Prop) (sa sb : grci_simulator) : Prop :=
  dff_nodes sa = D ∧ dff_nodes sb = D ∧ rams sb = rams sa ∧ const0 sb = const0 sa ∧
  const1 sb = const1 sa ∧ clock sb = clock sa ∧ length (nodes sb) = length (nodes sa) ∧
  ∀ k, forget_state <$> nodes sb !! k = forget_state <$> nodes sa !! k ∧
       (P k → nodes sb !! k = nodes sa !! k).

Definition opt_rel {A : Type} (Rel : A → A → Prop) (x y : option A) : Prop :=
  match x, y with
  | Some a, Some b => Rel a b
  | None, None => True
  | _, _ => False
  end.

(** ** The evaluation as the specification words it

    The specification counts the RAM-OUT nodes among the DFFs and lets
    every DFF that the evaluation of an input network reaches contribute
    its previous [last_state].  [spec_net_value] is that reading, to be
    compared with [edge_value], which follows [grci_eval_dff]. *)
Fixpoint spec_net_value (h : nat) (A : list node_as) (p : ptr) : option bool :=
  match h with
  | O => None
  | S h' =>
      i ← p;
      a ← A !! i;
      match a with
      | AsConstant c => Some c
      | AsNand x y =>
          vx ← spec_net_value h' A x;
          vy ← spec_net_value h' A y;
          Some (negb (vx && vy))
      | AsDff _ last => Some last
      | AsRam64KOut _ last => Some last
      end
  end.

(** ** What elaboration only adds to

    [ram_grows s s']: the node array, the DFF list and the RAM blocks of
    [s'] extend those of [s]; a RAM-OUT node of [s] keeps its block, and
    the nodes that are RAM-OUT nodes in [s'] were so in [s] or are new;
    a new RAM-OUT node belongs to a new block, and a new entry of the
    DFF list refers to a new node.  [stores_sized s]: every RAM block has
    its 65536 bytes. *)
Record ram_grows (s s' : grci_simulator) : Prop := RamGrows {
  rg_dffs : ∃ ks, dff_nodes s' = dff_nodes s ++ ks;
  rg_rams : length (rams s) ≤ length (rams s');
  rg_nodes : length (nodes s) ≤ length (nodes s');
  rg_keep : ∀ k r l, node_ass s !! k = Some (AsRam64KOut r l) →
                     ∃ l', node_ass s' !! k = Some (AsRam64KOut r l');
  rg_back : ∀ k r l', k < length (nodes s) → node_ass s' !! k = Some (AsRam64KOut r l') →
                      ∃ l, node_ass s !! k = Some (AsRam64KOut r l);
  rg_new_out : ∀ k r l', length (nodes s) ≤ k →
                         node_ass s' !! k = Some (AsRam64KOut r l') → length (rams s) ≤ r;
  rg_new_ref : ∀ pos o, length (dff_nodes s) ≤ pos → dff_nodes s' !! pos = Some o →
                        length (nodes s) ≤ o
}.

Definition stores_sized (s : grci_simulator) : Prop :=
  ∀ r ram, rams s !! r = Some ram → length (ram_data ram) = Z.to_nat 65536.

(** * Part IV: example modules

    Descriptions as [grci_compile_src] registers them for the sources
    quoted, and the instances [grci_init_module] elaborates from them. *)

(** [module Not(in) -> out { Nand(in, in) -> out }]. *)
Definition not_desc : grci_module_desc :=
  {| name := "Not"; parts := [nand_decl]; part_names := [None];
     part_connections := [[extern_conn 0; extern_conn 0]];
     input_count := 1; input_param_count := 1;
     outputs := [output_part 0 0];
     output_count := 1; output_param_count := 1;
     input_widths := [1]; output_widths := [1];
     is_nand := false; is_dff := false; is_ram64K := false;
     sink_counts := [2]; node_count := 1; dff_count := 0 |}.

(** [module Pair() -> q0, q1 { Not(q0) -> n  d0: Dff(n) -> q0  d1: Dff(q0) -> q1 }]:
    a toggling DFF [d0] followed by a DFF [d1] that samples it. *)
Definition pair_desc : grci_module_desc :=
  {| name := "Pair"; parts := [not_desc; dff_decl; dff_decl];
     part_names := [None; Some "d0"; Some "d1"];
     part_connections := [[intern_conn 1 0]; [intern_conn 0 0]; [intern_conn 1 0]];
     input_count := 0; input_param_count := 0;
     outputs := [output_part 1 0; output_part 2 0];
     output_count := 2; output_param_count := 2;
     input_widths := []; output_widths := [1; 1];
     is_nand := false; is_dff := false; is_ram64K := false;
     sink_counts := []; node_count := 3; dff_count := 2 |}.

(** [module Latch(in) -> q { d: Dff(in) -> q }]. *)
Definition latch_desc : grci_module_desc :=
  {| name := "Latch"; parts := [dff_decl]; part_names := [Some "d"];
     part_connections := [[extern_conn 0]];
     input_count := 1; input_param_count := 1;
     outputs := [output_part 0 0];
     output_count := 1; output_param_count := 1;
     input_widths := [1]; output_widths := [1];
     is_nand := false; is_dff := false; is_ram64K := false;
     sink_counts := [1]; node_count := 1; dff_count := 1 |}.

Definition example_defs : grci_module_desc_list :=
  {| entries := [nand_decl; dff_decl; ram64K_decl; not_desc; pair_desc; latch_desc] |}.

Definition empty_module : grci_module :=
  {| m_inputs := []; m_outputs := []; m_sim := grci_simulator_init;
     m_module := {| desc := nand_decl; sinks := []; inst_inputs := []; inst_outputs := [];
                    submodules := []; dff_off_len := [] |} |}.

Definition pair_module : grci_module :=
  Eval vm_compute in default empty_module (grci_init_module example_defs "Pair").

Definition latch_module : grci_module :=
  Eval vm_compute in default empty_module (grci_init_module example_defs "Latch").

(** [Pair] after its first step, which takes the clock low. *)
Definition pair_low : grci_module :=
  Eval vm_compute in default empty_module (fst <$> grci_step_module pair_module).

(** [Pair] after its second step, the first rising edge. *)
Definition pair_high : grci_module :=
  Eval vm_compute in default empty_module (fst <$> grci_step_module pair_low).

(** The state the second step of [Pair] evaluates from, and the state
    after the round of its first DFF (node 4). *)
Definition pair_pre : grci_simulator :=
  Eval vm_compute in default grci_simulator_init (pre_pass pair_low).

Definition pair_round : grci_simulator :=
  Eval vm_compute in default grci_simulator_init (dff_pass [4] pair_pre).

(** [Latch] with 1 written into the state buffer of its DFF before the
    first step, and the module after that step. *)
Definition latch_written : grci_module := set_state latch_module 0 0 true.

Definition latch_low : grci_module :=
  Eval vm_compute in default empty_module (fst <$> grci_step_module latch_written).

(** A user module that takes the name of a built-in. *)
Definition fake_nand_desc : grci_module_desc :=
  {| name := "Nand"; parts := [dff_decl]; part_names := [Some "d"];
     part_connections := [[extern_conn 0]];
     input_count := 2; input_param_count := 2;
     outputs := [output_part 0 0];
     output_count := 1; output_param_count := 1;
     input_widths := [1; 1]; output_widths := [1];
     is_nand := false; is_dff := false; is_ram64K := false;
     sink_counts := [1; 0]; node_count := 1; dff_count := 1 |}.

(** An error message recorded before a call of [grci_submodule]. *)
Definition earlier_error : string :=
  Eval vm_compute in
    (grci_ensure false GRCI_ERR_COMP 3 "Attempting to use nonexistent module 'Xor'" EmptyString).2.

(** [module RamReg(in[16], load, addr[16]) -> q
       { Ram64K(in, load, addr) -> w  Dff(w[0]) -> q }]:
    a DFF that samples bit 0 of the word a RAM block reads. *)
Definition ramreg_desc : grci_module_desc :=
  {| name := "RamReg"; parts := [ram64K_decl; dff_decl]; part_names := [None; None];
     part_connections := [extern_conn <$> seq 0 33; [intern_conn 0 0]];
     input_count := 33; input_param_count := 3;
     outputs := [output_part 1 0];
     output_count := 1; output_param_count := 1;
     input_widths := [16; 1; 16]; output_widths := [1];
     is_nand := false; is_dff := false; is_ram64K := false;
     sink_counts := replicate 33 1; node_count := 17; dff_count := 17 |}.

(** [module Board(in[16], load, addr[16]) -> q { r: RamReg(in, load, addr) -> q }]. *)
Definition board_desc : grci_module_desc :=
  {| name := "Board"; parts := [ramreg_desc]; part_names := [Some "r"];
     part_connections := [extern_conn <$> seq 0 33];
     input_count := 33; input_param_count := 3;
     outputs := [output_part 0 0];
     output_count := 1; output_param_count := 1;
     input_widths := [16; 1; 16]; output_widths := [1];
     is_nand := false; is_dff := false; is_ram64K := false;
     sink_counts := replicate 33 1; node_count := 17; dff_count := 17 |}.

(** [module Mem(in[16], load, addr[16]) -> out[16] { ram: Ram64K(in, load, addr) -> out }]. *)
Definition mem_desc : grci_module_desc :=
  {| name := "Mem"; parts := [ram64K_decl]; part_names := [Some "ram"];
     part_connections := [extern_conn <$> seq 0 33];
     input_count := 33; input_param_count := 3;
     outputs := (λ i, output_part 0 (Z.of_nat i)) <$> seq 0 16;
     output_count := 16; output_param_count := 1;
     input_widths := [16; 1; 16]; output_widths := [16];
     is_nand := false; is_dff := false; is_ram64K := false;
     sink_counts := replicate 33 1; node_count := 16; dff_count := 16 |}.

Definition ram_defs : grci_module_desc_list :=
  {| entries := [nand_decl; dff_decl; ram64K_decl; ramreg_desc; board_desc; mem_desc] |}.

(** The instances of [Board] and [Mem]; the 65536 bytes of the store and
    the 524288 entries of the state buffer of [ram] are left folded. *)
Definition board_module : grci_module :=
  Eval cbv -[ram64k_fresh_data] in
    default empty_module (grci_init_module ram_defs "Board").

Definition mem_elaborated : grci_module :=
  Eval cbv -[ram64k_fresh_data GRCI_RAM64K_STATE_COUNT] in
    default empty_module (grci_init_module ram_defs "Mem").

(** The state buffer of [ram] in a fresh instance. *)
Definition mem_buffer : struct_grci_submodule :=
  {| state_count := GRCI_RAM64K_STATE_COUNT;
     states := replicate GRCI_RAM64K_STATE_COUNT false |}.

Definition mem_module : grci_module :=
  {| m_inputs := m_inputs mem_elaborated; m_outputs := m_outputs mem_elaborated;
     m_sim := m_sim mem_elaborated;
     m_module := with_submodules (m_module mem_elaborated) [mem_buffer] |}.

(** [Board] after its first step, which takes the clock low; then with
    data bit 0 and load set and address 0; and the state the second step
    evaluates from.  The DFF is node 19, the RAM-OUT node of bit 0 is
    node 3. *)
Definition board_low : grci_module :=
  default empty_module (fst <$> grci_step_module board_module).

Definition board_ready : grci_module :=
  set_inputs board_low ([true] ++ replicate 15 false ++ [true] ++ replicate 16 false).

Definition board_pre : grci_simulator :=
  default grci_simulator_init (pre_pass board_ready).

(** [latch_low] with the stored bits of its DFF (node 3) cleared: what
    is left when something other than the buffer changed the DFF. *)
Definition latch_disturbed : grci_simulator :=
  upd_node (λ n, set_cached false (set_last_state false n)) 3 (m_sim latch_low).

(** * Part V: proofs *)

Arguments ram64k_fresh_data : simpl never.
Arguments GRCI_RAM64K_STATE_COUNT : simpl never.

Section FrameLemmas.

Implicit Types (s : grci_simulator) (f : grci_node → grci_node) (i j : nat).

Lemma node_ass_length s : length (node_ass s) = length (nodes s).
Proof. unfold node_ass. by rewrite length_fmap. Qed.

Lemma node_skels_length s : length (node_skels s) = length (nodes s).
Proof. unfold node_skels. by rewrite length_fmap, node_ass_length. Qed.

Lemma ram_shapes_length s : length (ram_shapes s) = length (rams s).
Proof. unfold ram_shapes. by rewrite length_fmap. Qed.

Lemma eval_frame_skel ex s s' : eval_frame ex s s' → same_skel s s'.
Proof.
  intros []. split; try done. unfold node_skels. by f_equal.
Qed.

Lemma same_skel_refl s : same_skel s s.
Proof. by split. Qed.

Lemma same_skel_trans s1 s2 s3 : same_skel s1 s2 → same_skel s2 s3 → same_skel s1 s3.
Proof. intros [] []. split; congruence. Qed.

Lemma same_skel_length s s' : same_skel s s' → length (nodes s') = length (nodes s).
Proof. intros []. rewrite <- !node_skels_length. congruence. Qed.

Lemma same_skel_rams_length s s' : same_skel s s' → length (rams s') = length (rams s).
Proof. intros []. rewrite <- !ram_shapes_length. congruence. Qed.

Lemma sim_ok_skel s s' : same_skel s s' → sim_ok s → sim_ok s'.
Proof. intros [] Hok. unfold sim_ok in *. by rewrite sk_nodes0, sk_rams0. Qed.

Lemma eval_frame_length ex s s' : eval_frame ex s s' → length (nodes s') = length (nodes s).
Proof. intros H. eapply same_skel_length, eval_frame_skel, H. Qed.

Lemma eval_frame_refl ex s : eval_frame ex s s.
Proof. by split. Qed.

Lemma dff_at_frame ex s s' i : eval_frame ex s s' → dff_at s' i = dff_at s i.
Proof. intros []. unfold dff_at. by rewrite ef_as0. Qed.

Lemma eval_frame_trans ex s1 s2 s3 :
  eval_frame ex s1 s2 → eval_frame ex s2 s3 → eval_frame ex s1 s3.
Proof.
  intros H1 H2. pose proof (λ i, dff_at_frame ex s1 s2 i H1) as Hd.
  destruct H1, H2. split; try congruence.
  - auto.
  - intros i Hi Hex. rewrite ef_cch1, ef_cch0; auto. by rewrite Hd.
  - lia.
Qed.

Lemma eval_frame_weaken ex s s' : eval_frame None s s' → eval_frame ex s s'.
Proof. intros []. split; try done. intros i Hi _. by apply ef_cch0. Qed.

Lemma upd_node_lookup f i j s :
  nodes (upd_node f i s) !! j = if decide (i = j) then f <$> nodes s !! i else nodes s !! j.
Proof. unfold upd_node; simpl. apply list_lookup_alter. Qed.

Lemma upd_node_length f i s : length (nodes (upd_node f i s)) = length (nodes s).
Proof. unfold upd_node; simpl. apply length_alter. Qed.

Lemma node_ass_upd f i s :
  (∀ n, as_ (f n) = as_ n) → node_ass (upd_node f i s) = node_ass s.
Proof.
  intros Hf. unfold node_ass, upd_node; simpl.
  apply list_eq; intros j. rewrite !list_lookup_fmap, list_lookup_alter.
  destruct (decide (i = j)) as [->|]; [|done].
  destruct (nodes s !! j); simpl; [|done]. by rewrite Hf.
Qed.

Lemma node_skels_upd f i s :
  (∀ n, skel_as (as_ (f n)) = skel_as (as_ n)) → node_skels (upd_node f i s) = node_skels s.
Proof.
  intros Hf. unfold node_skels, node_ass, upd_node; simpl.
  apply list_eq; intros j. rewrite !list_lookup_fmap, list_lookup_alter.
  destruct (decide (i = j)) as [->|]; [|done].
  destruct (nodes s !! j); simpl; [|done]. by rewrite Hf.
Qed.

Lemma same_skel_upd f i s :
  (∀ n, skel_as (as_ (f n)) = skel_as (as_ n)) → same_skel s (upd_node f i s).
Proof. intros Hf. split; try done. by apply node_skels_upd. Qed.

Lemma unvisited_alter_le f i (l : list grci_node) :
  (∀ n, visited n = true → visited (f n) = true) →
  unvisited_count (alter f i l) ≤ unvisited_count l.
Proof.
  intros Hf. revert i. induction l as [|n l IH]; intros [|i]; simpl; try lia.
  - specialize (Hf n). destruct (visited n), (visited (f n)); lia.
  - specialize (IH i). unfold alter in *. lia.
Qed.

Lemma unvisited_alter_lt f i (l : list grci_node) n :
  l !! i = Some n → visited n = false → visited (f n) = true →
  S (unvisited_count (alter f i l)) = unvisited_count l.
Proof.
  revert i. induction l as [|n' l IH]; intros [|i] Hl Hv Hf; simplify_eq/=.
  - rewrite Hv, Hf. lia.
  - specialize (IH i Hl Hv Hf). unfold alter in *. destruct (visited n'); lia.
Qed.

(** A node update that keeps [as] and never clears a visited mark. *)
Lemma eval_frame_upd ex f i s :
  (∀ n, as_ (f n) = as_ n) →
  (∀ n, visited n = true → visited (f n) = true) →
  ((∀ n, cached_state (f n) = cached_state n) ∨ dff_at s i = false ∨ ex = Some i) →
  eval_frame ex s (upd_node f i s).
Proof.
  intros Has Hvis Hc. split; try done.
  - by apply node_ass_upd.
  - intros j. unfold vis. rewrite upd_node_lookup.
    destruct (decide (i = j)) as [->|]; [|done].
    destruct (nodes s !! j); simpl; [|done]. apply Hvis.
  - intros j Hj Hex. unfold cch. rewrite upd_node_lookup.
    destruct (decide (i = j)) as [->|]; [|done].
    destruct Hc as [Hc|[Hc|Hc]]; [|congruence..].
    destruct (nodes s !! j); simpl; [|done]. by rewrite Hc.
  - unfold unvisited, upd_node; simpl. by apply unvisited_alter_le.
Qed.

Lemma eval_frame_with_rams ex s rs :
  with_data [] <$> rs = ram_shapes s → eval_frame ex s (with_rams s rs).
Proof. intros Hrs. by split. Qed.

Lemma ram_shapes_insert s r ram d :
  rams s !! r = Some ram →
  with_data [] <$> <[r := with_data d ram]> (rams s) = ram_shapes s.
Proof.
  intros Hr. unfold ram_shapes. rewrite list_fmap_insert.
  apply list_insert_id. by rewrite list_lookup_fmap, Hr.
Qed.

End FrameLemmas.

Arguments ram_scan : simpl never.
Arguments ram_scan_addr : simpl never.
Arguments publish_ram_outputs : simpl never.

Section EvalFrame.

Implicit Types (s : grci_simulator) (p : ptr) (i j : nat).

Lemma ptr_ok_lookup s p :
  ptr_ok (length (node_skels s)) p → ∃ i n, p = Some i ∧ nodes s !! i = Some n.
Proof.
  destruct p as [i|]; simpl; [|done]. rewrite node_skels_length.
  intros Hi. apply lookup_lt_is_Some_2 in Hi as [n Hn]. eauto.
Qed.

Lemma node_ok_skel nn nr a : node_ok nn nr (skel_as a) ↔ node_ok nn nr a.
Proof. by destruct a. Qed.

Lemma sim_ok_node s i n :
  sim_ok s → nodes s !! i = Some n →
  node_ok (length (node_skels s)) (length (ram_shapes s)) (as_ n).
Proof.
  intros [Hn _] Hi. rewrite Forall_lookup in Hn.
  apply node_ok_skel, (Hn i). unfold node_skels, node_ass.
  by rewrite !list_lookup_fmap, Hi.
Qed.

Lemma sim_ok_ram s r ram :
  sim_ok s → rams s !! r = Some ram → ram_ok (node_skels s) ram.
Proof.
  intros [_ Hr] Hi. rewrite Forall_lookup in Hr.
  specialize (Hr r (with_data [] ram)). apply Hr.
  unfold ram_shapes. by rewrite list_lookup_fmap, Hi.
Qed.

Lemma ram_out_not_dff s o : ram_out_ok (node_skels s) o → dff_at s o = false.
Proof.
  unfold ram_out_ok, dff_at, node_skels. rewrite list_lookup_fmap.
  destruct (node_ass s !! o) as [[]|]; simpl; congruence.
Qed.

Lemma publish_ram_outputs_frame ex outs k w s :
  Forall (ram_out_ok (node_skels s)) outs →
  eval_frame ex s (publish_ram_outputs outs k w s).
Proof.
  revert k s. induction outs as [|o outs IH]; intros k s Hout;
    unfold publish_ram_outputs; fold publish_ram_outputs.
  - apply eval_frame_refl.
  - apply Forall_cons in Hout as [Ho Hout].
    assert (eval_frame ex s
      (upd_node (λ n, set_cached (Z.testbit w (Z.of_nat k)) (set_visited true n)) o s)) as Hf.
    { apply eval_frame_upd; [done|done|]. right; left. by apply ram_out_not_dff. }
    eapply eval_frame_trans; [exact Hf|]. apply IH.
    by rewrite (sk_nodes _ _ (eval_frame_skel _ _ _ Hf)).
Qed.

Lemma frame_sim_ok ex s s' : eval_frame ex s s' → sim_ok s → sim_ok s'.
Proof. intros H. eapply sim_ok_skel, eval_frame_skel, H. Qed.

Lemma frame_unvisited ex s s' F : eval_frame ex s s' → unvisited s < F → unvisited s' < F.
Proof. intros [] ?. lia. Qed.

Lemma frame_skels ex s s' : eval_frame ex s s' → node_skels s' = node_skels s.
Proof. intros H. apply (sk_nodes _ _ (eval_frame_skel _ _ _ H)). Qed.

Lemma ram_scan_frame F ev ram idx acc s :
  ev_total F ev → ram_ok (node_skels s) ram → Forall (λ i, i < 16) idx →
  sim_ok s → unvisited s < F →
  ∃ acc' s', ram_scan ev ram idx acc s = Some (acc', s') ∧ eval_frame None s s'.
Proof.
  intros Hev. revert acc s. induction idx as [|i idx IH]; intros [[in1 in2] addr] s Hram Hidx Hok HF.
  - eexists _, _. split; [done|apply eval_frame_refl].
  - apply Forall_cons in Hidx as [Hi Hidx].
    destruct Hram as (Hli & Hin & Hld & Hla & Had & Hout).
    destruct (lookup_lt_is_Some_2 (ram_inputs ram) i) as [pin Hpin]; [lia|].
    destruct (lookup_lt_is_Some_2 (ram_addrs ram) i) as [pad Hpad]; [lia|].
    pose proof (Forall_lookup_1 _ _ _ _ Hin Hpin) as Hpin_ok.
    pose proof (Forall_lookup_1 _ _ _ _ Had Hpad) as Hpad_ok.
    destruct (Hev s pin Hok Hpin_ok HF) as (vi & s1 & E1 & Hf1).
    rewrite <- (frame_skels _ _ _ Hf1) in Hpad_ok.
    destruct (Hev s1 pad (frame_sim_ok _ _ _ Hf1 Hok) Hpad_ok (frame_unvisited _ _ _ _ Hf1 HF))
      as (va & s2 & E2 & Hf2).
    pose proof (eval_frame_trans _ _ _ _ Hf1 Hf2) as Hf12.
    edestruct (IH (if i <? 8 then Z.lor in1 (Z.shiftl (Z.b2z vi) (Z.of_nat i)) else in1,
                   if i <? 8 then in2 else Z.lor in2 (Z.shiftl (Z.b2z vi) (Z.of_nat (i - 8))),
                   Z.lor addr (Z.shiftl (Z.b2z va) (Z.of_nat i))) s2)
      as (acc' & s' & E3 & Hf3).
    { rewrite (frame_skels _ _ _ Hf12). by repeat split. }
    { done. }
    { eapply frame_sim_ok; eauto. }
    { eapply frame_unvisited; eauto. }
    exists acc', s'. split; [|eapply eval_frame_trans; eauto].
    unfold ram_scan; fold ram_scan.
    rewrite Hpin; simpl. rewrite E1; simpl. rewrite Hpad; simpl. rewrite E2; simpl.
    exact E3.
Qed.

Lemma ram_scan_addr_frame F ev ram idx addr s :
  ev_total F ev → ram_ok (node_skels s) ram → Forall (λ i, i < 16) idx →
  sim_ok s → unvisited s < F →
  ∃ addr' s', ram_scan_addr ev ram idx addr s = Some (addr', s') ∧ eval_frame None s s'.
Proof.
  intros Hev. revert addr s. induction idx as [|i idx IH]; intros addr s Hram Hidx Hok HF.
  - eexists _, _. split; [done|apply eval_frame_refl].
  - apply Forall_cons in Hidx as [Hi Hidx].
    destruct Hram as (Hli & Hin & Hld & Hla & Had & Hout).
    destruct (lookup_lt_is_Some_2 (ram_addrs ram) i) as [pad Hpad]; [lia|].
    pose proof (Forall_lookup_1 _ _ _ _ Had Hpad) as Hpad_ok.
    destruct (Hev s pad Hok Hpad_ok HF) as (va & s1 & E1 & Hf1).
    edestruct (IH (Z.lor addr (Z.shiftl (Z.b2z va) (Z.of_nat i))) s1)
      as (addr' & s' & E3 & Hf3).
    { rewrite (frame_skels _ _ _ Hf1). by repeat split. }
    { done. }
    { eapply frame_sim_ok; eauto. }
    { eapply frame_unvisited; eauto. }
    exists addr', s'. split; [|eapply eval_frame_trans; eauto].
    unfold ram_scan_addr; fold ram_scan_addr.
    rewrite Hpad; simpl. rewrite E1; simpl. exact E3.
Qed.

Lemma ram_bits_lt : Forall (λ i, i < 16) ram_bits.
Proof. apply Forall_forall. intros i Hi. apply list_elem_of_In, in_seq in Hi. lia. Qed.


Lemma mark_visited_frame ex s i n :
  nodes s !! i = Some n → visited n = false →
  eval_frame ex s (upd_node (set_visited true) i s) ∧
  S (unvisited (upd_node (set_visited true) i s)) = unvisited s.
Proof.
  intros Hn Hv. split.
  - apply eval_frame_upd; auto.
  - unfold unvisited, upd_node; simpl. by eapply unvisited_alter_lt.
Qed.

Lemma ret_cached_some i s :
  i < length (nodes s) → ∃ v, ret_cached i s = Some (v, s).
Proof.
  intros Hi. apply lookup_lt_is_Some_2 in Hi as [n Hn].
  exists (cached_state n). unfold ret_cached. by rewrite Hn.
Qed.

Lemma dff_at_lookup s i n : nodes s !! i = Some n → dff_at s i = is_dff_as (as_ n).
Proof. intros Hn. unfold dff_at, node_ass. by rewrite list_lookup_fmap, Hn. Qed.

(** Totality of [grci_eval_dff] together with its frame; the node
    evaluated ends up visited. *)
Lemma eval_dff_fuel_frame_vis F s p root :
  sim_ok s → ptr_ok (length (node_skels s)) p → unvisited s < F →
  ∃ v s', grci_eval_dff_fuel F s p root = Some (v, s') ∧
          eval_frame (if root then p else None) s s' ∧
          ∀ i, p = Some i → vis s' i = true.
Proof.
  revert s p root. induction F as [|f IH]; intros s p root Hok Hp HF; [lia|].
  destruct (ptr_ok_lookup _ _ Hp) as (i & node & -> & Hnode).
  pose proof (lookup_lt_Some _ _ _ Hnode) as Hilt.
  pose proof (sim_ok_node _ _ _ Hok Hnode) as Hnok.
  simpl. rewrite Hnode; simpl.
  destruct (visited node) eqn:Hv.
  { destruct (as_ node); eexists _, _;
      (split; [done|split; [apply eval_frame_refl|]]);
      intros ? [= <-]; unfold vis; by rewrite Hnode. }
  set (ex := if root then Some i else None).
  destruct (mark_visited_frame ex s i node Hnode Hv) as [Hf1 Hu1].
  set (s1 := upd_node (set_visited true) i s) in *.
  assert (vis s1 i = true) as Hv1.
  { unfold s1, vis. rewrite upd_node_lookup, decide_True by done. by rewrite Hnode. }
  assert (unvisited s1 < f) as HF1 by lia.
  pose proof (frame_sim_ok _ _ _ Hf1 Hok) as Hok1.
  assert (∀ v sf, eval_frame ex s1 sf →
            ret_cached i sf = Some (v, sf) →
            ∃ v' s', ret_cached i sf = Some (v', s') ∧ eval_frame ex s s' ∧
                     ∀ j, Some i = Some j → vis s' j = true) as Hfin.
  { intros v sf Hrest Hr. exists v, sf. split; [done|]. split.
    - by eapply eval_frame_trans.
    - intros ? [= <-]. by apply (ef_vis _ _ _ Hrest). }
  assert (∀ F', (∀ s p root,
             sim_ok s → ptr_ok (length (node_skels s)) p → unvisited s < F' →
             ∃ v s', grci_eval_dff_fuel F' s p root = Some (v, s') ∧
                     eval_frame (if root then p else None) s s' ∧
                     ∀ i, p = Some i → vis s' i = true) →
           ∀ s p, sim_ok s → ptr_ok (length (node_skels s)) p → unvisited s < F' →
             ∃ v s', grci_eval_dff_fuel F' s p false = Some (v, s') ∧ eval_frame None s s')
    as Hweak.
  { intros F' H s0 p0 ???. destruct (H s0 p0 false) as (v & s' & ? & ? & _); eauto. }
  pose proof (Hweak f IH) as IH'.
  assert (ev_total f (λ s' p', grci_eval_dff_fuel f s' p' false)) as Hev.
  { intros s' p' ???. by apply IH'. }
  destruct (as_ node) as [c|a b|input l|r l] eqn:Has.
  - (* constant *)
    assert (eval_frame ex s1 (upd_node (set_cached c) i s1)) as Hf2.
    { apply eval_frame_upd; [done|done|]. right; left.
      rewrite (dff_at_frame _ _ _ i Hf1), (dff_at_lookup _ _ _ Hnode). by rewrite Has. }
    destruct (ret_cached_some i (upd_node (set_cached c) i s1)) as [v Hv'].
    { by rewrite upd_node_length, (eval_frame_length _ _ _ Hf1). }
    by eapply Hfin.
  - (* nand *)
    destruct Hnok as [Ha Hb].
    rewrite <- (frame_skels _ _ _ Hf1) in Ha, Hb.
    destruct (IH' s1 a Hok1 Ha HF1) as (va & s2 & E2 & Hf2). rewrite E2; simpl.
    rewrite <- (frame_skels _ _ _ Hf2) in Hb.
    destruct (IH' s2 b (frame_sim_ok _ _ _ Hf2 Hok1) Hb (frame_unvisited _ _ _ _ Hf2 HF1))
      as (vb & s3 & E3 & Hf3). rewrite E3; simpl.
    pose proof (eval_frame_trans _ _ _ _ Hf2 Hf3) as Hf23.
    pose proof (eval_frame_trans _ _ _ _ Hf1 (eval_frame_weaken ex _ _ Hf23)) as Hf13.
    assert (eval_frame ex s3 (upd_node (set_cached (negb (va && vb))) i s3)) as Hf4.
    { apply eval_frame_upd; [done|done|]. right; left.
      rewrite (dff_at_frame _ _ _ i Hf13), (dff_at_lookup _ _ _ Hnode). by rewrite Has. }
    destruct (ret_cached_some i (upd_node (set_cached (negb (va && vb))) i s3)) as [v Hv'].
    { by rewrite upd_node_length, (eval_frame_length _ _ _ Hf13). }
    eapply Hfin; [|exact Hv'].
    eapply eval_frame_trans; [apply eval_frame_weaken, Hf23|exact Hf4].
  - (* dff *)
    destruct root; simpl.
    + simpl in Hnok. rewrite <- (frame_skels _ _ _ Hf1) in Hnok.
      destruct (IH' s1 input Hok1 Hnok HF1) as (v & s2 & E2 & Hf2). rewrite E2; simpl.
      pose proof (eval_frame_trans _ _ _ _ Hf1 (eval_frame_weaken ex _ _ Hf2)) as Hf12.
      assert (eval_frame ex s2 (upd_node (set_cached v) i s2)) as Hf3.
      { apply eval_frame_upd; [done|done|]. by right; right. }
      destruct (ret_cached_some i (upd_node (set_cached v) i s2)) as [v' Hv'].
      { by rewrite upd_node_length, (eval_frame_length _ _ _ Hf12). }
      eapply Hfin; [|exact Hv'].
      eapply eval_frame_trans; [apply eval_frame_weaken, Hf2|exact Hf3].
    + eexists _, _. split; [done|]. split; [exact Hf1|]. by intros ? [= <-].
  - (* ram-out *)
    simpl in Hnok. rewrite ram_shapes_length in Hnok.
    assert (rams s1 = rams s) as Hrams by done.
    destruct (lookup_lt_is_Some_2 (rams s) r Hnok) as [ram Hram].
    try rewrite Hrams; rewrite Hram; simpl.
    pose proof (sim_ok_ram _ _ _ Hok Hram) as Hrok.
    rewrite <- (frame_skels _ _ _ Hf1) in Hrok.
    destruct Hrok as (Hli & Hin & Hld & Hla & Had & Hout).
    destruct (IH' s1 (ram_load ram) Hok1 Hld HF1) as (ld & s2 & E2 & Hf2).
    rewrite E2; simpl.
    destruct (ram_scan_frame f (λ s' p', grci_eval_dff_fuel f s' p' false) ram ram_bits
                (0, 0, 0)%Z s2 Hev) as ([[in1 in2] addr] & s3 & E3 & Hf3).
    { rewrite (frame_skels _ _ _ Hf2). by repeat split. }
    { apply ram_bits_lt. }
    { eapply frame_sim_ok; eauto. }
    { eapply frame_unvisited; eauto. }
    rewrite E3; simpl.
    pose proof (eval_frame_trans _ _ _ _ Hf2 Hf3) as Hf23.
    pose proof (eval_frame_trans _ _ _ _ Hf1 (eval_frame_weaken ex _ _ Hf23)) as Hf13.
    assert (∃ ram3, rams s3 !! r = Some ram3 ∧ with_data [] ram3 = with_data [] ram)
      as (ram3 & Hram3 & Hshape).
    { pose proof (ef_rams _ _ _ Hf13) as Hsh. unfold ram_shapes in Hsh.
      apply (f_equal (λ l, l !! r)) in Hsh. rewrite !list_lookup_fmap, Hram in Hsh.
      destruct (rams s3 !! r) as [ram3|]; [|done]. simpl in Hsh.
      exists ram3. split; [done|congruence]. }
    rewrite Hram3; simpl.
    set (d := if ld then _ else _).
    set (s4 := with_rams s3 _).
    assert (eval_frame ex s3 s4) as Hf4.
    { apply eval_frame_with_rams. by apply ram_shapes_insert. }
    assert (eval_frame ex s4 (publish_ram_outputs (ram_outputs ram3) 0 (data_word d addr) s4))
      as Hf5.
    { apply publish_ram_outputs_frame.
      rewrite (frame_skels _ _ _ Hf4), (frame_skels _ _ _ Hf23).
      replace (ram_outputs ram3) with (ram_outputs ram); [done|].
      by apply (f_equal ram_outputs) in Hshape. }
    pose proof (eval_frame_trans _ _ _ _ Hf13 (eval_frame_trans _ _ _ _ Hf4 Hf5)) as Hf15.
    destruct (ret_cached_some i (publish_ram_outputs (ram_outputs ram3) 0 (data_word d addr) s4))
      as [v' Hv'].
    { by rewrite (eval_frame_length _ _ _ Hf15). }
    eapply Hfin; [|exact Hv'].
    eapply eval_frame_trans; [apply eval_frame_weaken, Hf23|].
    eapply eval_frame_trans; [exact Hf4|exact Hf5].
Qed.

Lemma eval_dff_fuel_frame F s p root :
  sim_ok s → ptr_ok (length (node_skels s)) p → unvisited s < F →
  ∃ v s', grci_eval_dff_fuel F s p root = Some (v, s') ∧
          eval_frame (if root then p else None) s s'.
Proof.
  intros Hok Hp HF.
  destruct (eval_dff_fuel_frame_vis F s p root Hok Hp HF) as (v & s' & ? & ? & _). eauto.
Qed.


Lemma unvisited_le_length s : unvisited s ≤ length (nodes s).
Proof.
  unfold unvisited. induction (nodes s) as [|n l IH]; simpl; [lia|].
  destruct (visited n); lia.
Qed.

Lemma eval_dff_frame s p root :
  sim_ok s → ptr_ok (length (node_skels s)) p →
  ∃ v s', grci_eval_dff s p root = Some (v, s') ∧
          eval_frame (if root then p else None) s s'.
Proof.
  intros Hok Hp. apply eval_dff_fuel_frame; [done..|].
  pose proof (unvisited_le_length s). lia.
Qed.

Lemma eval_node_fuel_frame F s p :
  sim_ok s → ptr_ok (length (node_skels s)) p → unvisited s < F →
  ∃ v s', grci_eval_node_fuel F s p = Some (v, s') ∧ eval_frame None s s'.
Proof.
  revert s p. induction F as [|f IH]; intros s p Hok Hp HF; [lia|].
  destruct (ptr_ok_lookup _ _ Hp) as (i & node & -> & Hnode).
  pose proof (lookup_lt_Some _ _ _ Hnode) as Hilt.
  pose proof (sim_ok_node _ _ _ Hok Hnode) as Hnok.
  simpl. rewrite Hnode; simpl.
  destruct (visited node) eqn:Hv.
  { destruct (as_ node); eexists _, _; (split; [done|apply eval_frame_refl]). }
  destruct (mark_visited_frame None s i node Hnode Hv) as [Hf1 Hu1].
  set (s1 := upd_node (set_visited true) i s) in *.
  assert (unvisited s1 < f) as HF1 by lia.
  pose proof (frame_sim_ok _ _ _ Hf1 Hok) as Hok1.
  assert (ev_total f (λ s' p', grci_eval_dff_fuel f s' p' false)) as Hev.
  { intros s' p' ???. by apply (eval_dff_fuel_frame f s' p' false). }
  destruct (as_ node) as [c|a b|input l|r l] eqn:Has.
  - assert (eval_frame None s1 (upd_node (set_cached c) i s1)) as Hf2.
    { apply eval_frame_upd; [done|done|]. right; left.
      rewrite (dff_at_frame _ _ _ i Hf1), (dff_at_lookup _ _ _ Hnode). by rewrite Has. }
    destruct (ret_cached_some i (upd_node (set_cached c) i s1)) as [v Hv'].
    { by rewrite upd_node_length, (eval_frame_length _ _ _ Hf1). }
    eexists _, _. split; [exact Hv'|]. eapply eval_frame_trans; eauto.
  - destruct Hnok as [Ha Hb].
    rewrite <- (frame_skels _ _ _ Hf1) in Ha, Hb.
    destruct (IH s1 a Hok1 Ha HF1) as (va & s2 & E2 & Hf2). rewrite E2; simpl.
    rewrite <- (frame_skels _ _ _ Hf2) in Hb.
    destruct (IH s2 b (frame_sim_ok _ _ _ Hf2 Hok1) Hb (frame_unvisited _ _ _ _ Hf2 HF1))
      as (vb & s3 & E3 & Hf3). rewrite E3; simpl.
    pose proof (eval_frame_trans _ _ _ _ Hf1 (eval_frame_trans _ _ _ _ Hf2 Hf3)) as Hf13.
    assert (eval_frame None s3 (upd_node (set_cached (negb (va && vb))) i s3)) as Hf4.
    { apply eval_frame_upd; [done|done|]. right; left.
      rewrite (dff_at_frame _ _ _ i Hf13), (dff_at_lookup _ _ _ Hnode). by rewrite Has. }
    destruct (ret_cached_some i (upd_node (set_cached (negb (va && vb))) i s3)) as [v Hv'].
    { by rewrite upd_node_length, (eval_frame_length _ _ _ Hf13). }
    eexists _, _. split; [exact Hv'|]. eapply eval_frame_trans; eauto.
  - simpl in Hnok. destruct input as [k|]; [|done]. simpl.
    eexists _, _. split; [done|exact Hf1].
  - simpl in Hnok. rewrite ram_shapes_length in Hnok.
    destruct (lookup_lt_is_Some_2 (rams s) r Hnok) as [ram Hram].
    rewrite Hram; simpl.
    pose proof (sim_ok_ram _ _ _ Hok Hram) as Hrok.
    rewrite <- (frame_skels _ _ _ Hf1) in Hrok.
    destruct (ram_scan_addr_frame f (λ s' p', grci_eval_dff_fuel f s' p' false) ram ram_bits
                0%Z s1 Hev Hrok ram_bits_lt Hok1 HF1) as (addr & s2 & E2 & Hf2).
    rewrite E2; simpl.
    pose proof (eval_frame_trans _ _ _ _ Hf1 Hf2) as Hf12.
    assert (∃ ram2, rams s2 !! r = Some ram2 ∧ with_data [] ram2 = with_data [] ram)
      as (ram2 & Hram2 & Hshape).
    { pose proof (ef_rams _ _ _ Hf12) as Hsh. unfold ram_shapes in Hsh.
      apply (f_equal (λ l, l !! r)) in Hsh. rewrite !list_lookup_fmap, Hram in Hsh.
      destruct (rams s2 !! r) as [ram2|]; [|done]. simpl in Hsh.
      exists ram2. split; [done|congruence]. }
    rewrite Hram2; simpl.
    set (w := data_word _ _).
    assert (eval_frame None s2 (publish_ram_outputs (ram_outputs ram2) 0 w s2)) as Hf3.
    { apply publish_ram_outputs_frame. rewrite (frame_skels _ _ _ Hf2).
      replace (ram_outputs ram2) with (ram_outputs ram);
        [by destruct Hrok as (_&_&_&_&_&?)|].
      by apply (f_equal ram_outputs) in Hshape. }
    pose proof (eval_frame_trans _ _ _ _ Hf12 Hf3) as Hf13.
    destruct (ret_cached_some i (publish_ram_outputs (ram_outputs ram2) 0 w s2)) as [v' Hv'].
    { by rewrite (eval_frame_length _ _ _ Hf13). }
    eexists _, _. split; [exact Hv'|exact Hf13].
Qed.

Lemma eval_node_frame s p :
  sim_ok s → ptr_ok (length (node_skels s)) p →
  ∃ v s', grci_eval_node s p = Some (v, s') ∧ eval_frame None s s'.
Proof.
  intros Hok Hp. apply eval_node_fuel_frame; [done..|].
  pose proof (unvisited_le_length s). lia.
Qed.

End EvalFrame.

(** ** The example instances are well formed *)

Ltac solve_forall :=
  repeat first
    [ apply Forall_nil_2
    | apply Forall_cons_2 ].

Lemma pair_module_ok : module_ok pair_module.
Proof.
  split.
  - split; vm_compute; solve_forall; repeat split; try lia.
  - by exists true.
  - vm_compute. solve_forall; by eexists.
  - apply (bool_decide_unpack _). by vm_compute.
  - vm_compute. solve_forall.
  - vm_compute. solve_forall; (eexists; split; [reflexivity|simpl; lia]).
  - vm_compute. solve_forall; try done.
    + eexists _, _, _, _. repeat split; try reflexivity; lia.
    + eexists _, _, _, _. repeat split; try reflexivity; lia.
Qed.

Lemma latch_module_ok : module_ok latch_module.
Proof.
  split.
  - split; vm_compute; solve_forall; repeat split; try lia.
  - by exists true.
  - vm_compute. solve_forall; by eexists.
  - apply (bool_decide_unpack _). by vm_compute.
  - vm_compute. solve_forall. eexists. split; [reflexivity|]. split; [lia|by eexists].
  - vm_compute. solve_forall; (eexists; split; [reflexivity|simpl; lia]).
  - vm_compute. solve_forall; try done.
    eexists _, _, _, _. repeat split; try reflexivity; lia.
Qed.

Lemma for_each_inv {A St : Type} (P : St → Prop) (l : list A)
    (body : A → St → option St) (st : St) :
  P st →
  (∀ x st1, x ∈ l → P st1 → ∃ st', body x st1 = Some st' ∧ P st') →
  ∃ st', for_each l body st = Some st' ∧ P st'.
Proof.
  revert st. induction l as [|x l IH]; intros st Hs Hbody; simpl.
  - eauto.
  - destruct (Hbody x st) as (st1 & E & Hs1); [by left|done|].
    rewrite E; simpl. apply IH; [done|].
    intros y st2 Hy. apply Hbody. by right.
Qed.

Section Phases.
Implicit Types (s : grci_simulator) (p : ptr) (i j k : nat) (m : grci_module).

Lemma clock_level_const_at s : clock_level s = const_at s (clock s).
Proof.
  unfold clock_level, const_at, node_ass. rewrite list_lookup_fmap.
  destruct (nodes s !! clock s) as [n|]; simpl; [|done]. by destruct (as_ n).
Qed.

Lemma upd_frame_refl K s : upd_frame K s s.
Proof. split; [apply same_skel_refl|done]. Qed.

Lemma upd_frame_trans K s1 s2 s3 :
  upd_frame K s1 s2 → upd_frame K s2 s3 → upd_frame K s1 s3.
Proof.
  intros [] []. split; [by eapply same_skel_trans|].
  intros i Hi. rewrite uf_off1, uf_off0; auto.
Qed.

Lemma upd_frame_mono (K K' : nat → Prop) s s' :
  (∀ i, K i → K' i) → upd_frame K s s' → upd_frame K' s s'.
Proof. intros HK []. split; [done|]. intros i Hi. apply uf_off0. naive_solver. Qed.

Lemma upd_frame_upd K f i s :
  (∀ n, skel_as (as_ (f n)) = skel_as (as_ n)) → K i ∨ (∀ n, nodes s !! i = Some n → f n = n) →
  upd_frame K s (upd_node f i s).
Proof.
  intros Hf HK. split; [by apply same_skel_upd|].
  intros j Hj. rewrite upd_node_lookup.
  destruct (decide (i = j)) as [->|]; [|done].
  destruct HK as [?|HK]; [done|].
  destruct (nodes s !! j) as [n|] eqn:E; simpl; [|done]. by rewrite HK.
Qed.

Lemma skel_set_constant c n : skel_as (as_ (set_constant c n)) = skel_as (as_ n).
Proof. unfold set_constant. by destruct (as_ n) eqn:E; simpl; rewrite ?E. Qed.

Lemma skel_set_last_state b n : skel_as (as_ (set_last_state b n)) = skel_as (as_ n).
Proof. unfold set_last_state. by destruct (as_ n) eqn:E; simpl; rewrite ?E. Qed.

Lemma set_constant_id c n : const_as (as_ n) = None → set_constant c n = n.
Proof. unfold set_constant. by destruct (as_ n). Qed.

Lemma const_at_lookup s i n : nodes s !! i = Some n → const_at s i = const_as (as_ n).
Proof. intros H. unfold const_at, node_ass. by rewrite list_lookup_fmap, H. Qed.

Lemma lst_lookup s i n : nodes s !! i = Some n → lst s i = last_state_as (as_ n).
Proof. intros H. unfold lst, node_ass. by rewrite list_lookup_fmap, H. Qed.

Lemma upd_frame_const_at K s s' i : upd_frame K s s' → ¬ K i → const_at s' i = const_at s i.
Proof.
  intros [] Hi. unfold const_at, node_ass. by rewrite !list_lookup_fmap, uf_off0.
Qed.

Lemma upd_frame_lst K s s' i : upd_frame K s s' → ¬ K i → lst s' i = lst s i.
Proof.
  intros [] Hi. unfold lst, node_ass. by rewrite !list_lookup_fmap, uf_off0.
Qed.

Lemma same_skel_kind s s' i :
  same_skel s s' → is_Some (const_at s' i) ↔ is_Some (const_at s i).
Proof.
  intros [Hn _ _ _ _ _]. apply (f_equal (λ l, l !! i)) in Hn.
  unfold node_skels in Hn. rewrite !list_lookup_fmap in Hn.
  unfold const_at.
  destruct (node_ass s' !! i) as [[]|], (node_ass s !! i) as [[]|]; simplify_eq/=;
    split; intros [? ?]; simplify_eq/=; eauto.
Qed.

Lemma same_skel_lst_kind s s' i :
  same_skel s s' → is_Some (lst s' i) ↔ is_Some (lst s i).
Proof.
  intros [Hn _ _ _ _ _]. apply (f_equal (λ l, l !! i)) in Hn.
  unfold node_skels in Hn. rewrite !list_lookup_fmap in Hn.
  unfold lst.
  destruct (node_ass s' !! i) as [[]|], (node_ass s !! i) as [[]|]; simplify_eq/=;
    split; intros [? ?]; simplify_eq/=; eauto.
Qed.

End Phases.

Section StepPhases.
Implicit Types (s : grci_simulator) (p : ptr) (i j k : nat) (m : grci_module).

(** *** Publishing the inputs *)

Lemma publish_inputs_frame m :
  module_ok m →
  ∃ s1, publish_inputs m = Some s1 ∧
        upd_frame (λ k, k ≠ clock (m_sim m) ∧ is_Some (const_at (m_sim m) k)) (m_sim m) s1 ∧
        rams s1 = rams (m_sim m).
Proof.
  intros Hm. unfold publish_inputs.
  set (K := λ k, k ≠ clock (m_sim m) ∧ is_Some (const_at (m_sim m) k)).
  apply (for_each_inv (λ s1, upd_frame K (m_sim m) s1 ∧ rams s1 = rams (m_sim m))).
  { split; [apply upd_frame_refl|done]. }
  intros i s1 Hi [Hf Hr].
  pose proof (mo_inputs _ Hm) as Hin. rewrite Forall_forall in Hin.
  destruct (Hin i Hi) as (k & Hk & Hck & [v Hv]).
  rewrite Hk, Hv; simpl. eexists; split; [done|]. split; [|done].
  eapply upd_frame_trans; [exact Hf|].
  apply upd_frame_upd; [apply skel_set_constant|].
  destruct (const_at s1 k) as [c|] eqn:Hc.
  - left. split; [done|]. apply (same_skel_kind _ _ k (uf_skel _ _ _ Hf)). eauto.
  - right. intros n Hn. apply set_constant_id. by rewrite <- (const_at_lookup _ _ _ Hn).
Qed.

(** *** Toggling the clock *)

Lemma toggle_clock_frame s c :
  clock_level s = Some c →
  ∃ s', toggle_clock s = Some s' ∧ upd_frame (λ k, k = clock s) s s' ∧
        clock_level s' = Some (negb c) ∧ rams s' = rams s.
Proof.
  intros Hc. unfold toggle_clock. rewrite Hc; simpl.
  eexists; split; [done|]. split; [|split; [|done]].
  - apply upd_frame_upd; [apply skel_set_constant|by left].
  - unfold clock_level in *. simpl. rewrite list_lookup_alter_eq.
    destruct (nodes s !! clock s) as [n|]; simpl in *; [|done].
    unfold set_constant. destruct (as_ n); simplify_eq/=. done.
Qed.

(** *** Clearing the visited marks *)

Lemma node_ass_fmap s (f : grci_node → grci_node) :
  (∀ n, as_ (f n) = as_ n) → node_ass (with_nodes s (f <$> nodes s)) = node_ass s.
Proof.
  intros Hf. unfold node_ass; simpl. rewrite <- list_fmap_compose.
  apply list_fmap_ext. intros ? n _. simpl. apply Hf.
Qed.

Lemma clear_visited_as s : node_ass (clear_visited s) = node_ass s.
Proof. by apply node_ass_fmap. Qed.

Lemma clear_comb_visited_as s : node_ass (clear_comb_visited s) = node_ass s.
Proof. apply node_ass_fmap. intros n. by destruct (is_dff_type n). Qed.

Lemma same_skel_of_as s s' :
  node_ass s' = node_ass s → rams s' = rams s → dff_nodes s' = dff_nodes s →
  const0 s' = const0 s → const1 s' = const1 s → clock s' = clock s → same_skel s s'.
Proof.
  intros Ha Hr ????. split; try done.
  - unfold node_skels. by rewrite Ha.
  - unfold ram_shapes. by rewrite Hr.
Qed.

Lemma clear_visited_skel s : same_skel s (clear_visited s).
Proof. apply same_skel_of_as; try done. apply clear_visited_as. Qed.

Lemma clear_comb_visited_skel s : same_skel s (clear_comb_visited s).
Proof. apply same_skel_of_as; try done. apply clear_comb_visited_as. Qed.

Lemma clear_visited_cch s i : cch (clear_visited s) i = cch s i.
Proof.
  unfold cch, clear_visited; simpl. rewrite list_lookup_fmap.
  by destruct (nodes s !! i).
Qed.

Lemma clear_visited_vis s i : vis (clear_visited s) i = false.
Proof.
  unfold vis, clear_visited; simpl. rewrite list_lookup_fmap.
  by destruct (nodes s !! i).
Qed.

Lemma clear_comb_visited_cch s i : cch (clear_comb_visited s) i = cch s i.
Proof.
  unfold cch, clear_comb_visited; simpl. rewrite list_lookup_fmap.
  destruct (nodes s !! i) as [n|]; simpl; [|done]. by destruct (is_dff_type n).
Qed.

Lemma clear_comb_visited_vis s i :
  vis (clear_comb_visited s) i = if dff_at s i then vis s i else false.
Proof.
  unfold vis, dff_at, node_ass, clear_comb_visited; simpl. rewrite !list_lookup_fmap.
  destruct (nodes s !! i) as [n|]; simpl; [|done].
  unfold is_dff_type. by destruct (as_ n).
Qed.

Lemma lst_of_as s s' i : node_ass s' = node_ass s → lst s' i = lst s i.
Proof. intros H. unfold lst. by rewrite H. Qed.

Lemma const_at_of_as s s' i : node_ass s' = node_ass s → const_at s' i = const_at s i.
Proof. intros H. unfold const_at. by rewrite H. Qed.

Lemma clock_level_of_as s s' :
  node_ass s' = node_ass s → clock s' = clock s → clock_level s' = clock_level s.
Proof. intros Ha Hc. rewrite !clock_level_const_at, Hc. by apply const_at_of_as. Qed.

End StepPhases.

Section LoadPhase.
Implicit Types (s : grci_simulator) (p : ptr) (i j k : nat) (m : grci_module).

Lemma part_ram_skel s s' off : same_skel s s' → part_ram s' off = part_ram s off.
Proof.
  intros [Hn _ Hd _ _ _]. unfold part_ram. rewrite Hd.
  destruct (dff_nodes s !! off) as [k|]; simpl; [|done].
  apply (f_equal (λ l, l !! k)) in Hn. unfold node_skels, node_ass in Hn.
  rewrite !list_lookup_fmap in Hn.
  destruct (nodes s' !! k) as [n'|], (nodes s !! k) as [n|]; simplify_eq/=; [|done].
  destruct (as_ n'), (as_ n); by simplify_eq/=.
Qed.

Lemma part_ok_skel s s' mi i : same_skel s s' → part_ok s mi i → part_ok s' mi i.
Proof.
  intros Hsk. unfold part_ok. destruct (part_name (desc mi) i); [|done].
  intros (sub & part & off & len & ? & ? & ? & H).
  exists sub, part, off, len. repeat split; try done.
  destruct (String.eqb (name part) "Ram64K").
  - by rewrite (part_ram_skel _ _ _ Hsk).
  - by rewrite (sk_dffs _ _ Hsk).
Qed.

Lemma part_ram_rams s off r : sim_ok s → part_ram s off = Some r → r < length (rams s).
Proof.
  intros Hok. unfold part_ram.
  destruct (dff_nodes s !! off) as [k|]; simpl; [|done].
  destruct (nodes s !! k) as [n|] eqn:Hn; simpl; [|done].
  pose proof (sim_ok_node _ _ _ Hok Hn) as Hnok.
  destruct (as_ n) as [| | |r' l]; try done. intros [= <-].
  simpl in Hnok. by rewrite ram_shapes_length in Hnok.
Qed.

(** The load loop maintains every property [Q] that its two kinds of
    writes maintain. *)
Lemma load_states_inv (Q : grci_simulator → Prop) mi s :
  (∀ s1, Q s1 → same_skel s s1) →
  (∀ s1 r ram d, Q s1 → rams s1 !! r = Some ram →
     Q (with_rams s1 (<[r := with_data d ram]> (rams s1)))) →
  (∀ s1 i sub part off len j k v,
     is_Some (part_name (desc mi) i) → submodules mi !! i = Some sub →
     parts (desc mi) !! i = Some part → String.eqb (name part) "Ram64K" = false →
     dff_off_len mi !! i = Some (off, len) → j < len →
     dff_nodes s !! (j + off) = Some k → states sub !! j = Some v →
     Q s1 → Q (upd_node (λ n, set_cached v (set_last_state v n)) k s1)) →
  sim_ok s → Forall (part_ok s mi) (seq 0 (part_count (desc mi))) →
  Q s → ∃ s2, load_states mi s = Some s2 ∧ Q s2.
Proof.
  intros Hskel Hram Hdff Hok Hparts HQ. unfold load_states.
  apply (for_each_inv Q); [done|].
  intros i s1 Hi HQ1. rewrite Forall_forall in Hparts.
  pose proof (part_ok_skel _ _ _ _ (Hskel _ HQ1) (Hparts i Hi)) as Hp.
  unfold load_part_state, part_ok in *.
  destruct (part_name (desc mi) i) as [nm|] eqn:Hnm; [|eauto].
  destruct Hp as (sub & part & off & len & Hsub & Hpart & Hol & Hp).
  rewrite Hsub, Hpart, Hol; simpl.
  destruct (String.eqb (name part) "Ram64K") eqn:Hname.
  - destruct Hp as [r Hr]. rewrite Hr; simpl.
    pose proof (part_ram_rams _ _ _ (sim_ok_skel _ _ (Hskel _ HQ1) Hok) Hr) as Hlt.
    destruct (lookup_lt_is_Some_2 _ _ Hlt) as [ram Hram']. rewrite Hram'; simpl.
    eexists; split; [done|]. by apply Hram.
  - destruct Hp as [Hlen Hst].
    apply (for_each_inv Q); [done|].
    intros j s2 Hj HQ2. apply list_elem_of_In, in_seq in Hj.
    rewrite (sk_dffs _ _ (Hskel _ HQ2)).
    rewrite (sk_dffs _ _ (Hskel _ HQ1)) in Hlen.
    destruct (lookup_lt_is_Some_2 (dff_nodes s) (j + off)) as [k Hk]; [lia|].
    destruct (lookup_lt_is_Some_2 (states sub) j) as [v Hv]; [lia|].
    rewrite Hk, Hv; simpl. eexists; split; [done|].
    eapply (Hdff s2 i sub part off len j k v); eauto. lia.
Qed.

Lemma skel_load_write v n :
  skel_as (as_ (set_cached v (set_last_state v n))) = skel_as (as_ n).
Proof. simpl. apply skel_set_last_state. Qed.

Lemma load_states_frame mi s :
  sim_ok s → Forall (part_ok s mi) (seq 0 (part_count (desc mi))) →
  ∃ s2, load_states mi s = Some s2 ∧ upd_frame (λ k, k ∈ dff_nodes s) s s2.
Proof.
  intros Hok Hparts.
  apply (load_states_inv (λ s1, upd_frame (λ k, k ∈ dff_nodes s) s s1)); try done.
  - intros s1 H. apply H.
  - intros s1 r ram d Hf Hr. eapply upd_frame_trans; [exact Hf|].
    split; [|done]. split; try done. simpl. by apply ram_shapes_insert.
  - intros s1 i sub part off len j k v _ _ _ _ _ _ Hk _ Hf.
    eapply upd_frame_trans; [exact Hf|].
    apply upd_frame_upd; [apply skel_load_write|]. left.
    by eapply list_elem_of_lookup_2.
Qed.

End LoadPhase.

Section PassPhase.
Implicit Types (s : grci_simulator) (p : ptr) (i j k : nat) (m : grci_module).

Lemma as_frame_refl s : as_frame s s.
Proof. by split. Qed.

Lemma as_frame_trans s1 s2 s3 : as_frame s1 s2 → as_frame s2 s3 → as_frame s1 s3.
Proof. intros [] []. split; congruence. Qed.

Lemma as_frame_of_eval ex s s' : eval_frame ex s s' → as_frame s s'.
Proof. intros []. by split. Qed.

Lemma as_frame_skel s s' : as_frame s s' → same_skel s s'.
Proof. intros []. split; try done. unfold node_skels. congruence. Qed.

Lemma as_frame_upd f i s : (∀ n, as_ (f n) = as_ n) → as_frame s (upd_node f i s).
Proof. intros Hf. split; try done. by apply node_ass_upd. Qed.

Lemma as_frame_clear_comb s : as_frame s (clear_comb_visited s).
Proof. split; try done. apply clear_comb_visited_as. Qed.

Lemma as_frame_clear s : as_frame s (clear_visited s).
Proof. split; try done. apply clear_visited_as. Qed.

Lemma dff_pass_as ks s :
  sim_ok s → Forall (λ k, k < length (nodes s)) ks →
  ∃ s', dff_pass ks s = Some s' ∧ as_frame s s'.
Proof.
  revert s. induction ks as [|k ks IH]; intros s Hok Hks; simpl.
  - eexists; split; [done|apply as_frame_refl].
  - apply Forall_cons in Hks as [Hk Hks].
    pose proof (as_frame_upd (set_visited false) k s (λ _, eq_refl)) as Hf0.
    set (s0 := upd_node (set_visited false) k s) in *.
    pose proof (sim_ok_skel _ _ (as_frame_skel _ _ Hf0) Hok) as Hok0.
    destruct (eval_dff_frame s0 (Some k) true Hok0) as (v & s1 & E & Hf1).
    { simpl. by rewrite node_skels_length, (same_skel_length _ _ (as_frame_skel _ _ Hf0)). }
    rewrite E; simpl.
    pose proof (as_frame_trans _ _ _ Hf0
                  (as_frame_trans _ _ _ (as_frame_of_eval _ _ _ Hf1)
                                        (as_frame_clear_comb s1))) as Hf2.
    destruct (IH (clear_comb_visited s1)) as (s' & E' & Hf').
    { eapply sim_ok_skel; [|exact Hok]. by apply as_frame_skel. }
    { by rewrite (same_skel_length _ _ (as_frame_skel _ _ Hf2)). }
    exists s'. split; [done|]. by eapply as_frame_trans.
Qed.

Lemma skel_commit n :
  skel_as (as_ (set_last_state (cached_state n) n)) = skel_as (as_ n).
Proof. apply skel_set_last_state. Qed.

Lemma commit_dffs_frame ks s :
  upd_frame (λ k, k ∈ ks) s (commit_dffs ks s) ∧ rams (commit_dffs ks s) = rams s.
Proof.
  revert s. induction ks as [|k ks IH]; intros s; simpl.
  - split; [apply upd_frame_refl|done].
  - destruct (IH (upd_node (λ n, set_last_state (cached_state n) n) k s)) as [Hf Hr].
    split; [|by rewrite Hr].
    eapply upd_frame_trans.
    + apply (upd_frame_upd (λ j, j ∈ k :: ks)); [apply skel_commit|]. left. by left.
    + eapply upd_frame_mono; [|exact Hf]. intros j Hj. by right.
Qed.

(** *** The output loop *)

Lemma eval_outputs_frame ks mi outs s :
  sim_ok s →
  Forall (λ k, ∃ p, inst_outputs mi !! k = Some p ∧ ptr_ok (length (node_skels s)) p) ks →
  ∃ outs' s', eval_outputs ks mi outs s = Some (outs', s') ∧ eval_frame None s s' ∧
              length outs' = length outs.
Proof.
  revert outs s. induction ks as [|k ks IH]; intros outs s Hok Hks; simpl.
  - eexists _, _. split; [done|]. split; [apply eval_frame_refl|done].
  - apply Forall_cons in Hks as [(p & Hp & Hpok) Hks]. rewrite Hp; simpl.
    destruct (eval_node_frame s p Hok Hpok) as (v & s1 & E & Hf1). rewrite E; simpl.
    destruct (IH (<[k := v]> outs) s1) as (outs' & s' & E' & Hf' & Hlen).
    { eapply frame_sim_ok; eauto. }
    { by rewrite (frame_skels _ _ _ Hf1). }
    exists outs', s'. split; [done|]. split; [by eapply eval_frame_trans|].
    by rewrite Hlen, length_insert.
Qed.

(** *** The snapshot loop *)

Lemma snapshot_ram_loop_length n i data sts :
  length (snapshot_ram_loop n i data sts) = length sts.
Proof.
  revert i sts. induction n as [|n IH]; intros i sts; simpl; [done|].
  by rewrite IH, length_insert.
Qed.

Lemma same_sizes_refl subs : same_sizes subs subs.
Proof. apply Forall2_same_length_lookup. split; [done|]. intros i a b ??. congruence. Qed.

Lemma same_sizes_insert subs subs' i sub' st :
  same_sizes subs subs' → subs' !! i = Some sub' → length st = length (states sub') →
  same_sizes subs (<[i := {| state_count := state_count sub'; states := st |}]> subs').
Proof.
  intros H Hi Hlen. unfold same_sizes in *.
  rewrite Forall2_same_length_lookup in H. destruct H as [Hl H].
  apply Forall2_same_length_lookup. split; [by rewrite length_insert|].
  intros j a b Ha Hb. destruct (decide (i = j)) as [->|Hne].
  - rewrite list_lookup_insert_eq in Hb by (by eapply lookup_lt_Some). simplify_eq/=.
    rewrite Hlen. by eapply H.
  - rewrite list_lookup_insert_ne in Hb by done. by eapply H.
Qed.

Lemma snapshot_states_total s mi :
  sim_ok s → Forall (λ k, is_Some (lst s k)) (dff_nodes s) →
  Forall (part_ok s mi) (seq 0 (part_count (desc mi))) →
  ∃ subs, snapshot_states s mi = Some subs ∧ same_sizes (submodules mi) subs.
Proof.
  intros Hok Hdffs Hparts. unfold snapshot_states.
  apply (for_each_inv (same_sizes (submodules mi))); [apply same_sizes_refl|].
  intros i subs Hi Hsz. rewrite Forall_forall in Hparts. specialize (Hparts i Hi).
  unfold snapshot_part_state, part_ok in *.
  destruct (part_name (desc mi) i) as [nm|]; [|eauto].
  destruct Hparts as (sub & part & off & len & Hsub & Hpart & Hol & Hp).
  pose proof Hsz as Hsz'. apply Forall2_same_length_lookup in Hsz' as [Hlen Hsz'].
  destruct (lookup_lt_is_Some_2 subs i) as [sub' Hsub'].
  { rewrite <- Hlen. by eapply lookup_lt_Some. }
  pose proof (Hsz' i sub sub' Hsub Hsub') as Hst.
  rewrite Hsub', Hpart, Hol; simpl.
  destruct (String.eqb (name part) "Ram64K").
  - destruct Hp as [r Hr]. rewrite Hr; simpl.
    pose proof (part_ram_rams _ _ _ Hok Hr) as Hlt.
    destruct (lookup_lt_is_Some_2 _ _ Hlt) as [ram Hram]. rewrite Hram; simpl.
    eexists; split; [done|]. apply same_sizes_insert; [done..|].
    apply snapshot_ram_loop_length.
  - destruct Hp as [Hol' Hlst].
    destruct (for_each_inv (λ st, length st = length (states sub')) (seq 0 len)
                (λ j st, k ← dff_nodes s !! (j + off); node ← nodes s !! k;
                         l ← last_state_of node; Some (<[j := l]> st))
                (states sub')) as (sts & E & Hsts); [done| |].
    { intros j st Hj Hl. apply list_elem_of_In, in_seq in Hj.
      destruct (lookup_lt_is_Some_2 (dff_nodes s) (j + off)) as [k Hk]; [lia|].
      rewrite Hk; simpl. rewrite Forall_forall in Hdffs.
      destruct (Hdffs k) as [l Hl']; [by eapply list_elem_of_lookup_2|].
      unfold lst, node_ass in Hl'. rewrite list_lookup_fmap in Hl'.
      destruct (nodes s !! k) as [n|]; simplify_eq/=.
      unfold last_state_of. change (last_state_as (as_ n) = Some l) in Hl'.
      unfold last_state_as in Hl'. rewrite Hl'; simpl.
      eexists; split; [done|]. by rewrite length_insert. }
    rewrite E; simpl. eexists; split; [done|]. by apply same_sizes_insert.
Qed.

End PassPhase.

Section StepSpec.
Implicit Types (s : grci_simulator) (p : ptr) (i j k : nat) (m : grci_module).

Lemma const_not_stateful s k : is_Some (const_at s k) → lst s k = None.
Proof.
  unfold const_at, lst. destruct (node_ass s !! k) as [[]|]; simpl; try done;
    intros [? ?]; done.
Qed.

Lemma clock_not_dff s :
  is_Some (clock_level s) → Forall (λ k, is_Some (lst s k)) (dff_nodes s) →
  clock s ∉ dff_nodes s.
Proof.
  intros Hc Hd Hin. rewrite clock_level_const_at in Hc.
  rewrite Forall_forall in Hd. specialize (Hd _ Hin).
  rewrite (const_not_stateful _ _ Hc) in Hd. by destruct Hd.
Qed.

Lemma upd_frame_clock_level K s s' :
  upd_frame K s s' → ¬ K (clock s) → clock_level s' = clock_level s.
Proof.
  intros Hf HK. rewrite !clock_level_const_at, (sk_clock _ _ (uf_skel _ _ _ Hf)).
  by eapply upd_frame_const_at.
Qed.

Lemma stateful_skel s s' :
  same_skel s s' → Forall (λ k, is_Some (lst s k)) (dff_nodes s) →
  Forall (λ k, is_Some (lst s' k)) (dff_nodes s').
Proof.
  intros Hsk Hd. rewrite (sk_dffs _ _ Hsk).
  eapply Forall_impl; [exact Hd|]. intros k Hk. by apply (same_skel_lst_kind _ _ k Hsk).
Qed.

Lemma stateful_lt s k : is_Some (lst s k) → k < length (nodes s).
Proof.
  unfold lst. intros [l Hl]. rewrite <- node_ass_length.
  apply lookup_lt_is_Some. destruct (node_ass s !! k); [eauto|done].
Qed.

Lemma part_ok_sizes s mi subs i :
  same_sizes (submodules mi) subs → part_ok s mi i → part_ok s (with_submodules mi subs) i.
Proof.
  intros Hsz. unfold part_ok; simpl. destruct (part_name (desc mi) i); [|done].
  intros (sub & part & off & len & Hsub & Hpart & Hol & Hp).
  apply Forall2_same_length_lookup in Hsz as [Hlen Hsz].
  destruct (lookup_lt_is_Some_2 subs i) as [sub' Hsub'].
  { rewrite <- Hlen. by eapply lookup_lt_Some. }
  exists sub', part, off, len. repeat split; try done.
  destruct (String.eqb (name part) "Ram64K"); [done|].
  destruct Hp as [? ?]. split; [done|]. by rewrite (Hsz i sub sub' Hsub Hsub').
Qed.

Lemma step_unfold m s1 s2 s3 h s5 outs s6 subs r :
  publish_inputs m = Some s1 → load_states (m_module m) s1 = Some s2 →
  toggle_clock s2 = Some s3 → clock_level (clear_visited s3) = Some h →
  (if h then commit_dffs (dff_nodes (clear_visited s3))
              <$> dff_pass (dff_nodes (clear_visited s3)) (clear_visited s3)
   else Some (clear_visited s3)) = Some s5 →
  eval_outputs (seq 0 (output_count (desc (m_module m)))) (m_module m) (m_outputs m) s5
    = Some (outs, s6) →
  snapshot_states s6 (m_module m) = Some subs → clock_level s6 = Some r →
  grci_step_module m =
    Some ({| m_inputs := m_inputs m; m_outputs := outs; m_sim := s6;
             m_module := with_submodules (m_module m) subs |}, r).
Proof.
  intros E1 E2 E3 E4 E5 E6 E7 E8. unfold grci_step_module.
  rewrite E1. cbn [mbind option_bind]. rewrite E2. cbn [mbind option_bind].
  rewrite E3. cbn [mbind option_bind]. rewrite E4. cbn [mbind option_bind].
  rewrite E5. cbn [mbind option_bind]. rewrite E6. cbn [mbind option_bind].
  rewrite E7. cbn [mbind option_bind]. by rewrite E8.
Qed.

Lemma step_trace_exists m c :
  module_ok m → clock_level (m_sim m) = Some c →
  ∃ s1 s2 s3 s5 s6 m', step_trace m c s1 s2 s3 s5 s6 m'.
Proof.
  intros Hm Hc. pose proof Hm as [Hok Hclk Hdffs Hnodup Hin Hout Hparts].
  destruct (publish_inputs_frame m Hm) as (s1 & E1 & Hf1 & Hr1).
  pose proof (uf_skel _ _ _ Hf1) as Hsk1.
  destruct (load_states_frame (m_module m) s1) as (s2 & E2 & Hf2).
  { by eapply sim_ok_skel. }
  { eapply Forall_impl; [exact Hparts|]. intros i. by apply part_ok_skel. }
  pose proof (same_skel_trans _ _ _ Hsk1 (uf_skel _ _ _ Hf2)) as Hsk2.
  assert (clock_level s1 = Some c) as Hc1.
  { rewrite (upd_frame_clock_level _ _ _ Hf1); [done|]. by intros [? _]. }
  assert (clock_level s2 = Some c) as Hc2.
  { rewrite (upd_frame_clock_level _ _ _ Hf2); [done|].
    apply clock_not_dff; [by rewrite Hc1|]. by eapply stateful_skel. }
  destruct (toggle_clock_frame s2 c Hc2) as (s3 & E3 & Hf3 & Hc3 & Hr3).
  pose proof (same_skel_trans _ _ _ Hsk2 (uf_skel _ _ _ Hf3)) as Hsk3.
  set (s4 := clear_visited s3).
  pose proof (same_skel_trans _ _ _ Hsk3 (clear_visited_skel s3)) as Hsk4. fold s4 in Hsk4.
  assert (clock_level s4 = Some (negb c)) as Hc4.
  { unfold s4. rewrite (clock_level_of_as s3 (clear_visited s3)); [done| |done].
    apply clear_visited_as. }
  pose proof (sim_ok_skel _ _ Hsk4 Hok) as Hok4.
  pose proof (stateful_skel _ _ Hsk4 Hdffs) as Hdffs4.
  assert (∃ s5, (if negb c then commit_dffs (dff_nodes s4) <$> dff_pass (dff_nodes s4) s4
                 else Some s4) = Some s5 ∧ same_skel s4 s5 ∧
                clock_level s5 = Some (negb c)) as (s5 & E5 & Hsk45 & Hc5).
  { destruct (negb c) eqn:Hnc.
    - destruct (dff_pass_as (dff_nodes s4) s4 Hok4) as (sp & Ep & Hfp).
      { eapply Forall_impl; [exact Hdffs4|]. intros k. apply stateful_lt. }
      exists (commit_dffs (dff_nodes s4) sp). split; [by rewrite Ep|].
      destruct (commit_dffs_frame (dff_nodes s4) sp) as [Hfc _].
      split.
      + eapply same_skel_trans; [by apply as_frame_skel|apply Hfc].
      + rewrite (upd_frame_clock_level _ _ _ Hfc).
        * rewrite (clock_level_of_as s4 sp); [done|apply Hfp..].
        * rewrite (af_clock _ _ Hfp).
          apply clock_not_dff; [by rewrite Hc4|done].
    - eexists; split; [done|]. split; [apply same_skel_refl|done]. }
  pose proof (same_skel_trans _ _ _ Hsk4 Hsk45) as Hsk5.
  destruct (eval_outputs_frame (seq 0 (output_count (desc (m_module m)))) (m_module m)
              (m_outputs m) s5) as (outs & s6 & E6 & Hf6 & Hlen6).
  { by eapply sim_ok_skel. }
  { eapply Forall_impl; [exact Hout|]. intros k (p & ? & ?). exists p. split; [done|].
    by rewrite (sk_nodes _ _ Hsk5). }
  pose proof (same_skel_trans _ _ _ Hsk5 (eval_frame_skel _ _ _ Hf6)) as Hsk6.
  destruct (snapshot_states_total s6 (m_module m)) as (subs & E7 & Hsz).
  { by eapply sim_ok_skel. }
  { by eapply stateful_skel. }
  { eapply Forall_impl; [exact Hparts|]. intros i. by apply part_ok_skel. }
  assert (clock_level s6 = Some (negb c)) as Hc6.
  { rewrite (clock_level_of_as s5 s6); [done|apply Hf6..]. }
  exists s1, s2, s3, s5, s6,
    {| m_inputs := m_inputs m; m_outputs := outs; m_sim := s6;
       m_module := with_submodules (m_module m) subs |}.
  split; try done.
  - unfold pre_pass. rewrite E1; simpl. rewrite E2; simpl. by rewrite E3.
  - by eapply step_unfold.
Qed.

Lemma step_trace_ok m c s1 s2 s3 s5 s6 m' :
  module_ok m → step_trace m c s1 s2 s3 s5 s6 m' → module_ok m'.
Proof.
  intros [Hok Hclk Hdffs Hnodup Hin Hout Hparts] Ht.
  pose proof (st_skel _ _ _ _ _ _ _ _ Ht) as Hsk.
  pose proof (st_sim _ _ _ _ _ _ _ _ Ht) as Hsim.
  pose proof (st_mi _ _ _ _ _ _ _ _ Ht) as Hmi.
  split; rewrite ?Hsim.
  - by eapply sim_ok_skel.
  - rewrite (st_level' _ _ _ _ _ _ _ _ Ht). eauto.
  - by eapply stateful_skel.
  - by rewrite (sk_dffs _ _ Hsk).
  - rewrite Hmi, (st_inputs _ _ _ _ _ _ _ _ Ht), (sk_clock _ _ Hsk). exact Hin.
  - rewrite Hmi, (sk_nodes _ _ Hsk). exact Hout.
  - rewrite Hmi. simpl. eapply Forall_impl; [exact Hparts|]. intros i Hi.
    apply part_ok_sizes; [apply (st_sizes _ _ _ _ _ _ _ _ Ht)|]. by eapply part_ok_skel.
Qed.

End StepSpec.

Lemma for_each_rel {A St : Type} (R : St → St → Prop) (l : list A)
    (body : A → St → option St) (st st' : St) :
  (∀ x, R x x) → (∀ x y z, R x y → R y z → R x z) →
  (∀ x st1 st2, x ∈ l → body x st1 = Some st2 → R st1 st2) →
  for_each l body st = Some st' → R st st'.
Proof.
  intros Hrefl Htrans. revert st. induction l as [|x l IH]; intros st Hbody E; simpl in E.
  - by simplify_eq.
  - destruct (body x st) as [st1|] eqn:E1; simplify_eq/=.
    eapply Htrans; [eapply Hbody; [by left|done]|].
    apply IH; [|done]. intros y ?? Hy. apply Hbody. by right.
Qed.

(** ** Relations that every elaboration step respects *)

Lemma desc_size_part (d p : grci_module_desc) : p ∈ parts d → desc_size p < desc_size d.
Proof.
  destruct d as [nm ps]. simpl. intros Hp. apply Nat.lt_succ_r.
  induction ps as [|q ps IH]; [by inversion Hp|].
  simpl. apply elem_of_cons in Hp as [->|Hp]; [lia|]. specialize (IH Hp). lia.
Qed.

Lemma make_module_unfold (d : grci_module_desc) (s : grci_simulator) :
  grci_make_module d s =
    '(s1, apis, ols) ← make_parts grci_make_module (parts d) s;
    let sks := alloc_sinks d in
    let mk sks outs :=
      {| desc := d; sinks := sks; inst_inputs := []; inst_outputs := outs;
         submodules := []; dff_off_len := ols |} in
    if is_nand d then
      let '(n, s2) := grci_nand_new s1 None None in
      Some (s2, mk (set_sink0 1 (SlotNandB n) (set_sink0 0 (SlotNandA n) sks)) [Some n])
    else if is_dff d then
      let '(n, s2) := grci_dff_new s1 in
      Some (s2, mk (set_sink0 0 (SlotDffInput n) sks) [Some n])
    else if is_ram64K d then
      let '(r, s2) := grci_ram64k_new s1 in
      ram ← rams s2 !! r;
      let sks1 := foldl (λ acc i, set_sink0 i (SlotRamInput r i) acc) sks (seq 0 16) in
      let sks2 := set_sink0 16 (SlotRamLoad r) sks1 in
      let sks3 :=
        foldl (λ acc i, set_sink0 i (SlotRamAddr r (i - 17)) acc) sks2 (seq 17 16) in
      Some (s2, mk sks3 (Some <$> ram_outputs ram))
    else
      '(s2, sks') ← connect_parts d apis (s1, sks);
      Some (s2, mk sks' (output_driver s2 apis <$> take (output_count d) (outputs d))).
Proof. by destruct d. Qed.

(** A relation that the four node constructors and the store through a
    slot respect holds between the initial simulator and the simulator of
    an instantiated module. *)
Section ElabCtor.

Variable R : grci_simulator → grci_simulator → Prop.
Hypothesis R_refl : ∀ s, R s s.
Hypothesis R_trans : ∀ s1 s2 s3, R s1 s2 → R s2 s3 → R s1 s3.
Hypothesis R_constant : ∀ s c, R s (grci_constant_new s c).2.
Hypothesis R_nand : ∀ s a b, R s (grci_nand_new s a b).2.
Hypothesis R_dff : ∀ s, R s (grci_dff_new s).2.
Hypothesis R_ram64k : ∀ s, R s (grci_ram64k_new s).2.
Hypothesis R_write_slot : ∀ sl obj s, R s (write_slot sl obj s).

#[local] Arguments grci_constant_new : simpl never.
#[local] Arguments grci_nand_new : simpl never.
#[local] Arguments grci_dff_new : simpl never.
#[local] Arguments grci_ram64k_new : simpl never.
#[local] Arguments write_slot : simpl never.

Implicit Types (s : grci_simulator) (d : grci_module_desc).

Lemma ctor_set_module_inputs api inputs s sks s' sks' :
  grci_set_module_inputs api inputs (s, sks) = Some (s', sks') → R s s'.
Proof using R_refl R_trans R_write_slot.
  clear R_constant R_nand R_dff R_ram64k.
  unfold grci_set_module_inputs. intros E.
  apply (for_each_rel (λ st st', R st.1 st'.1)) in E; [done| | |].
  - intros ?. apply R_refl.
  - intros ???. apply R_trans.
  - intros i st1 st2 _ E1.
    destruct (inputs !! i) as [input|]; simplify_eq/=.
    destruct (sink_counts (desc api) !! i) as [cnt|]; simplify_eq/=.
    apply (for_each_rel (λ st st', R st.1 st'.1)) in E1; [done| | |].
    + intros ?. apply R_refl.
    + intros ???. apply R_trans.
    + intros j [s1 sk1] [s2 sk2] _ E2. simpl in *.
      destruct (sinks api !! i) as [sk|]; simplify_eq/=.
      destruct (ptps sk !! j) as [sl|]; simplify_eq/=.
      destruct input as [obj|p].
      * destruct sl as [sl|]; simplify_eq/=. apply R_write_slot.
      * destruct (sk1 !! p); simplify_eq/=. apply R_refl.
Qed.

Lemma ctor_connect_parts d apis s sks s' sks' :
  connect_parts d apis (s, sks) = Some (s', sks') → R s s'.
Proof using R_refl R_trans R_write_slot.
  clear R_constant R_nand R_dff R_ram64k.
  unfold connect_parts. intros E.
  apply (for_each_rel (λ st st', R st.1 st'.1)) in E; [done| | |].
  - intros ?. apply R_refl.
  - intros ???. apply R_trans.
  - intros i [s1 sk1] [s2 sk2] _ E1. simpl in *.
    destruct (apis !! i) as [api|]; simplify_eq/=.
    destruct (part_connections d !! i) as [conns|]; simplify_eq/=.
    by eapply ctor_set_module_inputs.
Qed.

Lemma ctor_make_parts mk ps s s' apis ols :
  (∀ p s1 s2 api, p ∈ ps → mk p s1 = Some (s2, api) → R s1 s2) →
  make_parts mk ps s = Some (s', apis, ols) → R s s'.
Proof using R_refl R_trans.
  clear R_constant R_nand R_dff R_ram64k R_write_slot.
  revert s s' apis ols. induction ps as [|p ps IH]; intros s s' apis ols Hmk E; simpl in E.
  - simplify_eq. apply R_refl.
  - destruct (mk p s) as [[s1 api]|] eqn:E1; simplify_eq/=.
    destruct (make_parts mk ps s1) as [[[s2 apis'] ols']|] eqn:E2; simplify_eq/=.
    eapply R_trans; [eapply Hmk; [by left|done]|].
    eapply IH; [|done]. intros ????? . eapply Hmk. by right.
Qed.

Lemma ctor_make_module d s s' api :
  grci_make_module d s = Some (s', api) → R s s'.
Proof using All.
  remember (desc_size d) as n eqn:Hn. revert d Hn s s' api.
  induction n as [n IH] using lt_wf_ind. intros d -> s s' api E.
  rewrite make_module_unfold in E.
  destruct (make_parts grci_make_module (parts d) s) as [[[s1 apis] ols]|] eqn:E1;
    [|discriminate E].
  cbn [mbind option_bind] in E.
  assert (R s s1) as H1.
  { eapply ctor_make_parts; [|done].
    intros p s2 s3 api' Hp. eapply (IH (desc_size p)); [|done].
    by apply desc_size_part. }
  eapply R_trans; [exact H1|].
  assert (∀ (x y : grci_simulator * grci_module_instance), Some x = Some y → x.1 = y.1)
    as Hfst by (by intros ?? [= ->]).
  destruct (is_nand d).
  { apply Hfst in E. cbn [fst] in E. subst s'. apply R_nand. }
  destruct (is_dff d).
  { pose proof (R_dff s1) as H2.
    destruct (grci_dff_new s1) as [k s2]. apply Hfst in E. cbn [fst] in E. by subst s'. }
  destruct (is_ram64K d).
  { pose proof (R_ram64k s1) as H2.
    destruct (grci_ram64k_new s1) as [r s2].
    destruct (rams s2 !! r); [|discriminate E].
    cbn [mbind option_bind] in E. apply Hfst in E. cbn [fst] in E. by subst s'. }
  destruct (connect_parts d apis (s1, alloc_sinks d)) as [[s2 sks2]|] eqn:E2;
    [|discriminate E].
  cbn [mbind option_bind] in E. apply Hfst in E. cbn [fst] in E. subst s'.
  eapply ctor_connect_parts, E2.
Qed.

Lemma ctor_new_input_nodes n s : R s (new_input_nodes n s).2.
Proof using R_refl R_trans R_constant.
  revert s. induction n as [|n IH]; intros s; [apply R_refl|].
  cbn [new_input_nodes].
  pose proof (R_constant s false) as H1.
  destruct (grci_constant_new s false) as [k s1]. specialize (IH s1).
  destruct (new_input_nodes n s1) as [ks s2]. cbn [snd] in *. by eapply R_trans.
Qed.

Lemma ctor_init_module defs nm m :
  grci_init_module defs nm = Some m → R grci_simulator_init (m_sim m).
Proof using All.
  unfold grci_init_module. intros E.
  destruct (grci_module_desc_list_get defs nm) as [decl|]; [|discriminate E].
  cbn [mbind option_bind] in E.
  destruct (grci_make_module decl grci_simulator_init) as [[s1 mi]|] eqn:E1;
    [|discriminate E].
  cbn [mbind option_bind] in E.
  pose proof (ctor_make_module _ _ _ _ E1) as H1.
  pose proof (ctor_new_input_nodes (input_count decl) s1) as H2.
  destruct (new_input_nodes (input_count decl) s1) as [ins s2]. cbn [snd] in H2.
  match type of E with
  | context [grci_set_module_inputs ?a ?i ?st] =>
      destruct (grci_set_module_inputs a i st) as [[s3 sks3]|] eqn:E3; [|discriminate E]
  end.
  cbn [mbind option_bind] in E.
  pose proof (ctor_set_module_inputs _ _ _ _ _ _ E3) as H3.
  assert (m_sim m = s3) as -> by (by injection E as <-).
  eapply R_trans; [exact H1|]. eapply R_trans; [exact H2|exact H3].
Qed.

End ElabCtor.

(** The same for a relation that is respected by the elementary writes
    the constructors are made of. *)
Section ElabRel.

Variable R : grci_simulator → grci_simulator → Prop.
Hypothesis R_refl : ∀ s, R s s.
Hypothesis R_trans : ∀ s1 s2 s3, R s1 s2 → R s2 s3 → R s1 s3.
Hypothesis R_push : ∀ n s, new_node n → R s (push_node n s).2.
Hypothesis R_dff_ref : ∀ k s, R s (push_dff_ref k s).
Hypothesis R_rams : ∀ s rs, R s (with_rams s rs).
Hypothesis R_node_slot : ∀ sl obj n s, R s (upd_node (set_slot_field sl obj) n s).

Implicit Types (s : grci_simulator) (d : grci_module_desc).

Lemma rel_constant_new s c : R s (grci_constant_new s c).2.
Proof using R_push. by apply R_push. Qed.

Lemma rel_nand_new s a b : R s (grci_nand_new s a b).2.
Proof using R_push. by apply R_push. Qed.

Lemma rel_dff_new s : R s (grci_dff_new s).2.
Proof using R_trans R_push R_dff_ref.
  unfold grci_dff_new, push_node. cbn [snd].
  eapply R_trans; [|apply R_dff_ref].
  by apply (R_push {| as_ := AsDff None false; visited := false; cached_state := false |}).
Qed.

Lemma rel_ram64kout_new s r : R s (grci_ram64kout_new s r).2.
Proof using R_trans R_push R_dff_ref.
  unfold grci_ram64kout_new, push_node. cbn [snd].
  eapply R_trans; [|apply R_dff_ref].
  by apply (R_push {| as_ := AsRam64KOut r false; visited := false; cached_state := false |}).
Qed.

Lemma rel_ram_outputs n r s : R s (ram64k_new_outputs n r s).2.
Proof using R_refl R_trans R_push R_dff_ref.
  revert s. induction n as [|n IH]; intros s; [apply R_refl|].
  cbn [ram64k_new_outputs].
  pose proof (rel_ram64kout_new s r) as H1.
  destruct (grci_ram64kout_new s r) as [o s1]. specialize (IH s1).
  destruct (ram64k_new_outputs n r s1) as [os s2]. simpl in *.
  by eapply R_trans.
Qed.

Lemma rel_ram64k_new s : R s (grci_ram64k_new s).2.
Proof using R_refl R_trans R_push R_dff_ref R_rams.
  unfold grci_ram64k_new. pose proof (rel_ram_outputs 16 (length (rams s)) s) as H1.
  destruct (ram64k_new_outputs 16 (length (rams s)) s) as [outs s1].
  eapply R_trans; [exact H1|]. apply R_rams.
Qed.

Lemma rel_write_slot sl obj s : R s (write_slot sl obj s).
Proof using R_rams R_node_slot. destruct sl; simpl; try apply R_node_slot; apply R_rams. Qed.

(** Every relation of this kind holds between the initial simulator and
    an instantiated module. *)
Lemma rel_init_module defs nm m :
  grci_init_module defs nm = Some m → R grci_simulator_init (m_sim m).
Proof using All.
  apply (ctor_init_module R R_refl R_trans rel_constant_new rel_nand_new rel_dff_new
           rel_ram64k_new rel_write_slot).
Qed.

End ElabRel.

Section Elab.
Implicit Types (s : grci_simulator) (d : grci_module_desc).

Lemma elab_frame_refl s : elab_frame s s.
Proof. by repeat split. Qed.

Lemma elab_frame_trans s1 s2 s3 : elab_frame s1 s2 → elab_frame s2 s3 → elab_frame s1 s3.
Proof.
  intros (?&?&?&Hn1) (?&?&?&Hn2). repeat split; try congruence.
  intros i Hi. rewrite Hn2, Hn1; [done..|].
  unfold const_at, node_ass in *. by rewrite list_lookup_fmap, Hn1, <- list_lookup_fmap.
Qed.

Lemma elab_frame_push n s : elab_frame s (push_node n s).2.
Proof.
  repeat split; try done. intros i [c Hc]. simpl.
  apply lookup_app_l. unfold const_at in Hc. rewrite <- node_ass_length.
  apply lookup_lt_is_Some. destruct (node_ass s !! i); [eauto|done].
Qed.

Lemma elab_frame_node_slot sl obj n s : elab_frame s (upd_node (set_slot_field sl obj) n s).
Proof.
  repeat split; try done. intros i [c Hc]. rewrite upd_node_lookup.
  destruct (decide (n = i)) as [->|]; [|done].
  unfold const_at, node_ass in Hc. rewrite list_lookup_fmap in Hc.
  destruct (nodes s !! i) as [nd|]; simplify_eq/=.
  unfold set_slot_field. destruct (as_ nd); simplify_eq/=. by destruct sl.
Qed.

Lemma elab_frame_clock_level s s' c :
  elab_frame s s' → clock_level s = Some c → clock_level s' = Some c.
Proof.
  intros (Hc & _ & _ & H) Hl. rewrite clock_level_const_at in *. rewrite Hc.
  assert (nodes s' !! clock s = nodes s !! clock s) as Hn by (apply H; by rewrite Hl).
  unfold const_at, node_ass in *. rewrite list_lookup_fmap in *. by rewrite Hn.
Qed.

Lemma simulator_init_clock : clock_level grci_simulator_init = Some true.
Proof. reflexivity. Qed.

Lemma init_module_clock defs nm m :
  grci_init_module defs nm = Some m → clock_level (m_sim m) = Some true.
Proof.
  intros E. eapply elab_frame_clock_level; [|exact simulator_init_clock].
  refine (rel_init_module elab_frame elab_frame_refl elab_frame_trans
            (λ n s _, elab_frame_push n s) _ _ elab_frame_node_slot _ _ _ E).
  - intros k s. by repeat split.
  - intros s rs. by repeat split.
Qed.

(** *** A fresh instance has every DFF synchronised *)

Lemma dff_sync_push n s : new_node n → dff_sync s → dff_sync (push_node n s).2.
Proof.
  intros Hn Hs i. specialize (Hs i). revert Hs.
  unfold dff_at, cch, lst, node_ass. simpl. rewrite !list_lookup_fmap.
  destruct (decide (i < length (nodes s))) as [Hlt|Hge].
  - by rewrite lookup_app_l by done.
  - intros _. rewrite lookup_app_r by lia.
    destruct (i - length (nodes s)) as [|?]; simpl; [|done].
    unfold new_node in Hn. destruct (as_ n); simpl in *; try done. by subst.
Qed.

Lemma dff_sync_node_slot sl obj n s :
  dff_sync s → dff_sync (upd_node (set_slot_field sl obj) n s).
Proof.
  intros Hs i Hi. revert Hi. unfold dff_at, cch, lst, node_ass.
  rewrite !list_lookup_fmap, upd_node_lookup.
  specialize (Hs i). unfold dff_at, cch, lst, node_ass in Hs.
  rewrite !list_lookup_fmap in Hs.
  destruct (decide (n = i)) as [->|]; [|done].
  destruct (nodes s !! i) as [nd|]; simpl in *; [|done].
  unfold set_slot_field.
  destruct sl, (as_ nd) eqn:Has; simpl in *; rewrite ?Has; simpl; auto.
Qed.

Lemma init_module_sync defs nm m :
  grci_init_module defs nm = Some m → dff_sync (m_sim m).
Proof.
  intros E.
  refine (rel_init_module (λ s s', dff_sync s → dff_sync s') (λ s H, H) _
            dff_sync_push _ _ dff_sync_node_slot _ _ _ E _).
  - intros s1 s2 s3 H1 H2 H. auto.
  - intros k s H. exact H.
  - intros s rs H. exact H.
  - intros i Hi. unfold dff_at, node_ass in Hi. simpl in Hi.
    by destruct i as [|[|[|i]]].
Qed.

End Elab.

Section ClockClaims.
Implicit Types (s : grci_simulator) (m : grci_module).

Lemma step_flips m c :
  module_ok m → clock_level (m_sim m) = Some c →
  ∃ m', grci_step_module m = Some (m', negb c) ∧
        clock_level (m_sim m') = Some (negb c) ∧ module_ok m'.
Proof.
  intros Hm Hc. destruct (step_trace_exists m c Hm Hc) as (s1&s2&s3&s5&s6&m'&Ht).
  exists m'. split; [apply Ht|]. split.
  - rewrite (st_sim _ _ _ _ _ _ _ _ Ht). apply Ht.
  - by eapply step_trace_ok.
Qed.

Lemma part_ok_alter s mi i f :
  (∀ sub, length (states (f sub)) = length (states sub)) →
  ∀ j, part_ok s mi j → part_ok s (with_submodules mi (alter f i (submodules mi))) j.
Proof.
  intros Hf j. apply part_ok_sizes. apply Forall2_same_length_lookup.
  split; [by rewrite length_alter|]. intros k a b Ha Hb.
  rewrite list_lookup_alter in Hb. destruct (decide (i = k)) as [->|].
  - rewrite Ha in Hb. simplify_eq/=. apply Hf.
  - congruence.
Qed.

Lemma apply_write_ok m w : module_ok m → module_ok (apply_write m w).
Proof.
  intros [Hok Hclk Hdffs Hnodup Hin Hout Hparts]. destruct w as [idx v|i j v]; simpl.
  - split; try done. simpl.
    eapply Forall_impl; [exact Hin|]. intros i (k & ? & ? & Hs). exists k.
    repeat split; try done. apply lookup_lt_is_Some. rewrite length_insert.
    by apply lookup_lt_is_Some.
  - split; try done. simpl.
    eapply Forall_impl; [exact Hparts|]. intros k.
    apply part_ok_alter. intros sub. simpl. apply length_insert.
Qed.

Lemma apply_writes_ok m ws : module_ok m → module_ok (foldl apply_write m ws).
Proof.
  revert m. induction ws as [|w ws IH]; intros m Hm; simpl; [done|].
  apply IH. by apply apply_write_ok.
Qed.

Lemma apply_write_sim m w : m_sim (apply_write m w) = m_sim m.
Proof. by destruct w. Qed.

Lemma apply_writes_sim m ws : m_sim (foldl apply_write m ws) = m_sim m.
Proof.
  revert m. induction ws as [|w ws IH]; intros m; simpl; [done|].
  by rewrite IH, apply_write_sim.
Qed.

Lemma run_steps_levels ws m c :
  module_ok m → clock_level (m_sim m) = Some c →
  ∃ m' rs, run_steps m ws = Some (m', rs) ∧ length rs = length ws ∧ module_ok m' ∧
           clock_level (m_sim m') = Some (if Nat.even (length ws) then c else negb c) ∧
           ∀ k r, rs !! k = Some r → r = if Nat.even k then negb c else c.
Proof.
  revert m c. induction ws as [|w ws IH]; intros m c Hm Hc.
  - exists m, []. do 4 (split; [done|]). intros k r Hk. by rewrite lookup_nil in Hk.
  - destruct (step_flips (foldl apply_write m w) c) as (m1 & E1 & Hc1 & Hm1).
    { by apply apply_writes_ok. }
    { by rewrite apply_writes_sim. }
    destruct (IH m1 (negb c) Hm1 Hc1) as (m2 & rs & E2 & Hlen & Hm2 & Hc2 & Hrs).
    exists m2, (negb c :: rs). cbn [run_steps]. rewrite E1. cbn [mbind option_bind].
    rewrite E2. cbn [mbind option_bind]. split; [done|].
    split; [|split; [done|split]].
    + simpl. by rewrite Hlen.
    + rewrite Hc2. cbn [length]. rewrite Nat.even_succ, <- Nat.negb_even.
      destruct (Nat.even (length ws)); simpl; [done|]. by rewrite negb_involutive.
    + intros [|k] r Hk; simpl in Hk; [by simplify_eq|].
      rewrite (Hrs k r Hk), Nat.even_succ, <- Nat.negb_even.
      destruct (Nat.even k); simpl; [|done]. by rewrite negb_involutive.
Qed.

End ClockClaims.

(** C3: at instantiation the clock node holds 1; every step returns the
    level it has just flipped the clock to, so that, whatever the client
    writes into the inputs and the state buffers between the steps, the
    first step returns 0 and the returned levels alternate (step number
    [k], counted from 0, returns 1 exactly when [k] is odd); after the
    run the clock node holds the level returned last. *)
Theorem clock_starts_high_and_alternates defs module_name m ws :
  grci_init_module defs module_name = Some m → module_ok m →
  clock_level (m_sim m) = Some true ∧
  ∃ m' rs, run_steps m ws = Some (m', rs) ∧ length rs = length ws ∧
           (∀ k r, rs !! k = Some r → r = Nat.odd k) ∧
           clock_level (m_sim m') = Some (Nat.even (length ws)).
Proof.
  intros Hinit Hm. pose proof (init_module_clock _ _ _ Hinit) as Hc.
  split; [done|].
  destruct (run_steps_levels ws m true Hm Hc) as (m' & rs & E & Hlen & _ & Hc' & Hrs).
  exists m', rs. split; [done|]. split; [done|]. split.
  - intros k r Hk. rewrite (Hrs k r Hk), <- Nat.negb_even. by destruct (Nat.even k).
  - rewrite Hc'. by destruct (Nat.even (length ws)).
Qed.

Lemma clock_starts_high_and_alternates_witness :
  clock_level (m_sim pair_module) = Some true ∧
  ∃ m' rs,
    run_steps pair_module [[]; []; [SetState 1 0 true]; []] = Some (m', rs) ∧
    length rs = length [[]; []; [SetState 1 0 true]; []] ∧
    (∀ k r, rs !! k = Some r → r = Nat.odd k) ∧
    clock_level (m_sim m') = Some (Nat.even (length [[]; []; [SetState 1 0 true]; []])).
Proof.
  apply (clock_starts_high_and_alternates example_defs "Pair" pair_module
           [[]; []; [SetState 1 0 true]; []]).
  - vm_compute. reflexivity.
  - exact pair_module_ok.
Defined.

Section FallingEdge.
Implicit Types (s : grci_simulator) (m : grci_module).

Lemma upd_frame_lst_const K s s' :
  upd_frame K s s' → (∀ k, K k → is_Some (const_at s k)) → ∀ k, lst s' k = lst s k.
Proof.
  intros Hf HK k. destruct (lst s k) as [l|] eqn:Hl.
  - eapply (upd_frame_lst _ _ _ k) in Hf; [congruence|].
    intros Hk. apply HK, const_not_stateful in Hk. congruence.
  - destruct (lst s' k) as [l'|] eqn:Hl'; [|done].
    assert (is_Some (lst s k)) as [? ?]; [|congruence].
    apply (same_skel_lst_kind _ _ k (uf_skel _ _ _ Hf)). eauto.
Qed.

Lemma lst_upd f i s k :
  lst (upd_node f i s) k =
    if decide (i = k) then nodes s !! i ≫= (λ n, last_state_as (as_ (f n)))
    else lst s k.
Proof.
  unfold lst, node_ass. rewrite list_lookup_fmap, upd_node_lookup.
  destruct (decide (i = k)) as [->|]; [|by rewrite list_lookup_fmap].
  by destruct (nodes s !! k).
Qed.

Lemma lst_load_write v k s j :
  lst s k = Some v →
  lst (upd_node (λ n, set_cached v (set_last_state v n)) k s) j = lst s j.
Proof.
  intros Hk. rewrite lst_upd. destruct (decide (k = j)) as [->|]; [|done].
  rewrite Hk. unfold lst, node_ass in Hk. rewrite list_lookup_fmap in Hk.
  destruct (nodes s !! j) as [n|]; simplify_eq/=.
  unfold set_last_state. destruct (as_ n); by simplify_eq/=.
Qed.

(** With buffers that agree with the DFFs they cover, loading them
    changes no [last_state]. *)
Lemma load_states_agree mi s :
  sim_ok s → Forall (part_ok s mi) (seq 0 (part_count (desc mi))) →
  (∀ i sub part off len j k,
     is_Some (part_name (desc mi) i) → submodules mi !! i = Some sub →
     parts (desc mi) !! i = Some part → String.eqb (name part) "Ram64K" = false →
     dff_off_len mi !! i = Some (off, len) → j < len →
     dff_nodes s !! (j + off) = Some k → lst s k = states sub !! j) →
  ∃ s2, load_states mi s = Some s2 ∧ same_skel s s2 ∧ ∀ k, lst s2 k = lst s k.
Proof.
  intros Hok Hparts Hagree.
  apply (load_states_inv (λ s1, same_skel s s1 ∧ ∀ k, lst s1 k = lst s k)); try done.
  - by intros s1 [? ?].
  - intros s1 r ram d [Hsk Hl] Hr. split; [|done].
    eapply same_skel_trans; [exact Hsk|]. split; try done. simpl. by apply ram_shapes_insert.
  - intros s1 i sub part off len j k v Hnm Hsub Hpart Hname Hol Hj Hk Hv [Hsk Hl].
    pose proof (Hagree i sub part off len j k Hnm Hsub Hpart Hname Hol Hj Hk) as Ha.
    rewrite Hv in Ha. split.
    + eapply same_skel_trans; [exact Hsk|]. apply same_skel_upd. intros n. apply skel_load_write.
    + intros k'. rewrite lst_load_write; [apply Hl|]. by rewrite Hl.
Qed.

End FallingEdge.

(** C4, as amended: on a falling edge the step changes no [last_state]
    after the load of the submodule state: the [last_state] of every node
    after the step is the one of the state the step evaluates from
    ([pre_pass]); and when the buffers of the named non-RAM submodules
    still hold the [last_state] of their DFFs (as after the previous
    snapshot), it is the one from before the step. *)
Theorem falling_edge_keeps_last_state m :
  module_ok m → clock_level (m_sim m) = Some true →
  ∃ s0 m', pre_pass m = Some s0 ∧ grci_step_module m = Some (m', false) ∧
           (∀ k, lst (m_sim m') k = lst s0 k) ∧
           (buffers_agree m → ∀ k, lst (m_sim m') k = lst (m_sim m) k).
Proof.
  intros Hm Hc. destruct (step_trace_exists m true Hm Hc) as (s1&s2&s3&s5&s6&m'&Ht).
  exists (clear_visited s3), m'.
  split; [apply Ht|]. split; [apply Ht|].
  pose proof (st_pass _ _ _ _ _ _ _ _ Ht) as Hp. simpl in Hp. injection Hp as <-.
  assert (∀ k, lst (m_sim m') k = lst (clear_visited s3) k) as H6.
  { intros k. rewrite (st_sim _ _ _ _ _ _ _ _ Ht).
    apply lst_of_as, (ef_as _ _ _ (st_f6 _ _ _ _ _ _ _ _ Ht)). }
  split; [done|]. intros Hagree k. rewrite H6.
  pose proof (st_f1 _ _ _ _ _ _ _ _ Ht) as Hf1.
  pose proof (st_f3 _ _ _ _ _ _ _ _ Ht) as Hf3.
  pose proof (mo_sim _ Hm) as Hok.
  assert (∀ k, lst s1 k = lst (m_sim m) k) as H1.
  { apply (upd_frame_lst_const _ _ _ Hf1). by intros ? [_ ?]. }
  assert (clock_level s2 = Some true) as Hc2.
  { rewrite (upd_frame_clock_level _ _ _ (st_f2 _ _ _ _ _ _ _ _ Ht)).
    - rewrite (upd_frame_clock_level _ _ _ Hf1); [done|]. by intros [? _].
    - apply clock_not_dff.
      + rewrite (upd_frame_clock_level _ _ _ Hf1); [by rewrite Hc|]. by intros [? _].
      + eapply stateful_skel; [apply Hf1|apply Hm]. }
  destruct (load_states_agree (m_module m) s1) as (s2' & E2 & _ & H2).
  { eapply sim_ok_skel; [apply Hf1|done]. }
  { eapply Forall_impl; [apply (mo_parts _ Hm)|]. intros i. apply part_ok_skel, Hf1. }
  { intros i sub part off len j k' Hnm Hsub Hpart Hname Hol Hj Hk.
    rewrite H1. rewrite (sk_dffs _ _ (uf_skel _ _ _ Hf1)) in Hk.
    eapply Hagree; eauto.
    destruct (decide (i < part_count (desc (m_module m)))) as [|Hge]; [done|].
    unfold part_count in Hge. rewrite lookup_ge_None_2 in Hpart by lia. done. }
  rewrite (st_load _ _ _ _ _ _ _ _ Ht) in E2. injection E2 as <-.
  rewrite (lst_of_as s3 (clear_visited s3)) by apply clear_visited_as.
  rewrite (upd_frame_lst_const _ _ _ Hf3), H2, H1; [done|].
  intros ? ->. rewrite <- clock_level_const_at, Hc2. eauto.
Qed.

Lemma falling_edge_keeps_last_state_witness :
  ∃ s0 m', pre_pass latch_module = Some s0 ∧
           grci_step_module latch_module = Some (m', false) ∧
           (∀ k, lst (m_sim m') k = lst s0 k) ∧
           (buffers_agree latch_module →
            ∀ k, lst (m_sim m') k = lst (m_sim latch_module) k).
Proof.
  apply (falling_edge_keeps_last_state latch_module).
  - exact latch_module_ok.
  - vm_compute. reflexivity.
Defined.

(** A client writes 1 into the state buffer of the DFF of [Latch] (node
    3) after instantiation.  The first step takes the clock low, and the
    [last_state] of the DFF goes from 0 to 1 in it. *)
Lemma falling_edge_changes_last_state_counterexample :
  module_ok latch_written ∧
  clock_level (m_sim latch_written) = Some true ∧
  grci_step_module latch_written = Some (latch_low, false) ∧
  lst (m_sim latch_written) 3 = Some false ∧
  lst (m_sim latch_low) 3 = Some true.
Proof.
  split; [apply (apply_write_ok latch_module (SetState 0 0 true)), latch_module_ok|].
  repeat split; vm_compute; reflexivity.
Qed.

Section NetValue.
Implicit Types (s : grci_simulator) (p : ptr) (i j k : nat) (A : list node_as).

Lemma net_value_S h A p v : net_value h A p = Some v → net_value (S h) A p = Some v.
Proof.
  revert p v. induction h as [|h IH]; intros p v H; [done|].
  cbn [net_value] in *. destruct p as [i|]; [|done]. cbn [mbind option_bind] in *.
  destruct (A !! i) as [[c|x y|inp l|r l]|]; try done. cbn [mbind option_bind] in *.
  destruct (net_value h A x) as [vx|] eqn:Hx; [|done].
  cbn [mbind option_bind] in H.
  destruct (net_value h A y) as [vy|] eqn:Hy; [|done].
  by rewrite (IH _ _ Hx), (IH _ _ Hy).
Qed.

Lemma net_value_le h h' A p v :
  h ≤ h' → net_value h A p = Some v → net_value h' A p = Some v.
Proof. intros Hle Hv. induction Hle; [done|]. by apply net_value_S. Qed.

Lemma net_value_det h1 h2 A p v1 v2 :
  net_value h1 A p = Some v1 → net_value h2 A p = Some v2 → v1 = v2.
Proof.
  intros H1 H2.
  apply (net_value_le _ (h1 `max` h2)) in H1; [|lia].
  apply (net_value_le _ (h1 `max` h2)) in H2; [|lia]. congruence.
Qed.

Lemma net_value_None_le h h' A p :
  h' ≤ h → net_value h A p = None → net_value h' A p = None.
Proof.
  intros Hle Hn. destruct (net_value h' A p) as [v|] eqn:E; [|done].
  apply (net_value_le _ h) in E; [congruence|done].
Qed.

Lemma vis_upd f i j s :
  vis (upd_node f i s) j =
    if decide (i = j) then default false (visited ∘ f <$> nodes s !! i) else vis s j.
Proof.
  unfold vis. rewrite upd_node_lookup. destruct (decide (i = j)); [|done].
  by destruct (nodes s !! i).
Qed.

Lemma cch_upd f i j s :
  cch (upd_node f i s) j =
    if decide (i = j) then default false (cached_state ∘ f <$> nodes s !! i) else cch s j.
Proof.
  unfold cch. rewrite upd_node_lookup. destruct (decide (i = j)); [|done].
  by destruct (nodes s !! i).
Qed.

Lemma dff_at_upd f i j s : (∀ n, as_ (f n) = as_ n) → dff_at (upd_node f i s) j = dff_at s j.
Proof. intros Hf. unfold dff_at. by rewrite node_ass_upd. Qed.

Lemma node_ass_lookup s i n : nodes s !! i = Some n → node_ass s !! i = Some (as_ n).
Proof. intros H. unfold node_ass. by rewrite list_lookup_fmap, H. Qed.

Lemma memo_ok_mark P s i :
  memo_ok P s → vis s i = false → memo_ok (i :: P) (upd_node (set_visited true) i s).
Proof.
  intros Hm Hv j h v Hvj Hdj Hj. rewrite node_ass_upd by done.
  apply not_elem_of_cons in Hj as [Hne Hj].
  rewrite vis_upd in Hvj. rewrite dff_at_upd in Hdj by done. rewrite cch_upd.
  destruct (decide (i = j)); [done|]. by eapply Hm.
Qed.

Lemma memo_ok_mark_dff P s i :
  memo_ok P s → dff_at s i = true → memo_ok P (upd_node (set_visited true) i s).
Proof.
  intros Hm Hd j h v Hvj Hdj Hj. rewrite node_ass_upd by done.
  rewrite vis_upd in Hvj. rewrite dff_at_upd in Hdj by done. rewrite cch_upd.
  destruct (decide (i = j)) as [->|]; [congruence|]. by eapply Hm.
Qed.

Lemma memo_ok_set P s i c :
  memo_ok (i :: P) s → i < length (nodes s) →
  (∀ h v, net_value h (node_ass s) (Some i) = Some v → v = c) →
  memo_ok P (upd_node (set_cached c) i s).
Proof.
  intros Hm Hi Hc j h v Hvj Hdj Hj. rewrite node_ass_upd by done.
  rewrite vis_upd in Hvj. rewrite dff_at_upd in Hdj by done. rewrite cch_upd.
  destruct (decide (i = j)) as [->|Hne].
  - intros Hv. apply lookup_lt_is_Some_2 in Hi as [n Hn]. rewrite Hn. simpl.
    symmetry. by eapply Hc.
  - apply Hm; try done. by apply not_elem_of_cons.
Qed.

Lemma memo_ok_weaken P s i : memo_ok P s → memo_ok (i :: P) s.
Proof. intros Hm j h v ?? Hj. apply Hm; try done. by apply not_elem_of_cons in Hj as [? ?]. Qed.

Lemma dff_fresh_frame s s' : eval_frame None s s' → dff_fresh s → dff_fresh s'.
Proof.
  intros Hf Hd i Hi Hv. rewrite (dff_at_frame _ _ _ i Hf) in Hi.
  rewrite (ef_cch _ _ _ Hf i Hi) by done.
  rewrite (lst_of_as s s') by apply Hf. apply Hd; [done|].
  destruct (vis s i) eqn:E; [|done]. apply (ef_vis _ _ _ Hf) in E. congruence.
Qed.

Lemma dff_fresh_mark s i : dff_fresh s → dff_fresh (upd_node (set_visited true) i s).
Proof.
  intros Hd j Hj Hv. rewrite dff_at_upd in Hj by done.
  rewrite vis_upd in Hv. rewrite cch_upd.
  rewrite (lst_of_as s) by (by apply node_ass_upd).
  destruct (decide (i = j)) as [->|].
  - destruct (nodes s !! j) eqn:E; [done|].
    unfold dff_at, node_ass in Hj. by rewrite list_lookup_fmap, E in Hj.
  - by apply Hd.
Qed.

End NetValue.

Section EvalValue.
Implicit Types (s : grci_simulator) (p : ptr) (i j k : nat) (A : list node_as).

Lemma ret_cached_eq i s v s' : ret_cached i s = Some (v, s') → v = cch s i ∧ s' = s.
Proof.
  unfold ret_cached, cch. destruct (nodes s !! i); simpl; [|done]. by intros [= <- <-].
Qed.

Lemma cch_set_cached c i s : i < length (nodes s) → cch (upd_node (set_cached c) i s) i = c.
Proof.
  intros Hi. rewrite cch_upd. rewrite decide_True by done.
  apply lookup_lt_is_Some_2 in Hi as [n Hn]. by rewrite Hn.
Qed.

Lemma net_value_ptr_ok h s p v :
  net_value h (node_ass s) p = Some v → ptr_ok (length (node_skels s)) p.
Proof.
  destruct h as [|h]; [done|]. cbn [net_value]. destruct p as [i|]; [|done].
  cbn [mbind option_bind]. destruct (node_ass s !! i) eqn:E; [|done]. intros _.
  simpl. rewrite node_skels_length, <- node_ass_length. by eapply lookup_lt_Some.
Qed.

(** The memoising evaluator agrees with the reference evaluation. *)
Lemma eval_dff_value h : ∀ F s p v P v' s',
  sim_ok s → unvisited s < F →
  net_value h (node_ass s) p = Some v →
  memo_ok P s → dff_fresh s →
  (∀ i, i ∈ P → net_value h (node_ass s) (Some i) = None) →
  grci_eval_dff_fuel F s p false = Some (v', s') →
  v' = v ∧ memo_ok P s'.
Proof.
  induction h as [|h IH]; intros F s p v P v' s' Hok HF Hnv Hmemo Hfresh HP E; [done|].
  destruct (net_value h (node_ass s) p) as [v0|] eqn:Hlow.
  { rewrite (net_value_det _ _ _ _ _ _ Hnv (net_value_S _ _ _ _ Hlow)).
    eapply (IH F s p v0 P); eauto.
    intros i Hi. eapply net_value_None_le; [|by apply HP]. lia. }
  destruct F as [|f]; [lia|].
  destruct p as [i|]; [|done].
  assert (i ∉ P) as HiP.
  { intros Hi. apply HP in Hi. congruence. }
  cbn [net_value mbind option_bind] in Hnv.
  destruct (node_ass s !! i) as [a|] eqn:Ha; [|done]. cbn [mbind option_bind] in Hnv.
  unfold node_ass in Ha. rewrite list_lookup_fmap in Ha.
  destruct (nodes s !! i) as [node|] eqn:Hnode; [|done]. simpl in Ha. injection Ha as <-.
  pose proof (lookup_lt_Some _ _ _ Hnode) as Hilt.
  pose proof (sim_ok_node _ _ _ Hok Hnode) as Hnok.
  assert (dff_at s i = is_dff_as (as_ node)) as Hdi by (by apply dff_at_lookup).
  assert (vis s i = visited node) as Hvi by (unfold vis; by rewrite Hnode).
  assert (cch s i = cached_state node) as Hci by (unfold cch; by rewrite Hnode).
  cbn [grci_eval_dff_fuel mbind option_bind] in E. rewrite Hnode in E.
  cbn [mbind option_bind] in E.
  destruct (visited node) eqn:Hv.
  { destruct (as_ node) as [c|x y|inp l|r l] eqn:Has; try done.
    - injection E as <- <-. injection Hnv as <-. split; [|done].
      rewrite <- Hci. eapply (Hmemo i (S h)); try done.
      cbn [net_value mbind option_bind]. by rewrite (node_ass_lookup _ _ _ Hnode), Has.
    - injection E as <- <-. split; [|done].
      rewrite <- Hci. eapply (Hmemo i (S h)); try done.
      cbn [net_value mbind option_bind]. by rewrite (node_ass_lookup _ _ _ Hnode), Has.
    - injection E as <- <-. by injection Hnv as <-. }
  destruct (mark_visited_frame None s i node Hnode Hv) as [Hf1 Hu1].
  set (s1 := upd_node (set_visited true) i s) in *.
  assert (unvisited s1 < f) as HF1 by lia.
  pose proof (frame_sim_ok _ _ _ Hf1 Hok) as Hok1.
  assert (node_ass s1 = node_ass s) as Has1 by apply Hf1.
  destruct (as_ node) as [c|x y|inp l|r l] eqn:Has; try done.
  - (* constant *)
    injection Hnv as <-. apply ret_cached_eq in E as [-> ->]. split.
    + apply cch_set_cached. by rewrite (eval_frame_length _ _ _ Hf1).
    + apply memo_ok_set.
      * apply memo_ok_mark; [done|]. by rewrite Hvi.
      * by rewrite (eval_frame_length _ _ _ Hf1).
      * intros h' v'. rewrite Has1. destruct h' as [|h']; [done|].
        cbn [net_value mbind option_bind].
        rewrite (node_ass_lookup _ _ _ Hnode), Has. cbn [mbind option_bind]. congruence.
  - (* nand *)
    destruct (net_value h (node_ass s) x) as [vx|] eqn:Hx; [|done].
    cbn [mbind option_bind] in Hnv.
    destruct (net_value h (node_ass s) y) as [vy|] eqn:Hy; [|done].
    cbn [mbind option_bind] in Hnv. injection Hnv as <-.
    assert (∀ j, j ∈ i :: P → net_value h (node_ass s) (Some j) = None) as HP'.
    { intros j [->|Hj]%elem_of_cons; [done|].
      eapply net_value_None_le; [|by apply HP]. lia. }
    destruct Hnok as [Hxok Hyok]. rewrite <- (frame_skels _ _ _ Hf1) in Hxok, Hyok.
    destruct (eval_dff_fuel_frame f s1 x false Hok1 Hxok HF1) as (va & s2 & E2 & Hf2).
    rewrite E2 in E. cbn [mbind option_bind] in E.
    destruct (IH f s1 x vx (i :: P) va s2) as [-> Hmemo2]; try done.
    { by rewrite Has1. }
    { apply memo_ok_mark; [done|]. by rewrite Hvi. }
    { by apply dff_fresh_mark. }
    { by rewrite Has1. }
    assert (node_ass s2 = node_ass s) as Has2 by (rewrite <- Has1; apply Hf2).
    rewrite <- (frame_skels _ _ _ Hf2) in Hyok.
    destruct (eval_dff_fuel_frame f s2 y false (frame_sim_ok _ _ _ Hf2 Hok1) Hyok
                (frame_unvisited _ _ _ _ Hf2 HF1)) as (vb & s3 & E3 & Hf3).
    rewrite E3 in E. cbn [mbind option_bind] in E.
    destruct (IH f s2 y vy (i :: P) vb s3) as [-> Hmemo3]; try done.
    { eapply frame_sim_ok; eauto. }
    { eapply frame_unvisited; eauto. }
    { by rewrite Has2. }
    { eapply dff_fresh_frame; [exact Hf2|]. by apply dff_fresh_mark. }
    { by rewrite Has2. }
    assert (node_ass s3 = node_ass s) as Has3 by (rewrite <- Has2; apply Hf3).
    assert (length (nodes s3) = length (nodes s)) as Hlen3.
    { by rewrite <- !node_ass_length, Has3. }
    apply ret_cached_eq in E as [-> ->]. split.
    + apply cch_set_cached. by rewrite Hlen3.
    + apply memo_ok_set; [done|by rewrite Hlen3|].
      intros h' v'. rewrite Has3. intros Hv'.
      eapply (net_value_det h' (S h)); [exact Hv'|].
      cbn [net_value mbind option_bind].
      rewrite (node_ass_lookup _ _ _ Hnode), Has. cbn [mbind option_bind].
      by rewrite Hx, Hy.
  - (* a DFF reached for the first time *)
    cbn [negb] in E. injection E as <- <-. injection Hnv as <-. split.
    + assert (Some (cch s i) = lst s i) as Hl.
      { apply Hfresh; [by rewrite Hdi|by rewrite Hvi]. }
      rewrite (lst_lookup _ _ _ Hnode), Has in Hl. rewrite <- Hci. by injection Hl.
    + apply memo_ok_mark_dff; [done|]. by rewrite Hdi.
Qed.

End EvalValue.

Section RisingEdge.
Implicit Types (s : grci_simulator) (p : ptr) (i j k : nat) (m : grci_module).

(** One round of the pass on a DFF root. *)
Lemma eval_dff_root_value s k inp l h v :
  sim_ok s → node_ass s !! k = Some (AsDff inp l) → vis s k = false →
  (∀ j, dff_at s j = false → vis s j = false) →
  (∀ j, j ≠ k → dff_at s j = true → vis s j = false → Some (cch s j) = lst s j) →
  net_value h (node_ass s) inp = Some v →
  ∀ v' s', grci_eval_dff s (Some k) true = Some (v', s') → cch s' k = v.
Proof.
  intros Hok Hk Hvk Hcomb Hfresh Hnv v' s' E. unfold grci_eval_dff in E.
  cbn [grci_eval_dff_fuel mbind option_bind] in E.
  unfold node_ass in Hk. rewrite list_lookup_fmap in Hk.
  destruct (nodes s !! k) as [node|] eqn:Hnode; [|done]. simpl in Hk. injection Hk as Has.
  cbn [mbind option_bind] in E.
  assert (visited node = false) as Hv by (unfold vis in Hvk; by rewrite Hnode in Hvk).
  rewrite Hv, Has in E. cbn [negb] in E.
  destruct (mark_visited_frame None s k node Hnode Hv) as [Hf1 Hu1].
  set (s1 := upd_node (set_visited true) k s) in *.
  pose proof (frame_sim_ok _ _ _ Hf1 Hok) as Hok1.
  assert (node_ass s1 = node_ass s) as Has1 by apply Hf1.
  pose proof (unvisited_le_length s) as Hle.
  assert (unvisited s1 < length (nodes s)) as HF1 by lia.
  pose proof (net_value_ptr_ok _ _ _ _ Hnv) as Hpok.
  rewrite <- (frame_skels _ _ _ Hf1) in Hpok.
  destruct (eval_dff_fuel_frame (length (nodes s)) s1 inp false Hok1 Hpok HF1)
    as (va & s2 & E2 & Hf2).
  rewrite E2 in E. cbn [mbind option_bind] in E.
  destruct (eval_dff_value h (length (nodes s)) s1 inp v [] va s2) as [-> _]; try done.
  - by rewrite Has1.
  - intros j h' v0 Hvj Hdj _. unfold s1 in Hvj, Hdj.
    rewrite vis_upd in Hvj. rewrite dff_at_upd in Hdj by done.
    destruct (decide (k = j)) as [->|].
    + rewrite (dff_at_lookup _ _ _ Hnode), Has in Hdj. done.
    + rewrite Hcomb in Hvj; done.
  - intros j Hdj Hvj. unfold s1 in *.
    rewrite vis_upd in Hvj. rewrite dff_at_upd in Hdj by done. rewrite cch_upd.
    rewrite (lst_of_as s) by (by apply node_ass_upd).
    destruct (decide (k = j)) as [->|].
    + by rewrite Hnode in Hvj.
    + apply Hfresh; done.
  - intros j Hj. by apply elem_of_nil in Hj.
  - apply ret_cached_eq in E as [_ ->]. apply cch_set_cached.
    rewrite (eval_frame_length _ _ _ Hf2), (eval_frame_length _ _ _ Hf1).
    by eapply lookup_lt_Some.
Qed.

Lemma pass_inv_init s0 :
  dff_sync s0 → (∀ i, vis s0 i = false) → pass_inv s0 [] s0.
Proof.
  intros Hsync Hvis. split.
  - apply as_frame_refl.
  - intros i Hi _. by apply Hsync.
  - intros i _. apply Hvis.
  - intros i Hi. by apply elem_of_nil in Hi.
  - intros i ???? Hi. by apply elem_of_nil in Hi.
Qed.

Lemma as_frame_dff_at s s' i : as_frame s s' → dff_at s' i = dff_at s i.
Proof. intros [Ha _ _ _ _ _]. unfold dff_at. by rewrite Ha. Qed.

Lemma eval_dff_frame_vis s i root :
  sim_ok s → i < length (nodes s) →
  ∃ v s', grci_eval_dff s (Some i) root = Some (v, s') ∧
          eval_frame (if root then Some i else None) s s' ∧ vis s' i = true.
Proof.
  intros Hok Hi.
  destruct (eval_dff_fuel_frame_vis (S (length (nodes s))) s (Some i) root Hok)
    as (v & s' & E & Hf & Hv).
  { simpl. by rewrite node_skels_length. }
  { pose proof (unvisited_le_length s). lia. }
  exists v, s'. split; [done|]. split; [done|]. by apply Hv.
Qed.

(** One round of the rising-edge loop keeps the invariant and roots [k]. *)
Lemma pass_round_inv s0 rooted s k :
  sim_ok s0 → pass_inv s0 rooted s → k ∉ rooted → k < length (nodes s0) →
  ∃ v s', grci_eval_dff (upd_node (set_visited false) k s) (Some k) true = Some (v, s') ∧
          pass_inv s0 (k :: rooted) (clear_comb_visited s').
Proof.
  intros Hok0 [Has Hunr Hcomb Hrv Hval] Hk Hklt.
  pose proof (as_frame_upd (set_visited false) k s (λ _, eq_refl)) as Hfa.
  set (sa := upd_node (set_visited false) k s) in *.
  pose proof (as_frame_trans _ _ _ Has Hfa) as Has_a.
  pose proof (sim_ok_skel _ _ (as_frame_skel _ _ Has_a) Hok0) as Hok_a.
  destruct (eval_dff_frame_vis sa k true Hok_a) as (v & s' & E & Hf & Hvk').
  { by rewrite (same_skel_length _ _ (as_frame_skel _ _ Has_a)). }
  exists v, s'. split; [done|].
  pose proof (as_frame_trans _ _ _ Has_a (as_frame_of_eval _ _ _ Hf)) as Has'.
  assert (∀ i, vis sa i = if decide (k = i) then false else vis s i) as Hvis_a.
  { intros i. unfold sa. rewrite vis_upd. destruct (decide (k = i)) as [->|]; [|done].
    by destruct (nodes s !! i). }
  assert (∀ i, cch sa i = cch s i) as Hcch_a.
  { intros i. unfold sa. rewrite cch_upd. destruct (decide (k = i)) as [->|]; [|done].
    unfold cch. by destruct (nodes s !! i). }
  assert (∀ i, dff_at sa i = dff_at s0 i) as Hd_a by (intros i; by apply as_frame_dff_at).
  assert (node_ass sa = node_ass s0) as HA_a by apply Has_a.
  split.
  - eapply as_frame_trans; [exact Has'|apply as_frame_clear_comb].
  - intros i Hi Hni. apply not_elem_of_cons in Hni as [Hne Hni].
    rewrite clear_comb_visited_cch, (ef_cch _ _ _ Hf i), Hcch_a.
    + by apply Hunr.
    + by rewrite Hd_a.
    + congruence.
  - intros i Hi. rewrite clear_comb_visited_vis.
    by rewrite (dff_at_frame _ _ _ i Hf), Hd_a, Hi.
  - intros i Hin Hi. rewrite clear_comb_visited_vis.
    rewrite (dff_at_frame _ _ _ i Hf), Hd_a, Hi.
    apply elem_of_cons in Hin as [->|Hin]; [done|].
    apply (ef_vis _ _ _ Hf). rewrite Hvis_a.
    destruct (decide (k = i)) as [->|]; [done|]. by apply Hrv.
  - intros i inp l h v0 Hin Hi Hnv. rewrite clear_comb_visited_cch.
    apply elem_of_cons in Hin as [->|Hin].
    + eapply (eval_dff_root_value sa k inp l h v0); try done.
      * by rewrite HA_a.
      * rewrite Hvis_a. by rewrite decide_True.
      * intros j Hj. rewrite Hvis_a. destruct (decide (k = j)); [done|].
        apply Hcomb. by rewrite <- Hd_a.
      * intros j Hne Hj Hvj. rewrite Hcch_a, (lst_of_as s0 sa) by done.
        apply Hunr; [by rewrite <- Hd_a|].
        intros Hjr. rewrite Hvis_a, decide_False in Hvj by done.
        rewrite Hrv in Hvj; [done|done|by rewrite <- Hd_a].
      * by rewrite HA_a.
    + rewrite (ef_cch _ _ _ Hf i), Hcch_a.
      * by eapply Hval.
      * rewrite Hd_a. unfold dff_at. by rewrite Hi.
      * congruence.
Qed.

(** The whole rising-edge loop. *)
Lemma dff_pass_inv s0 ks : ∀ rooted s,
  sim_ok s0 → pass_inv s0 rooted s → NoDup ks → (∀ k, k ∈ ks → k ∉ rooted) →
  Forall (λ k, k < length (nodes s0)) ks →
  ∃ s' rooted', dff_pass ks s = Some s' ∧ pass_inv s0 rooted' s' ∧
                ∀ k, k ∈ rooted' ↔ k ∈ ks ∨ k ∈ rooted.
Proof.
  induction ks as [|k ks IH]; intros rooted s Hok Hinv Hnd Hfresh Hlt.
  - exists s, rooted. split; [done|]. split; [done|].
    intros k. split; [by right|]. intros [Hk|Hk]; [by apply elem_of_nil in Hk|done].
  - apply NoDup_cons in Hnd as [Hk Hnd]. apply Forall_cons in Hlt as [Hklt Hlt].
    destruct (pass_round_inv s0 rooted s k Hok Hinv) as (v & s1 & E & Hinv1);
      [apply Hfresh; by left|done|].
    destruct (IH (k :: rooted) (clear_comb_visited s1)) as (s' & rooted' & E' & Hinv' & Hin);
      try done.
    { intros j Hj [->|Hjr]%elem_of_cons; [done|]. apply (Hfresh j); [by right|done]. }
    exists s', rooted'. cbn [dff_pass]. rewrite E. cbn [mbind option_bind].
    split; [done|]. split; [done|].
    intros j. rewrite Hin, !elem_of_cons. tauto.
Qed.

(** The commit loop copies the cached bit of every DFF reference into
    its [last_state]. *)
Lemma commit_dffs_lst ks : ∀ s k,
  is_Some (lst s k) →
  lst (commit_dffs ks s) k = (if decide (k ∈ ks) then Some (cch s k) else lst s k) ∧
  ∀ j, cch (commit_dffs ks s) j = cch s j.
Proof.
  induction ks as [|k0 ks IH]; intros s k Hk.
  - split; [|done]. rewrite decide_False; [done|]. by intros ?%elem_of_nil.
  - cbn [commit_dffs].
    set (s1 := upd_node (λ n, set_last_state (cached_state n) n) k0 s).
    assert (∀ j, cch s1 j = cch s j) as Hc1.
    { intros j. unfold s1. rewrite cch_upd. destruct (decide (k0 = j)) as [->|]; [|done].
      unfold cch. destruct (nodes s !! j) as [n|]; [|done]. simpl.
      unfold set_last_state. by destruct (as_ n). }
    assert (lst s1 k = if decide (k = k0) then Some (cch s k) else lst s k) as Hl1.
    { unfold s1. rewrite lst_upd. destruct (decide (k0 = k)) as [->|Hne].
      - rewrite decide_True by done. destruct Hk as [l Hl].
        unfold lst, node_ass in Hl. rewrite list_lookup_fmap in Hl. unfold cch.
        destruct (nodes s !! k) as [n|]; simplify_eq/=.
        unfold set_last_state. destruct (as_ n); by simplify_eq/=.
      - by rewrite decide_False by done. }
    destruct (IH s1 k) as [Hl Hc].
    { rewrite Hl1. destruct (decide (k = k0)); eauto. }
    split; [|intros j; by rewrite Hc, Hc1].
    rewrite Hl, Hc1, Hl1.
    destruct (decide (k ∈ ks)) as [Hin|Hnin].
    + rewrite decide_True; [done|by right].
    + destruct (decide (k = k0)) as [->|Hne].
      * rewrite decide_True; [done|by left].
      * rewrite decide_False; [done|]. by intros [?|?]%elem_of_cons.
Qed.

End RisingEdge.

Section Sync.
Implicit Types (s : grci_simulator) (p : ptr) (i j k : nat) (m : grci_module).

Lemma same_skel_dff_at s s' i : same_skel s s' → dff_at s' i = dff_at s i.
Proof.
  intros [Hn _ _ _ _ _]. apply (f_equal (λ l, l !! i)) in Hn.
  unfold node_skels in Hn. rewrite !list_lookup_fmap in Hn. unfold dff_at.
  destruct (node_ass s' !! i) as [[]|], (node_ass s !! i) as [[]|]; by simplify_eq/=.
Qed.

Lemma dff_at_not_const s k : is_Some (const_at s k) → dff_at s k = false.
Proof.
  unfold const_at, dff_at. destruct (node_ass s !! k) as [[]|]; simpl; try done;
    intros [? ?]; done.
Qed.

Lemma cch_of_nodes s s' i : nodes s' !! i = nodes s !! i → cch s' i = cch s i.
Proof. intros H. unfold cch. by rewrite H. Qed.

Lemma lst_of_nodes s s' i : nodes s' !! i = nodes s !! i → lst s' i = lst s i.
Proof. intros H. unfold lst, node_ass. by rewrite !list_lookup_fmap, H. Qed.

Lemma dff_sync_upd_frame K s s' :
  upd_frame K s s' → (∀ k, K k → dff_at s k = false) → dff_sync s → dff_sync s'.
Proof.
  intros Hf HK Hs i Hi. rewrite (same_skel_dff_at _ _ i (uf_skel _ _ _ Hf)) in Hi.
  assert (¬ K i) as HnK by (intros ?%HK; congruence).
  rewrite (cch_of_nodes s s'), (lst_of_nodes s s') by (by apply (uf_off _ _ _ Hf)).
  by apply Hs.
Qed.

Lemma dff_sync_frame s s' : eval_frame None s s' → dff_sync s → dff_sync s'.
Proof.
  intros Hf Hs i Hi. rewrite (dff_at_frame _ _ _ i Hf) in Hi.
  rewrite (ef_cch _ _ _ Hf i Hi) by done. rewrite (lst_of_as s s') by apply Hf. by apply Hs.
Qed.

Lemma dff_sync_clear s : dff_sync s → dff_sync (clear_visited s).
Proof.
  intros Hs i Hi. unfold dff_at in Hi. rewrite clear_visited_as in Hi.
  rewrite clear_visited_cch, (lst_of_as s) by apply clear_visited_as. by apply Hs.
Qed.

Lemma dff_sync_load_write v k s :
  dff_sync s → dff_sync (upd_node (λ n, set_cached v (set_last_state v n)) k s).
Proof.
  intros Hs i Hi.
  assert (same_skel s (upd_node (λ n, set_cached v (set_last_state v n)) k s)) as Hsk.
  { apply same_skel_upd. intros n. apply skel_load_write. }
  rewrite (same_skel_dff_at _ _ i Hsk) in Hi.
  rewrite cch_upd, lst_upd. destruct (decide (k = i)) as [->|]; [|by apply Hs].
  unfold dff_at, node_ass in Hi. rewrite list_lookup_fmap in Hi.
  destruct (nodes s !! i) as [n|]; simplify_eq/=.
  unfold set_last_state. destruct (as_ n); by simplify_eq/=.
Qed.

Lemma load_states_sync mi s :
  sim_ok s → Forall (part_ok s mi) (seq 0 (part_count (desc mi))) → dff_sync s →
  ∃ s2, load_states mi s = Some s2 ∧ dff_sync s2.
Proof.
  intros Hok Hparts Hs.
  destruct (load_states_inv (λ s1, same_skel s s1 ∧ dff_sync s1) mi s) as (s2 & E & _ & H).
  - by intros s1 [? ?].
  - intros s1 r ram d [Hsk Hl] Hr. split; [|done].
    eapply same_skel_trans; [exact Hsk|]. split; try done. simpl. by apply ram_shapes_insert.
  - intros s1 i sub part off len j k v _ _ _ _ _ _ _ _ [Hsk Hl]. split.
    + eapply same_skel_trans; [exact Hsk|]. apply same_skel_upd. intros n. apply skel_load_write.
    + by apply dff_sync_load_write.
  - done.
  - done.
  - split; [apply same_skel_refl|done].
  - eauto.
Qed.

(** The state a step evaluates from keeps [cached_state] and
    [last_state] of every DFF equal, and has no visited mark. *)
Lemma pre_pass_sync m c s1 s2 s3 s5 s6 m' :
  module_ok m → dff_sync (m_sim m) → step_trace m c s1 s2 s3 s5 s6 m' →
  dff_sync (clear_visited s3) ∧ ∀ i, vis (clear_visited s3) i = false.
Proof.
  intros Hm Hs Ht. split; [|apply clear_visited_vis].
  pose proof (st_f1 _ _ _ _ _ _ _ _ Ht) as Hf1.
  assert (dff_sync s1) as Hs1.
  { eapply dff_sync_upd_frame; [exact Hf1| |done]. intros k [_ Hk].
    by apply dff_at_not_const. }
  destruct (load_states_sync (m_module m) s1) as (s2' & E2 & Hs2); [| |done|].
  { eapply sim_ok_skel; [apply Hf1|apply Hm]. }
  { eapply Forall_impl; [apply (mo_parts _ Hm)|]. intros i. apply part_ok_skel, Hf1. }
  rewrite (st_load _ _ _ _ _ _ _ _ Ht) in E2. injection E2 as <-.
  apply dff_sync_clear.
  eapply dff_sync_upd_frame; [apply (st_f3 _ _ _ _ _ _ _ _ Ht)| |done].
  intros k ->. apply dff_at_not_const. rewrite <- clock_level_const_at.
  assert (is_Some (clock_level s3)) as Hc3.
  { pose proof (st_level _ _ _ _ _ _ _ _ Ht) as Hl.
    rewrite (clock_level_of_as s3 (clear_visited s3)) in Hl; [eauto|apply clear_visited_as|done]. }
  rewrite !clock_level_const_at in *.
  rewrite <- (sk_clock _ _ (uf_skel _ _ _ (st_f3 _ _ _ _ _ _ _ _ Ht))).
  by apply (same_skel_kind _ _ _ (uf_skel _ _ _ (st_f3 _ _ _ _ _ _ _ _ Ht))).
Qed.

End Sync.

Section RisingStep.
Implicit Types (s : grci_simulator) (p : ptr) (i j k : nat) (m : grci_module).

(** The rising-edge pass followed by the commit, from a state [s0] as
    [pre_pass] leaves it. *)
Lemma pass_commit_spec s0 :
  sim_ok s0 → dff_sync s0 → (∀ i, vis s0 i = false) → NoDup (dff_nodes s0) →
  Forall (λ k, is_Some (lst s0 k)) (dff_nodes s0) →
  ∃ sp, dff_pass (dff_nodes s0) s0 = Some sp ∧
        dff_sync (commit_dffs (dff_nodes s0) sp) ∧
        ∀ k inp l h v,
          k ∈ dff_nodes s0 → node_ass s0 !! k = Some (AsDff inp l) →
          net_value h (node_ass s0) inp = Some v →
          lst (commit_dffs (dff_nodes s0) sp) k = Some v.
Proof.
  intros Hok Hsync Hvis Hnd Hst.
  destruct (dff_pass_inv s0 (dff_nodes s0) [] s0) as (sp & rooted & E & Hinv & Hin);
    try done.
  { by apply pass_inv_init. }
  { intros k _ Hk. by apply elem_of_nil in Hk. }
  { eapply Forall_impl; [exact Hst|]. intros k. apply stateful_lt. }
  exists sp. split; [done|].
  pose proof (pi_as _ _ _ Hinv) as Has.
  assert (∀ k, lst sp k = lst s0 k) as Hlst by (intros k; apply lst_of_as, Has).
  destruct (commit_dffs_frame (dff_nodes s0) sp) as [Hfc _].
  split.
  - intros i Hi.
    rewrite (same_skel_dff_at _ _ i (uf_skel _ _ _ Hfc)), (as_frame_dff_at _ _ _ Has) in Hi.
    assert (is_Some (lst sp i)) as Hsome.
    { rewrite Hlst. unfold dff_at in Hi. unfold lst.
      destruct (node_ass s0 !! i) as [[]|]; simplify_eq/=; eauto. }
    destruct (commit_dffs_lst (dff_nodes s0) sp i Hsome) as [-> Hc]. rewrite Hc.
    destruct (decide (i ∈ dff_nodes s0)) as [Hin'|Hnin]; [done|].
    rewrite Hlst. apply Hinv; [done|]. rewrite Hin. intros [?|?%elem_of_nil]; done.
  - intros k inp l h v Hk Hnode Hnv.
    assert (is_Some (lst sp k)) as Hsome.
    { rewrite Hlst. unfold lst. rewrite Hnode. simpl. eauto. }
    destruct (commit_dffs_lst (dff_nodes s0) sp k Hsome) as [-> _].
    rewrite decide_True by done. f_equal.
    eapply (pi_rooted_val _ _ _ Hinv k inp l h v); try done. rewrite Hin. by left.
Qed.

Lemma step_trace_sync m c s1 s2 s3 s5 s6 m' :
  module_ok m → dff_sync (m_sim m) → step_trace m c s1 s2 s3 s5 s6 m' → dff_sync s6.
Proof.
  intros Hm Hs Ht. destruct (pre_pass_sync _ _ _ _ _ _ _ _ Hm Hs Ht) as [Hs4 Hv4].
  eapply dff_sync_frame; [apply (st_f6 _ _ _ _ _ _ _ _ Ht)|].
  pose proof (st_pass _ _ _ _ _ _ _ _ Ht) as Hp.
  set (s4 := clear_visited s3) in *.
  assert (same_skel (m_sim m) s4) as Hsk4.
  { eapply same_skel_trans; [apply (uf_skel _ _ _ (st_f1 _ _ _ _ _ _ _ _ Ht))|].
    eapply same_skel_trans; [apply (uf_skel _ _ _ (st_f2 _ _ _ _ _ _ _ _ Ht))|].
    eapply same_skel_trans; [apply (uf_skel _ _ _ (st_f3 _ _ _ _ _ _ _ _ Ht))|].
    apply clear_visited_skel. }
  destruct (negb c).
  - destruct (pass_commit_spec s4) as (sp & Ep & Hsp & _); try done.
    + eapply sim_ok_skel; [exact Hsk4|apply Hm].
    + rewrite (sk_dffs _ _ Hsk4). apply Hm.
    + eapply stateful_skel; [exact Hsk4|apply Hm].
    + rewrite Ep in Hp. by injection Hp as <-.
  - by injection Hp as <-.
Qed.

Lemma rising_step_spec m :
  module_ok m → dff_sync (m_sim m) → clock_level (m_sim m) = Some false →
  ∃ s0 m', pre_pass m = Some s0 ∧ grci_step_module m = Some (m', true) ∧
           ∀ k inp l h v,
             k ∈ dff_nodes s0 → node_ass s0 !! k = Some (AsDff inp l) →
             net_value h (node_ass s0) inp = Some v →
             lst (m_sim m') k = Some v.
Proof.
  intros Hm Hs Hc. destruct (step_trace_exists m false Hm Hc) as (s1&s2&s3&s5&s6&m'&Ht).
  destruct (pre_pass_sync _ _ _ _ _ _ _ _ Hm Hs Ht) as [Hs4 Hv4].
  exists (clear_visited s3), m'. split; [apply Ht|]. split; [apply Ht|].
  pose proof (st_pass _ _ _ _ _ _ _ _ Ht) as Hp. cbn [negb] in Hp.
  set (s4 := clear_visited s3) in *.
  assert (same_skel (m_sim m) s4) as Hsk4.
  { eapply same_skel_trans; [apply (uf_skel _ _ _ (st_f1 _ _ _ _ _ _ _ _ Ht))|].
    eapply same_skel_trans; [apply (uf_skel _ _ _ (st_f2 _ _ _ _ _ _ _ _ Ht))|].
    eapply same_skel_trans; [apply (uf_skel _ _ _ (st_f3 _ _ _ _ _ _ _ _ Ht))|].
    apply clear_visited_skel. }
  destruct (pass_commit_spec s4) as (sp & Ep & _ & Hval); try done.
  { eapply sim_ok_skel; [exact Hsk4|apply Hm]. }
  { rewrite (sk_dffs _ _ Hsk4). apply Hm. }
  { eapply stateful_skel; [exact Hsk4|apply Hm]. }
  rewrite Ep in Hp. injection Hp as <-.
  intros k inp l h v Hk Hnode Hnv.
  rewrite (st_sim _ _ _ _ _ _ _ _ Ht).
  rewrite (lst_of_as _ s6) by apply (st_f6 _ _ _ _ _ _ _ _ Ht).
  by eapply Hval.
Qed.

(** Well-formedness and the DFF synchronisation are invariants of every
    run. *)
Lemma reachable_inv m0 m :
  module_ok m0 → dff_sync (m_sim m0) → reachable m0 m →
  module_ok m ∧ dff_sync (m_sim m).
Proof.
  intros Hm0 Hs0 Hr. induction Hr as [|m w Hr [Hm Hs]|m m' r Hr [Hm Hs] E].
  - done.
  - split; [by apply apply_write_ok|by rewrite apply_write_sim].
  - destruct (mo_clock _ Hm) as [c Hc].
    destruct (step_trace_exists m c Hm Hc) as (s1&s2&s3&s5&s6&m''&Ht).
    rewrite (st_step _ _ _ _ _ _ _ _ Ht) in E. injection E as <- <-.
    split; [by eapply step_trace_ok|].
    rewrite (st_sim _ _ _ _ _ _ _ _ Ht). by eapply step_trace_sync.
Qed.

End RisingStep.


Section PassOrder.
Implicit Types (s : grci_simulator) (p : ptr) (i j k : nat) (m : grci_module).

(** The state a step evaluates from is ready for the rising-edge pass. *)
Lemma pre_pass_ready m s0 :
  module_ok m → dff_sync (m_sim m) → pre_pass m = Some s0 →
  sim_ok s0 ∧ dff_sync s0 ∧ (∀ i, vis s0 i = false) ∧ NoDup (dff_nodes s0) ∧
  Forall (λ k, is_Some (lst s0 k)) (dff_nodes s0).
Proof.
  intros Hm Hs E. destruct (mo_clock _ Hm) as [c Hc].
  destruct (step_trace_exists m c Hm Hc) as (s1&s2&s3&s5&s6&m'&Ht).
  destruct (pre_pass_sync _ _ _ _ _ _ _ _ Hm Hs Ht) as [Hs4 Hv4].
  rewrite (st_pre _ _ _ _ _ _ _ _ Ht) in E. injection E as <-.
  assert (same_skel (m_sim m) (clear_visited s3)) as Hsk4.
  { eapply same_skel_trans; [apply (uf_skel _ _ _ (st_f1 _ _ _ _ _ _ _ _ Ht))|].
    eapply same_skel_trans; [apply (uf_skel _ _ _ (st_f2 _ _ _ _ _ _ _ _ Ht))|].
    eapply same_skel_trans; [apply (uf_skel _ _ _ (st_f3 _ _ _ _ _ _ _ _ Ht))|].
    apply clear_visited_skel. }
  split; [eapply sim_ok_skel; [exact Hsk4|apply Hm]|].
  split; [done|]. split; [done|].
  split; [rewrite (sk_dffs _ _ Hsk4); apply Hm|].
  eapply stateful_skel; [exact Hsk4|apply Hm].
Qed.

(** A visited DFF answers with its [last_state] and changes nothing. *)
Lemma visited_dff_eval s k input last root :
  node_ass s !! k = Some (AsDff input last) → vis s k = true →
  grci_eval_dff s (Some k) root = Some (last, s).
Proof.
  unfold node_ass, vis, grci_eval_dff. rewrite list_lookup_fmap.
  intros Ha Hv. cbn [grci_eval_dff_fuel mbind option_bind].
  destruct (nodes s !! k) as [n|]; [|done]. simpl in Ha, Hv.
  cbn [mbind option_bind]. rewrite Hv. by injection Ha as ->.
Qed.

(** The pass up to and including the round of a DFF [k]: the visited
    mark of [k] is kept, the marks of the other node types are cleared,
    the new value of [k] waits in its [cached_state], and [k] still
    answers with its [last_state] in every state a later round goes
    through. *)
Lemma pass_prefix_spec s0 ks1 k ks2 ks3 input last :
  sim_ok s0 → dff_sync s0 → (∀ i, vis s0 i = false) → NoDup (dff_nodes s0) →
  Forall (λ k, is_Some (lst s0 k)) (dff_nodes s0) →
  dff_nodes s0 = ks1 ++ k :: ks2 ++ ks3 →
  node_ass s0 !! k = Some (AsDff input last) →
  ∃ s1, dff_pass (ks1 ++ k :: ks2) s0 = Some s1 ∧
        vis s1 k = true ∧
        (∀ i, dff_at s0 i = false → vis s1 i = false) ∧
        (∀ h v, net_value h (node_ass s0) input = Some v → cch s1 k = v) ∧
        ∀ k' ex s, k' ≠ k → eval_frame ex (upd_node (set_visited false) k' s1) s →
                   grci_eval_dff s (Some k) false = Some (last, s).
Proof.
  intros Hok Hsync Hvis Hnd Hst Hks Hnode.
  assert (dff_nodes s0 = (ks1 ++ k :: ks2) ++ ks3) as Hks'.
  { rewrite Hks. by rewrite <- app_assoc. }
  rewrite Hks' in Hnd, Hst. apply NoDup_app in Hnd as (Hnd & _ & _).
  apply Forall_app in Hst as [Hst _].
  destruct (dff_pass_inv s0 (ks1 ++ k :: ks2) [] s0) as (s1 & rooted & E & Hinv & Hin);
    try done.
  { by apply pass_inv_init. }
  { intros k' _ Hk'. by apply elem_of_nil in Hk'. }
  { eapply Forall_impl; [exact Hst|]. intros k'. apply stateful_lt. }
  assert (k ∈ rooted) as Hk.
  { apply Hin. left. apply elem_of_app. right. by left. }
  assert (dff_at s0 k = true) as Hdk by (unfold dff_at; by rewrite Hnode).
  exists s1. split; [done|].
  assert (vis s1 k = true) as Hv1 by (by apply (pi_rooted_vis _ _ _ Hinv)).
  split; [done|]. split; [apply Hinv|].
  split; [intros h v Hnv; by eapply (pi_rooted_val _ _ _ Hinv k input last h v)|].
  intros k' ex s Hne Hf. apply (visited_dff_eval s k input last false).
  - rewrite (ef_as _ _ _ Hf), node_ass_upd by done.
    by rewrite (af_as _ _ (pi_as _ _ _ Hinv)).
  - apply (ef_vis _ _ _ Hf). rewrite vis_upd. by rewrite decide_False.
Qed.

End PassOrder.


(** ** Snapshot and restore of a state buffer *)

Section Restore.
Implicit Types (m : grci_module) (i j k : nat) (l vs : list bool).

Lemma put_states_id m i sub :
  submodules (m_module m) !! i = Some sub → put_states m i (states sub) = m.
Proof.
  intros Hs. destruct m as [ins outs sim mi]. unfold put_states. simpl in *. f_equal.
  destruct mi as [d sk ii io subs dol]. unfold with_submodules. simpl in *. f_equal.
  apply list_eq. intros j. rewrite list_lookup_alter.
  destruct (decide (i = j)) as [<-|]; [|done].
  rewrite Hs. simpl. by destruct sub.
Qed.

Lemma put_states_put m i l1 l2 : put_states (put_states m i l1) i l2 = put_states m i l2.
Proof.
  unfold put_states, with_submodules. simpl. do 2 f_equal.
  apply list_eq. intros j. rewrite !list_lookup_alter.
  destruct (decide (i = j)); [|done]. rewrite decide_True by done.
  by destruct (submodules (m_module m) !! i).
Qed.

Lemma set_state_put m i j v l :
  set_state (put_states m i l) i j v = put_states m i (<[j := v]> l).
Proof.
  unfold set_state, put_states, with_submodules. simpl. do 2 f_equal.
  apply list_eq. intros j'. rewrite !list_lookup_alter.
  destruct (decide (i = j')); [|done]. rewrite decide_True by done.
  by destruct (submodules (m_module m) !! i).
Qed.

Lemma restore_from m i vs : ∀ k l,
  foldl apply_write (put_states m i l) (imap (λ j v, SetState i (k + j) v) vs)
  = put_states m i (list_inserts k vs l).
Proof.
  induction vs as [|v vs IH]; intros k l; [done|].
  cbn [imap foldl apply_write]. rewrite Nat.add_0_r, set_state_put.
  rewrite (imap_ext _ (λ j v, SetState i (S k + j) v)).
  2:{ intros j x _. simpl. f_equal. lia. }
  rewrite IH. f_equal. simpl. symmetry. apply list_insert_inserts_lt. lia.
Qed.

Lemma restore_states_put m i l vs :
  length vs = length l → restore_states (put_states m i l) i vs = put_states m i vs.
Proof.
  intros Hlen. unfold restore_states.
  pose proof (restore_from m i vs 0 l) as H. simpl in H. rewrite H. f_equal.
  rewrite <- (app_nil_r vs) at 1. by apply list_inserts_0_l.
Qed.

(** Writing a whole buffer replaces its contents. *)
Lemma restore_states_spec m i sub vs :
  submodules (m_module m) !! i = Some sub → length vs = length (states sub) →
  restore_states m i vs = put_states m i vs.
Proof.
  intros Hs Hlen. rewrite <- (put_states_id m i sub Hs) at 1.
  by apply restore_states_put.
Qed.

(** Writing back what a buffer held, over whatever it holds now, gives
    the module back. *)
Lemma restore_snapshot m i sub scribble :
  submodules (m_module m) !! i = Some sub → length scribble = length (states sub) →
  restore_states (restore_states m i scribble) i (states sub) = m.
Proof.
  intros Hs Hlen. rewrite (restore_states_spec m i sub scribble Hs Hlen).
  rewrite restore_states_put by done.
  by apply put_states_id.
Qed.

(** A step keeps a module well formed. *)
Lemma step_module_ok m m' c :
  module_ok m → grci_step_module m = Some (m', c) → module_ok m'.
Proof.
  intros Hm E. destruct (mo_clock _ Hm) as [c0 Hc].
  destruct (step_trace_exists m c0 Hm Hc) as (s1&s2&s3&s5&s6&m''&Ht).
  rewrite (st_step _ _ _ _ _ _ _ _ Ht) in E. injection E as <- <-.
  by eapply step_trace_ok.
Qed.

Lemma latch_low_ok : module_ok latch_low.
Proof.
  apply (step_module_ok latch_written latch_low false).
  - apply (apply_write_ok latch_module (SetState 0 0 true)), latch_module_ok.
  - vm_compute. reflexivity.
Qed.

End Restore.


(** ** The packing of the RAM state buffer *)

Section RamPacking.
Implicit Types (sts : list bool) (data : list Z) (i j n : nat).

Lemma load_step_mid n i c sts data j b :
  i = 8 * j + b → b < 7 →
  load_ram_loop (S n) i c sts data =
  load_ram_loop n (S i)
    (Z.lor c (Z.shiftl (Z.b2z (default false (sts !! i))) (Z.of_nat b))) sts data.
Proof.
  intros -> Hb. cbn [load_ram_loop].
  replace ((8 * j + b) mod 8) with b by (rewrite Nat.add_comm, Nat.mul_comm, Nat.Div0.mod_add, Nat.mod_small; lia).
  destruct (b =? 7) eqn:E; [apply Nat.eqb_eq in E; lia|done].
Qed.

Lemma load_step_last n i c sts data j :
  i = 8 * j + 7 →
  load_ram_loop (S n) i c sts data =
  load_ram_loop n (S i) 0%Z sts
    (<[j := Z.lor c (Z.shiftl (Z.b2z (default false (sts !! i))) 7)]> data).
Proof.
  intros ->. cbn [load_ram_loop].
  replace ((8 * j + 7) mod 8) with 7 by (rewrite Nat.add_comm, Nat.mul_comm, Nat.Div0.mod_add; done).
  replace ((8 * j + 7) / 8) with j by (rewrite Nat.add_comm, Nat.mul_comm, Nat.div_add by lia; done).
  done.
Qed.

Lemma load_byte n sts data j :
  load_ram_loop (8 + n) (8 * j) 0%Z sts data =
  load_ram_loop n (8 * S j) 0%Z sts (<[j := pack_byte sts j]> data).
Proof.
  change (8 + n) with (S (S (S (S (S (S (S (S n)))))))).
  rewrite (load_step_mid _ _ _ _ _ j 0) by lia.
  rewrite (load_step_mid _ _ _ _ _ j 1) by lia.
  rewrite (load_step_mid _ _ _ _ _ j 2) by lia.
  rewrite (load_step_mid _ _ _ _ _ j 3) by lia.
  rewrite (load_step_mid _ _ _ _ _ j 4) by lia.
  rewrite (load_step_mid _ _ _ _ _ j 5) by lia.
  rewrite (load_step_mid _ _ _ _ _ j 6) by lia.
  rewrite (load_step_last _ _ _ _ _ j) by lia.
  replace (S (S (S (S (S (S (S (S (8 * j))))))))) with (8 * S j) by lia.
  f_equal. f_equal. unfold pack_byte. cbn [seq foldl].
  replace (8 * j + 0) with (8 * j) by lia.
  replace (8 * j + 1) with (S (8 * j)) by lia.
  replace (8 * j + 2) with (S (S (8 * j))) by lia.
  replace (8 * j + 3) with (S (S (S (8 * j)))) by lia.
  replace (8 * j + 4) with (S (S (S (S (8 * j))))) by lia.
  replace (8 * j + 5) with (S (S (S (S (S (8 * j)))))) by lia.
  replace (8 * j + 6) with (S (S (S (S (S (S (8 * j))))))) by lia.
  replace (8 * j + 7) with (S (S (S (S (S (S (S (8 * j)))))))) by lia.
  reflexivity.
Qed.

Lemma pack8_bit (f : nat → bool) b :
  b < 8 →
  Z.testbit (foldl (λ c k, Z.lor c (Z.shiftl (Z.b2z (f k)) (Z.of_nat k))) 0%Z (seq 0 8))
            (Z.of_nat b) = f b.
Proof.
  intros Hb. cbn [seq foldl].
  destruct b as [|[|[|[|[|[|[|[|?]]]]]]]]; [..|lia];
    destruct (f 0), (f 1), (f 2), (f 3), (f 4), (f 5), (f 6), (f 7); reflexivity.
Qed.

(** Bit [b] of a packed byte is buffer entry [8 * j + b]. *)
Lemma pack_byte_bit sts j b :
  b < 8 → Z.testbit (pack_byte sts j) (Z.of_nat b) = default false (sts !! (8 * j + b)).
Proof.
  intros Hb. unfold pack_byte.
  by rewrite (pack8_bit (λ k, default false (sts !! (8 * j + k)))).
Qed.

Lemma load_ram_loop_length n i c sts data :
  length (load_ram_loop n i c sts data) = length data.
Proof.
  revert i c data. induction n as [|n IH]; intros i c data; [done|].
  cbn [load_ram_loop]. destruct (i mod 8 =? 7); rewrite IH; [|done].
  apply length_insert.
Qed.

(** The packing loop over [N] whole bytes from byte [j0]. *)
Lemma load_bytes N sts : ∀ j0 data j,
  j < length data →
  load_ram_loop (8 * N) (8 * j0) 0%Z sts data !! j =
    if decide (j0 ≤ j < j0 + N) then Some (pack_byte sts j) else data !! j.
Proof.
  induction N as [|N IH]; intros j0 data j Hj.
  - rewrite Nat.mul_0_r. cbn [load_ram_loop]. by rewrite decide_False by lia.
  - replace (8 * S N) with (8 + 8 * N) by lia. rewrite load_byte.
    rewrite IH by (by rewrite length_insert).
    destruct (decide (j = j0)) as [->|Hne].
    + rewrite decide_False by lia. rewrite decide_True by lia.
      by apply list_lookup_insert_eq.
    + rewrite list_lookup_insert_ne by done.
      destruct (decide (S j0 ≤ j < S j0 + N)).
      * by rewrite decide_True by lia.
      * by rewrite decide_False by lia.
Qed.

Lemma snapshot_bit (c : Z) b :
  negb (Z.land (Z.shiftr c (Z.of_nat b)) 1 =? 0)%Z = Z.testbit c (Z.of_nat b).
Proof.
  change 1%Z with (Z.ones 1). rewrite Z.land_ones by lia.
  change (2 ^ 1)%Z with 2%Z. rewrite <- Z.bit0_mod, Z.shiftr_spec by lia.
  rewrite Z.add_0_l. by destruct (Z.testbit c (Z.of_nat b)).
Qed.

(** The unpacking loop over [n] entries from entry [i0]. *)
Lemma snapshot_entries data : ∀ n i0 sts i,
  i < length sts →
  snapshot_ram_loop n i0 data sts !! i =
    if decide (i0 ≤ i < i0 + n)
    then Some (Z.testbit (default 0%Z (data !! (i / 8))) (Z.of_nat (i mod 8)))
    else sts !! i.
Proof.
  induction n as [|n IH]; intros i0 sts i Hi.
  - cbn [snapshot_ram_loop]. by rewrite decide_False by lia.
  - cbn [snapshot_ram_loop]. rewrite IH by (by rewrite length_insert).
    rewrite snapshot_bit.
    destruct (decide (i = i0)) as [->|Hne].
    + rewrite decide_False by lia. rewrite decide_True by lia.
      by apply list_lookup_insert_eq.
    + rewrite list_lookup_insert_ne by done.
      destruct (decide (S i0 ≤ i < S i0 + n)).
      * by rewrite decide_True by lia.
      * by rewrite decide_False by lia.
Qed.

Lemma state_count_eq : GRCI_RAM64K_STATE_COUNT = 8 * Z.to_nat 65536.
Proof.
  unfold GRCI_RAM64K_STATE_COUNT. rewrite Z.mul_comm, Z2Nat.inj_mul by lia.
  by change (Z.to_nat 8) with 8.
Qed.

Lemma load_ram_states_lookup sts data j :
  j < length data → 8 * j < GRCI_RAM64K_STATE_COUNT →
  load_ram_states sts data !! j = Some (pack_byte sts j).
Proof.
  intros Hj HN. unfold load_ram_states. rewrite state_count_eq in *.
  revert HN. generalize (Z.to_nat 65536). intros N HN.
  pose proof (load_bytes N sts 0 data j Hj) as H. rewrite Nat.mul_0_r in H.
  rewrite H. by rewrite decide_True by lia.
Qed.

Lemma snapshot_ram_states_lookup data sts i :
  i < length sts → i < GRCI_RAM64K_STATE_COUNT →
  snapshot_ram_states data sts !! i
    = Some (Z.testbit (default 0%Z (data !! (i / 8))) (Z.of_nat (i mod 8))).
Proof.
  intros Hi Hc. unfold snapshot_ram_states. revert Hc.
  generalize GRCI_RAM64K_STATE_COUNT. intros N Hc.
  rewrite snapshot_entries by done. by rewrite decide_True by lia.
Qed.

Lemma snapshot_ram_states_length data sts :
  length (snapshot_ram_states data sts) = length sts.
Proof. apply snapshot_ram_loop_length. Qed.

End RamPacking.


(** ** The module table *)

Section ModuleTable.
Implicit Types (l : grci_module_desc_list) (d : grci_module_desc) (s : string).

Lemma register_modules_entries ds : ∀ l l',
  register_modules l ds = Some l' → entries l' = entries l ++ ds.
Proof.
  induction ds as [|d ds IH]; intros l l' E; simpl in E.
  - injection E as <-. by rewrite app_nil_r.
  - unfold grci_module_desc_list_append in E.
    destruct (length (entries l) <? GRCI_MAX_MODULES); [|done]. simpl in E.
    rewrite (IH _ _ E). simpl. by rewrite <- app_assoc.
Qed.

(** The first match wins: later entries do not change a lookup that
    succeeds. *)
Lemma module_desc_list_find_app es es' s d :
  module_desc_list_find es s = Some d → module_desc_list_find (es ++ es') s = Some d.
Proof.
  induction es as [|cur es IH]; simpl; [done|].
  by destruct (grci_strings_equal (name cur) s).
Qed.

Lemma compiler_init_entries :
  grci_compiler_init = Some {| entries := [nand_decl; dff_decl; ram64K_decl] |}.
Proof. reflexivity. Qed.

End ModuleTable.


(** ** The error buffer and the submodule lookup *)

Section ErrorBuffer.
Implicit Types (c : ensure_call) (buf s : string).

Lemma substring_all s : String.substring 0 (String.length s) s = s.
Proof. induction s as [|a s IH]; simpl; [done|]. by rewrite IH. Qed.

Lemma length_zero s : (String.length s =? 0) = true ↔ s = EmptyString.
Proof. destruct s; simpl; split; done. Qed.

Lemma length_nonzero s : s ≠ EmptyString → (String.length s =? 0) = false.
Proof. by destruct s. Qed.

Lemma report_empty type line detail :
  grci_report type line detail EmptyString = (grci_err_prefix type line).1 +:+ detail.
Proof. unfold grci_report, grci_err_prefix. cbn [String.length Nat.eqb]. by rewrite substring_all. Qed.

Lemma report_full type line detail buf :
  buf ≠ EmptyString → grci_report type line detail buf = buf.
Proof. intros H. unfold grci_report. by rewrite length_nonzero. Qed.

Lemma prefix_nonempty type line detail : (grci_err_prefix type line).1 +:+ detail ≠ EmptyString.
Proof. by destruct type. Qed.

(** A use of a macro never touches a buffer that holds a message. *)
Lemma run_ensure_call_full c buf : buf ≠ EmptyString → run_ensure_call c buf = buf.
Proof.
  intros H. unfold run_ensure_call, grci_ensure, grci_ensure_retnull.
  destruct (ec_macro c), (ec_cond c); simpl; try done.
  - by apply report_full.
  - by rewrite length_nonzero.
Qed.

Lemma run_ensure_calls_full cs buf : buf ≠ EmptyString → run_ensure_calls cs buf = buf.
Proof.
  unfold run_ensure_calls. revert buf. induction cs as [|c cs IH]; intros buf H; simpl; [done|].
  rewrite run_ensure_call_full by done. by apply IH.
Qed.

(** A use whose condition holds writes nothing. *)
Lemma run_ensure_call_pass c buf : ec_cond c = true → run_ensure_call c buf = buf.
Proof.
  intros H. unfold run_ensure_call, grci_ensure, grci_ensure_retnull. rewrite H.
  by destruct (ec_macro c).
Qed.

Lemma run_ensure_calls_pass cs buf :
  Forall (λ c, ec_cond c = true) cs → run_ensure_calls cs buf = buf.
Proof.
  unfold run_ensure_calls. revert buf. induction cs as [|c cs IH]; intros buf H; simpl; [done|].
  apply Forall_cons in H as [Hc H]. rewrite run_ensure_call_pass by done. by apply IH.
Qed.

Lemma run_ensure_call_fail c : ec_cond c = false → run_ensure_call c EmptyString = ensure_message c.
Proof.
  intros H. unfold run_ensure_call, grci_ensure, grci_ensure_retnull, ensure_message.
  rewrite H. destruct (ec_macro c); simpl; apply report_empty.
Qed.

End ErrorBuffer.

Section Submodule.
Implicit Types (m : grci_module) (i : nat).

Lemma find_submodule_some names nm : ∀ i0 i,
  find_submodule names i0 nm = Some i →
  i0 ≤ i ∧ names !! (i - i0) = Some (Some nm).
Proof.
  induction names as [|[x|] names IH]; intros i0 i E; simpl in E; [done| |].
  - unfold grci_string_matches in E. destruct (String.eqb x nm) eqn:Ex.
    + injection E as <-. apply String.eqb_eq in Ex as ->.
      split; [lia|]. by rewrite Nat.sub_diag.
    + destruct (IH _ _ E) as [Hle Hl]. split; [lia|].
      replace (i - i0) with (S (i - S i0)) by lia. done.
  - destruct (IH _ _ E) as [Hle Hl]. split; [lia|].
    replace (i - i0) with (S (i - S i0)) by lia. done.
Qed.

Lemma find_submodule_none names nm : ∀ i0,
  (∀ j, names !! j ≠ Some (Some nm)) → find_submodule names i0 nm = None.
Proof.
  induction names as [|[x|] names IH]; intros i0 H; simpl; [done| |].
  - unfold grci_string_matches. destruct (String.eqb x nm) eqn:Ex.
    + apply String.eqb_eq in Ex as ->. by destruct (H 0).
    + apply IH. intros j. apply (H (S j)).
  - apply IH. intros j. apply (H (S j)).
Qed.

(** A pointer returned by [grci_submodule] belongs to a part with the
    requested name, and the error buffer is then untouched. *)
Lemma submodule_found m nm buf i :
  (grci_submodule m nm buf).1 = Some i →
  i < part_count (desc (m_module m)) ∧ part_name (desc (m_module m)) i = Some nm ∧
  (grci_submodule m nm buf).2 = buf.
Proof.
  unfold grci_submodule.
  destruct (find_submodule _ 0 nm) as [i'|] eqn:E.
  - simpl. intros [= ->]. apply find_submodule_some in E as [_ E].
    rewrite Nat.sub_0_r in E. apply lookup_take_Some in E as [E Hi].
    split; [done|]. split; [|done]. unfold part_name. by rewrite E.
  - by destruct (grci_ensure_retnull _ _ _ _ _).
Qed.

End Submodule.

Section Links.
Implicit Types (s : grci_simulator) (p : ptr) (i j k : nat) (m : grci_module).

Lemma same_skel_ram s s' r ram' :
  same_skel s s' → rams s' !! r = Some ram' →
  ∃ ram, rams s !! r = Some ram ∧ with_data [] ram = with_data [] ram'.
Proof.
  intros Hsk Hr. pose proof (sk_rams _ _ Hsk) as Hsh. unfold ram_shapes in Hsh.
  apply (f_equal (λ l, l !! r)) in Hsh. rewrite !list_lookup_fmap, Hr in Hsh.
  destruct (rams s !! r) as [ram|]; [|done]. exists ram. split; [done|].
  cbn in Hsh. congruence.
Qed.

Lemma same_skel_sym s s' : same_skel s s' → same_skel s' s.
Proof. intros []. by split. Qed.

Lemma links_ok_skel s s' : same_skel s s' → links_ok s → links_ok s'.
Proof.
  intros Hsk [Hd Hb]. split.
  - intros k Hk. rewrite (sk_dffs _ _ Hsk). apply Hd.
    by apply (same_skel_lst_kind _ _ k Hsk).
  - intros r ram' o Hr Ho.
    destruct (same_skel_ram _ _ _ _ Hsk Hr) as (ram & Hram & Hshape).
    destruct (Hb r ram o Hram) as [l Hl].
    { by replace (ram_outputs ram) with (ram_outputs ram')
        by (by apply (f_equal ram_outputs) in Hshape). }
    pose proof (sk_nodes _ _ Hsk) as Hn. apply (f_equal (λ l, l !! o)) in Hn.
    unfold node_skels in Hn. rewrite !list_lookup_fmap, Hl in Hn.
    destruct (node_ass s' !! o) as [[| | |r' l']|]; simplify_eq/=. eauto.
Qed.

Lemma lst_push n s k :
  lst (push_node n s).2 k =
    if decide (k = length (nodes s)) then last_state_as (as_ n) else lst s k.
Proof.
  unfold lst, node_ass. simpl. rewrite fmap_app.
  destruct (decide (k = length (nodes s))) as [->|Hne].
  - rewrite lookup_app_r by (by rewrite length_fmap).
    by rewrite length_fmap, Nat.sub_diag.
  - destruct (decide (k < length (nodes s))).
    + by rewrite lookup_app_l by (by rewrite length_fmap).
    + rewrite !lookup_ge_None_2; [done|rewrite length_fmap; lia|].
      rewrite length_app, length_fmap. simpl. lia.
Qed.

Lemma node_ass_push n s k a :
  node_ass s !! k = Some a → node_ass (push_node n s).2 !! k = Some a.
Proof.
  intros H. unfold node_ass in *. simpl. rewrite fmap_app.
  rewrite lookup_app_l; [done|]. by eapply lookup_lt_Some.
Qed.

Lemma links_push n s :
  last_state_as (as_ n) = None → links_ok s → links_ok (push_node n s).2.
Proof.
  intros Hn [Hd Hb]. split.
  - intros k. rewrite lst_push. destruct (decide _); [rewrite Hn; by intros [? ?]|].
    apply Hd.
  - intros r ram o Hr Ho. destruct (Hb r ram o Hr Ho) as [l Hl].
    exists l. by apply node_ass_push.
Qed.

Lemma links_constant_new s c : links_ok s → links_ok (grci_constant_new s c).2.
Proof. by apply links_push. Qed.

Lemma links_nand_new s a b : links_ok s → links_ok (grci_nand_new s a b).2.
Proof. by apply links_push. Qed.

Lemma links_stateful_new n s :
  links_ok s → links_ok (push_dff_ref (length (nodes s)) (push_node n s).2).
Proof.
  intros [Hd Hb]. split.
  - intros k. change (lst (push_dff_ref (length (nodes s)) (push_node n s).2) k)
      with (lst (push_node n s).2 k). rewrite lst_push. simpl.
    destruct (decide _) as [->|]; intros Hk.
    + apply elem_of_app. right. by left.
    + apply elem_of_app. left. by apply Hd.
  - intros r ram o Hr Ho. destruct (Hb r ram o Hr Ho) as [l Hl].
    exists l. by apply (node_ass_push n).
Qed.

Lemma links_dff_new s : links_ok s → links_ok (grci_dff_new s).2.
Proof. apply links_stateful_new. Qed.

(** The sixteen output nodes of a new RAM block. *)
Lemma ram64k_new_outputs_spec n r : ∀ s outs s',
  ram64k_new_outputs n r s = (outs, s') →
  outs = seq (length (nodes s)) n ∧
  nodes s' = nodes s ++
    replicate n {| as_ := AsRam64KOut r false; visited := false; cached_state := false |} ∧
  dff_nodes s' = dff_nodes s ++ outs ∧ rams s' = rams s.
Proof.
  induction n as [|n IH]; intros s outs s' E; cbn [ram64k_new_outputs] in E.
  - injection E as <- <-. by rewrite !app_nil_r.
  - unfold grci_ram64kout_new, push_node in E.
    destruct (ram64k_new_outputs n r _) as [os s2] eqn:E2.
    injection E as <- <-. destruct (IH _ _ _ E2) as (-> & Hn & Hd & Hr).
    cbn [nodes dff_nodes rams push_dff_ref with_nodes] in *.
    rewrite length_app in *. cbn [length] in *.
    split; [|split; [|split]].
    + cbn [seq]. f_equal. f_equal. lia.
    + rewrite Hn, <- app_assoc. done.
    + rewrite Hd, <- app_assoc. by f_equal.
    + done.
Qed.

Lemma links_ram64k_new s : links_ok s → links_ok (grci_ram64k_new s).2.
Proof.
  intros [Hd Hb]. unfold grci_ram64k_new.
  destruct (ram64k_new_outputs 16 (length (rams s)) s) as [outs s1] eqn:E.
  destruct (ram64k_new_outputs_spec _ _ _ _ _ E) as (Houts & Hn & Hdf & Hr).
  cbn [snd]. split.
  - intros k [l Hl]. cbn [dff_nodes with_rams]. rewrite Hdf. apply elem_of_app.
    unfold lst, node_ass in Hl. cbn [nodes with_rams] in Hl. rewrite Hn, fmap_app in Hl.
    destruct (decide (k < length (nodes s))) as [Hlt|Hge].
    + left. apply Hd. rewrite lookup_app_l in Hl by (by rewrite length_fmap).
      unfold lst, node_ass. rewrite Hl. eauto.
    + right. rewrite Houts. apply elem_of_seq.
      destruct (decide (k < length (nodes s) + 16)); [lia|].
      rewrite lookup_ge_None_2 in Hl; [done|].
      rewrite length_app, !length_fmap, length_replicate. lia.
  - intros r ram o Hram Ho. cbn [rams with_rams node_ass nodes] in *.
    unfold node_ass. cbn [nodes with_rams]. rewrite Hr in Hram. rewrite Hn, fmap_app.
    destruct (decide (r < length (rams s))) as [Hlt|Hge].
    + rewrite lookup_app_l in Hram by done.
      destruct (Hb r ram o Hram Ho) as [l Hl]. exists l.
      rewrite lookup_app_l; [done|]. by eapply lookup_lt_Some.
    + rewrite lookup_app_r in Hram by lia.
      destruct (r - length (rams s)) as [|?] eqn:Hd'; [|done].
      injection Hram as <-. cbn [ram_outputs] in Ho. rewrite Houts in Ho.
      apply elem_of_seq in Ho. exists false.
      rewrite lookup_app_r by (rewrite length_fmap; lia).
      rewrite length_fmap, list_lookup_fmap.
      assert (o - length (nodes s) < 16) as Hlt by lia.
      rewrite lookup_replicate_2; [|exact Hlt]. cbn. do 2 f_equal. lia.
Qed.

Lemma lst_slot_field sl obj n : last_state_as (as_ (set_slot_field sl obj n)) = last_state_as (as_ n).
Proof. unfold set_slot_field. destruct sl, (as_ n) eqn:E; simpl; by rewrite ?E. Qed.

Lemma links_write_slot sl obj s : links_ok s → links_ok (write_slot sl obj s).
Proof.
  intros [Hd Hb].
  assert (∀ n, links_ok (upd_node (set_slot_field sl obj) n s)) as Hnode.
  { intros n. split.
    - intros k. rewrite lst_upd. cbn [dff_nodes upd_node with_nodes].
      destruct (decide (n = k)) as [->|]; [|apply Hd].
      intros Hk. apply Hd. unfold lst, node_ass. rewrite list_lookup_fmap.
      destruct (nodes s !! k) as [nd|]; [|done]. cbn in *.
      by rewrite lst_slot_field in Hk.
    - intros r ram o Hr Ho. destruct (Hb r ram o Hr Ho) as [l Hl]. exists l.
      unfold node_ass in *. rewrite list_lookup_fmap, upd_node_lookup.
      rewrite list_lookup_fmap in Hl.
      destruct (decide (n = o)) as [->|]; [|done].
      destruct (nodes s !! o) as [nd|]; simplify_eq/=.
      unfold set_slot_field. rewrite Hl. destruct sl; simpl; by rewrite Hl. }
  assert (∀ f r, (∀ ram, ram_outputs (f ram) = ram_outputs ram) →
            links_ok (with_rams s (alter f r (rams s)))) as Hram.
  { intros f r Hf. split; [exact Hd|].
    intros r' ram o Hr Ho. cbn [rams with_rams] in Hr. rewrite list_lookup_alter in Hr.
    destruct (decide (r = r')) as [->|].
    - destruct (rams s !! r') as [ram0|] eqn:E; simplify_eq/=.
      rewrite Hf in Ho. by apply (Hb r' ram0 o).
    - by apply (Hb r' ram o). }
  destruct sl; cbn [write_slot]; try apply Hnode; by apply Hram.
Qed.

Lemma simulator_init_links : links_ok grci_simulator_init.
Proof.
  split.
  - intros k [l Hl]. by destruct k as [|[|[|k]]].
  - intros r ram o Hr. by destruct r.
Qed.

(** The simulator of an instantiated module has its tables linked. *)
Lemma init_module_links defs nm m :
  grci_init_module defs nm = Some m → links_ok (m_sim m).
Proof.
  intros E.
  refine (ctor_init_module (λ s s', links_ok s → links_ok s') (λ s H, H) _
            links_constant_new links_nand_new links_dff_new links_ram64k_new
            links_write_slot _ _ _ E simulator_init_links).
  intros s1 s2 s3 H1 H2 H. auto.
Qed.

Lemma reachable_skel m0 m :
  module_ok m0 → reachable m0 m → module_ok m ∧ same_skel (m_sim m0) (m_sim m).
Proof.
  intros Hm0 Hr. induction Hr as [|m w Hr [Hm Hs]|m m' r Hr [Hm Hs] E].
  - split; [done|apply same_skel_refl].
  - split; [by apply apply_write_ok|by rewrite apply_write_sim].
  - destruct (mo_clock _ Hm) as [c Hc].
    destruct (step_trace_exists m c Hm Hc) as (s1&s2&s3&s5&s6&m''&Ht).
    rewrite (st_step _ _ _ _ _ _ _ _ Ht) in E. injection E as <- <-.
    split; [by eapply step_trace_ok|].
    eapply same_skel_trans; [exact Hs|]. rewrite (st_sim _ _ _ _ _ _ _ _ Ht).
    apply (st_skel _ _ _ _ _ _ _ _ Ht).
Qed.

End Links.

Section EdgeValue.
Implicit Types (s : grci_simulator) (p : ptr) (i j k : nat) (A : list node_as)
  (R : list grci_ram64k) (P : list nat).

Lemma ram_scan_value_mono (ev ev' : ptr → option bool) ram idx : ∀ acc x,
  (∀ q v, ev q = Some v → ev' q = Some v) →
  ram_scan_value ev ram idx acc = Some x → ram_scan_value ev' ram idx acc = Some x.
Proof.
  induction idx as [|i idx IH]; intros [[in1 in2] addr] x Hev E; [done|].
  cbn [ram_scan_value] in *.
  destruct (ram_inputs ram !! i) as [pin|]; [|done]. cbn [mbind option_bind] in *.
  destruct (ev pin) as [vi|] eqn:Evi; [|done]. rewrite (Hev _ _ Evi).
  cbn [mbind option_bind] in *.
  destruct (ram_addrs ram !! i) as [pad|]; [|done]. cbn [mbind option_bind] in *.
  destruct (ev pad) as [va|] eqn:Eva; [|done]. rewrite (Hev _ _ Eva).
  cbn [mbind option_bind] in *. by apply IH.
Qed.

Lemma ram_edge_mono (ev ev' : ptr → option bool) ram x :
  (∀ q v, ev q = Some v → ev' q = Some v) →
  ram_edge ev ram = Some x → ram_edge ev' ram = Some x.
Proof.
  intros Hev. unfold ram_edge.
  destruct (ev (ram_load ram)) as [ld|] eqn:Eld; [|done]. rewrite (Hev _ _ Eld).
  cbn [mbind option_bind].
  destruct (ram_scan_value ev ram ram_bits (0, 0, 0)%Z) as [acc|] eqn:Es; [|done].
  by rewrite (ram_scan_value_mono _ _ _ _ _ _ Hev Es).
Qed.

Lemma edge_value_unfold h A R p :
  edge_value (S h) A R p =
    (i ← p;
     a ← A !! i;
     match a with
     | AsConstant c => Some c
     | AsNand x y =>
         vx ← edge_value h A R x;
         vy ← edge_value h A R y;
         Some (negb (vx && vy))
     | AsDff _ last => Some last
     | AsRam64KOut r _ =>
         ram ← R !! r;
         '(d, addr) ← ram_edge (λ q, edge_value h A R q) ram;
         published_bit (ram_outputs ram) 0 (data_word d addr) i
     end).
Proof. done. Qed.

Lemma edge_value_S h A R p v : edge_value h A R p = Some v → edge_value (S h) A R p = Some v.
Proof.
  revert p v. induction h as [|h IH]; intros p v H; [done|].
  rewrite (edge_value_unfold (S h)). rewrite (edge_value_unfold h) in H.
  destruct p as [i|]; [|done]. cbn [mbind option_bind] in *.
  destruct (A !! i) as [[c|x y|inp l|r l]|]; try done; cbn [mbind option_bind] in *.
  - destruct (edge_value h A R x) as [vx|] eqn:Hx; [|done].
    cbn [mbind option_bind] in H.
    destruct (edge_value h A R y) as [vy|] eqn:Hy; [|done].
    by rewrite (IH _ _ Hx), (IH _ _ Hy).
  - destruct (R !! r) as [ram|]; [|done]. cbn [mbind option_bind] in *.
    destruct (ram_edge (λ q, edge_value h A R q) ram) as [[d addr]|] eqn:Er; [|done].
    by rewrite (ram_edge_mono _ (λ q, edge_value (S h) A R q) _ _ IH Er).
Qed.

Lemma edge_value_le h h' A R p v :
  h ≤ h' → edge_value h A R p = Some v → edge_value h' A R p = Some v.
Proof. intros Hle Hv. induction Hle; [done|]. by apply edge_value_S. Qed.

Lemma edge_value_det h1 h2 A R p v1 v2 :
  edge_value h1 A R p = Some v1 → edge_value h2 A R p = Some v2 → v1 = v2.
Proof.
  intros H1 H2.
  apply (edge_value_le _ (h1 `max` h2)) in H1; [|lia].
  apply (edge_value_le _ (h1 `max` h2)) in H2; [|lia]. congruence.
Qed.

Lemma ram_edge_det h1 h2 A R ram x1 x2 :
  ram_edge (λ q, edge_value h1 A R q) ram = Some x1 →
  ram_edge (λ q, edge_value h2 A R q) ram = Some x2 → x1 = x2.
Proof.
  intros H1 H2.
  apply (ram_edge_mono _ (λ q, edge_value (h1 `max` h2) A R q)) in H1.
  2:{ intros q v. apply edge_value_le. lia. }
  apply (ram_edge_mono _ (λ q, edge_value (h1 `max` h2) A R q)) in H2.
  2:{ intros q v. apply edge_value_le. lia. }
  congruence.
Qed.

(** A network without RAM-OUT nodes has the value [net_value] gives. *)
Lemma edge_value_net h A R p v : net_value h A p = Some v → edge_value h A R p = Some v.
Proof.
  revert p v. induction h as [|h IH]; intros p v H; [done|].
  cbn [net_value edge_value] in *. destruct p as [i|]; [|done].
  cbn [mbind option_bind] in *.
  destruct (A !! i) as [[c|x y|inp l|r l]|]; try done; cbn [mbind option_bind] in *.
  destruct (net_value h A x) as [vx|] eqn:Hx; [|done].
  cbn [mbind option_bind] in H.
  destruct (net_value h A y) as [vy|] eqn:Hy; [|done].
  by rewrite (IH _ _ Hx), (IH _ _ Hy).
Qed.

Lemma ram_scan_value_slots (ev : ptr → option bool) ram idx : ∀ acc x i,
  ram_scan_value ev ram idx acc = Some x → i ∈ idx →
  (∃ pin, ram_inputs ram !! i = Some pin ∧ is_Some (ev pin)) ∧
  (∃ pad, ram_addrs ram !! i = Some pad ∧ is_Some (ev pad)).
Proof.
  induction idx as [|i0 idx IH]; intros [[in1 in2] addr] x i E Hi.
  { by apply elem_of_nil in Hi. }
  cbn [ram_scan_value] in E.
  destruct (ram_inputs ram !! i0) as [pin|] eqn:Hpin; [|done]. cbn [mbind option_bind] in E.
  destruct (ev pin) as [vi|] eqn:Evi; [|done]. cbn [mbind option_bind] in E.
  destruct (ram_addrs ram !! i0) as [pad|] eqn:Hpad; [|done]. cbn [mbind option_bind] in E.
  destruct (ev pad) as [va|] eqn:Eva; [|done]. cbn [mbind option_bind] in E.
  apply elem_of_cons in Hi as [->|Hi].
  - split; eexists; (split; [done|]); eauto.
  - by eapply IH.
Qed.

Lemma ram_scan_value_shape (ev : ptr → option bool) ram ram' idx : ∀ acc,
  with_data [] ram = with_data [] ram' →
  ram_scan_value ev ram idx acc = ram_scan_value ev ram' idx acc.
Proof.
  intros acc Hsh. revert acc.
  assert (ram_inputs ram = ram_inputs ram') as Hi by (by apply (f_equal ram_inputs) in Hsh).
  assert (ram_addrs ram = ram_addrs ram') as Ha by (by apply (f_equal ram_addrs) in Hsh).
  induction idx as [|i idx IH]; intros [[in1 in2] addr]; [done|].
  cbn [ram_scan_value]. rewrite Hi, Ha.
  destruct (ram_inputs ram' !! i) as [pin|]; [|done]. cbn [mbind option_bind].
  destruct (ev pin) as [vi|]; [|done]. cbn [mbind option_bind].
  destruct (ram_addrs ram' !! i) as [pad|]; [|done]. cbn [mbind option_bind].
  destruct (ev pad) as [va|]; [|done]. cbn [mbind option_bind]. apply IH.
Qed.

(** What a defined RAM-OUT value is made of. *)
Lemma edge_value_ram h A R i r l v :
  A !! i = Some (AsRam64KOut r l) → edge_value (S h) A R (Some i) = Some v →
  ∃ ram0 d addr, R !! r = Some ram0 ∧
    ram_edge (λ q, edge_value h A R q) ram0 = Some (d, addr) ∧
    published_bit (ram_outputs ram0) 0 (data_word d addr) i = Some v.
Proof.
  intros Ha E. rewrite edge_value_unfold in E. cbn [mbind option_bind] in E.
  rewrite Ha in E.
  cbn [mbind option_bind] in E.
  destruct (R !! r) as [ram0|]; [|done]. cbn [mbind option_bind] in E.
  destruct (ram_edge _ ram0) as [[d addr]|] eqn:Er; [|done]. cbn [mbind option_bind] in E.
  by exists ram0, d, addr.
Qed.

Lemma ram_edge_parts (ev : ptr → option bool) ram d addr :
  ram_edge ev ram = Some (d, addr) →
  ∃ ld in1 in2, ev (ram_load ram) = Some ld ∧
    ram_scan_value ev ram ram_bits (0, 0, 0)%Z = Some (in1, in2, addr) ∧
    d = if (ld : bool) then data_set (data_set (ram_data ram) addr in1) (addr + 1)%Z in2
        else ram_data ram.
Proof.
  unfold ram_edge. destruct (ev (ram_load ram)) as [ld|]; [|done].
  cbn [mbind option_bind].
  destruct (ram_scan_value ev ram ram_bits (0, 0, 0)%Z) as [[[in1 in2] a]|] eqn:Es; [|done].
  cbn [mbind option_bind]. intros [= <- <-]. by exists ld, in1, in2.
Qed.

(** *** The chain of nodes under evaluation *)

Lemma edge_chain_nil A R p : edge_chain A R [] p.
Proof. intros j h Hj. by apply elem_of_nil in Hj. Qed.

Lemma edge_chain_self A R P i :
  i ∈ P → edge_chain A R P (Some i) → ∀ h, edge_value h A R (Some i) = None.
Proof.
  intros Hi Hch h. induction h as [h IH] using lt_wf_ind.
  destruct (edge_value h A R (Some i)) as [v|] eqn:E; [|done].
  destruct (Hch i h Hi) as (h' & Hlt & [v' Hv']); [eauto|].
  rewrite (IH h' Hlt) in Hv'. done.
Qed.

Lemma edge_chain_child A R P i x :
  edge_chain A R P (Some i) →
  (∀ h, is_Some (edge_value (S h) A R (Some i)) → is_Some (edge_value h A R x)) →
  edge_chain A R (i :: P) x.
Proof.
  intros Hch Hx j h Hj Hd. apply elem_of_cons in Hj as [->|Hj].
  - destruct h as [|h]; [by destruct Hd|]. exists h. split; [lia|by apply Hx].
  - destruct (Hch j h Hj Hd) as (h' & Hlt & Hd').
    destruct h' as [|h']; [by destruct Hd'|]. exists h'. split; [lia|by apply Hx].
Qed.

(** *** The store *)

Lemma data_set_twice d a x y :
  data_set (data_set (data_set (data_set d a x) (a + 1) y) a x) (a + 1) y
  = data_set (data_set d a x) (a + 1) y.
Proof.
  unfold data_set.
  destruct (a <? 0)%Z eqn:Ha, (a + 1 <? 0)%Z eqn:Ha1; try done.
  - by rewrite list_insert_insert_eq.
  - apply Z.ltb_ge in Ha. apply Z.ltb_lt in Ha1. lia.
  - apply Z.ltb_ge in Ha, Ha1.
    assert (Z.to_nat (a + 1) ≠ Z.to_nat a) as Hne by lia.
    rewrite (list_insert_insert_ne _ (Z.to_nat a) (Z.to_nat (a + 1))) by done.
    by rewrite !list_insert_insert_eq.
Qed.

(** *** Publishing the word read *)

Lemma publish_ram_outputs_rams outs k w s :
  rams (publish_ram_outputs outs k w s) = rams s ∧
  node_ass (publish_ram_outputs outs k w s) = node_ass s.
Proof.
  revert k s. induction outs as [|o outs IH]; intros k s;
    unfold publish_ram_outputs; fold publish_ram_outputs; [done|].
  destruct (IH (S k) (upd_node (λ n, set_cached (Z.testbit w (Z.of_nat k)) (set_visited true n)) o s))
    as [-> ->].
  split; [done|]. by apply node_ass_upd.
Qed.

Lemma publish_ram_outputs_cch outs w i : ∀ k s,
  Forall (λ o, o < length (nodes s)) outs →
  cch (publish_ram_outputs outs k w s) i = default (cch s i) (published_bit outs k w i) ∧
  vis (publish_ram_outputs outs k w s) i =
    (if published_bit outs k w i is Some _ then true else vis s i).
Proof.
  induction outs as [|o outs IH]; intros k s Hlt;
    unfold publish_ram_outputs; fold publish_ram_outputs; [done|].
  apply Forall_cons in Hlt as [Ho Hlt].
  set (s1 := upd_node (λ n, set_cached (Z.testbit w (Z.of_nat k)) (set_visited true n)) o s).
  destruct (IH (S k) s1) as [Hc Hv].
  { unfold s1. by rewrite upd_node_length. }
  rewrite Hc, Hv. cbn [published_bit].
  destruct (published_bit outs (S k) w i) as [b|]; [done|]. cbn.
  unfold s1. rewrite cch_upd, vis_upd.
  destruct (decide (o = i)) as [->|]; [|done].
  apply lookup_lt_is_Some_2 in Ho as [n Hn]. by rewrite Hn.
Qed.

Lemma published_bit_elem outs k w i b : published_bit outs k w i = Some b → i ∈ outs.
Proof.
  revert k b. induction outs as [|o outs IH]; intros k b; cbn [published_bit]; [done|].
  destruct (published_bit outs (S k) w i) as [b'|] eqn:E.
  - intros _. right. by eapply IH.
  - destruct (decide (o = i)) as [->|]; [|done]. intros _. by left.
Qed.

End EdgeValue.

Section EdgeEval.
Implicit Types (s : grci_simulator) (p : ptr) (i j k : nat) (A : list node_as)
  (R : list grci_ram64k) (P : list nat).

Lemma edge_memo_mark A R P s i :
  edge_memo_ok A R P s → vis s i = false →
  edge_memo_ok A R (i :: P) (upd_node (set_visited true) i s).
Proof.
  intros Hm Hv j h v Hvj Hdj Hj.
  apply not_elem_of_cons in Hj as [Hne Hj].
  rewrite vis_upd in Hvj. rewrite dff_at_upd in Hdj by done. rewrite cch_upd.
  destruct (decide (i = j)); [done|]. by eapply Hm.
Qed.

Lemma edge_memo_mark_dff A R P s i :
  edge_memo_ok A R P s → dff_at s i = true →
  edge_memo_ok A R P (upd_node (set_visited true) i s).
Proof.
  intros Hm Hd j h v Hvj Hdj Hj.
  rewrite vis_upd in Hvj. rewrite dff_at_upd in Hdj by done. rewrite cch_upd.
  destruct (decide (i = j)) as [->|]; [congruence|]. by eapply Hm.
Qed.

Lemma edge_memo_set A R P s i c :
  edge_memo_ok A R (i :: P) s → i < length (nodes s) →
  (∀ h v, edge_value h A R (Some i) = Some v → v = c) →
  edge_memo_ok A R P (upd_node (set_cached c) i s).
Proof.
  intros Hm Hi Hc j h v Hvj Hdj Hj.
  rewrite vis_upd in Hvj. rewrite dff_at_upd in Hdj by done. rewrite cch_upd.
  destruct (decide (i = j)) as [->|Hne].
  - intros Hv. apply lookup_lt_is_Some_2 in Hi as [n Hn]. rewrite Hn. simpl.
    symmetry. by eapply Hc.
  - apply Hm; try done. by apply not_elem_of_cons.
Qed.

Lemma stores_ok_rams A R s s' : rams s' = rams s → stores_ok A R s → stores_ok A R s'.
Proof. intros Hr [Hsh Hd]. unfold stores_ok, ram_shapes. rewrite Hr. by split. Qed.

Lemma stores_ok_ram A R s r ram :
  stores_ok A R s → rams s !! r = Some ram →
  ∃ ram0, R !! r = Some ram0 ∧ with_data [] ram = with_data [] ram0.
Proof.
  intros [Hsh _] Hr. unfold ram_shapes in Hsh.
  apply (f_equal (λ l, l !! r)) in Hsh. rewrite !list_lookup_fmap, Hr in Hsh.
  destruct (R !! r) as [ram0|]; [|done]. exists ram0. split; [done|].
  cbn in Hsh. congruence.
Qed.

Lemma ram_backlinks_skel s s' : same_skel s s' → ram_backlinks s → ram_backlinks s'.
Proof.
  intros Hsk Hb r ram' o Hr Ho.
  destruct (same_skel_ram _ _ _ _ Hsk Hr) as (ram & Hram & Hshape).
  destruct (Hb r ram o Hram) as [l Hl].
  { by replace (ram_outputs ram) with (ram_outputs ram')
      by (by apply (f_equal ram_outputs) in Hshape). }
  pose proof (sk_nodes _ _ Hsk) as Hn. apply (f_equal (λ l, l !! o)) in Hn.
  unfold node_skels in Hn. rewrite !list_lookup_fmap, Hl in Hn.
  destruct (node_ass s' !! o) as [[| | |r' l']|]; simplify_eq/=. eauto.
Qed.

(** The parts of [edge_state] that follow from the frame of an
    evaluation. *)
Lemma edge_state_frame A R P s s' :
  eval_frame None s s' → edge_state A R P s →
  edge_memo_ok A R P s' → stores_ok A R s' → edge_state A R P s'.
Proof.
  intros Hf [Ha Hok Hl _ Hfr _] Hm Hst. split; try done.
  - by rewrite (ef_as _ _ _ Hf).
  - by eapply frame_sim_ok.
  - eapply ram_backlinks_skel; [|done]. by eapply eval_frame_skel.
  - by eapply dff_fresh_frame.
Qed.

Lemma edge_state_mark A R P s i n :
  edge_state A R P s → nodes s !! i = Some n → visited n = false →
  is_dff_as (as_ n) = false →
  edge_state A R (i :: P) (upd_node (set_visited true) i s).
Proof.
  intros Hst Hn Hv Hd.
  destruct (mark_visited_frame None s i n Hn Hv) as [Hf _].
  pose proof Hst as [Ha Hok Hl Hm Hfr Hs]. split.
  - by rewrite (ef_as _ _ _ Hf).
  - by eapply frame_sim_ok.
  - eapply ram_backlinks_skel; [|done]. by eapply eval_frame_skel.
  - apply edge_memo_mark; [done|]. unfold vis. by rewrite Hn.
  - by apply dff_fresh_mark.
  - by eapply stores_ok_rams.
Qed.

Lemma edge_state_mark_dff A R P s i n :
  edge_state A R P s → nodes s !! i = Some n → visited n = false →
  is_dff_as (as_ n) = true →
  edge_state A R P (upd_node (set_visited true) i s).
Proof.
  intros Hst Hn Hv Hd.
  destruct (mark_visited_frame None s i n Hn Hv) as [Hf _].
  eapply edge_state_frame; [exact Hf|exact Hst| |].
  - apply edge_memo_mark_dff; [apply Hst|]. by rewrite (dff_at_lookup _ _ _ Hn).
  - eapply stores_ok_rams; [|apply Hst]. done.
Qed.

Lemma edge_state_set A R P s i c :
  edge_state A R (i :: P) s → i < length (nodes s) → dff_at s i = false →
  (∀ h v, edge_value h A R (Some i) = Some v → v = c) →
  edge_state A R P (upd_node (set_cached c) i s).
Proof.
  intros [Ha Hok Hl Hm Hfr Hs] Hi Hd Hc.
  assert (eval_frame None s (upd_node (set_cached c) i s)) as Hf.
  { apply eval_frame_upd; [done|done|]. by right; left. }
  split.
  - by rewrite (ef_as _ _ _ Hf).
  - by eapply frame_sim_ok.
  - eapply ram_backlinks_skel; [|done]. by eapply eval_frame_skel.
  - by apply edge_memo_set.
  - by eapply dff_fresh_frame.
  - by eapply stores_ok_rams.
Qed.

Lemma eval_dff_fuel_frame_of F s p root v' s' :
  sim_ok s → unvisited s < F → grci_eval_dff_fuel F s p root = Some (v', s') →
  eval_frame (if root then p else None) s s'.
Proof.
  intros Hok HF E.
  assert (ptr_ok (length (node_skels s)) p) as Hp.
  { destruct F as [|f]; [done|]. cbn [grci_eval_dff_fuel] in E.
    destruct p as [i|]; [|done]. cbn [mbind option_bind] in E.
    destruct (nodes s !! i) eqn:Hn; [|done].
    simpl. rewrite node_skels_length. by eapply lookup_lt_Some. }
  destruct (eval_dff_fuel_frame F s p root Hok Hp HF) as (v & s1 & E1 & Hf).
  rewrite E1 in E. by injection E as <- <-.
Qed.

Lemma ram_scan_cons (ev : grci_simulator → ptr → option (bool * grci_simulator))
    ram i idx input1 input2 addr s :
  ram_scan ev ram (i :: idx) (input1, input2, addr) s =
    (pin ← ram_inputs ram !! i;
     '(vi, s1) ← ev s pin;
     pad ← ram_addrs ram !! i;
     '(va, s2) ← ev s1 pad;
     ram_scan ev ram idx
       (if i <? 8 then Z.lor input1 (Z.shiftl (Z.b2z vi) (Z.of_nat i)) else input1,
        if i <? 8 then input2 else Z.lor input2 (Z.shiftl (Z.b2z vi) (Z.of_nat (i - 8))),
        Z.lor addr (Z.shiftl (Z.b2z va) (Z.of_nat i))) s2).
Proof. done. Qed.

(** The sixteen rounds of the RAM-OUT case read the values the
    reference evaluation gives to the input slots. *)
Lemma ram_scan_edge A R P f ram idx :
  (∀ s p v' s', edge_state A R P s → unvisited s < f → edge_chain A R P p →
     grci_eval_dff_fuel f s p false = Some (v', s') →
     (∀ h v, edge_value h A R p = Some v → v' = v) ∧ edge_state A R P s' ∧
     eval_frame None s s') →
  (∀ i pin, i ∈ idx → ram_inputs ram !! i = Some pin → edge_chain A R P pin) →
  (∀ i pad, i ∈ idx → ram_addrs ram !! i = Some pad → edge_chain A R P pad) →
  ∀ acc s acc' s', edge_state A R P s → unvisited s < f →
    ram_scan (λ s' p', grci_eval_dff_fuel f s' p' false) ram idx acc s = Some (acc', s') →
    (∀ h accv, ram_scan_value (λ q, edge_value h A R q) ram idx acc = Some accv →
               acc' = accv) ∧
    edge_state A R P s' ∧ eval_frame None s s'.
Proof.
  intros Hev. induction idx as [|i idx IH]; intros Hin Had [[in1 in2] addr] s acc' s' Hst HF E.
  - injection E as <- <-. split; [|split; [done|apply eval_frame_refl]].
    intros h accv Hv. by injection Hv.
  - rewrite ram_scan_cons in E.
    destruct (ram_inputs ram !! i) as [pin|] eqn:Hpin; [|done]. cbn [mbind option_bind] in E.
    destruct (grci_eval_dff_fuel f s pin false) as [[vi s1]|] eqn:E1; [|done].
    cbn [mbind option_bind] in E.
    destruct (ram_addrs ram !! i) as [pad|] eqn:Hpad; [|done]. cbn [mbind option_bind] in E.
    destruct (grci_eval_dff_fuel f s1 pad false) as [[va s2]|] eqn:E2; [|done].
    cbn [mbind option_bind] in E.
    destruct (Hev s pin vi s1 Hst HF) as (Hvi & Hst1 & Hf1); [|done|].
    { apply (Hin i); [by left|done]. }
    destruct (Hev s1 pad va s2 Hst1) as (Hva & Hst2 & Hf2); [| |done|].
    { eapply frame_unvisited; eauto. }
    { apply (Had i); [by left|done]. }
    pose proof (eval_frame_trans _ _ _ _ Hf1 Hf2) as Hf12.
    destruct (IH (λ i' pin' Hi', Hin i' pin' (list_elem_of_further _ _ _ Hi'))
                 (λ i' pad' Hi', Had i' pad' (list_elem_of_further _ _ _ Hi'))
                 _ s2 acc' s' Hst2 (frame_unvisited _ _ _ _ Hf12 HF) E)
      as (Hacc & Hst' & Hf').
    split; [|split; [done|by eapply eval_frame_trans]].
    intros h accv Hv. cbn [ram_scan_value] in Hv. rewrite Hpin in Hv.
    cbn [mbind option_bind] in Hv.
    destruct (edge_value h A R pin) as [vi'|] eqn:Evi; [|done].
    cbn [mbind option_bind] in Hv. rewrite Hpad in Hv. cbn [mbind option_bind] in Hv.
    destruct (edge_value h A R pad) as [va'|] eqn:Eva; [|done].
    cbn [mbind option_bind] in Hv.
    rewrite <- (Hvi _ _ Evi), <- (Hva _ _ Eva) in Hv. by eapply Hacc.
Qed.

Lemma ram_out_ok_lt s o : ram_out_ok (node_skels s) o → o < length (nodes s).
Proof.
  unfold ram_out_ok. intros H. rewrite <- node_skels_length.
  apply lookup_lt_is_Some. by destruct (node_skels s !! o).
Qed.

(** The memoising evaluator of the rising-edge pass agrees with the
    reference evaluation, and a RAM block it touches ends with the bytes
    the reference evaluation stores. *)
Lemma eval_dff_edge A R F : ∀ s p P v' s',
  edge_state A R P s → unvisited s < F → edge_chain A R P p →
  grci_eval_dff_fuel F s p false = Some (v', s') →
  (∀ h v, edge_value h A R p = Some v → v' = v) ∧ edge_state A R P s' ∧
  eval_frame None s s'.
Proof.
  induction F as [|f IH]; intros s p P v' s' Hst HF Hch E; [lia|].
  pose proof (eval_dff_fuel_frame_of _ _ _ _ _ _ (es_ok _ _ _ _ Hst) HF E) as Hfr.
  cbn [negb] in Hfr.
  cut ((∀ h v, edge_value h A R p = Some v → v' = v) ∧
       edge_memo_ok A R P s' ∧ stores_ok A R s').
  { intros (Hv & Hm & Hs). split; [done|]. split; [|done]. by eapply edge_state_frame. }
  destruct p as [i|]; [|done].
  cbn [grci_eval_dff_fuel mbind option_bind] in E.
  destruct (nodes s !! i) as [node|] eqn:Hnode; [|done]. cbn [mbind option_bind] in E.
  pose proof (lookup_lt_Some _ _ _ Hnode) as Hilt.
  pose proof (sim_ok_node _ _ _ (es_ok _ _ _ _ Hst) Hnode) as Hnok.
  assert (dff_at s i = is_dff_as (as_ node)) as Hdi by (by apply dff_at_lookup).
  assert (vis s i = visited node) as Hvi by (unfold vis; by rewrite Hnode).
  assert (cch s i = cached_state node) as Hci by (unfold cch; by rewrite Hnode).
  assert (A !! i = Some (as_ node)) as HA.
  { rewrite <- (es_as _ _ _ _ Hst). by apply node_ass_lookup. }
  assert (∀ h v, i ∈ P → edge_value h A R (Some i) = Some v → False) as Hself.
  { intros h v Hi Hv. by rewrite (edge_chain_self _ _ _ _ Hi Hch h) in Hv. }
  destruct (visited node) eqn:Hv.
  { assert (s' = s) as ->.
    { by destruct (as_ node); injection E as <- <-. }
    split; [|split; apply Hst].
    destruct (as_ node) as [c|x y|inp l|r l] eqn:Has.
    1,2,4: injection E as <-; intros h v Hv'; rewrite <- Hci;
      destruct (decide (i ∈ P)) as [Hi|Hi]; [by destruct (Hself h v Hi Hv')|];
      apply (es_memo _ _ _ _ Hst i h v); [by rewrite Hvi|by rewrite Hdi|done|done].
    injection E as <-. intros h v Hv'. destruct h as [|h]; [done|].
    rewrite edge_value_unfold in Hv'. cbn [mbind option_bind] in Hv'.
    rewrite HA in Hv'. cbn [mbind option_bind] in Hv'. by injection Hv'. }
  destruct (mark_visited_frame None s i node Hnode Hv) as [Hf1 Hu1].
  set (s1 := upd_node (set_visited true) i s) in *.
  assert (unvisited s1 < f) as HF1 by lia.
  assert (length (nodes s1) = length (nodes s)) as Hlen1 by apply (eval_frame_length _ _ _ Hf1).
  destruct (as_ node) as [c|x y|inp l|r l] eqn:Has.
  - (* constant *)
    pose proof (edge_state_mark A R P s i node Hst Hnode Hv) as Hst1.
    rewrite Has in Hst1. specialize (Hst1 eq_refl). fold s1 in Hst1.
    apply ret_cached_eq in E as [-> ->].
    assert (∀ h v, edge_value h A R (Some i) = Some v → v = c) as Href.
    { intros h v Hv'. destruct h as [|h]; [done|].
      rewrite edge_value_unfold in Hv'. cbn [mbind option_bind] in Hv'.
      rewrite HA in Hv'. cbn [mbind option_bind] in Hv'. by injection Hv'. }
    split; [|split].
    + intros h v Hv'. rewrite cch_set_cached by lia. symmetry. by eapply Href.
    + apply edge_memo_set; [apply Hst1|lia|done].
    + eapply stores_ok_rams; [|apply Hst]. done.
  - (* nand *)
    pose proof (edge_state_mark A R P s i node Hst Hnode Hv) as Hst1.
    rewrite Has in Hst1. specialize (Hst1 eq_refl). fold s1 in Hst1.
    assert (∀ h v, edge_value (S h) A R (Some i) = Some v →
              ∃ vx vy, edge_value h A R x = Some vx ∧ edge_value h A R y = Some vy ∧
                       v = negb (vx && vy)) as Href.
    { intros h v Hv'. rewrite edge_value_unfold in Hv'. cbn [mbind option_bind] in Hv'.
      rewrite HA in Hv'. cbn [mbind option_bind] in Hv'.
      destruct (edge_value h A R x) as [vx|]; [|done]. cbn [mbind option_bind] in Hv'.
      destruct (edge_value h A R y) as [vy|]; [|done]. cbn [mbind option_bind] in Hv'.
      injection Hv' as <-. by exists vx, vy. }
    destruct (grci_eval_dff_fuel f s1 x false) as [[va s2]|] eqn:E2; [|done].
    cbn [mbind option_bind] in E.
    destruct (grci_eval_dff_fuel f s2 y false) as [[vb s3]|] eqn:E3; [|done].
    cbn [mbind option_bind] in E.
    destruct (IH s1 x (i :: P) va s2 Hst1 HF1) as (Hva & Hst2 & Hf2); [|done|].
    { apply edge_chain_child; [done|]. intros h [v Hv'].
      destruct (Href h v Hv') as (vx & vy & -> & _ & _). eauto. }
    destruct (IH s2 y (i :: P) vb s3 Hst2) as (Hvb & Hst3 & Hf3); [| |done|].
    { eapply frame_unvisited; eauto. }
    { apply edge_chain_child; [done|]. intros h [v Hv'].
      destruct (Href h v Hv') as (vx & vy & _ & -> & _). eauto. }
    pose proof (eval_frame_trans _ _ _ _ Hf1 (eval_frame_trans _ _ _ _ Hf2 Hf3)) as Hf13.
    assert (length (nodes s3) = length (nodes s)) as Hlen3
      by apply (eval_frame_length _ _ _ Hf13).
    apply ret_cached_eq in E as [-> ->].
    assert (∀ h v, edge_value h A R (Some i) = Some v → v = negb (va && vb)) as Hval.
    { intros h v Hv'. destruct h as [|h]; [done|].
      destruct (Href h v Hv') as (vx & vy & Hx & Hy & ->).
      by rewrite (Hva _ _ Hx), (Hvb _ _ Hy). }
    split; [|split].
    + intros h v Hv'. rewrite cch_set_cached by lia. symmetry. by eapply Hval.
    + apply edge_memo_set; [apply Hst3|lia|done].
    + eapply stores_ok_rams; [|apply Hst3]. done.
  - (* a DFF reached for the first time *)
    cbn [negb] in E. injection E as <- <-.
    split; [|split].
    + intros h v Hv'. destruct h as [|h]; [done|].
      rewrite edge_value_unfold in Hv'. cbn [mbind option_bind] in Hv'.
      rewrite HA in Hv'. cbn [mbind option_bind] in Hv'. injection Hv' as <-.
      assert (Some (cch s i) = lst s i) as Hl.
      { apply (es_fresh _ _ _ _ Hst); [by rewrite Hdi|by rewrite Hvi]. }
      rewrite (lst_lookup _ _ _ Hnode), Has in Hl. rewrite <- Hci. by injection Hl.
    + apply edge_memo_mark_dff; [apply Hst|]. by rewrite Hdi.
    + eapply stores_ok_rams; [|apply Hst]. done.
  - (* RAM-OUT *)
    pose proof (edge_state_mark A R P s i node Hst Hnode Hv) as Hst1.
    rewrite Has in Hst1. specialize (Hst1 eq_refl). fold s1 in Hst1.
    destruct (rams s1 !! r) as [ram|] eqn:Hram; [|done]. cbn [mbind option_bind] in E.
    destruct (grci_eval_dff_fuel f s1 (ram_load ram) false) as [[ld s2]|] eqn:E2; [|done].
    cbn [mbind option_bind] in E.
    destruct (ram_scan _ ram ram_bits (0, 0, 0)%Z s2) as [[[[in1 in2] addr] s3]|] eqn:E3;
      [|done].
    cbn [mbind option_bind] in E.
    destruct (rams s3 !! r) as [ram3|] eqn:Hram3; [|done]. cbn [mbind option_bind] in E.
    destruct (stores_ok_ram _ _ _ _ _ (es_stores _ _ _ _ Hst1) Hram) as (ram0 & Hram0 & Hsh).
    assert (ram_load ram = ram_load ram0) as Hload
      by (by apply (f_equal ram_load) in Hsh).
    assert (ram_inputs ram = ram_inputs ram0) as Hins
      by (by apply (f_equal ram_inputs) in Hsh).
    assert (ram_addrs ram = ram_addrs ram0) as Hads
      by (by apply (f_equal ram_addrs) in Hsh).
    assert (∀ h v, edge_value (S h) A R (Some i) = Some v →
              ∃ d0 a0, ram_edge (λ q, edge_value h A R q) ram0 = Some (d0, a0) ∧
                       published_bit (ram_outputs ram0) 0 (data_word d0 a0) i = Some v)
      as Href.
    { intros h v Hv'. destruct (edge_value_ram _ _ _ _ _ _ _ HA Hv')
        as (ram0' & d0 & a0 & Hr0 & He & Hp).
      rewrite Hram0 in Hr0. injection Hr0 as <-. eauto. }
    destruct (IH s1 (ram_load ram) (i :: P) ld s2 Hst1 HF1) as (Hld & Hst2 & Hf2); [|done|].
    { apply edge_chain_child; [done|]. intros h [v Hv'].
      destruct (Href h v Hv') as (d0 & a0 & He & _).
      destruct (ram_edge_parts _ _ _ _ He) as (ld0 & ? & ? & Hl0 & _).
      rewrite Hload. eauto. }
    destruct (ram_scan_edge A R (i :: P) f ram ram_bits
                (λ s p v' s', IH s p (i :: P) v' s')) with (acc := (0, 0, 0)%Z)
                (s := s2) (acc' := (in1, in2, addr)) (s' := s3)
      as (Hacc & Hst3 & Hf3); try done.
    { intros i' pin Hi' Hpin. apply edge_chain_child; [done|]. intros h [v Hv'].
      destruct (Href h v Hv') as (d0 & a0 & He & _).
      destruct (ram_edge_parts _ _ _ _ He) as (ld0 & ? & ? & _ & Hs0 & _).
      destruct (ram_scan_value_slots _ _ _ _ _ i' Hs0 Hi') as [(pin' & Hp' & Hd') _].
      rewrite <- Hins, Hpin in Hp'. by injection Hp' as <-. }
    { intros i' pad Hi' Hpad. apply edge_chain_child; [done|]. intros h [v Hv'].
      destruct (Href h v Hv') as (d0 & a0 & He & _).
      destruct (ram_edge_parts _ _ _ _ He) as (ld0 & ? & ? & _ & Hs0 & _).
      destruct (ram_scan_value_slots _ _ _ _ _ i' Hs0 Hi') as [_ (pad' & Hp' & Hd')].
      rewrite <- Hads, Hpad in Hp'. by injection Hp' as <-. }
    { eapply frame_unvisited; eauto. }
    destruct (stores_ok_ram _ _ _ _ _ (es_stores _ _ _ _ Hst3) Hram3) as (ram0' & Hram0' & Hsh3).
    rewrite Hram0 in Hram0'. injection Hram0' as <-.
    assert (ram_outputs ram3 = ram_outputs ram0) as Houts
      by (by apply (f_equal ram_outputs) in Hsh3).
    set (d := if ld then data_set (data_set (ram_data ram3) addr in1) (addr + 1)%Z in2
              else ram_data ram3) in *.
    set (s4 := with_rams s3 (<[r := with_data d ram3]> (rams s3))) in *.
    set (w := data_word d addr) in *.
    apply ret_cached_eq in E as [-> ->].
    (* the store and the address are those of the reference evaluation *)
    assert (∀ h d0 a0, ram_edge (λ q, edge_value h A R q) ram0 = Some (d0, a0) →
              d = d0 ∧ addr = a0) as Hkey.
    { intros h d0 a0 He.
      destruct (es_stores _ _ _ _ Hst3) as [_ Hdata].
      specialize (Hdata r ram0 ram3 h d0 a0 Hram0 Hram3 He).
      destruct (ram_edge_parts _ _ _ _ He) as (ld0 & i1 & i2 & Hl0 & Hs0 & Hd0).
      rewrite <- Hload in Hl0. pose proof (Hld _ _ Hl0) as Hldeq.
      rewrite <- (ram_scan_value_shape _ ram ram0) in Hs0 by done.
      apply Hacc in Hs0. injection Hs0 as <- <- <-.
      split; [|done]. unfold d. rewrite Hldeq. clear He. destruct ld0; subst d0.
      - destruct Hdata as [Hd1 | Hd1]; rewrite Hd1; [done|]. apply data_set_twice.
      - by destruct Hdata as [Hd1 | Hd1]. }
    assert (Forall (λ o, o < length (nodes s4)) (ram_outputs ram3)) as Hlt.
    { pose proof (sim_ok_ram _ _ _ (es_ok _ _ _ _ Hst3) Hram3) as (_&_&_&_&_&Ho).
      eapply Forall_impl; [exact Ho|]. intros o. apply ram_out_ok_lt. }
    assert (∀ j, cch (publish_ram_outputs (ram_outputs ram3) 0 w s4) j =
                 default (cch s3 j) (published_bit (ram_outputs ram0) 0 w j) ∧
                 vis (publish_ram_outputs (ram_outputs ram3) 0 w s4) j =
                 (if published_bit (ram_outputs ram0) 0 w j is Some _ then true else vis s3 j))
      as Hpub.
    { intros j. rewrite <- Houts. apply (publish_ram_outputs_cch _ w j 0 s4 Hlt). }
    destruct (publish_ram_outputs_rams (ram_outputs ram3) 0 w s4) as [Hrams' Hass'].
    split; [|split].
    + intros h v Hv'. destruct h as [|h]; [done|].
      destruct (Href h v Hv') as (d0 & a0 & He & Hp).
      destruct (Hkey h d0 a0 He) as [Hd Ha]. destruct (Hpub i) as [-> _].
      unfold w. by rewrite Hd, Ha, Hp.
    + intros j h v Hvj Hdj Hj Hv'. destruct (Hpub j) as [Hcj Hvisj].
      rewrite Hcj. rewrite Hvisj in Hvj.
      destruct (published_bit (ram_outputs ram0) 0 w j) as [b|] eqn:Epub.
      * cbn. apply published_bit_elem in Epub as Hin. rewrite <- Houts in Hin.
        destruct (es_links _ _ _ _ Hst3 r ram3 j Hram3 Hin) as [l' Hl'].
        rewrite (es_as _ _ _ _ Hst3) in Hl'.
        destruct h as [|h]; [done|].
        destruct (edge_value_ram _ _ _ _ _ _ _ Hl' Hv') as (ram0' & d0 & a0 & Hr0 & He & Hp).
        rewrite Hram0 in Hr0. injection Hr0 as <-.
        destruct (Hkey h d0 a0 He) as [Hd Ha]. unfold w in Epub.
        rewrite Hd, Ha, Hp in Epub. by injection Epub.
      * cbn. destruct (decide (j = i)) as [->|Hne].
        -- destruct h as [|h]; [done|].
           destruct (Href h v Hv') as (d0 & a0 & He & Hp).
           destruct (Hkey h d0 a0 He) as [Hd Ha]. unfold w in Epub.
           rewrite Hd, Ha, Hp in Epub. done.
        -- apply (es_memo _ _ _ _ Hst3 j h v); try done.
           ++ unfold dff_at in *. rewrite Hass' in Hdj. exact Hdj.
           ++ apply not_elem_of_cons. by split.
    + split.
      * rewrite (ef_rams _ _ _ Hfr). apply (es_stores _ _ _ _ Hst).
      * intros r' ram0' ram' h d0 a0 Hr0' Hr' He. rewrite Hrams' in Hr'.
        unfold s4 in Hr'. cbn [rams with_rams] in Hr'.
        destruct (decide (r = r')) as [<-|Hne].
        -- rewrite list_lookup_insert_eq in Hr' by (by eapply lookup_lt_Some).
           injection Hr' as <-. rewrite Hram0 in Hr0'. injection Hr0' as <-.
           right. cbn [ram_data with_data]. by destruct (Hkey h d0 a0 He).
        -- rewrite list_lookup_insert_ne in Hr' by done.
           by apply (proj2 (es_stores _ _ _ _ Hst3) r' ram0' ram' h d0 a0).
Qed.

End EdgeEval.

Section EdgePass.
Implicit Types (s : grci_simulator) (p : ptr) (i j k : nat) (m : grci_module).

(** The [root] flag only matters at a DFF. *)
Lemma eval_dff_root_other F s k n :
  nodes s !! k = Some n → is_dff_as (as_ n) = false →
  grci_eval_dff_fuel F s (Some k) true = grci_eval_dff_fuel F s (Some k) false.
Proof.
  intros Hn Hd. destruct F as [|f]; [done|].
  cbn [grci_eval_dff_fuel mbind option_bind]. rewrite Hn. cbn [mbind option_bind].
  by destruct (as_ n).
Qed.

(** One round of the pass, on any reference of the DFF list. *)
Lemma edge_round A R s k v' s' :
  edge_state A R [] s → vis s k = false →
  grci_eval_dff s (Some k) true = Some (v', s') →
  stores_ok A R s' ∧
  ∀ inp l h v, A !! k = Some (AsDff inp l) → edge_value h A R inp = Some v → cch s' k = v.
Proof.
  intros Hst Hvk E. unfold grci_eval_dff in E.
  destruct (nodes s !! k) as [node|] eqn:Hnode.
  2:{ cbn [grci_eval_dff_fuel mbind option_bind] in E. by rewrite Hnode in E. }
  assert (visited node = false) as Hv by (unfold vis in Hvk; by rewrite Hnode in Hvk).
  assert (A !! k = Some (as_ node)) as HA.
  { rewrite <- (es_as _ _ _ _ Hst). by apply node_ass_lookup. }
  pose proof (unvisited_le_length s) as Hle.
  destruct (is_dff_as (as_ node)) eqn:Hd.
  - destruct (as_ node) as [| |inp0 l0|] eqn:Has; try done.
    cbn [grci_eval_dff_fuel mbind option_bind] in E. rewrite Hnode in E.
    cbn [mbind option_bind] in E. rewrite Hv, Has in E. cbn [negb] in E.
    destruct (mark_visited_frame None s k node Hnode Hv) as [Hf1 Hu1].
    pose proof (edge_state_mark_dff A R [] s k node Hst Hnode Hv) as Hst1.
    rewrite Has in Hst1. specialize (Hst1 eq_refl).
    set (s1 := upd_node (set_visited true) k s) in *.
    destruct (grci_eval_dff_fuel (length (nodes s)) s1 inp0 false) as [[va s2]|] eqn:E2;
      [|done].
    cbn [mbind option_bind] in E.
    destruct (eval_dff_edge A R (length (nodes s)) s1 inp0 [] va s2 Hst1)
      as (Hva & Hst2 & Hf2);
      [lia|apply edge_chain_nil|done|].
    apply ret_cached_eq in E as [-> ->]. split.
    + eapply stores_ok_rams; [|apply Hst2]. done.
    + intros inp l h v Hk Hval. rewrite HA in Hk. injection Hk as <- <-.
      rewrite cch_set_cached.
      * by apply (Hva h).
      * rewrite (eval_frame_length _ _ _ Hf2), (eval_frame_length _ _ _ Hf1).
        by eapply lookup_lt_Some.
  - rewrite (eval_dff_root_other _ _ _ _ Hnode Hd) in E.
    destruct (eval_dff_edge A R (S (length (nodes s))) s (Some k) [] v' s' Hst)
      as (_ & Hst' & _);
      [lia|apply edge_chain_nil|done|].
    split; [apply Hst'|]. intros inp l h v Hk. rewrite HA in Hk. injection Hk as Hk.
    by rewrite Hk in Hd.
Qed.

Lemma edge_pass_init s0 :
  dff_sync s0 → (∀ i, vis s0 i = false) → edge_pass_inv s0 [] s0.
Proof.
  intros Hsync Hvis. split.
  - apply as_frame_refl.
  - intros i Hi _. by apply Hsync.
  - intros i _. apply Hvis.
  - intros i Hi. by apply elem_of_nil in Hi.
  - intros i ???? Hi. by apply elem_of_nil in Hi.
  - split; [done|]. intros r ram0 ram h d addr H0 H1 _. left. congruence.
Qed.

(** One round of the rising-edge loop keeps the invariant and roots [k]. *)
Lemma edge_pass_round s0 rooted s k :
  sim_ok s0 → ram_backlinks s0 → edge_pass_inv s0 rooted s → k ∉ rooted →
  k < length (nodes s0) →
  ∃ v s', grci_eval_dff (upd_node (set_visited false) k s) (Some k) true = Some (v, s') ∧
          edge_pass_inv s0 (k :: rooted) (clear_comb_visited s').
Proof.
  intros Hok0 Hlinks0 [Has Hunr Hcomb Hrv Hval Hstores] Hk Hklt.
  pose proof (as_frame_upd (set_visited false) k s (λ _, eq_refl)) as Hfa.
  set (sa := upd_node (set_visited false) k s) in *.
  pose proof (as_frame_trans _ _ _ Has Hfa) as Has_a.
  pose proof (sim_ok_skel _ _ (as_frame_skel _ _ Has_a) Hok0) as Hok_a.
  destruct (eval_dff_frame_vis sa k true Hok_a) as (v & s' & E & Hf & Hvk').
  { by rewrite (same_skel_length _ _ (as_frame_skel _ _ Has_a)). }
  exists v, s'. split; [done|].
  pose proof (as_frame_trans _ _ _ Has_a (as_frame_of_eval _ _ _ Hf)) as Has'.
  assert (∀ i, vis sa i = if decide (k = i) then false else vis s i) as Hvis_a.
  { intros i. unfold sa. rewrite vis_upd. destruct (decide (k = i)) as [->|]; [|done].
    by destruct (nodes s !! i). }
  assert (∀ i, cch sa i = cch s i) as Hcch_a.
  { intros i. unfold sa. rewrite cch_upd. destruct (decide (k = i)) as [->|]; [|done].
    unfold cch. by destruct (nodes s !! i). }
  assert (∀ i, dff_at sa i = dff_at s0 i) as Hd_a by (intros i; by apply as_frame_dff_at).
  assert (node_ass sa = node_ass s0) as HA_a by apply Has_a.
  assert (edge_state (node_ass s0) (rams s0) [] sa) as Hst_a.
  { split; [exact HA_a|exact Hok_a| | | |].
    - eapply ram_backlinks_skel; [|exact Hlinks0]. by apply as_frame_skel.
    - intros j h v0 Hvj Hdj _. rewrite Hvis_a in Hvj. rewrite Hd_a in Hdj.
      destruct (decide (k = j)); [done|]. by rewrite Hcomb in Hvj.
    - intros j Hdj Hvj. rewrite Hcch_a, (lst_of_as s0 sa) by done.
      rewrite Hd_a in Hdj. apply Hunr; [done|].
      intros Hjr. rewrite Hvis_a in Hvj. destruct (decide (k = j)) as [->|]; [done|].
      by rewrite Hrv in Hvj.
    - eapply stores_ok_rams; [|exact Hstores]. done. }
  destruct (edge_round _ _ sa k v s' Hst_a) as [Hstores' Hroot]; [|done|].
  { rewrite Hvis_a. by rewrite decide_True. }
  split.
  - eapply as_frame_trans; [exact Has'|apply as_frame_clear_comb].
  - intros i Hi Hni. apply not_elem_of_cons in Hni as [Hne Hni].
    rewrite clear_comb_visited_cch, (ef_cch _ _ _ Hf i), Hcch_a.
    + by apply Hunr.
    + by rewrite Hd_a.
    + congruence.
  - intros i Hi. rewrite clear_comb_visited_vis.
    by rewrite (dff_at_frame _ _ _ i Hf), Hd_a, Hi.
  - intros i Hin Hi. rewrite clear_comb_visited_vis.
    rewrite (dff_at_frame _ _ _ i Hf), Hd_a, Hi.
    apply elem_of_cons in Hin as [->|Hin]; [done|].
    apply (ef_vis _ _ _ Hf). rewrite Hvis_a.
    destruct (decide (k = i)) as [->|]; [done|]. by apply Hrv.
  - intros i inp l h v0 Hin Hi Hnv. rewrite clear_comb_visited_cch.
    apply elem_of_cons in Hin as [->|Hin].
    + by apply (Hroot inp l h v0).
    + rewrite (ef_cch _ _ _ Hf i), Hcch_a.
      * by eapply Hval.
      * rewrite Hd_a. unfold dff_at. by rewrite Hi.
      * congruence.
  - eapply stores_ok_rams; [|exact Hstores']. done.
Qed.

(** The whole rising-edge loop. *)
Lemma edge_pass_loop s0 ks : ∀ rooted s,
  sim_ok s0 → ram_backlinks s0 → edge_pass_inv s0 rooted s → NoDup ks →
  (∀ k, k ∈ ks → k ∉ rooted) → Forall (λ k, k < length (nodes s0)) ks →
  ∃ s' rooted', dff_pass ks s = Some s' ∧ edge_pass_inv s0 rooted' s' ∧
                ∀ k, k ∈ rooted' ↔ k ∈ ks ∨ k ∈ rooted.
Proof.
  induction ks as [|k ks IH]; intros rooted s Hok Hlinks Hinv Hnd Hfresh Hlt.
  - exists s, rooted. split; [done|]. split; [done|].
    intros k. split; [by right|]. intros [Hk|Hk]; [by apply elem_of_nil in Hk|done].
  - apply NoDup_cons in Hnd as [Hk Hnd]. apply Forall_cons in Hlt as [Hklt Hlt].
    destruct (edge_pass_round s0 rooted s k Hok Hlinks Hinv) as (v & s1 & E & Hinv1);
      [apply Hfresh; by left|done|].
    destruct (IH (k :: rooted) (clear_comb_visited s1)) as (s' & rooted' & E' & Hinv' & Hin);
      try done.
    { intros j Hj [->|Hjr]%elem_of_cons; [done|]. apply (Hfresh j); [by right|done]. }
    exists s', rooted'. cbn [dff_pass]. rewrite E. cbn [mbind option_bind].
    split; [done|]. split; [done|].
    intros j. rewrite Hin, !elem_of_cons. tauto.
Qed.

(** The pass followed by the commit, from a state as [pre_pass] leaves
    it. *)
Lemma edge_pass_commit s0 :
  sim_ok s0 → ram_backlinks s0 → dff_sync s0 → (∀ i, vis s0 i = false) →
  NoDup (dff_nodes s0) → Forall (λ k, is_Some (lst s0 k)) (dff_nodes s0) →
  ∃ sp, dff_pass (dff_nodes s0) s0 = Some sp ∧
        ∀ k inp l h v,
          k ∈ dff_nodes s0 → node_ass s0 !! k = Some (AsDff inp l) →
          edge_value h (node_ass s0) (rams s0) inp = Some v →
          lst (commit_dffs (dff_nodes s0) sp) k = Some v.
Proof.
  intros Hok Hlinks Hsync Hvis Hnd Hst.
  destruct (edge_pass_loop s0 (dff_nodes s0) [] s0) as (sp & rooted & E & Hinv & Hin);
    try done.
  { by apply edge_pass_init. }
  { intros k _ Hk. by apply elem_of_nil in Hk. }
  { eapply Forall_impl; [exact Hst|]. intros k. apply stateful_lt. }
  exists sp. split; [done|].
  pose proof (ep_as _ _ _ Hinv) as Has.
  assert (∀ k, lst sp k = lst s0 k) as Hlst by (intros k; apply lst_of_as, Has).
  intros k inp l h v Hk Hnode Hnv.
  assert (is_Some (lst sp k)) as Hsome.
  { rewrite Hlst. unfold lst. rewrite Hnode. simpl. eauto. }
  destruct (commit_dffs_lst (dff_nodes s0) sp k Hsome) as [-> _].
  rewrite decide_True by done. f_equal.
  eapply (ep_rooted_val _ _ _ Hinv k inp l h v); try done. rewrite Hin. by left.
Qed.

(** A step that takes the clock high. *)
Lemma rising_step_edge m :
  module_ok m → dff_sync (m_sim m) → links_ok (m_sim m) →
  clock_level (m_sim m) = Some false →
  ∃ s0 m', pre_pass m = Some s0 ∧ grci_step_module m = Some (m', true) ∧
           ∀ k inp l h v,
             node_ass s0 !! k = Some (AsDff inp l) →
             edge_value h (node_ass s0) (rams s0) inp = Some v →
             lst (m_sim m') k = Some v.
Proof.
  intros Hm Hs Hlinks Hc.
  destruct (step_trace_exists m false Hm Hc) as (s1&s2&s3&s5&s6&m'&Ht).
  destruct (pre_pass_sync _ _ _ _ _ _ _ _ Hm Hs Ht) as [Hs4 Hv4].
  exists (clear_visited s3), m'. split; [apply Ht|]. split; [apply Ht|].
  pose proof (st_pass _ _ _ _ _ _ _ _ Ht) as Hp. cbn [negb] in Hp.
  set (s4 := clear_visited s3) in *.
  assert (same_skel (m_sim m) s4) as Hsk4.
  { eapply same_skel_trans; [apply (uf_skel _ _ _ (st_f1 _ _ _ _ _ _ _ _ Ht))|].
    eapply same_skel_trans; [apply (uf_skel _ _ _ (st_f2 _ _ _ _ _ _ _ _ Ht))|].
    eapply same_skel_trans; [apply (uf_skel _ _ _ (st_f3 _ _ _ _ _ _ _ _ Ht))|].
    apply clear_visited_skel. }
  destruct (links_ok_skel _ _ Hsk4 Hlinks) as [Hlisted Hback].
  destruct (edge_pass_commit s4) as (sp & Ep & Hval); try done.
  { eapply sim_ok_skel; [exact Hsk4|apply Hm]. }
  { rewrite (sk_dffs _ _ Hsk4). apply Hm. }
  { eapply stateful_skel; [exact Hsk4|apply Hm]. }
  rewrite Ep in Hp. injection Hp as <-.
  intros k inp l h v Hnode Hnv.
  rewrite (st_sim _ _ _ _ _ _ _ _ Ht).
  rewrite (lst_of_as _ s6) by apply (st_f6 _ _ _ _ _ _ _ _ Ht).
  eapply Hval; [|done..]. apply Hlisted. unfold lst. rewrite Hnode. cbn. eauto.
Qed.

End EdgePass.

(** * The RAM examples *)

Section RamExamples.

Lemma board_module_init : grci_init_module ram_defs "Board" = Some board_module.
Proof. cbv -[ram64k_fresh_data]. reflexivity. Qed.

Lemma board_module_ok : module_ok board_module.
Proof.
  split.
  - split; vm_compute; solve_forall; repeat split; try lia; solve_forall; try done; simpl; lia.
  - by exists true.
  - vm_compute. solve_forall; by eexists.
  - apply (bool_decide_unpack _). by vm_compute.
  - vm_compute. solve_forall; (eexists; split; [reflexivity|]; split; [lia|by eexists]).
  - vm_compute. solve_forall; (eexists; split; [reflexivity|simpl; lia]).
  - vm_compute. solve_forall; try done.
    eexists _, _, _, _. repeat split; try reflexivity; lia.
Qed.

Lemma board_low_step : grci_step_module board_module = Some (board_low, false).
Proof.
  assert ((snd <$> grci_step_module board_module) = Some false) as H
    by (vm_compute; reflexivity).
  unfold board_low. destruct (grci_step_module board_module) as [[m' c]|]; [|done].
  cbn in *. by injection H as ->.
Qed.

Lemma board_pre_pass : pre_pass board_ready = Some board_pre.
Proof.
  assert ((pre_pass board_ready ≫= λ _, Some tt) = Some tt) as H
    by (vm_compute; reflexivity).
  unfold board_pre. by destruct (pre_pass board_ready).
Qed.

Lemma reachable_writes m0 m ws : reachable m0 m → reachable m0 (foldl apply_write m ws).
Proof.
  revert m. induction ws as [|w ws IH]; intros m Hr; [done|].
  cbn [foldl]. apply IH. by apply reach_write.
Qed.

Lemma board_ready_reachable : reachable board_module board_ready.
Proof.
  apply reachable_writes.
  eapply reach_step; [apply reach_init|apply board_low_step].
Qed.

End RamExamples.

Section MemExample.

Lemma mem_module_init : grci_init_module ram_defs "Mem" = Some mem_module.
Proof. reflexivity. Qed.

Lemma mem_module_ok : module_ok mem_module.
Proof.
  split.
  - split; vm_compute; solve_forall; repeat split; try lia; solve_forall; try done; simpl; lia.
  - by exists true.
  - vm_compute. solve_forall; by eexists.
  - apply (bool_decide_unpack _). by vm_compute.
  - vm_compute. solve_forall; (eexists; split; [reflexivity|]; split; [lia|by eexists]).
  - vm_compute. solve_forall; (eexists; split; [reflexivity|simpl; lia]).
  - apply Forall_cons_2; [|apply Forall_nil_2].
    exists mem_buffer, ram64K_decl, 0, 16.
    split; [reflexivity|]. split; [reflexivity|]. split; [reflexivity|].
    by exists 0.
Qed.

End MemExample.


(** * Further properties of a step *)

Section StepTail.
Implicit Types (s : grci_simulator) (p : ptr) (i j k : nat) (m : grci_module).

(** The last two phases of a step, read off its trace. *)
Lemma step_trace_tail m c s1 s2 s3 s5 s6 m' :
  step_trace m c s1 s2 s3 s5 s6 m' →
  ∃ outs subs,
    eval_outputs (seq 0 (output_count (desc (m_module m)))) (m_module m) (m_outputs m) s5
      = Some (outs, s6) ∧
    snapshot_states s6 (m_module m) = Some subs ∧
    m_outputs m' = outs ∧ submodules (m_module m') = subs.
Proof.
  intros Ht. pose proof (st_step _ _ _ _ _ _ _ _ Ht) as E.
  unfold grci_step_module in E.
  rewrite (st_publish _ _ _ _ _ _ _ _ Ht) in E. cbn [mbind option_bind] in E.
  rewrite (st_load _ _ _ _ _ _ _ _ Ht) in E. cbn [mbind option_bind] in E.
  rewrite (st_toggle _ _ _ _ _ _ _ _ Ht) in E. cbn [mbind option_bind] in E.
  rewrite (st_level _ _ _ _ _ _ _ _ Ht) in E. cbn [mbind option_bind] in E.
  rewrite (st_pass _ _ _ _ _ _ _ _ Ht) in E. cbn [mbind option_bind] in E.
  destruct (eval_outputs _ _ _ s5) as [[outs s6']|]; [|discriminate E].
  cbn [mbind option_bind] in E.
  destruct (snapshot_states s6' (m_module m)) as [subs|] eqn:E7; [|discriminate E].
  cbn [mbind option_bind] in E.
  destruct (clock_level s6') as [r|]; [|discriminate E].
  cbn [mbind option_bind] in E.
  assert (m' = {| m_inputs := m_inputs m; m_outputs := outs; m_sim := s6';
                  m_module := with_submodules (m_module m) subs |}) as Hm'.
  { congruence. }
  assert (s6' = s6) as ->.
  { rewrite <- (st_sim _ _ _ _ _ _ _ _ Ht). by rewrite Hm'. }
  exists outs, subs. rewrite Hm'. done.
Qed.

End StepTail.


Section Snapshot.
Implicit Types (s : grci_simulator) (p : ptr) (i j k : nat) (m : grci_module).

(** The inner loop of the snapshot of a non-RAM part. *)
Lemma snapshot_dffs_loop s off js : ∀ st st',
  NoDup js →
  for_each js
    (λ j st,
       k ← dff_nodes s !! (j + off);
       node ← nodes s !! k;
       l ← last_state_of node;
       Some (<[j := l]> st)) st = Some st' →
  (∀ j, j ∉ js → st' !! j = st !! j) ∧
  ∀ j k, j ∈ js → j < length st → dff_nodes s !! (j + off) = Some k →
         lst s k = st' !! j.
Proof.
  induction js as [|j0 js IH]; intros st st' Hnd E.
  - injection E as <-. split; [done|]. intros j k Hj. by apply elem_of_nil in Hj.
  - apply NoDup_cons in Hnd as [Hj0 Hnd]. cbn [for_each] in E.
    destruct (dff_nodes s !! (j0 + off)) as [k0|] eqn:Hk0; [|discriminate E].
    cbn [mbind option_bind] in E.
    destruct (nodes s !! k0) as [node|] eqn:Hnode; [|discriminate E].
    cbn [mbind option_bind] in E.
    destruct (last_state_of node) as [l|] eqn:Hl; [|discriminate E].
    cbn [mbind option_bind] in E.
    destruct (IH _ _ Hnd E) as [Hother Hself]. split.
    + intros j Hj. apply not_elem_of_cons in Hj as [Hne Hj].
      rewrite (Hother j Hj). by apply list_lookup_insert_ne.
    + intros j k Hj Hlt Hk. apply elem_of_cons in Hj as [->|Hj].
      * rewrite (Hother j0 Hj0), list_lookup_insert_eq by done.
        rewrite Hk0 in Hk. injection Hk as <-.
        by rewrite (lst_lookup _ _ _ Hnode).
      * apply Hself; [done| |done]. by rewrite length_insert.
Qed.

Lemma snapshot_round_other s mi i subs subs' i' :
  snapshot_part_state s mi i subs = Some subs' → i' ≠ i → subs' !! i' = subs !! i'.
Proof.
  unfold snapshot_part_state. intros E Hne.
  destruct (part_name (desc mi) i); [|by injection E as <-].
  destruct (subs !! i) as [sub|]; [|discriminate E]. cbn [mbind option_bind] in E.
  destruct (parts (desc mi) !! i) as [part|]; [|discriminate E].
  cbn [mbind option_bind] in E.
  destruct (dff_off_len mi !! i) as [[off len]|]; [|discriminate E].
  cbn [mbind option_bind] in E.
  destruct (String.eqb (name part) "Ram64K").
  - destruct (part_ram s off) as [r|]; [|discriminate E]. cbn [mbind option_bind] in E.
    destruct (rams s !! r) as [ram|]; [|discriminate E]. cbn [mbind option_bind] in E.
    injection E as <-. by apply list_lookup_insert_ne.
  - destruct (for_each _ _ _) as [sts|]; [|discriminate E]. cbn [mbind option_bind] in E.
    injection E as <-. by apply list_lookup_insert_ne.
Qed.

Lemma snapshot_round_self s mi i subs subs' sub0 nm part off len :
  snapshot_part_state s mi i subs = Some subs' →
  subs !! i = Some sub0 → part_name (desc mi) i = Some nm →
  parts (desc mi) !! i = Some part → String.eqb (name part) "Ram64K" = false →
  dff_off_len mi !! i = Some (off, len) → len ≤ length (states sub0) →
  ∃ sub, subs' !! i = Some sub ∧
         ∀ j k, j < len → dff_nodes s !! (j + off) = Some k → lst s k = states sub !! j.
Proof.
  unfold snapshot_part_state. intros E Hsub Hnm Hpart Hram Hol Hlen.
  rewrite Hnm, Hsub in E. cbn [mbind option_bind] in E.
  rewrite Hpart in E. cbn [mbind option_bind] in E.
  rewrite Hol in E. cbn [mbind option_bind] in E. rewrite Hram in E.
  destruct (for_each _ _ _) as [sts|] eqn:E1; [|discriminate E].
  cbn [mbind option_bind] in E. injection E as <-.
  eexists. split.
  { apply list_lookup_insert_eq. by eapply lookup_lt_Some. }
  cbn [states]. intros j k Hj Hk.
  destruct (snapshot_dffs_loop s off (seq 0 len) _ _ (NoDup_seq 0 len) E1) as [_ H].
  apply H; [|lia|done]. apply elem_of_seq. lia.
Qed.

Lemma snapshot_rounds s mi is_ : ∀ subs0 subs,
  NoDup is_ → for_each is_ (snapshot_part_state s mi) subs0 = Some subs →
  (∀ i, i ∉ is_ → subs !! i = subs0 !! i) ∧
  ∀ i sub0 nm part off len,
    i ∈ is_ → subs0 !! i = Some sub0 → part_name (desc mi) i = Some nm →
    parts (desc mi) !! i = Some part → String.eqb (name part) "Ram64K" = false →
    dff_off_len mi !! i = Some (off, len) → len ≤ length (states sub0) →
    ∃ sub, subs !! i = Some sub ∧
           ∀ j k, j < len → dff_nodes s !! (j + off) = Some k → lst s k = states sub !! j.
Proof.
  induction is_ as [|i0 is_ IH]; intros subs0 subs Hnd E.
  - injection E as <-. split; [done|]. intros i ????? Hi. by apply elem_of_nil in Hi.
  - apply NoDup_cons in Hnd as [Hi0 Hnd]. cbn [for_each] in E.
    destruct (snapshot_part_state s mi i0 subs0) as [subs1|] eqn:E1; [|discriminate E].
    cbn [mbind option_bind] in E.
    destruct (IH _ _ Hnd E) as [Hother Hself]. split.
    + intros i Hi. apply not_elem_of_cons in Hi as [Hne Hi].
      rewrite (Hother i Hi). by eapply snapshot_round_other.
    + intros i sub0 nm part off len Hi Hsub Hnm Hpart Hram Hol Hlen.
      apply elem_of_cons in Hi as [->|Hi].
      * rewrite (Hother i0 Hi0). by eapply snapshot_round_self.
      * eapply Hself; try done.
        rewrite (snapshot_round_other _ _ _ _ _ _ E1); [done|]. by intros ->.
Qed.

End Snapshot.

(** The snapshot at the end of a step is the [last_state] of the DFFs. *)
Lemma step_buffers_agree m m' c :
  module_ok m → grci_step_module m = Some (m', c) → buffers_agree m'.
Proof.
  intros Hm E. destruct (mo_clock _ Hm) as [c0 Hc].
  destruct (step_trace_exists m c0 Hm Hc) as (s1&s2&s3&s5&s6&m''&Ht).
  rewrite (st_step _ _ _ _ _ _ _ _ Ht) in E. injection E as <- <-.
  destruct (step_trace_tail _ _ _ _ _ _ _ _ Ht) as (outs & subs & _ & E7 & _ & Hsubs).
  pose proof (st_mi _ _ _ _ _ _ _ _ Ht) as Hmi.
  pose proof (st_sim _ _ _ _ _ _ _ _ Ht) as Hsim.
  intros i sub part off len j k Hi Hnm Hsub Hpart Hram Hol Hj Hk.
  rewrite Hmi in Hi, Hnm, Hpart, Hol. cbn [desc with_submodules dff_off_len] in *.
  rewrite Hsim in *. rewrite Hsubs in Hsub.
  destruct Hnm as [nm Hnm].
  pose proof (mo_parts _ Hm) as Hparts. rewrite Forall_forall in Hparts.
  specialize (Hparts i). unfold part_ok in Hparts. rewrite Hnm in Hparts.
  destruct Hparts as (sub0 & part' & off' & len' & Hsub0 & Hpart' & Hol' & Hp).
  { apply elem_of_seq. lia. }
  rewrite Hpart in Hpart'. injection Hpart' as <-.
  rewrite Hol in Hol'. injection Hol' as <- <-. rewrite Hram in Hp.
  destruct Hp as [_ Hlen].
  unfold snapshot_states in E7.
  destruct (snapshot_rounds s6 (m_module m) _ _ _ (NoDup_seq 0 _) E7) as [_ H].
  destruct (H i sub0 nm part off len) as (sub' & Hsub' & Hag); try done.
  { apply elem_of_seq. lia. }
  rewrite Hsub in Hsub'. injection Hsub' as <-. by apply Hag.
Qed.

Section RestorePart.
Implicit Types (s : grci_simulator) (i j k : nat) (m : grci_module)
  (mi : grci_module_instance) (D : list nat) (P : nat → Prop).

Lemma forget_load_write v n n' :
  forget_state n = forget_state n' →
  set_cached v (set_last_state v n) = set_cached v (set_last_state v n').
Proof.
  destruct n as [a vi c], n' as [a' vi' c'].
  unfold forget_state, set_cached, set_last_state. simpl.
  destruct a, a'; simpl; intros [=]; by subst.
Qed.

Lemma forget_set_constant v n n' :
  forget_state n = forget_state n' →
  forget_state (set_constant v n) = forget_state (set_constant v n').
Proof.
  destruct n as [a vi c], n' as [a' vi' c'].
  unfold forget_state, set_cached, set_last_state, set_constant. simpl.
  destruct a, a'; simpl; intros [=]; by subst.
Qed.

Lemma agree_on_mono D P P' sa sb :
  (∀ k, P' k → P k) → agree_on D P sa sb → agree_on D P' sa sb.
Proof.
  intros HP (?&?&?&?&?&?&?&H). repeat split; try done; [apply H|].
  intros HP'. by apply H, HP.
Qed.

(** An update that only looks at what [forget_state] keeps. *)
Lemma agree_on_upd D P (f : grci_node → grci_node) k sa sb :
  (∀ n n', forget_state n = forget_state n' → forget_state (f n) = forget_state (f n')) →
  agree_on D P sa sb → agree_on D P (upd_node f k sa) (upd_node f k sb).
Proof.
  intros Hf (?&?&?&?&?&?&Hlen&H). repeat split; try done.
  - by rewrite !upd_node_length.
  - rewrite !upd_node_lookup. destruct (decide (k = k0)) as [->|]; [|apply H].
    destruct (H k0) as [Hk _].
    destruct (nodes sb !! k0) as [nb|], (nodes sa !! k0) as [na|]; try done.
    cbn [fmap option_fmap option_map] in *. f_equal. apply Hf. congruence.
  - intros HP. rewrite !upd_node_lookup. destruct (decide (k = k0)) as [->|]; [|by apply H].
    by rewrite (proj2 (H k0) HP).
Qed.

(** An update that overwrites both stored bits. *)
Lemma agree_on_write D P v k sa sb :
  agree_on D P sa sb →
  agree_on D (λ x, P x ∨ x = k)
    (upd_node (λ n, set_cached v (set_last_state v n)) k sa)
    (upd_node (λ n, set_cached v (set_last_state v n)) k sb).
Proof.
  intros (?&?&?&?&?&?&Hlen&H).
  assert (∀ x, x = k →
    nodes (upd_node (λ n, set_cached v (set_last_state v n)) k sb) !! x =
    nodes (upd_node (λ n, set_cached v (set_last_state v n)) k sa) !! x) as Heq.
  { intros x ->. rewrite !upd_node_lookup, !decide_True by done.
    destruct (H k) as [Hk _].
    destruct (nodes sb !! k) as [nb|], (nodes sa !! k) as [na|]; try done.
    cbn [fmap option_fmap option_map] in *. f_equal. apply forget_load_write. congruence. }
  repeat split; try done.
  - by rewrite !upd_node_length.
  - destruct (decide (k0 = k)) as [Hk|Hk]; [by rewrite Heq|].
    rewrite !upd_node_lookup, !decide_False by done. apply H.
  - intros [HP| ->]; [|by apply Heq].
    destruct (decide (k0 = k)) as [Hk|Hk]; [by apply Heq|].
    rewrite !upd_node_lookup, !decide_False by done. by apply H.
Qed.

Lemma agree_on_rams D P rs sa sb :
  agree_on D P sa sb → agree_on D P (with_rams sa rs) (with_rams sb rs).
Proof. intros (?&?&?&?&?&?&?&H). repeat split; try done; apply H. Qed.

Lemma agree_on_part_ram D P sa sb off :
  agree_on D P sa sb → part_ram sb off = part_ram sa off.
Proof.
  intros (Ha&Hb&_&_&_&_&_&H). unfold part_ram. rewrite Ha, Hb.
  destruct (D !! off) as [k|]; [|done]. cbn. destruct (H k) as [Hk _].
  destruct (nodes sb !! k) as [[a vi c]|], (nodes sa !! k) as [[a' vi' c']|]; try done.
  cbn in *. unfold forget_state, set_cached, set_last_state in Hk.
  cbn in Hk. destruct a, a'; cbn in *; congruence.
Qed.

Lemma agree_on_all D sa sb : agree_on D (λ _, True) sa sb → sb = sa.
Proof.
  intros (Ha&Hb&?&?&?&?&Hlen&H).
  destruct sa as [na da ra c0a c1a cka], sb as [nb db rb c0b c1b ckb]. cbn in *.
  f_equal; try congruence. apply list_eq. intros k. by apply H.
Qed.

Lemma opt_rel_for_each {A St : Type} (Rel : St → St → Prop) (l : list A)
    (body : A → St → option St) :
  (∀ x sa sb, x ∈ l → Rel sa sb → opt_rel Rel (body x sa) (body x sb)) →
  ∀ sa sb, Rel sa sb → opt_rel Rel (for_each l body sa) (for_each l body sb).
Proof.
  induction l as [|x l IH]; intros Hbody sa sb HR; [done|].
  cbn [for_each]. pose proof (Hbody x sa sb (list_elem_of_here _ _) HR) as H1.
  destruct (body x sa) as [sa1|], (body x sb) as [sb1|]; try done. cbn.
  apply IH; [|done]. intros y ?? Hy. apply Hbody. by right.
Qed.

(** Publishing the inputs. *)
Lemma publish_agree D P ma mb :
  m_inputs mb = m_inputs ma → m_module mb = m_module ma →
  agree_on D P (m_sim ma) (m_sim mb) →
  opt_rel (agree_on D P) (publish_inputs ma) (publish_inputs mb).
Proof.
  intros Hi Hm Hag. unfold publish_inputs. rewrite Hi, Hm.
  apply opt_rel_for_each; [|done].
  intros i sa sb _ HR.
  destruct (inst_inputs (m_module ma) !! i) as [[k|]|]; try done. cbn.
  destruct (m_inputs ma !! i) as [v|]; [|done]. cbn.
  apply agree_on_upd; [|done]. intros n n'. apply forget_set_constant.
Qed.

(** The inner loop of the load of a non-RAM part. *)
Lemma load_dffs_agree D (sts : list bool) off js : ∀ P sa sb,
  agree_on D P sa sb →
  opt_rel (agree_on D (λ x, P x ∨ x ∈ omap (λ j, D !! (j + off)) js))
    (for_each js
       (λ j s', k ← dff_nodes s' !! (j + off); v ← sts !! j;
                Some (upd_node (λ n, set_cached v (set_last_state v n)) k s')) sa)
    (for_each js
       (λ j s', k ← dff_nodes s' !! (j + off); v ← sts !! j;
                Some (upd_node (λ n, set_cached v (set_last_state v n)) k s')) sb).
Proof.
  induction js as [|j js IH]; intros P sa sb Hag.
  - cbn. eapply agree_on_mono; [|exact Hag]. intros k [?|Hk]; [done|].
    by apply elem_of_nil in Hk.
  - cbn [for_each]. pose proof Hag as (Ha & Hb & _). rewrite Ha, Hb.
    cbn [omap list_omap]. destruct (D !! (j + off)) as [k|] eqn:Hk; [|done].
    cbn [mbind option_bind]. destruct (sts !! j) as [v|]; [|done].
    cbn [mbind option_bind].
    pose proof (IH _ _ _ (agree_on_write D P v k sa sb Hag)) as H.
    destruct (for_each js _ _) as [sa'|], (for_each js _ _) as [sb'|]; try done.
    cbn in *. eapply agree_on_mono; [|exact H].
    intros x [?|[->|?]%elem_of_cons]; auto.
Qed.

(** One round of the load loop on both runs. *)
Lemma load_round_agree D P mi i' sa sb :
  agree_on D P sa sb →
  opt_rel (agree_on D P) (load_part_state mi i' sa) (load_part_state mi i' sb).
Proof.
  intros Hag. unfold load_part_state.
  destruct (part_name (desc mi) i'); [|exact Hag].
  destruct (submodules mi !! i') as [sub|]; [|done]. cbn [mbind option_bind].
  destruct (parts (desc mi) !! i') as [part|]; [|done]. cbn [mbind option_bind].
  destruct (dff_off_len mi !! i') as [[off len]|]; [|done]. cbn [mbind option_bind].
  destruct (String.eqb (name part) "Ram64K").
  - rewrite (agree_on_part_ram _ _ _ _ off Hag).
    destruct (part_ram sa off) as [r|]; [|done]. cbn [mbind option_bind].
    pose proof Hag as (_ & _ & Hr & _). rewrite Hr.
    destruct (rams sa !! r) as [ram|]; [|done]. cbn [mbind option_bind].
    by apply agree_on_rams.
  - pose proof (load_dffs_agree D (states sub) off (seq 0 len) P sa sb Hag) as H.
    destruct (for_each _ _ sa) as [sa'|], (for_each _ _ sb) as [sb'|]; try done.
    cbn in *. eapply agree_on_mono; [|exact H]. intros k ?. by left.
Qed.

(** The round of the part whose DFFs may differ makes the runs agree. *)
Lemma load_round_agree_self D P mi i sa sb part sub off len :
  is_Some (part_name (desc mi) i) → submodules mi !! i = Some sub →
  parts (desc mi) !! i = Some part → String.eqb (name part) "Ram64K" = false →
  dff_off_len mi !! i = Some (off, len) →
  agree_on D P sa sb →
  opt_rel (agree_on D (λ x, P x ∨ x ∈ omap (λ j, D !! (j + off)) (seq 0 len)))
    (load_part_state mi i sa) (load_part_state mi i sb).
Proof.
  intros [nm Hnm] Hsub Hpart Hname Hol Hag. unfold load_part_state.
  rewrite Hnm, Hsub. cbn [mbind option_bind]. rewrite Hpart. cbn [mbind option_bind].
  rewrite Hol. cbn [mbind option_bind]. rewrite Hname.
  apply load_dffs_agree, Hag.
Qed.

Lemma load_rounds_agree D mi i part sub off len is_ : ∀ P sa sb,
  is_Some (part_name (desc mi) i) → submodules mi !! i = Some sub →
  parts (desc mi) !! i = Some part → String.eqb (name part) "Ram64K" = false →
  dff_off_len mi !! i = Some (off, len) → i ∈ is_ →
  agree_on D P sa sb →
  opt_rel (agree_on D (λ x, P x ∨ x ∈ omap (λ j, D !! (j + off)) (seq 0 len)))
    (for_each is_ (load_part_state mi) sa) (for_each is_ (load_part_state mi) sb).
Proof.
  induction is_ as [|i0 is_ IH]; intros P sa sb Hnm Hsub Hpart Hname Hol Hi Hag.
  { by apply elem_of_nil in Hi. }
  cbn [for_each]. destruct (decide (i0 = i)) as [->|Hne].
  - pose proof (load_round_agree_self D P mi i sa sb part sub off len
                  Hnm Hsub Hpart Hname Hol Hag) as H1.
    destruct (load_part_state mi i sa) as [sa1|], (load_part_state mi i sb) as [sb1|];
      try done.
    cbn in *. apply opt_rel_for_each; [|done].
    intros i' sa' sb' _. apply load_round_agree.
  - apply elem_of_cons in Hi as [->|Hi]; [done|].
    pose proof (load_round_agree D P mi i0 sa sb Hag) as H1.
    destruct (load_part_state mi i0 sa) as [sa1|], (load_part_state mi i0 sb) as [sb1|];
      try done.
    cbn in *. by eapply IH.
Qed.

(** A step only depends on the simulator through the state its load
    phase leaves. *)
Lemma step_congr ma mb :
  m_inputs mb = m_inputs ma → m_outputs mb = m_outputs ma → m_module mb = m_module ma →
  (publish_inputs mb ≫= load_states (m_module mb))
    = (publish_inputs ma ≫= load_states (m_module ma)) →
  grci_step_module mb = grci_step_module ma.
Proof.
  intros Hi Ho Hm Hl. unfold grci_step_module. rewrite Hi, Ho, Hm in *.
  destruct (publish_inputs mb) as [sb1|], (publish_inputs ma) as [sa1|];
    cbn [mbind option_bind] in *; try done.
  - by rewrite Hl.
  - by rewrite Hl.
  - by rewrite <- Hl.
Qed.

Lemma apply_writes_fields ws : ∀ ma mb,
  m_inputs mb = m_inputs ma → m_outputs mb = m_outputs ma → m_module mb = m_module ma →
  m_inputs (foldl apply_write mb ws) = m_inputs (foldl apply_write ma ws) ∧
  m_outputs (foldl apply_write mb ws) = m_outputs (foldl apply_write ma ws) ∧
  m_module (foldl apply_write mb ws) = m_module (foldl apply_write ma ws).
Proof.
  induction ws as [|w ws IH]; intros ma mb Hi Ho Hm; [done|].
  cbn [foldl]. apply IH; destruct w; cbn; congruence.
Qed.

(** Two modules that differ in the stored bits of the DFFs of a named
    non-RAM part, and in nothing else, take the same step. *)
Lemma step_same_but_part ma mb i part sub off len :
  m_inputs mb = m_inputs ma → m_outputs mb = m_outputs ma → m_module mb = m_module ma →
  is_Some (part_name (desc (m_module ma)) i) →
  submodules (m_module ma) !! i = Some sub →
  parts (desc (m_module ma)) !! i = Some part → String.eqb (name part) "Ram64K" = false →
  dff_off_len (m_module ma) !! i = Some (off, len) →
  same_but_states (part_dffs (m_sim ma) off len) (m_sim ma) (m_sim mb) →
  grci_step_module mb = grci_step_module ma.
Proof.
  intros Hi Ho Hm Hnm Hsub Hpart Hname Hol (Hd&Hr&H0&H1&Hc&Hlen&H).
  apply step_congr; try done. rewrite Hm.
  set (D := dff_nodes (m_sim ma)).
  set (ks := part_dffs (m_sim ma) off len) in *.
  assert (agree_on D (λ k, k ∉ ks) (m_sim ma) (m_sim mb)) as Hag.
  { split; [done|]. split; [exact Hd|]. do 5 (split; [done|]). intros k. apply H. }
  pose proof (publish_agree D _ ma mb Hi Hm Hag) as H1'.
  destruct (publish_inputs ma) as [sa1|], (publish_inputs mb) as [sb1|]; try done.
  cbn [mbind option_bind] in *.
  assert (i ∈ seq 0 (part_count (desc (m_module ma)))) as Hin.
  { apply elem_of_seq. split; [lia|]. cbn. by eapply lookup_lt_Some. }
  pose proof (load_rounds_agree D (m_module ma) i part sub off len _ _ sa1 sb1
                Hnm Hsub Hpart Hname Hol Hin H1') as H2.
  unfold load_states.
  destruct (for_each _ _ sa1) as [sa2|], (for_each _ _ sb1) as [sb2|]; try done.
  cbn in H2. f_equal. apply (agree_on_all D). eapply agree_on_mono; [|exact H2].
  intros k _. destruct (decide (k ∈ ks)); [by right|by left].
Qed.

End RestorePart.

Lemma input_writes_module vs : ∀ (g : nat → nat) m,
  m_module (foldl apply_write m (imap (λ idx v, SetInput (g idx) v) vs)) = m_module m.
Proof.
  induction vs as [|v vs IH]; intros g m; [done|].
  cbn [imap foldl]. by rewrite (IH (g ∘ S)).
Qed.

Lemma set_inputs_module m vs : m_module (set_inputs m vs) = m_module m.
Proof. apply (input_writes_module vs id). Qed.

Section RamPart.
Implicit Types (s : grci_simulator) (i j k r : nat) (m : grci_module)
  (mi : grci_module_instance).

Lemma ram_part_skel mi s s' i r : same_skel s s' → ram_part mi s i r → ram_part mi s' i r.
Proof.
  intros Hsk (part & off & len & ? & ? & ? & ? & Hr).
  exists part, off, len. repeat split; try done. by rewrite (part_ram_skel _ _ _ Hsk).
Qed.

(** One round of the load loop, seen from RAM block [r]. *)
Lemma load_round mi i s s' r :
  load_part_state mi i s = Some s' →
  same_skel s s' ∧
  (¬ ram_part mi s i r → rams s' !! r = rams s !! r) ∧
  (ram_part mi s i r → ∀ sub ram,
     submodules mi !! i = Some sub → rams s !! r = Some ram →
     rams s' !! r = Some (with_data (load_ram_states (states sub) (ram_data ram)) ram)).
Proof.
  unfold load_part_state. intros E.
  destruct (part_name (desc mi) i) as [nm|] eqn:Hnm.
  2:{ injection E as <-. split; [apply same_skel_refl|]. split; [done|].
      intros (?&?&?&[? Hn]&_). by rewrite Hnm in Hn. }
  destruct (submodules mi !! i) as [sub|] eqn:Hsub; [|done]. cbn [mbind option_bind] in E.
  destruct (parts (desc mi) !! i) as [part|] eqn:Hpart; [|done].
  cbn [mbind option_bind] in E.
  destruct (dff_off_len mi !! i) as [[off len]|] eqn:Hol; [|done].
  cbn [mbind option_bind] in E.
  destruct (String.eqb (name part) "Ram64K") eqn:Hname.
  - destruct (part_ram s off) as [r0|] eqn:Hr0; [|done]. cbn [mbind option_bind] in E.
    destruct (rams s !! r0) as [ram0|] eqn:Hram0; [|done]. cbn [mbind option_bind] in E.
    injection E as <-. split; [|split].
    + split; try done. cbn. by apply ram_shapes_insert.
    + intros Hnot. cbn [rams with_rams]. apply list_lookup_insert_ne.
      intros ->. apply Hnot. exists part, off, len. rewrite Hnm. eauto 10.
    + intros (part' & off' & len' & _ & Hp' & _ & Hol' & Hr') sub' ram Hs' Hram.
      rewrite Hpart in Hp'. injection Hp' as <-.
      rewrite Hol in Hol'. injection Hol' as <- <-.
      rewrite Hr0 in Hr'. injection Hr' as ->. injection Hs' as <-.
      rewrite Hram0 in Hram. injection Hram as <-.
      cbn [rams with_rams]. apply list_lookup_insert_eq. by eapply lookup_lt_Some.
  - apply (for_each_rel (λ st st', same_skel st st' ∧ rams st' = rams st)) in E.
    + destruct E as [Hsk Hr]. split; [done|]. split; [by rewrite Hr|].
      intros (part' & off' & len' & _ & Hp' & Hn' & _).
      rewrite Hpart in Hp'. injection Hp' as <-. congruence.
    + intros st. split; [apply same_skel_refl|done].
    + intros st1 st2 st3 [? ?] [? ?]. split; [by eapply same_skel_trans|congruence].
    + intros j st1 st2 _ E1.
      destruct (dff_nodes st1 !! (j + off)) as [k|]; [|done]. cbn [mbind option_bind] in E1.
      destruct (states sub !! j) as [v|]; [|done]. cbn [mbind option_bind] in E1.
      injection E1 as <-. split; [|done].
      apply same_skel_upd. intros n. apply skel_load_write.
Qed.

(** The load loop over the parts [is_]. *)
Lemma load_rounds mi i r sub is_ : ∀ s s' ram,
  NoDup is_ → for_each is_ (load_part_state mi) s = Some s' →
  ram_part mi s i r → (∀ i', i' ∈ is_ → i' ≠ i → ¬ ram_part mi s i' r) →
  submodules mi !! i = Some sub → rams s !! r = Some ram →
  same_skel s s' ∧
  rams s' !! r =
    Some (if decide (i ∈ is_)
          then with_data (load_ram_states (states sub) (ram_data ram)) ram else ram).
Proof.
  induction is_ as [|i0 is_ IH]; intros s s' ram Hnd E Hp Hq Hsub Hram.
  - injection E as <-. split; [apply same_skel_refl|]. by rewrite decide_False by apply not_elem_of_nil.
  - apply NoDup_cons in Hnd as [Hi0 Hnd]. cbn [for_each] in E.
    destruct (load_part_state mi i0 s) as [s1|] eqn:E1; [|done]. cbn [mbind option_bind] in E.
    destruct (load_round mi i0 s s1 r E1) as (Hsk1 & Hother & Hself).
    assert (∀ i', i' ∈ is_ → i' ≠ i → ¬ ram_part mi s1 i' r) as Hq1.
    { intros i' Hi' Hne Hp'. apply (Hq i'); [by right|done|].
      eapply ram_part_skel; [|exact Hp']. by apply same_skel_sym. }
    pose proof (ram_part_skel _ _ _ _ _ Hsk1 Hp) as Hp1.
    destruct (decide (i0 = i)) as [->|Hne].
    + pose proof (Hself Hp sub ram Hsub Hram) as Hram1.
      destruct (IH s1 s' _ Hnd E Hp1 Hq1 Hsub Hram1) as [Hsk' Hr'].
      split; [by eapply same_skel_trans|].
      rewrite Hr', decide_False by done. rewrite decide_True by (by left). done.
    + assert (rams s1 !! r = Some ram) as Hram1.
      { rewrite Hother; [done|]. apply (Hq i0); [by left|done]. }
      destruct (IH s1 s' _ Hnd E Hp1 Hq1 Hsub Hram1) as [Hsk' Hr'].
      split; [by eapply same_skel_trans|]. rewrite Hr'.
      destruct (decide (i ∈ is_)) as [Hin|Hnin].
      * rewrite decide_True by (by right). done.
      * rewrite decide_False; [done|]. intros [?|?]%elem_of_cons; done.
Qed.

(** One round of the snapshot loop on a RAM64K part. *)
Lemma snapshot_round_ram s mi i subs subs' r sub0 ram :
  snapshot_part_state s mi i subs = Some subs' → ram_part mi s i r →
  subs !! i = Some sub0 → rams s !! r = Some ram →
  subs' !! i = Some {| state_count := state_count sub0;
                       states := snapshot_ram_states (ram_data ram) (states sub0) |}.
Proof.
  unfold snapshot_part_state.
  intros E (part & off & len & [nm Hnm] & Hpart & Hname & Hol & Hr) Hsub Hram.
  rewrite Hnm, Hsub in E. cbn [mbind option_bind] in E.
  rewrite Hpart in E. cbn [mbind option_bind] in E.
  rewrite Hol in E. cbn [mbind option_bind] in E.
  rewrite Hname, Hr in E. cbn [mbind option_bind] in E.
  rewrite Hram in E. cbn [mbind option_bind] in E. injection E as <-.
  apply list_lookup_insert_eq. by eapply lookup_lt_Some.
Qed.

Lemma snapshot_rounds_ram s mi i r ram is_ : ∀ subs0 subs sub0,
  NoDup is_ → for_each is_ (snapshot_part_state s mi) subs0 = Some subs →
  i ∈ is_ → ram_part mi s i r → subs0 !! i = Some sub0 → rams s !! r = Some ram →
  subs !! i = Some {| state_count := state_count sub0;
                      states := snapshot_ram_states (ram_data ram) (states sub0) |}.
Proof.
  induction is_ as [|i0 is_ IH]; intros subs0 subs sub0 Hnd E Hi Hp Hsub Hram.
  { by apply elem_of_nil in Hi. }
  apply NoDup_cons in Hnd as [Hi0 Hnd]. cbn [for_each] in E.
  destruct (snapshot_part_state s mi i0 subs0) as [subs1|] eqn:E1; [|done].
  cbn [mbind option_bind] in E.
  apply elem_of_cons in Hi as [->|Hi].
  - destruct (snapshot_rounds s mi is_ subs1 subs Hnd E) as [Hother _].
    rewrite (Hother i0 Hi0). by eapply snapshot_round_ram.
  - eapply IH; try done.
    rewrite (snapshot_round_other _ _ _ _ _ _ E1); [done|]. by intros ->.
Qed.

End RamPart.

Section RamGrows.
Implicit Types (s : grci_simulator) (p : ptr) (i j k : nat) (m : grci_module).

Lemma ram_grows_refl s : ram_grows s s.
Proof.
  split; try done; eauto.
  - exists []. by rewrite app_nil_r.
  - intros k r l' Hk Hl. apply lookup_lt_Some in Hl. rewrite node_ass_length in Hl. lia.
  - intros pos o Hp Ho. apply lookup_lt_Some in Ho. lia.
Qed.

Lemma ram_grows_trans s1 s2 s3 : ram_grows s1 s2 → ram_grows s2 s3 → ram_grows s1 s3.
Proof.
  intros [[ks1 H1] Hr1 Hn1 Hk1 Hb1 Ho1 Hf1] [[ks2 H2] Hr2 Hn2 Hk2 Hb2 Ho2 Hf2].
  split.
  - exists (ks1 ++ ks2). by rewrite H2, H1, app_assoc.
  - lia.
  - lia.
  - intros k r l Hk. destruct (Hk1 k r l Hk) as [l' Hk']. by apply (Hk2 k r l').
  - intros k r l' Hk Hl. destruct (Hb2 k r l') as [l Hl2]; [lia|done|].
    by apply (Hb1 k r l).
  - intros k r l' Hk Hl. destruct (decide (k < length (nodes s2))) as [Hlt|Hge].
    + destruct (Hb2 k r l' Hlt Hl) as [l Hl2]. by apply (Ho1 k r l).
    + assert (length (rams s2) ≤ r); [|lia]. apply (Ho2 k r l'); [lia|done].
  - intros pos o Hp Ho. destruct (decide (pos < length (dff_nodes s2))) as [Hlt|Hge].
    + apply (Hf1 pos o Hp). rewrite H2, lookup_app_l in Ho by done. done.
    + assert (length (nodes s2) ≤ o); [|lia]. apply (Hf2 pos o); [lia|done].
Qed.

Lemma node_ass_push_inv n s k a :
  node_ass (push_node n s).2 !! k = Some a →
  (k < length (nodes s) ∧ node_ass s !! k = Some a) ∨ (k = length (nodes s) ∧ a = as_ n).
Proof.
  unfold node_ass. cbn [snd push_node nodes with_nodes]. rewrite fmap_app.
  destruct (decide (k < length (nodes s))) as [Hlt|Hge].
  - rewrite lookup_app_l by (by rewrite length_fmap). auto.
  - rewrite lookup_app_r by (rewrite length_fmap; lia). rewrite length_fmap.
    destruct (k - length (nodes s)) as [|?] eqn:Hd; [|done].
    intros [= <-]. right. split; [lia|done].
Qed.

Lemma grows_push n s :
  (∀ r l, as_ n ≠ AsRam64KOut r l) → ram_grows s (push_node n s).2.
Proof.
  intros Hn. split.
  - exists []. by rewrite app_nil_r.
  - done.
  - cbn [snd push_node nodes with_nodes]. rewrite length_app. lia.
  - intros k r l Hk. exists l. by apply node_ass_push.
  - intros k r l' Hk Hl. exists l'.
    destruct (node_ass_push_inv _ _ _ _ Hl) as [[_ ?]|[? _]]; [done|lia].
  - intros k r l' Hk Hl.
    destruct (node_ass_push_inv _ _ _ _ Hl) as [[? _]|[_ Ha]]; [lia|].
    by destruct (Hn r l').
  - intros pos o Hp Ho. apply lookup_lt_Some in Ho. cbn in Ho. lia.
Qed.

Lemma grows_constant_new s c : ram_grows s (grci_constant_new s c).2.
Proof. by apply grows_push. Qed.

Lemma grows_nand_new s a b : ram_grows s (grci_nand_new s a b).2.
Proof. by apply grows_push. Qed.

Lemma grows_dff_new s : ram_grows s (grci_dff_new s).2.
Proof.
  pose proof (grows_push {| as_ := AsDff None false; visited := false;
                            cached_state := false |} s) as [Hd Hr Hn Hk Hb Ho Hf]; [done|].
  split; try done.
  - by exists [length (nodes s)].
  - intros pos o Hp. cbn [grci_dff_new push_node snd dff_nodes push_dff_ref with_nodes].
    destruct (decide (pos = length (dff_nodes s))) as [->|Hne].
    + rewrite lookup_app_r by done. rewrite Nat.sub_diag. by intros [= <-].
    + intros Hpos. apply lookup_lt_Some in Hpos. rewrite length_app in Hpos.
      cbn in Hpos. lia.
Qed.

Lemma grows_ram64k_new s : ram_grows s (grci_ram64k_new s).2.
Proof.
  unfold grci_ram64k_new.
  destruct (ram64k_new_outputs 16 (length (rams s)) s) as [outs s1] eqn:E.
  destruct (ram64k_new_outputs_spec _ _ _ _ _ E) as (Houts & Hn & Hdf & Hr).
  cbn [snd].
  assert (∀ k a, node_ass (with_rams s1 (rams s1 ++ [ {|
              ram_inputs := replicate 16 None; ram_load := None;
              ram_addrs := replicate 16 None; ram_data := ram64k_fresh_data;
              ram_outputs := outs |} ])) !! k = Some a →
            (k < length (nodes s) ∧ node_ass s !! k = Some a) ∨
            (length (nodes s) ≤ k ∧ a = AsRam64KOut (length (rams s)) false)) as Hinv.
  { intros k a. unfold node_ass. cbn [nodes with_rams]. rewrite Hn, fmap_app.
    destruct (decide (k < length (nodes s))) as [Hlt|Hge].
    - rewrite lookup_app_l by (by rewrite length_fmap). auto.
    - rewrite lookup_app_r by (rewrite length_fmap; lia).
      rewrite length_fmap, list_lookup_fmap. intros Hk. right. split; [lia|].
      destruct (replicate _ _ !! _) as [nd|] eqn:Hrep; [|done].
      apply lookup_replicate in Hrep as [-> _]. cbn in Hk. congruence. }
  split.
  - exists outs. exact Hdf.
  - cbn [rams with_rams]. rewrite length_app, Hr. lia.
  - cbn [nodes with_rams]. rewrite Hn, length_app. lia.
  - intros k r l Hk. exists l. unfold node_ass in *. cbn [nodes with_rams].
    rewrite Hn, fmap_app, lookup_app_l; [done|]. by eapply lookup_lt_Some.
  - intros k r l' Hk Hl. exists l'. destruct (Hinv _ _ Hl) as [[_ ?]|[? _]]; [done|lia].
  - intros k r l' Hk Hl. destruct (Hinv _ _ Hl) as [[? _]|[_ Ha]]; [lia|].
    injection Ha as -> _. done.
  - intros pos o Hp. cbn [dff_nodes with_rams]. rewrite Hdf.
    rewrite lookup_app_r by done. rewrite Houts. intros Ho.
    apply list_elem_of_lookup_2, elem_of_seq in Ho. lia.
Qed.

Lemma grows_write_slot sl obj s : ram_grows s (write_slot sl obj s).
Proof.
  assert (∀ n, ram_grows s (upd_node (set_slot_field sl obj) n s)) as Hnode.
  { intros n.
    assert (∀ k r, (∃ l, node_ass (upd_node (set_slot_field sl obj) n s) !! k
                           = Some (AsRam64KOut r l)) ↔
                   (∃ l, node_ass s !! k = Some (AsRam64KOut r l))) as Hiff.
    { intros k r. unfold node_ass. rewrite !list_lookup_fmap, upd_node_lookup.
      destruct (decide (n = k)) as [->|]; [|done].
      destruct (nodes s !! k) as [nd|]; [|done]. cbn.
      unfold set_slot_field.
      destruct sl, (as_ nd) eqn:Has; cbn; rewrite ?Has; try done;
        split; intros [l [=]]. }
    split.
    - exists []. by rewrite app_nil_r.
    - done.
    - by rewrite upd_node_length.
    - intros k r l Hk. apply Hiff. eauto.
    - intros k r l' _ Hl. apply Hiff. eauto.
    - intros k r l' Hk Hl. apply lookup_lt_Some in Hl.
      rewrite node_ass_length, upd_node_length in Hl. lia.
    - intros pos o Hp Ho. apply lookup_lt_Some in Ho. cbn in Ho. lia. }
  assert (∀ f r, ram_grows s (with_rams s (alter f r (rams s)))) as Hram.
  { intros f r. split; try done; eauto.
    - exists []. by rewrite app_nil_r.
    - cbn [rams with_rams]. by rewrite length_alter.
    - intros k r' l' Hk Hl. apply lookup_lt_Some in Hl.
      rewrite node_ass_length in Hl. cbn in Hl. lia.
    - intros pos o Hp Ho. apply lookup_lt_Some in Ho. cbn in Ho. lia. }
  destruct sl; cbn [write_slot]; try apply Hnode; apply Hram.
Qed.

Lemma make_module_grows d s s' api :
  grci_make_module d s = Some (s', api) → ram_grows s s'.
Proof.
  apply (ctor_make_module ram_grows ram_grows_refl ram_grows_trans grows_constant_new
           grows_nand_new grows_dff_new grows_ram64k_new grows_write_slot).
Qed.

Lemma sized_constant_new s c : stores_sized s → stores_sized (grci_constant_new s c).2.
Proof. done. Qed.

Lemma sized_nand_new s a b : stores_sized s → stores_sized (grci_nand_new s a b).2.
Proof. done. Qed.

Lemma sized_dff_new s : stores_sized s → stores_sized (grci_dff_new s).2.
Proof. done. Qed.

Lemma sized_ram64k_new s : stores_sized s → stores_sized (grci_ram64k_new s).2.
Proof.
  intros Hs. unfold grci_ram64k_new.
  destruct (ram64k_new_outputs 16 (length (rams s)) s) as [outs s1] eqn:E.
  destruct (ram64k_new_outputs_spec _ _ _ _ _ E) as (Houts & Hn & Hdf & Hr).
  cbn [snd]. intros r ram. cbn [rams with_rams]. rewrite Hr.
  destruct (decide (r < length (rams s))) as [Hlt|Hge].
  - rewrite lookup_app_l by done. apply Hs.
  - rewrite lookup_app_r by lia.
    destruct (r - length (rams s)) as [|?]; [|done].
    intros [= <-]. cbn [ram_data]. unfold ram64k_fresh_data. apply length_replicate.
Qed.

Lemma sized_write_slot sl obj s : stores_sized s → stores_sized (write_slot sl obj s).
Proof.
  intros Hs.
  assert (∀ f r, (∀ ram, ram_data (f ram) = ram_data ram) →
            stores_sized (with_rams s (alter f r (rams s)))) as Hram.
  { intros f r Hf r' ram. cbn [rams with_rams]. rewrite list_lookup_alter.
    destruct (decide (r = r')) as [->|]; [|apply Hs].
    destruct (rams s !! r') as [ram0|] eqn:E; [|done].
    intros [= <-]. rewrite Hf. by apply (Hs r'). }
  destruct sl; cbn [write_slot]; try exact Hs; by apply Hram.
Qed.

Lemma init_module_sized defs nm m :
  grci_init_module defs nm = Some m → stores_sized (m_sim m).
Proof.
  intros E.
  refine (ctor_init_module (λ s s', stores_sized s → stores_sized s') (λ s H, H) _
            sized_constant_new sized_nand_new sized_dff_new sized_ram64k_new
            sized_write_slot _ _ _ E _).
  - intros s1 s2 s3 H1 H2 H. auto.
  - intros r ram Hr. by destruct r.
Qed.

(** What instantiating the built-in RAM64K adds. *)
Lemma make_ram_spec s s' api :
  grci_make_module ram64K_decl s = Some (s', api) →
  length (rams s') = S (length (rams s)) ∧
  length (dff_nodes s') = length (dff_nodes s) + 16 ∧
  ∃ o, dff_nodes s' !! length (dff_nodes s) = Some o ∧
       node_ass s' !! o = Some (AsRam64KOut (length (rams s)) false).
Proof.
  rewrite make_module_unfold. cbn [parts ram64K_decl make_parts mbind option_bind
    is_nand is_dff is_ram64K].
  unfold grci_ram64k_new.
  destruct (ram64k_new_outputs 16 (length (rams s)) s) as [outs s1] eqn:E.
  destruct (ram64k_new_outputs_spec _ _ _ _ _ E) as (Houts & Hn & Hdf & Hr).
  intros E'.
  match type of E' with
  | context [rams ?x !! ?r] => destruct (rams x !! r); [|discriminate E']
  end.
  cbn [mbind option_bind] in E'. injection E' as <- _.
  cbn [rams dff_nodes with_rams]. split; [|split].
  - rewrite length_app, Hr. cbn. lia.
  - rewrite Hdf, length_app, Houts, length_seq. done.
  - exists (length (nodes s)). split.
    + rewrite Hdf, lookup_app_r by done. rewrite Nat.sub_diag, Houts. done.
    + unfold node_ass. cbn [nodes with_rams]. rewrite Hn, fmap_app.
      rewrite lookup_app_r by (by rewrite length_fmap).
      rewrite length_fmap, Nat.sub_diag. done.
Qed.

Lemma part_ram_of s off o r l :
  dff_nodes s !! off = Some o → node_ass s !! o = Some (AsRam64KOut r l) →
  part_ram s off = Some r.
Proof.
  intros Hd Hn. unfold part_ram. rewrite Hd. cbn [mbind option_bind].
  unfold node_ass in Hn. rewrite list_lookup_fmap in Hn.
  destruct (nodes s !! o) as [nd|]; simplify_eq/=. by rewrite Hn.
Qed.

Lemma part_ram_inv s off r :
  part_ram s off = Some r →
  ∃ o l, dff_nodes s !! off = Some o ∧ node_ass s !! o = Some (AsRam64KOut r l).
Proof.
  unfold part_ram. intros Hp.
  destruct (dff_nodes s !! off) as [o|] eqn:Ho; [|done]. cbn [mbind option_bind] in Hp.
  destruct (nodes s !! o) as [nd|] eqn:Hnd; [|done]. cbn [mbind option_bind] in Hp.
  destruct (as_ nd) as [| | |r' l] eqn:Has; simplify_eq.
  exists o, l. split; [done|]. unfold node_ass. by rewrite list_lookup_fmap, Hnd; cbn; rewrite Has.
Qed.

Lemma part_ram_grows s s' off r :
  ram_grows s s' → part_ram s off = Some r → part_ram s' off = Some r.
Proof.
  intros [[ks Hks] _ _ Hk _ _ _] Hp.
  destruct (part_ram_inv _ _ _ Hp) as (o & l & Ho & Hl).
  destruct (Hk o r l Hl) as [l' Hl'].
  eapply part_ram_of; [|exact Hl'].
  rewrite Hks, lookup_app_l; [done|]. by eapply lookup_lt_Some.
Qed.

(** A range of the DFF list that starts after the list of [s] does not
    start at a RAM-OUT node of a block of [s]. *)
Lemma part_ram_new s s' off r :
  ram_grows s s' → length (dff_nodes s) ≤ off → part_ram s' off = Some r →
  length (rams s) ≤ r.
Proof.
  intros Hg Hoff Hp. destruct (part_ram_inv _ _ _ Hp) as (o & l & Ho & Hl).
  eapply (rg_new_out _ _ Hg o r l); [|done]. by eapply (rg_new_ref _ _ Hg off o).
Qed.

(** The parts that are built-in RAM64Ks: each gets a block of its own,
    at the start of its range of the DFF list, and the ranges of the
    parts after it start behind the state [sa] it leaves. *)
Lemma make_parts_rams ps : ∀ s s' apis ols,
  make_parts grci_make_module ps s = Some (s', apis, ols) →
  ram_grows s s' ∧
  (∀ i off len, ols !! i = Some (off, len) → length (dff_nodes s) ≤ off) ∧
  ∀ i, ps !! i = Some ram64K_decl →
    ∃ off r sa, ols !! i = Some (off, 16) ∧ part_ram s' off = Some r ∧
      ram_grows sa s' ∧ r < length (rams sa) ∧
      ∀ i' off' len', i < i' → ols !! i' = Some (off', len') →
                      length (dff_nodes sa) ≤ off'.
Proof.
  induction ps as [|p ps IH]; intros s s' apis ols E.
  { injection E as <- _ <-. split; [apply ram_grows_refl|]. split; by intros i. }
  cbn [make_parts] in E.
  destruct (grci_make_module p s) as [[s1 api]|] eqn:E1; [|discriminate E].
  cbn [mbind option_bind] in E.
  destruct (make_parts grci_make_module ps s1) as [[[s2 apis'] ols']|] eqn:E2;
    [|discriminate E].
  cbn [mbind option_bind] in E. injection E as <- _ <-.
  destruct (IH _ _ _ _ E2) as (Hg2 & Hoffs & Hrest).
  pose proof (make_module_grows _ _ _ _ E1) as Hg1.
  assert (length (dff_nodes s) ≤ length (dff_nodes s1)) as Hdl.
  { destruct (rg_dffs _ _ Hg1) as [ks ->]. rewrite length_app. lia. }
  split; [by eapply ram_grows_trans|]. split.
  { intros [|i] off len Hol.
    - injection Hol as <- _. done.
    - specialize (Hoffs i off len Hol). lia. }
  intros [|i] Hi.
  - injection Hi as ->.
    destruct (make_ram_spec _ _ _ E1) as (Hr1 & Hd1 & o & Ho & Hno).
    exists (length (dff_nodes s)), (length (rams s)), s1.
    split; [|split; [|split; [|split]]].
    + cbn. do 2 f_equal. lia.
    + eapply part_ram_grows; [exact Hg2|]. by eapply part_ram_of.
    + done.
    + lia.
    + intros [|i'] off' len' Hlt Hol'; [lia|]. by apply (Hoffs i' off' len').
  - destruct (Hrest i Hi) as (off & r & sa & Hol & Hp & Hga & Hra & Hlater).
    exists off, r, sa. split; [done|]. split; [done|]. split; [done|]. split; [done|].
    intros [|i'] off' len' Hlt Hol'; [lia|]. apply (Hlater i' off' len'); [lia|done].
Qed.

(** In an instantiated module a part that is a built-in RAM64K has a RAM
    block that no later part starts at. *)
Lemma init_module_rams defs nm m :
  grci_init_module defs nm = Some m →
  ∀ i, parts (desc (m_module m)) !! i = Some ram64K_decl →
    ∃ off r, dff_off_len (m_module m) !! i = Some (off, 16) ∧
             part_ram (m_sim m) off = Some r ∧
             ∀ i' off' len', i < i' → dff_off_len (m_module m) !! i' = Some (off', len') →
                             part_ram (m_sim m) off' ≠ Some r.
Proof.
  unfold grci_init_module. intros E.
  destruct (grci_module_desc_list_get defs nm) as [decl|]; [|discriminate E].
  cbn [mbind option_bind] in E.
  destruct (grci_make_module decl grci_simulator_init) as [[s1 mi]|] eqn:E1;
    [|discriminate E].
  cbn [mbind option_bind] in E.
  pose proof (ctor_new_input_nodes ram_grows ram_grows_refl ram_grows_trans
                grows_constant_new (input_count decl) s1) as H2.
  destruct (new_input_nodes (input_count decl) s1) as [ins s2]. cbn [snd] in H2.
  match type of E with
  | context [grci_set_module_inputs ?a ?i ?st] =>
      destruct (grci_set_module_inputs a i st) as [[s3 sks3]|] eqn:E3; [|discriminate E]
  end.
  cbn [mbind option_bind] in E.
  pose proof (ctor_set_module_inputs ram_grows ram_grows_refl ram_grows_trans
                grows_write_slot _ _ _ _ _ _ E3) as H3.
  injection E as <-. cbn [m_module m_sim desc dff_off_len].
  rewrite make_module_unfold in E1.
  destruct (make_parts grci_make_module (parts decl) grci_simulator_init)
    as [[[s0 apis] ols]|] eqn:E0; [|discriminate E1].
  cbn [mbind option_bind] in E1.
  destruct (make_parts_rams _ _ _ _ _ E0) as (_ & _ & Hparts).
  assert (ram_grows s0 s1 ∧ dff_off_len mi = ols) as [H1 Hols].
  { assert (∀ (x y : grci_simulator * grci_module_instance),
              Some x = Some y → x.1 = y.1 ∧ x.2 = y.2) as Hpair by (by intros ?? [= ->]).
    destruct (is_nand decl).
    { apply Hpair in E1; cbn [fst snd] in E1; destruct E1 as [<- <-].
      split; [apply grows_nand_new|done]. }
    destruct (is_dff decl).
    { pose proof (grows_dff_new s0) as Hg.
      destruct (grci_dff_new s0) as [k s0'].
      apply Hpair in E1; cbn [fst snd] in E1; destruct E1 as [<- <-]. by split. }
    destruct (is_ram64K decl).
    { pose proof (grows_ram64k_new s0) as Hg.
      destruct (grci_ram64k_new s0) as [r s0'].
      destruct (rams s0' !! r); [|discriminate E1].
      cbn [mbind option_bind] in E1.
      apply Hpair in E1; cbn [fst snd] in E1; destruct E1 as [<- <-]. by split. }
    destruct (connect_parts decl apis (s0, alloc_sinks decl)) as [[s0' sks']|] eqn:Ec;
      [|discriminate E1].
    cbn [mbind option_bind] in E1.
    apply Hpair in E1; cbn [fst snd] in E1; destruct E1 as [<- <-]. split; [|done].
    eapply (ctor_connect_parts ram_grows ram_grows_refl ram_grows_trans grows_write_slot),
      Ec. }
  assert (ram_grows s0 s3) as Hg
    by (eapply ram_grows_trans; [exact H1|]; by eapply ram_grows_trans).
  intros i Hi. rewrite Hols.
  destruct (Hparts i Hi) as (off & r & sa & Hol & Hp & Hga & Hra & Hlater).
  exists off, r. split; [done|]. split; [by eapply part_ram_grows|].
  intros i' off' len' Hlt Hol' Hp'.
  assert (length (rams sa) ≤ r); [|lia].
  eapply (part_ram_new sa s3 off' r); [by eapply ram_grows_trans| |done].
  by eapply (Hlater i' off' len').
Qed.

End RamGrows.

Section Sized.
Implicit Types (s : grci_simulator) (p : ptr) (i j k r : nat) (m : grci_module)
  (mi : grci_module_instance).

Lemma for_each_app {A St : Type} (l1 l2 : list A) (body : A → St → option St) (st : St) :
  for_each (l1 ++ l2) body st = for_each l1 body st ≫= for_each l2 body.
Proof.
  revert st. induction l1 as [|x l1 IH]; intros st; [done|].
  cbn [for_each app]. destruct (body x st) as [st1|]; [|done]. cbn. apply IH.
Qed.

Lemma sized_rams s s' : rams s' = rams s → stores_sized s → stores_sized s'.
Proof. unfold stores_sized. by intros ->. Qed.

Lemma data_set_length d a v : length (data_set d a v) = length d.
Proof. unfold data_set. destruct (a <? 0)%Z; [done|apply length_insert]. Qed.

Lemma sized_insert s r ram d :
  stores_sized s → length d = Z.to_nat 65536 →
  stores_sized (with_rams s (<[r := with_data d ram]> (rams s))).
Proof.
  intros Hs Hd r' ram'. cbn [rams with_rams].
  intros [(-> & <- & _)|[_ Hr]]%list_lookup_insert_Some; [done|by apply (Hs r')].
Qed.

Lemma ret_cached_state i s v s' : ret_cached i s = Some (v, s') → s' = s.
Proof. unfold ret_cached. destruct (nodes s !! i); [|done]. by intros [= _ <-]. Qed.

Lemma ram_scan_sized ev ram idx :
  (∀ s p v s', stores_sized s → ev s p = Some (v, s') → stores_sized s') →
  ∀ acc s acc' s', stores_sized s → ram_scan ev ram idx acc s = Some (acc', s') →
                   stores_sized s'.
Proof.
  intros Hev. induction idx as [|i idx IH]; intros [[i1 i2] ad] s acc' s' Hs E.
  - by injection E as _ <-.
  - rewrite ram_scan_cons in E.
    destruct (ram_inputs ram !! i) as [pin|]; [|done]. cbn [mbind option_bind] in E.
    destruct (ev s pin) as [[vi s1]|] eqn:E1; [|done]. cbn [mbind option_bind] in E.
    destruct (ram_addrs ram !! i) as [pad|]; [|done]. cbn [mbind option_bind] in E.
    destruct (ev s1 pad) as [[va s2]|] eqn:E2; [|done]. cbn [mbind option_bind] in E.
    eapply IH; [|exact E]. eapply Hev; [|exact E2]. by eapply Hev.
Qed.

Lemma ram_scan_addr_cons (ev : grci_simulator → ptr → option (bool * grci_simulator))
    ram i idx addr s :
  ram_scan_addr ev ram (i :: idx) addr s =
    (pad ← ram_addrs ram !! i;
     '(va, s1) ← ev s pad;
     ram_scan_addr ev ram idx (Z.lor addr (Z.shiftl (Z.b2z va) (Z.of_nat i))) s1).
Proof. done. Qed.

Lemma ram_scan_addr_sized ev ram idx :
  (∀ s p v s', stores_sized s → ev s p = Some (v, s') → stores_sized s') →
  ∀ ad s ad' s', stores_sized s → ram_scan_addr ev ram idx ad s = Some (ad', s') →
                 stores_sized s'.
Proof.
  intros Hev. induction idx as [|i idx IH]; intros ad s ad' s' Hs E.
  - by injection E as _ <-.
  - rewrite ram_scan_addr_cons in E.
    destruct (ram_addrs ram !! i) as [pad|]; [|done]. cbn [mbind option_bind] in E.
    destruct (ev s pad) as [[va s1]|] eqn:E1; [|done]. cbn [mbind option_bind] in E.
    eapply IH; [|exact E]. by eapply Hev.
Qed.

(** [grci_eval_dff] replaces bytes of a RAM block, never the block. *)
Lemma eval_dff_fuel_sized F : ∀ s p root v s',
  stores_sized s → grci_eval_dff_fuel F s p root = Some (v, s') → stores_sized s'.
Proof.
  induction F as [|F IH]; intros s p root v s' Hs E; [done|].
  cbn [grci_eval_dff_fuel] in E.
  destruct p as [i|]; [|done]. cbn [mbind option_bind] in E.
  destruct (nodes s !! i) as [node|]; [|done]. cbn [mbind option_bind] in E.
  destruct (visited node).
  { destruct (as_ node); by injection E as _ <-. }
  assert (stores_sized (upd_node (set_visited true) i s)) as Hs1 by done.
  destruct (as_ node) as [c|a b|input l|r l].
  - apply ret_cached_state in E as ->. done.
  - destruct (grci_eval_dff_fuel F _ a false) as [[vl s2]|] eqn:E1; [|done].
    cbn [mbind option_bind] in E.
    destruct (grci_eval_dff_fuel F s2 b false) as [[vr s3]|] eqn:E2; [|done].
    cbn [mbind option_bind] in E. apply ret_cached_state in E as ->.
    apply (sized_rams s3); [done|]. eapply IH; [|exact E2]. by eapply IH.
  - destruct (negb root); [by injection E as _ <-|].
    destruct (grci_eval_dff_fuel F _ input false) as [[v1 s2]|] eqn:E1; [|done].
    cbn [mbind option_bind] in E. apply ret_cached_state in E as ->.
    apply (sized_rams s2); [done|]. by eapply IH.
  - destruct (rams _ !! r) as [ram|]; [|done]. cbn [mbind option_bind] in E.
    destruct (grci_eval_dff_fuel F _ (ram_load ram) false) as [[ld s2]|] eqn:E1; [|done].
    cbn [mbind option_bind] in E.
    destruct (ram_scan _ ram ram_bits _ s2) as [[[[i1 i2] ad] s3]|] eqn:E2; [|done].
    cbn [mbind option_bind] in E.
    destruct (rams s3 !! r) as [ram3|] eqn:Hr3; [|done]. cbn [mbind option_bind] in E.
    apply ret_cached_state in E as ->.
    assert (stores_sized s3) as Hs3.
    { eapply ram_scan_sized; [|eapply IH; [exact Hs1|exact E1]|exact E2].
      intros s0 p0 v0 s0' Hs0. apply IH, Hs0. }
    eapply sized_rams; [apply publish_ram_outputs_rams|].
    apply sized_insert; [done|].
    destruct ld; rewrite ?data_set_length; by apply (Hs3 r).
Qed.

Lemma eval_node_fuel_sized F : ∀ s p v s',
  stores_sized s → grci_eval_node_fuel F s p = Some (v, s') → stores_sized s'.
Proof.
  induction F as [|F IH]; intros s p v s' Hs E; [done|].
  cbn [grci_eval_node_fuel] in E.
  destruct p as [i|]; [|done]. cbn [mbind option_bind] in E.
  destruct (nodes s !! i) as [node|]; [|done]. cbn [mbind option_bind] in E.
  destruct (visited node).
  { destruct (as_ node); by injection E as _ <-. }
  assert (stores_sized (upd_node (set_visited true) i s)) as Hs1 by done.
  destruct (as_ node) as [c|a b|input l|r l].
  - apply ret_cached_state in E as ->. done.
  - destruct (grci_eval_node_fuel F _ a) as [[vl s2]|] eqn:E1; [|done].
    cbn [mbind option_bind] in E.
    destruct (grci_eval_node_fuel F s2 b) as [[vr s3]|] eqn:E2; [|done].
    cbn [mbind option_bind] in E. apply ret_cached_state in E as ->.
    apply (sized_rams s3); [done|]. eapply IH; [|exact E2]. by eapply IH.
  - destruct input; [|done]. cbn [mbind option_bind] in E. by injection E as _ <-.
  - destruct (rams _ !! r) as [ram|]; [|done]. cbn [mbind option_bind] in E.
    destruct (ram_scan_addr _ ram ram_bits _ _) as [[ad s2]|] eqn:E2; [|done].
    cbn [mbind option_bind] in E.
    destruct (rams s2 !! r) as [ram2|] eqn:Hr2; [|done]. cbn [mbind option_bind] in E.
    apply ret_cached_state in E as ->.
    eapply sized_rams; [apply publish_ram_outputs_rams|].
    eapply ram_scan_addr_sized; [|exact Hs1|exact E2].
    intros s0 p0 v0 s0' Hs0. by apply eval_dff_fuel_sized.
Qed.

Lemma dff_pass_sized ks : ∀ s s',
  stores_sized s → dff_pass ks s = Some s' → stores_sized s'.
Proof.
  induction ks as [|k ks IH]; intros s s' Hs E.
  - by injection E as <-.
  - cbn [dff_pass] in E.
    destruct (grci_eval_dff _ (Some k) true) as [[v s1]|] eqn:E1; [|done].
    cbn [mbind option_bind] in E. eapply IH; [|exact E].
    apply (sized_rams s1); [done|]. eapply eval_dff_fuel_sized; [|exact E1]. done.
Qed.

Lemma commit_dffs_rams ks : ∀ s, rams (commit_dffs ks s) = rams s.
Proof. induction ks as [|k ks IH]; intros s; [done|]. cbn [commit_dffs]. by rewrite IH. Qed.

Lemma eval_outputs_sized ks mi : ∀ outs s outs' s',
  stores_sized s → eval_outputs ks mi outs s = Some (outs', s') → stores_sized s'.
Proof.
  induction ks as [|k ks IH]; intros outs s outs' s' Hs E.
  - by injection E as _ <-.
  - cbn [eval_outputs] in E.
    destruct (inst_outputs mi !! k) as [p|]; [|done]. cbn [mbind option_bind] in E.
    destruct (grci_eval_node s p) as [[v s1]|] eqn:E1; [|done].
    cbn [mbind option_bind] in E. eapply IH; [|exact E].
    by eapply eval_node_fuel_sized.
Qed.

Lemma load_ram_states_length sts data : length (load_ram_states sts data) = length data.
Proof. apply load_ram_loop_length. Qed.

Lemma load_part_sized mi i s s' :
  load_part_state mi i s = Some s' → stores_sized s → stores_sized s'.
Proof.
  unfold load_part_state. intros E Hs.
  destruct (part_name (desc mi) i); [|by injection E as <-].
  destruct (submodules mi !! i) as [sub|]; [|done]. cbn [mbind option_bind] in E.
  destruct (parts (desc mi) !! i) as [part|]; [|done]. cbn [mbind option_bind] in E.
  destruct (dff_off_len mi !! i) as [[off len]|]; [|done]. cbn [mbind option_bind] in E.
  destruct (String.eqb (name part) "Ram64K").
  - destruct (part_ram s off) as [r|]; [|done]. cbn [mbind option_bind] in E.
    destruct (rams s !! r) as [ram|] eqn:Hr; [|done]. cbn [mbind option_bind] in E.
    injection E as <-. apply sized_insert; [done|].
    rewrite load_ram_states_length. by apply (Hs r).
  - apply (for_each_rel (λ st st', rams st' = rams st)) in E.
    + by apply (sized_rams s).
    + done.
    + intros ???. congruence.
    + intros j st1 st2 _ E1.
      destruct (dff_nodes st1 !! (j + off)) as [k|]; [|done]. cbn [mbind option_bind] in E1.
      destruct (states sub !! j) as [v|]; [|done]. cbn [mbind option_bind] in E1.
      by injection E1 as <-.
Qed.

Lemma load_rounds_sized mi is_ s s' :
  for_each is_ (load_part_state mi) s = Some s' → stores_sized s → stores_sized s'.
Proof.
  intros E.
  apply (for_each_rel (λ st st', stores_sized st → stores_sized st') _ _ _ _
           (λ st H, H) (λ st1 st2 st3 H1 H2 H, H2 (H1 H))
           (λ i st1 st2 _, load_part_sized mi i st1 st2) E).
Qed.

Lemma publish_inputs_rams m s1 : publish_inputs m = Some s1 → rams s1 = rams (m_sim m).
Proof.
  unfold publish_inputs. intros E.
  apply (for_each_rel (λ st st', rams st' = rams st)) in E; [done|done| |].
  - intros ???. congruence.
  - intros i st1 st2 _ E1.
    destruct (inst_inputs (m_module m) !! i) as [[k|]|]; try done.
    cbn [mbind option_bind] in E1.
    destruct (m_inputs m !! i) as [v|]; [|done]. cbn [mbind option_bind] in E1.
    by injection E1 as <-.
Qed.

Lemma toggle_clock_rams s s' : toggle_clock s = Some s' → rams s' = rams s.
Proof.
  unfold toggle_clock. destruct (clock_level s); [|done]. by intros [= <-].
Qed.

Lemma pre_pass_sized m s0 :
  stores_sized (m_sim m) → pre_pass m = Some s0 → stores_sized s0.
Proof.
  unfold pre_pass. intros Hs E.
  destruct (publish_inputs m) as [s1|] eqn:E1; [|done]. cbn [mbind option_bind] in E.
  destruct (load_states (m_module m) s1) as [s2|] eqn:E2; [|done].
  cbn [mbind option_bind] in E.
  destruct (toggle_clock s2) as [s3|] eqn:E3; [|done]. cbn [mbind option_bind] in E.
  injection E as <-. apply (sized_rams s3); [done|].
  apply (sized_rams s2); [by apply toggle_clock_rams|].
  eapply load_rounds_sized; [exact E2|].
  apply (sized_rams (m_sim m)); [by apply publish_inputs_rams|done].
Qed.

(** A step keeps the 65536 bytes of every RAM block. *)
Lemma step_sized m m' c :
  stores_sized (m_sim m) → grci_step_module m = Some (m', c) → stores_sized (m_sim m').
Proof.
  unfold grci_step_module. intros Hs E.
  assert (∀ s0, pre_pass m = Some s0 → stores_sized s0) as Hpre
    by (intros s0; by apply pre_pass_sized).
  unfold pre_pass in Hpre.
  destruct (publish_inputs m) as [s1|]; [|done]. cbn [mbind option_bind] in E, Hpre.
  destruct (load_states (m_module m) s1) as [s2|]; [|done].
  cbn [mbind option_bind] in E, Hpre.
  destruct (toggle_clock s2) as [s3|]; [|done]. cbn [mbind option_bind] in E, Hpre.
  specialize (Hpre _ eq_refl).
  destruct (clock_level (clear_visited s3)) as [high|]; [|done].
  cbn [mbind option_bind] in E.
  match type of E with
  | context [if high then ?a else ?b] =>
      destruct (if high then a else b) as [s5|] eqn:E5; [|done]
  end.
  cbn [mbind option_bind] in E.
  destruct (eval_outputs _ _ _ s5) as [[outs s6]|] eqn:E6; [|done].
  cbn [mbind option_bind] in E.
  destruct (snapshot_states s6 (m_module m)) as [subs|]; [|done].
  cbn [mbind option_bind] in E.
  destruct (clock_level s6) as [r|]; [|done]. cbn [mbind option_bind] in E.
  injection E as <- _. cbn [m_sim].
  eapply eval_outputs_sized; [|exact E6].
  destruct high.
  - destruct (dff_pass _ _) as [s4'|] eqn:E4; [|done]. injection E5 as <-.
    eapply sized_rams; [apply commit_dffs_rams|]. by eapply dff_pass_sized.
  - by injection E5 as <-.
Qed.

Lemma reachable_sized m0 m :
  stores_sized (m_sim m0) → reachable m0 m → stores_sized (m_sim m).
Proof.
  intros H0 Hr. induction Hr as [|m w Hr IH|m m' r Hr IH E].
  - done.
  - by rewrite apply_write_sim.
  - by eapply step_sized.
Qed.

Lemma same_sizes_trans subs1 subs2 subs3 :
  same_sizes subs1 subs2 → same_sizes subs2 subs3 → same_sizes subs1 subs3.
Proof.
  unfold same_sizes. intros H1 H2. revert subs3 H2.
  induction H1 as [|a b l1 l2 Hab H1 IH]; intros subs3 H2.
  - by inversion H2.
  - inversion H2 as [|? c ? l3 Hbc H3]; subst. constructor; [congruence|by apply IH].
Qed.

(** Along a run the description and the DFF ranges stay, and the state
    buffers keep their sizes. *)
Lemma reachable_module m0 m :
  module_ok m0 → reachable m0 m →
  desc (m_module m) = desc (m_module m0) ∧
  dff_off_len (m_module m) = dff_off_len (m_module m0) ∧
  same_sizes (submodules (m_module m0)) (submodules (m_module m)).
Proof.
  intros Hm0 Hr. induction Hr as [|m w Hr IH|m m' r Hr IH E].
  - split; [done|]. split; [done|]. apply same_sizes_refl.
  - destruct IH as (Hd & Ho & Hs). destruct w as [idx v|i j v]; [done|].
    split; [done|]. split; [done|].
    eapply same_sizes_trans; [exact Hs|].
    cbn [apply_write set_state m_module with_submodules submodules].
    unfold same_sizes. apply Forall2_same_length_lookup_2.
    + by rewrite length_alter.
    + intros i' a b Ha. rewrite list_lookup_alter.
      destruct (decide (i = i')) as [->|]; rewrite Ha; intros [= <-]; [|done].
      cbn. by rewrite length_insert.
  - destruct IH as (Hd & Ho & Hs).
    destruct (reachable_skel m0 m Hm0 Hr) as [Hm _].
    destruct (mo_clock _ Hm) as [c0 Hc].
    destruct (step_trace_exists m c0 Hm Hc) as (s1&s2&s3&s5&s6&m''&Ht).
    rewrite (st_step _ _ _ _ _ _ _ _ Ht) in E. injection E as <- <-.
    rewrite (st_mi _ _ _ _ _ _ _ _ Ht). cbn [desc dff_off_len with_submodules submodules].
    split; [done|]. split; [done|].
    eapply same_sizes_trans; [exact Hs|]. apply (st_sizes _ _ _ _ _ _ _ _ Ht).
Qed.

(** The state buffer of a part named [Ram64K] in a fresh instance. *)
Lemma init_module_buffer defs nm m i part :
  grci_init_module defs nm = Some m →
  parts (desc (m_module m)) !! i = Some part → String.eqb (name part) "Ram64K" = true →
  ∃ sub, submodules (m_module m) !! i = Some sub ∧
         length (states sub) = GRCI_RAM64K_STATE_COUNT.
Proof.
  unfold grci_init_module. intros E.
  destruct (grci_module_desc_list_get defs nm) as [decl|]; [|discriminate E].
  cbn [mbind option_bind] in E.
  destruct (grci_make_module decl grci_simulator_init) as [[s1 mi]|]; [|discriminate E].
  cbn [mbind option_bind] in E.
  destruct (new_input_nodes (input_count decl) s1) as [ins s2].
  match type of E with
  | context [grci_set_module_inputs ?a ?i ?st] =>
      destruct (grci_set_module_inputs a i st) as [[s3 sks3]|]; [|discriminate E]
  end.
  cbn [mbind option_bind] in E. injection E as <-.
  cbn [m_module desc submodules]. intros Hpart Hname.
  unfold init_submodules. rewrite list_lookup_fmap.
  rewrite lookup_seq_lt by (by eapply lookup_lt_Some).
  cbn [fmap option_fmap option_map Nat.add]. rewrite Hpart.
  cbn [fmap option_fmap option_map default].
  unfold grci_string_matches. rewrite Hname.
  eexists. split; [reflexivity|]. cbn [states]. apply length_replicate.
Qed.

End Sized.

Section RamStep.
Implicit Types (s : grci_simulator) (i j k r : nat) (m : grci_module)
  (mi : grci_module_instance).

Lemma load_rounds_skel mi is_ s s' :
  for_each is_ (load_part_state mi) s = Some s' → same_skel s s'.
Proof.
  intros E.
  apply (for_each_rel same_skel _ _ _ _ same_skel_refl same_skel_trans
           (λ i st1 st2 _ E1, proj1 (load_round mi i st1 st2 0 E1)) E).
Qed.

(** A step, seen from the RAM block of a named RAM64K part that no later
    part shares. *)
Lemma step_ram_part m i r sub :
  module_ok m → stores_sized (m_sim m) → ram_part (m_module m) (m_sim m) i r →
  (∀ i', i < i' → ¬ ram_part (m_module m) (m_sim m) i' r) →
  submodules (m_module m) !! i = Some sub →
  ∃ s0 m' c ram0 ram',
    pre_pass m = Some s0 ∧ grci_step_module m = Some (m', c) ∧
    rams s0 !! r = Some (with_data (load_ram_states (states sub) (ram_data ram0)) ram0) ∧
    length (ram_data ram0) = Z.to_nat 65536 ∧
    rams (m_sim m') !! r = Some ram' ∧ length (ram_data ram') = Z.to_nat 65536 ∧
    submodules (m_module m') !! i =
      Some {| state_count := state_count sub;
              states := snapshot_ram_states (ram_data ram') (states sub) |}.
Proof.
  intros Hm Hsz Hp Hlater Hsub. destruct (mo_clock _ Hm) as [c0 Hc].
  destruct (step_trace_exists m c0 Hm Hc) as (s1&s2&s3&s5&s6&m'&Ht).
  pose proof (uf_skel _ _ _ (st_f1 _ _ _ _ _ _ _ _ Ht)) as Hsk1.
  assert (i < part_count (desc (m_module m))) as Hi.
  { destruct Hp as (part & ? & ? & _ & Hpart & _). by eapply lookup_lt_Some. }
  assert (r < length (rams (m_sim m))) as Hr.
  { destruct Hp as (part & off & ? & _ & _ & _ & _ & Hpr).
    eapply part_ram_rams; [apply Hm|exact Hpr]. }
  pose proof (st_load _ _ _ _ _ _ _ _ Ht) as E2. unfold load_states in E2.
  set (n := part_count (desc (m_module m))) in *.
  replace n with (i + S (n - S i)) in E2 by lia.
  rewrite seq_app, for_each_app in E2. cbn [seq Nat.add] in E2.
  destruct (for_each (seq 0 i) (load_part_state (m_module m)) s1) as [sa|] eqn:Ea;
    [|done].
  cbn [mbind option_bind] in E2.
  pose proof (load_rounds_skel _ _ _ _ Ea) as Hska.
  assert (same_skel (m_sim m) sa) as Hsk by (by eapply same_skel_trans).
  assert (stores_sized sa) as Hsza.
  { eapply load_rounds_sized; [exact Ea|].
    apply (sized_rams (m_sim m)); [apply (st_r1 _ _ _ _ _ _ _ _ Ht)|done]. }
  destruct (lookup_lt_is_Some_2 (rams sa) r) as [ram0 Hram0].
  { by rewrite (same_skel_rams_length _ _ Hsk). }
  destruct (load_rounds (m_module m) i r sub (i :: seq (S i) (n - S i)) sa s2 ram0)
    as [_ Hr2]; try done.
  { apply NoDup_cons. split; [|apply NoDup_seq]. intros Hin%elem_of_seq. lia. }
  { by eapply ram_part_skel. }
  { intros i' [->|Hin%elem_of_seq]%elem_of_cons Hne Hp'; [done|].
    apply (Hlater i'); [lia|]. eapply ram_part_skel; [|exact Hp']. by apply same_skel_sym. }
  rewrite decide_True in Hr2 by (by left).
  pose proof (st_skel _ _ _ _ _ _ _ _ Ht) as Hsk6.
  pose proof (ram_part_skel _ _ _ _ _ Hsk6 Hp) as Hp6.
  destruct (lookup_lt_is_Some_2 (rams s6) r) as [ram' Hram'].
  { by rewrite (same_skel_rams_length _ _ Hsk6). }
  destruct (step_trace_tail _ _ _ _ _ _ _ _ Ht) as (outs & subs & _ & E7 & _ & Hsubs).
  unfold snapshot_states in E7.
  pose proof (snapshot_rounds_ram s6 (m_module m) i r ram' _ _ _ sub (NoDup_seq 0 _) E7)
    as Hsnap.
  pose proof (step_sized m m' (negb c0) Hsz (st_step _ _ _ _ _ _ _ _ Ht)) as Hsz'.
  rewrite (st_sim _ _ _ _ _ _ _ _ Ht) in Hsz'.
  exists (clear_visited s3), m', (negb c0), ram0, ram'.
  split; [apply Ht|]. split; [apply Ht|]. split; [|split; [|split; [|split]]].
  - cbn [rams clear_visited with_nodes]. by rewrite (st_r3 _ _ _ _ _ _ _ _ Ht).
  - by apply (Hsza r).
  - by rewrite (st_sim _ _ _ _ _ _ _ _ Ht).
  - by apply (Hsz' r).
  - rewrite Hsubs. apply Hsnap; try done. apply elem_of_seq. lia.
Qed.

End RamStep.

(** * The rising edge *)





(** * The order of the rising-edge pass *)




(** * Snapshot and restore *)

(** C5: let [m] be a well-formed module as a step left it, and [sub] the
    state buffer of its named non-RAM part [i], read at that point: the
    snapshot.  The snapshot holds the [last_state] of the DFFs of the
    part, entry by entry.  Let then the client write anything into the
    buffer, and let even the stored bits of the DFFs of the part become
    anything ([s'], which may be the state of [m] itself): once the
    snapshot is written back, the next step, after any input vector has
    been set, succeeds and returns what it returns on the untouched [m]:
    the same module, hence the same output vector, and the same level.
    The step loads the buffer into the DFFs before it evaluates. *)
Theorem snapshot_restore_same_outputs mp m c i part sub off len s' scribble inputs :
  module_ok mp → grci_step_module mp = Some (m, c) →
  is_Some (part_name (desc (m_module m)) i) →
  parts (desc (m_module m)) !! i = Some part →
  String.eqb (name part) "Ram64K" = false →
  submodules (m_module m) !! i = Some sub →
  dff_off_len (m_module m) !! i = Some (off, len) →
  length scribble = length (states sub) →
  same_but_states (part_dffs (m_sim m) off len) (m_sim m) s' →
  (∀ j k, j < len → dff_nodes (m_sim m) !! (j + off) = Some k →
          states sub !! j = lst (m_sim m) k) ∧
  ∃ m1 c1,
    grci_step_module
      (set_inputs (restore_states (restore_states (with_sim m s') i scribble) i (states sub))
                  inputs)
      = Some (m1, c1) ∧
    grci_step_module (set_inputs m inputs) = Some (m1, c1).
Proof.
  intros Hmp E Hnm Hpart Hname Hsub Hol Hlen Hs'.
  pose proof (step_module_ok mp m c Hmp E) as Hm. split.
  { intros j k Hj Hk. symmetry.
    eapply (step_buffers_agree mp m c Hmp E i sub part off len j k); try done.
    cbn. by eapply lookup_lt_Some. }
  rewrite (restore_snapshot (with_sim m s') i sub scribble Hsub Hlen).
  assert (module_ok (set_inputs m inputs)) as Hm' by (by apply apply_writes_ok).
  destruct (mo_clock _ Hm') as [c0 Hc0].
  destruct (step_trace_exists _ c0 Hm' Hc0) as (s1&s2&s3&s5&s6&m1&Ht).
  exists m1, (negb c0). split; [|apply Ht].
  destruct (apply_writes_fields (imap (λ idx v, SetInput idx v) inputs) m (with_sim m s'))
    as (Hi & Ho & Hmo); try done.
  rewrite (step_same_but_part (set_inputs m inputs) (set_inputs (with_sim m s') inputs)
             i part sub off len); try done.
  - apply Ht.
  - by rewrite set_inputs_module.
  - by rewrite set_inputs_module.
  - by rewrite set_inputs_module.
  - by rewrite set_inputs_module.
  - unfold set_inputs. by rewrite !apply_writes_sim.
Qed.

Lemma snapshot_restore_same_outputs_witness :
  (∀ j k, j < 1 → dff_nodes (m_sim latch_low) !! (j + 0) = Some k →
          states {| state_count := 1; states := [true] |} !! j = lst (m_sim latch_low) k) ∧
  ∃ m1 c1,
    grci_step_module
      (set_inputs (restore_states (restore_states (with_sim latch_low latch_disturbed)
                                     0 [false]) 0
                     (states {| state_count := 1; states := [true] |})) [true])
      = Some (m1, c1) ∧
    grci_step_module (set_inputs latch_low [true]) = Some (m1, c1).
Proof.
  apply (snapshot_restore_same_outputs latch_written latch_low false 0 dff_decl
           {| state_count := 1; states := [true] |} 0 1 latch_disturbed [false] [true]).
  - apply (apply_write_ok latch_module (SetState 0 0 true)), latch_module_ok.
  - vm_compute. reflexivity.
  - vm_compute. eexists. reflexivity.
  - reflexivity.
  - reflexivity.
  - reflexivity.
  - reflexivity.
  - reflexivity.
  - do 6 (split; [reflexivity|]).
    intros k. split.
    + do 5 (destruct k as [|k]; [reflexivity|]). reflexivity.
    + intros Hk. destruct k as [|[|[|[|k]]]]; try reflexivity.
      exfalso. apply Hk. vm_compute. left.
Defined.

(** * The RAM64K state buffer *)

(** C6: take a state reachable from an instantiated module and a named
    part [i] of it that is the built-in RAM64K.  The part has a state
    buffer of 524288 entries and a RAM block [r] of its own, the one its
    range of the DFF list starts at.  A step succeeds, and for every
    byte [j] of the 64 KiB store and every bit [b] of it: the load at
    the start leaves in byte [j] of the store a value whose bit [b] is
    entry [j * 8 + b] of the buffer as the client left it, and the
    snapshot at the end leaves in entry [j * 8 + b] of the buffer bit
    [b] of byte [j] of the store as the step leaves it: least
    significant bit first. *)
Theorem ram_state_buffer_packing defs module_name m0 m i j b :
  grci_init_module defs module_name = Some m0 → module_ok m0 → reachable m0 m →
  is_Some (part_name (desc (m_module m0)) i) →
  parts (desc (m_module m0)) !! i = Some ram64K_decl →
  b < 8 → (Z.of_nat j < 65536)%Z →
  ∃ sub off r s0 m' c,
    submodules (m_module m) !! i = Some sub ∧
    length (states sub) = GRCI_RAM64K_STATE_COUNT ∧
    dff_off_len (m_module m) !! i = Some (off, 16) ∧ part_ram (m_sim m) off = Some r ∧
    pre_pass m = Some s0 ∧ grci_step_module m = Some (m', c) ∧
    (∃ ram0 byte,
       rams s0 !! r = Some ram0 ∧ ram_data ram0 !! j = Some byte ∧
       states sub !! (j * 8 + b) = Some (Z.testbit byte (Z.of_nat b))) ∧
    (∃ ram' byte' sub',
       rams (m_sim m') !! r = Some ram' ∧ ram_data ram' !! j = Some byte' ∧
       submodules (m_module m') !! i = Some sub' ∧
       states sub' !! (j * 8 + b) = Some (Z.testbit byte' (Z.of_nat b))).
Proof.
  intros Hinit Hok Hreach Hnm Hpart Hb Hj.
  destruct (reachable_skel m0 m Hok Hreach) as [Hm Hsk].
  destruct (reachable_module m0 m Hok Hreach) as (Hd & Ho & Hss).
  pose proof (reachable_sized m0 m (init_module_sized _ _ _ Hinit) Hreach) as Hsz.
  destruct (init_module_rams _ _ _ Hinit i Hpart) as (off & r & Hol & Hpr & Hlater).
  destruct (init_module_buffer _ _ _ i ram64K_decl Hinit Hpart eq_refl)
    as (sub0 & Hsub0 & Hlen0).
  destruct (Forall2_lookup_l _ _ _ _ _ Hss Hsub0) as (sub & Hsub & Hlen).
  rewrite Hlen0 in Hlen.
  assert (ram_part (m_module m) (m_sim m) i r) as Hp.
  { exists ram64K_decl, off, 16. rewrite Hd, Ho. repeat split; try done.
    by rewrite (part_ram_skel _ _ _ Hsk). }
  destruct (step_ram_part m i r sub Hm Hsz Hp) as
    (s0 & m' & c & ram0 & ram' & Hpre & Hstep & Hr0 & Hl0 & Hr' & Hl' & Hsub'); [|done|].
  { intros i' Hlt (part' & off' & len' & _ & _ & _ & Hol' & Hp').
    rewrite Ho in Hol'. rewrite (part_ram_skel _ _ _ Hsk) in Hp'.
    by apply (Hlater i' off' len'). }
  assert (j < Z.to_nat 65536) as Hj' by lia.
  assert (j * 8 + b < GRCI_RAM64K_STATE_COUNT) as Hc by (rewrite state_count_eq; lia).
  exists sub, off, r, s0, m', c.
  split; [done|]. split; [done|]. split; [by rewrite Ho|].
  split; [by rewrite (part_ram_skel _ _ _ Hsk)|]. split; [done|]. split; [done|]. split.
  - eexists _, _. split; [exact Hr0|]. cbn [ram_data with_data]. split.
    + apply load_ram_states_lookup; lia.
    + rewrite pack_byte_bit by done. replace (8 * j + b) with (j * 8 + b) by lia.
      by destruct (lookup_lt_is_Some_2 (states sub) (j * 8 + b)) as [v ->]; [lia|].
  - destruct (lookup_lt_is_Some_2 (ram_data ram') j) as [byte' Hbyte']; [lia|].
    eexists _, byte', _. split; [exact Hr'|]. split; [done|]. split; [exact Hsub'|].
    cbn [states]. rewrite snapshot_ram_states_lookup by lia.
    replace ((j * 8 + b) / 8) with j
      by (rewrite Nat.add_comm, Nat.div_add by lia; rewrite Nat.div_small; lia).
    replace ((j * 8 + b) mod 8) with b
      by (rewrite Nat.add_comm, Nat.Div0.mod_add, Nat.mod_small; lia).
    by rewrite Hbyte'.
Qed.

Lemma ram_state_buffer_packing_witness :
  ∃ sub off r s0 m' c,
    submodules (m_module (set_state mem_module 0 10 true)) !! 0 = Some sub ∧
    length (states sub) = GRCI_RAM64K_STATE_COUNT ∧
    dff_off_len (m_module (set_state mem_module 0 10 true)) !! 0 = Some (off, 16) ∧
    part_ram (m_sim (set_state mem_module 0 10 true)) off = Some r ∧
    pre_pass (set_state mem_module 0 10 true) = Some s0 ∧
    grci_step_module (set_state mem_module 0 10 true) = Some (m', c) ∧
    (∃ ram0 byte,
       rams s0 !! r = Some ram0 ∧ ram_data ram0 !! 1 = Some byte ∧
       states sub !! (1 * 8 + 2) = Some (Z.testbit byte (Z.of_nat 2))) ∧
    (∃ ram' byte' sub',
       rams (m_sim m') !! r = Some ram' ∧ ram_data ram' !! 1 = Some byte' ∧
       submodules (m_module m') !! 0 = Some sub' ∧
       states sub' !! (1 * 8 + 2) = Some (Z.testbit byte' (Z.of_nat 2))).
Proof.
  apply (ram_state_buffer_packing ram_defs "Mem" mem_module
           (set_state mem_module 0 10 true) 0 1 2).
  - exact mem_module_init.
  - exact mem_module_ok.
  - apply (reach_write mem_module mem_module (SetState 0 10 true)), reach_init.
  - by exists "ram".
  - reflexivity.
  - lia.
  - lia.
Defined.


(** * The reserved names *)

(** C8: the compiler starts with the three built-in descriptions in its
    module table, and in every table reached from there by registering
    user modules, whatever their names, a lookup of [Nand], [Dff] or
    [Ram64K] returns the built-in description. *)
Theorem builtin_names_resolve defs l :
  (grci_compiler_init ≫= λ l0, register_modules l0 defs) = Some l →
  grci_module_desc_list_get l "Nand" = Some nand_decl ∧
  grci_module_desc_list_get l "Dff" = Some dff_decl ∧
  grci_module_desc_list_get l "Ram64K" = Some ram64K_decl.
Proof.
  rewrite compiler_init_entries. cbn [mbind option_bind]. intros E.
  apply register_modules_entries in E. unfold grci_module_desc_list_get.
  rewrite E. cbn [entries].
  split; [|split]; by apply module_desc_list_find_app.
Qed.

Lemma builtin_names_resolve_witness :
  ∃ l, (grci_compiler_init ≫= λ l0, register_modules l0 [fake_nand_desc; pair_desc]) = Some l ∧
       grci_module_desc_list_get l "Nand" = Some nand_decl ∧
       grci_module_desc_list_get l "Dff" = Some dff_decl ∧
       grci_module_desc_list_get l "Ram64K" = Some ram64K_decl.
Proof.
  eexists. split; [reflexivity|].
  apply (builtin_names_resolve [fake_nand_desc; pair_desc]). reflexivity.
Defined.


(** * Looking up a submodule *)

(** C9, as amended: when no named part of the module has the requested
    name, [grci_submodule] returns a null pointer; it records the
    simulation error message when the error buffer is empty, and leaves
    the buffer as it is when the buffer already holds a message.  A
    pointer it returns always belongs to a part that was given the
    requested name, so a part without a name is never returned. *)
Theorem submodule_miss_returns_null m submodule_name err_buf :
  (∀ i, i < part_count (desc (m_module m)) →
        part_name (desc (m_module m)) i ≠ Some submodule_name) →
  (grci_submodule m submodule_name err_buf).1 = None ∧
  (err_buf = EmptyString →
   grci_err (grci_submodule m submodule_name err_buf).2
     = "GRCI simulation error: submodule " +:+ submodule_name +:+ " does not exist") ∧
  (err_buf ≠ EmptyString → grci_err (grci_submodule m submodule_name err_buf).2 = err_buf) ∧
  ∀ nm buf i,
    (grci_submodule m nm buf).1 = Some i →
    i < part_count (desc (m_module m)) ∧ part_name (desc (m_module m)) i = Some nm.
Proof.
  intros Hmiss.
  assert (find_submodule (take (part_count (desc (m_module m)))
                            (part_names (desc (m_module m)))) 0 submodule_name = None) as E.
  { apply find_submodule_none. intros j Hj. apply lookup_take_Some in Hj as [Hj Hlt].
    apply (Hmiss j Hlt). unfold part_name. by rewrite Hj. }
  unfold grci_submodule, grci_err. rewrite E. unfold grci_ensure_retnull. cbn [negb].
  split; [by destruct (String.length err_buf =? 0)|].
  split; [|split].
  - intros ->. cbn [String.length Nat.eqb snd]. by rewrite report_empty.
  - intros H. by rewrite length_nonzero.
  - intros nm buf i Hi. destruct (submodule_found m nm buf i Hi) as (? & ? & _). done.
Qed.

Lemma submodule_miss_returns_null_witness :
  (grci_submodule pair_module "d7" EmptyString).1 = None ∧
  (EmptyString = EmptyString →
   grci_err (grci_submodule pair_module "d7" EmptyString).2
     = "GRCI simulation error: submodule " +:+ "d7" +:+ " does not exist") ∧
  (EmptyString ≠ EmptyString → grci_err (grci_submodule pair_module "d7" EmptyString).2 = EmptyString) ∧
  ∀ nm buf i,
    (grci_submodule pair_module nm buf).1 = Some i →
    i < part_count (desc (m_module pair_module)) ∧
    part_name (desc (m_module pair_module)) i = Some nm.
Proof.
  apply (submodule_miss_returns_null pair_module "d7" EmptyString).
  intros i Hi. vm_compute in Hi.
  destruct i as [|[|[|i]]]; [vm_compute; discriminate..|lia].
Defined.

Lemma submodule_miss_records_error_counterexample :
  (∀ i, part_name (desc (m_module pair_module)) i ≠ Some "d7") ∧
  earlier_error = "GRCI compilation error [near line 3]: Attempting to use nonexistent module 'Xor'" ∧
  grci_submodule pair_module "d7" earlier_error = (None, earlier_error) ∧
  grci_err (grci_submodule pair_module "d7" earlier_error).2 = earlier_error.
Proof.
  split; [|repeat split; vm_compute; reflexivity].
  intros [|[|[|i]]]; vm_compute; discriminate.
Qed.


(** * The error buffer *)

(** C10: after [grci_init] has emptied the error buffer, let the uses of
    the two error macros made by a sequence of API calls be [before],
    whose conditions all hold, then [c], whose condition fails, then
    [after], of any outcome.  Then [grci_err] returns the message of
    [c], which is not empty, and no use of a macro changes a buffer that
    holds a message. *)
Theorem error_buffer_keeps_first_failure before c after err_buf :
  Forall (λ c', ec_cond c' = true) before → ec_cond c = false →
  grci_err (run_ensure_calls (before ++ c :: after) (grci_init_reset err_buf))
    = ensure_message c ∧
  ensure_message c ≠ EmptyString ∧
  ∀ c' buf, buf ≠ EmptyString → run_ensure_call c' buf = buf.
Proof.
  intros Hpass Hfail. split; [|split].
  - unfold grci_err, grci_init_reset, run_ensure_calls. rewrite foldl_app.
    fold (run_ensure_calls before EmptyString). rewrite run_ensure_calls_pass by done.
    cbn [foldl]. rewrite run_ensure_call_fail by done.
    apply run_ensure_calls_full, prefix_nonempty.
  - apply prefix_nonempty.
  - intros c' buf. apply run_ensure_call_full.
Qed.

Lemma error_buffer_keeps_first_failure_witness :
  grci_err
    (run_ensure_calls
       ([EnsureCall MacroEnsure true GRCI_ERR_COMP 1 "unused"] ++
        EnsureCall MacroEnsure false GRCI_ERR_COMP 3 "first" ::
        [EnsureCall MacroEnsureRetnull false GRCI_ERR_SIM 0 "second";
         EnsureCall MacroEnsure false GRCI_ERR_MEM 0 "third"])
       (grci_init_reset "stale"))
    = ensure_message (EnsureCall MacroEnsure false GRCI_ERR_COMP 3 "first") ∧
  ensure_message (EnsureCall MacroEnsure false GRCI_ERR_COMP 3 "first") ≠ EmptyString ∧
  ∀ c' buf, buf ≠ EmptyString → run_ensure_call c' buf = buf.
Proof.
  apply (error_buffer_keeps_first_failure
           [EnsureCall MacroEnsure true GRCI_ERR_COMP 1 "unused"]
           (EnsureCall MacroEnsure false GRCI_ERR_COMP 3 "first")
           [EnsureCall MacroEnsureRetnull false GRCI_ERR_SIM 0 "second";
            EnsureCall MacroEnsure false GRCI_ERR_MEM 0 "third"]
           "stale").
  - repeat constructor.
  - reflexivity.
Defined.


(** * The hard limits *)

Section Limits.

Lemma wires_out_of_bounds line n : ∀ wires_count,
  wires_count ≤ GRCI_MAX_WIRES → GRCI_MAX_WIRES < wires_count + n →
  grci_compile_part_list (replicate n ItemWire) 0 wires_count line EmptyString
    = PartListOutOfBounds GRCI_MAX_WIRES EmptyString.
Proof.
  induction n as [|n IH]; intros wc Hle Hlt; [lia|].
  cbn [replicate grci_compile_part_list]. unfold grci_ensure.
  change (0 <? GRCI_MAX_PARTS) with true. cbv iota.
  destruct (wc <? GRCI_MAX_WIRES) eqn:E.
  - apply Nat.ltb_lt in E. apply IH; lia.
  - apply Nat.ltb_ge in E. f_equal. lia.
Qed.

End Limits.

(** C7: two of the five limits are not enforced with a compilation
    error.  A module body with more than [GRCI_MAX_WIRES] wires takes
    the part-list loop to a store past the end of [wires.inputs] with
    the error buffer still empty, and registering a module in a full
    table fails the assertion of [grci_module_desc_list_append], which
    reports nothing. *)
Theorem wire_and_module_limits_unreported n line defs module_def :
  GRCI_MAX_WIRES < n → GRCI_MAX_MODULES ≤ length (entries defs) →
  grci_compile_part_list (replicate n ItemWire) 0 0 line EmptyString
    = PartListOutOfBounds GRCI_MAX_WIRES EmptyString ∧
  grci_module_desc_list_append defs module_def = None.
Proof.
  intros Hn Hfull. split.
  - apply wires_out_of_bounds; lia.
  - unfold grci_module_desc_list_append.
    by rewrite (proj2 (Nat.ltb_ge _ _) Hfull).
Qed.

Lemma wire_and_module_limits_unreported_witness :
  grci_compile_part_list (replicate 33 ItemWire) 0 0 7 EmptyString
    = PartListOutOfBounds GRCI_MAX_WIRES EmptyString ∧
  grci_module_desc_list_append {| entries := replicate 64 not_desc |} pair_desc = None.
Proof.
  apply (wire_and_module_limits_unreported 33 7 {| entries := replicate 64 not_desc |}
           pair_desc).
  - unfold GRCI_MAX_WIRES. lia.
  - vm_compute. lia.
Defined.

(** * The snapshot at the end of a step *)

(** X1: after every step of a well-formed module the state buffer of each
    named non-RAM part holds, entry by entry, the [last_state] of the
    DFFs of that part: the snapshot at the end of a step is accurate. *)
Theorem step_snapshot_agrees m m' c :
  module_ok m → grci_step_module m = Some (m', c) → buffers_agree m'.
Proof.
  apply step_buffers_agree.
Qed.

Lemma step_snapshot_agrees_witness : buffers_agree latch_low.
Proof.
  apply (step_snapshot_agrees latch_written latch_low false).
  - apply (apply_write_ok latch_module (SetState 0 0 true)), latch_module_ok.
  - vm_compute. reflexivity.
Defined.


Section OutputValue.
Implicit Types (s : grci_simulator) (p : ptr) (i j k : nat) (m : grci_module).

(** The output evaluator agrees with the reference evaluation. *)
Lemma eval_node_value h : ∀ F s p v P v' s',
  sim_ok s → unvisited s < F →
  net_value h (node_ass s) p = Some v →
  memo_ok P s → dff_sync s →
  (∀ i, i ∈ P → net_value h (node_ass s) (Some i) = None) →
  grci_eval_node_fuel F s p = Some (v', s') →
  v' = v ∧ memo_ok P s'.
Proof.
  induction h as [|h IH]; intros F s p v P v' s' Hok HF Hnv Hmemo Hsync HP E; [done|].
  destruct (net_value h (node_ass s) p) as [v0|] eqn:Hlow.
  { rewrite (net_value_det _ _ _ _ _ _ Hnv (net_value_S _ _ _ _ Hlow)).
    eapply (IH F s p v0 P); eauto.
    intros i Hi. eapply net_value_None_le; [|by apply HP]. lia. }
  destruct F as [|f]; [lia|].
  destruct p as [i|]; [|done].
  assert (i ∉ P) as HiP.
  { intros Hi. apply HP in Hi. congruence. }
  cbn [net_value mbind option_bind] in Hnv.
  destruct (node_ass s !! i) as [a|] eqn:Ha; [|done]. cbn [mbind option_bind] in Hnv.
  unfold node_ass in Ha. rewrite list_lookup_fmap in Ha.
  destruct (nodes s !! i) as [node|] eqn:Hnode; [|done]. simpl in Ha. injection Ha as <-.
  pose proof (lookup_lt_Some _ _ _ Hnode) as Hilt.
  pose proof (sim_ok_node _ _ _ Hok Hnode) as Hnok.
  assert (dff_at s i = is_dff_as (as_ node)) as Hdi by (by apply dff_at_lookup).
  assert (vis s i = visited node) as Hvi by (unfold vis; by rewrite Hnode).
  assert (cch s i = cached_state node) as Hci by (unfold cch; by rewrite Hnode).
  cbn [grci_eval_node_fuel mbind option_bind] in E. rewrite Hnode in E.
  cbn [mbind option_bind] in E.
  destruct (visited node) eqn:Hv.
  { destruct (as_ node) as [c|x y|inp l|r l] eqn:Has; try done.
    - injection E as <- <-. injection Hnv as <-. split; [|done].
      rewrite <- Hci. eapply (Hmemo i (S h)); try done.
      cbn [net_value mbind option_bind]. by rewrite (node_ass_lookup _ _ _ Hnode), Has.
    - injection E as <- <-. split; [|done].
      rewrite <- Hci. eapply (Hmemo i (S h)); try done.
      cbn [net_value mbind option_bind]. by rewrite (node_ass_lookup _ _ _ Hnode), Has.
    - injection E as <- <-. by injection Hnv as <-. }
  destruct (mark_visited_frame None s i node Hnode Hv) as [Hf1 Hu1].
  set (s1 := upd_node (set_visited true) i s) in *.
  assert (unvisited s1 < f) as HF1 by lia.
  pose proof (frame_sim_ok _ _ _ Hf1 Hok) as Hok1.
  assert (node_ass s1 = node_ass s) as Has1 by apply Hf1.
  assert (dff_sync s1) as Hsync1 by (by eapply dff_sync_frame).
  destruct (as_ node) as [c|x y|inp l|r l] eqn:Has; try done.
  - (* constant *)
    injection Hnv as <-. apply ret_cached_eq in E as [-> ->]. split.
    + apply cch_set_cached. by rewrite (eval_frame_length _ _ _ Hf1).
    + apply memo_ok_set.
      * apply memo_ok_mark; [done|]. by rewrite Hvi.
      * by rewrite (eval_frame_length _ _ _ Hf1).
      * intros h' v'. rewrite Has1. destruct h' as [|h']; [done|].
        cbn [net_value mbind option_bind].
        rewrite (node_ass_lookup _ _ _ Hnode), Has. cbn [mbind option_bind]. congruence.
  - (* nand *)
    destruct (net_value h (node_ass s) x) as [vx|] eqn:Hx; [|done].
    cbn [mbind option_bind] in Hnv.
    destruct (net_value h (node_ass s) y) as [vy|] eqn:Hy; [|done].
    cbn [mbind option_bind] in Hnv. injection Hnv as <-.
    assert (∀ j, j ∈ i :: P → net_value h (node_ass s) (Some j) = None) as HP'.
    { intros j [->|Hj]%elem_of_cons; [done|].
      eapply net_value_None_le; [|by apply HP]. lia. }
    destruct Hnok as [Hxok Hyok]. rewrite <- (frame_skels _ _ _ Hf1) in Hxok, Hyok.
    destruct (eval_node_fuel_frame f s1 x Hok1 Hxok HF1) as (va & s2 & E2 & Hf2).
    rewrite E2 in E. cbn [mbind option_bind] in E.
    destruct (IH f s1 x vx (i :: P) va s2) as [-> Hmemo2]; try done.
    { by rewrite Has1. }
    { apply memo_ok_mark; [done|]. by rewrite Hvi. }
    { by rewrite Has1. }
    assert (node_ass s2 = node_ass s) as Has2 by (rewrite <- Has1; apply Hf2).
    rewrite <- (frame_skels _ _ _ Hf2) in Hyok.
    destruct (eval_node_fuel_frame f s2 y (frame_sim_ok _ _ _ Hf2 Hok1) Hyok
                (frame_unvisited _ _ _ _ Hf2 HF1)) as (vb & s3 & E3 & Hf3).
    rewrite E3 in E. cbn [mbind option_bind] in E.
    destruct (IH f s2 y vy (i :: P) vb s3) as [-> Hmemo3]; try done.
    { eapply frame_sim_ok; eauto. }
    { eapply frame_unvisited; eauto. }
    { by rewrite Has2. }
    { by eapply dff_sync_frame. }
    { by rewrite Has2. }
    assert (node_ass s3 = node_ass s) as Has3 by (rewrite <- Has2; apply Hf3).
    assert (length (nodes s3) = length (nodes s)) as Hlen3.
    { by rewrite <- !node_ass_length, Has3. }
    apply ret_cached_eq in E as [-> ->]. split.
    + apply cch_set_cached. by rewrite Hlen3.
    + apply memo_ok_set; [done|by rewrite Hlen3|].
      intros h' v'. rewrite Has3. intros Hv'.
      eapply (net_value_det h' (S h)); [exact Hv'|].
      cbn [net_value mbind option_bind].
      rewrite (node_ass_lookup _ _ _ Hnode), Has. cbn [mbind option_bind].
      by rewrite Hx, Hy.
  - (* a DFF reached for the first time *)
    destruct inp as [q|]; [|done]. cbn [mbind option_bind] in E.
    injection E as <- <-. injection Hnv as <-. split.
    + assert (Some (cch s i) = lst s i) as Hl.
      { apply Hsync. by rewrite Hdi. }
      rewrite (lst_lookup _ _ _ Hnode), Has in Hl. rewrite <- Hci. by injection Hl.
    + apply memo_ok_mark_dff; [done|]. by rewrite Hdi.
Qed.

End OutputValue.

Section Outputs.
Implicit Types (s : grci_simulator) (p : ptr) (i j k : nat) (m : grci_module).

Lemma net_value_skel h : ∀ s s' p,
  node_skels s' = node_skels s →
  is_Some (net_value h (node_ass s) p) → is_Some (net_value h (node_ass s') p).
Proof.
  induction h as [|h IH]; intros s s' p Hsk [v Hv]; [done|].
  destruct p as [i|]; [|done]. cbn [net_value mbind option_bind] in *.
  pose proof (f_equal (λ l, l !! i) Hsk) as Hi. cbn beta in Hi.
  unfold node_skels in Hi. rewrite !list_lookup_fmap in Hi.
  destruct (node_ass s !! i) as [a|]; [|done].
  destruct (node_ass s' !! i) as [a'|]; [|done].
  cbn [mbind option_bind fmap option_fmap option_map] in *.
  destruct a as [c|x y|inp l|r l], a' as [c'|x' y'|inp' l'|r' l'];
    try discriminate Hi; try discriminate Hv; eauto.
  injection Hi as -> ->.
  destruct (net_value h (node_ass s) x) as [vx|] eqn:Hx; [|done].
  destruct (net_value h (node_ass s) y) as [vy|] eqn:Hy; [|done].
  destruct (IH s s' x Hsk) as [vx' ->]; [by rewrite Hx|].
  destruct (IH s s' y Hsk) as [vy' ->]; [by rewrite Hy|].
  simpl. eauto.
Qed.

Lemma comb_defined_skel s s' p : same_skel s s' → comb_defined s p → comb_defined s' p.
Proof. intros Hsk [h H]. exists h. eapply net_value_skel; [apply Hsk|done]. Qed.

Lemma commit_dffs_vis ks : ∀ s i, vis (commit_dffs ks s) i = vis s i.
Proof.
  induction ks as [|k ks IH]; intros s i; [done|]. cbn [commit_dffs]. rewrite IH, vis_upd.
  destruct (decide (k = i)) as [->|]; [|done]. unfold vis.
  destruct (nodes s !! i) as [n|]; [|done]. simpl. unfold set_last_state. by destruct (as_ n).
Qed.

(** After the pass and the commit no combinational node is left marked. *)
Lemma pass_commit_clean s0 sp :
  sim_ok s0 → dff_sync s0 → (∀ i, vis s0 i = false) → NoDup (dff_nodes s0) →
  Forall (λ k, is_Some (lst s0 k)) (dff_nodes s0) →
  dff_pass (dff_nodes s0) s0 = Some sp →
  ∀ i, dff_at s0 i = false → vis (commit_dffs (dff_nodes s0) sp) i = false.
Proof.
  intros Hok Hsync Hvis Hnd Hst E i Hi.
  destruct (dff_pass_inv s0 (dff_nodes s0) [] s0) as (sp' & rooted & E' & Hinv & Hin);
    try done.
  { by apply pass_inv_init. }
  { intros k _ Hk. by apply elem_of_nil in Hk. }
  { eapply Forall_impl; [exact Hst|]. intros k. apply stateful_lt. }
  rewrite E in E'. injection E' as <-. rewrite commit_dffs_vis. by apply Hinv.
Qed.

(** The output loop. *)
Lemma eval_outputs_values mi ks : ∀ outs s outs' s',
  NoDup ks → sim_ok s → dff_sync s → memo_ok [] s →
  (∀ k, k ∈ ks → ∃ p, inst_outputs mi !! k = Some p ∧ comb_defined s p) →
  eval_outputs ks mi outs s = Some (outs', s') →
  (∀ k, k ∉ ks → outs' !! k = outs !! k) ∧
  ∀ k p h v, k ∈ ks → k < length outs → inst_outputs mi !! k = Some p →
             net_value h (node_ass s) p = Some v → outs' !! k = Some v.
Proof.
  induction ks as [|k0 ks IH]; intros outs s outs' s' Hnd Hok Hsync Hmemo Hdef E.
  - injection E as <- <-. split; [done|]. intros k p h v Hk. by apply elem_of_nil in Hk.
  - apply NoDup_cons in Hnd as [Hk0 Hnd]. cbn [eval_outputs] in E.
    destruct (Hdef k0) as (p0 & Hp0 & h0 & v0 & Hv0); [by left|].
    rewrite Hp0 in E. cbn [mbind option_bind] in E.
    destruct (grci_eval_node s p0) as [[v1 s1]|] eqn:E1; [|discriminate E].
    cbn [mbind option_bind] in E.
    pose proof (net_value_ptr_ok _ _ _ _ Hv0) as Hpok.
    destruct (eval_node_frame s p0 Hok Hpok) as (v1' & s1' & E1' & Hf1).
    rewrite E1 in E1'. injection E1' as <- <-.
    destruct (eval_node_value h0 (S (length (nodes s))) s p0 v0 [] v1 s1) as [-> Hmemo1];
      try done.
    { pose proof (unvisited_le_length s). lia. }
    { intros i Hi. by apply elem_of_nil in Hi. }
    assert (node_ass s1 = node_ass s) as Has1 by apply Hf1.
    destruct (IH (<[k0 := v0]> outs) s1 outs' s') as [Hother Hself]; try done.
    { by eapply frame_sim_ok. }
    { by eapply dff_sync_frame. }
    { intros k Hk. destruct (Hdef k) as (p & Hp & h & Hh); [by right|].
      exists p. split; [done|]. exists h. by rewrite Has1. }
    split.
    + intros k Hk. apply not_elem_of_cons in Hk as [Hne Hk].
      rewrite (Hother k Hk). by apply list_lookup_insert_ne.
    + intros k p h v Hk Hlt Hp Hv. apply elem_of_cons in Hk as [->|Hk].
      * rewrite (Hother k0 Hk0), list_lookup_insert_eq by done.
        rewrite Hp0 in Hp. injection Hp as <-.
        f_equal. eapply net_value_det; eauto.
      * eapply Hself; try done; [by rewrite length_insert|by rewrite Has1].
Qed.

Lemma step_trace_skel5 m c s1 s2 s3 s5 s6 m' :
  step_trace m c s1 s2 s3 s5 s6 m' → same_skel (m_sim m) s5.
Proof.
  intros Ht.
  eapply same_skel_trans; [apply (uf_skel _ _ _ (st_f1 _ _ _ _ _ _ _ _ Ht))|].
  eapply same_skel_trans; [apply (uf_skel _ _ _ (st_f2 _ _ _ _ _ _ _ _ Ht))|].
  eapply same_skel_trans; [apply (uf_skel _ _ _ (st_f3 _ _ _ _ _ _ _ _ Ht))|].
  eapply same_skel_trans; [apply clear_visited_skel|]. apply Ht.
Qed.

(** The state the output loop starts from. *)
Lemma step_trace_outputs_ready m c s1 s2 s3 s5 s6 m' :
  module_ok m → dff_sync (m_sim m) → step_trace m c s1 s2 s3 s5 s6 m' →
  sim_ok s5 ∧ dff_sync s5 ∧ memo_ok [] s5.
Proof.
  intros Hm Hs Ht.
  pose proof (step_trace_skel5 _ _ _ _ _ _ _ _ Ht) as Hsk5.
  split; [eapply sim_ok_skel; [exact Hsk5|apply Hm]|].
  destruct (pre_pass_ready m (clear_visited s3) Hm Hs (st_pre _ _ _ _ _ _ _ _ Ht))
    as (Hok4 & Hs4 & Hv4 & Hnd4 & Hst4).
  pose proof (st_pass _ _ _ _ _ _ _ _ Ht) as Hp.
  destruct (negb c).
  - destruct (pass_commit_spec _ Hok4 Hs4 Hv4 Hnd4 Hst4) as (sp & Ep & Hsp & _).
    rewrite Ep in Hp. cbn [fmap option_fmap option_map] in Hp.
    injection Hp as <-. split; [done|].
    intros i h v Hvi Hdi _ _. exfalso.
    assert (vis (commit_dffs (dff_nodes s3) sp) i = false) as Hclean; [|congruence].
    apply (pass_commit_clean _ sp Hok4 Hs4 Hv4 Hnd4 Hst4 Ep i).
    destruct (commit_dffs_frame (dff_nodes s3) sp) as [Hfc _].
    rewrite (same_skel_dff_at _ _ i (uf_skel _ _ _ Hfc)) in Hdi.
    destruct (dff_pass_as (dff_nodes (clear_visited s3)) (clear_visited s3) Hok4)
      as (sp' & Ep' & Hfp).
    { eapply Forall_impl; [exact Hst4|]. intros k. apply stateful_lt. }
    rewrite Ep in Ep'. injection Ep' as <-.
    by rewrite (as_frame_dff_at _ _ _ Hfp) in Hdi.
  - injection Hp as <-. split; [done|]. intros i h v Hvi. by rewrite Hv4 in Hvi.
Qed.

End Outputs.

(** X2: in every state reachable from an instantiated module whose output
    networks are made of constants, NANDs and DFFs without combinational
    loop, a step succeeds and leaves in [outputs[k]] the value of the
    network behind output [k] evaluated over the state after the step,
    that is with the inputs just published and, on a rising edge, the
    new [last_state] of every DFF. *)
Theorem step_outputs_follow_state defs module_name m0 m :
  grci_init_module defs module_name = Some m0 → module_ok m0 → reachable m0 m →
  (∀ k, k < output_count (desc (m_module m)) →
        ∃ p, inst_outputs (m_module m) !! k = Some p ∧ comb_defined (m_sim m) p) →
  ∃ m' c, grci_step_module m = Some (m', c) ∧
          ∀ k p h v,
            k < output_count (desc (m_module m)) → k < length (m_outputs m) →
            inst_outputs (m_module m) !! k = Some p →
            net_value h (node_ass (m_sim m')) p = Some v →
            m_outputs m' !! k = Some v.
Proof.
  intros Hinit Hok0 Hreach Hdef.
  destruct (reachable_inv m0 m Hok0 (init_module_sync _ _ _ Hinit) Hreach) as [Hm Hs].
  destruct (mo_clock _ Hm) as [c Hc].
  destruct (step_trace_exists m c Hm Hc) as (s1&s2&s3&s5&s6&m'&Ht).
  exists m', (negb c). split; [apply Ht|].
  destruct (step_trace_tail _ _ _ _ _ _ _ _ Ht) as (outs & subs & E6 & _ & Houts & _).
  destruct (step_trace_outputs_ready _ _ _ _ _ _ _ _ Hm Hs Ht) as (Hok5 & Hs5 & Hmemo5).
  pose proof (step_trace_skel5 _ _ _ _ _ _ _ _ Ht) as Hsk5.
  assert (∀ k, k ∈ seq 0 (output_count (desc (m_module m))) →
               ∃ p, inst_outputs (m_module m) !! k = Some p ∧ comb_defined s5 p) as Hdef5.
  { intros k Hk. apply elem_of_seq in Hk. destruct (Hdef k) as (p & Hp & Hd); [lia|].
    exists p. split; [done|]. by eapply comb_defined_skel. }
  destruct (eval_outputs_values _ _ _ _ _ _ (NoDup_seq 0 _) Hok5 Hs5 Hmemo5 Hdef5 E6)
    as [_ Hval].
  intros k p h v Hk Hlen Hp Hv. rewrite Houts.
  eapply Hval; try done.
  - apply elem_of_seq. lia.
  - rewrite (st_sim _ _ _ _ _ _ _ _ Ht) in Hv.
    by rewrite <- (ef_as _ _ _ (st_f6 _ _ _ _ _ _ _ _ Ht)).
Qed.

Lemma step_outputs_follow_state_witness :
  ∃ m' c, grci_step_module pair_low = Some (m', c) ∧
          ∀ k p h v,
            k < output_count (desc (m_module pair_low)) → k < length (m_outputs pair_low) →
            inst_outputs (m_module pair_low) !! k = Some p →
            net_value h (node_ass (m_sim m')) p = Some v →
            m_outputs m' !! k = Some v.
Proof.
  apply (step_outputs_follow_state example_defs "Pair" pair_module pair_low).
  - vm_compute. reflexivity.
  - exact pair_module_ok.
  - apply (reach_step pair_module pair_module pair_low false).
    + apply reach_init.
    + vm_compute. reflexivity.
  - intros k Hk. vm_compute in Hk.
    destruct k as [|[|k]]; [| |lia].
    + exists (Some 4). split; [reflexivity|]. exists 1. vm_compute. eauto.
    + exists (Some 5). split; [reflexivity|]. exists 1. vm_compute. eauto.
Defined.


(** * Round trips of the RAM state buffer *)

Section RamRoundTrip.
Implicit Types (sts : list bool) (data : list Z) (i j n : nat).

Lemma b2z_high_bit (x : bool) (n : Z) : (0 < n)%Z → Z.testbit (Z.b2z x) n = false.
Proof.
  intros Hn. destruct x; simpl; [|apply Z.bits_0].
  destruct n as [|p|p]; try lia. reflexivity.
Qed.

Lemma pack8_high (f : nat → bool) (n : Z) :
  (8 ≤ n)%Z →
  Z.testbit (foldl (λ c k, Z.lor c (Z.shiftl (Z.b2z (f k)) (Z.of_nat k))) 0%Z (seq 0 8)) n
    = false.
Proof.
  intros Hn. cbn [seq foldl].
  rewrite !Z.lor_spec, !Z.shiftl_spec, Z.bits_0 by lia.
  rewrite !b2z_high_bit by lia. reflexivity.
Qed.

Lemma byte_high (b n : Z) : (0 ≤ b < 256)%Z → (8 ≤ n)%Z → Z.testbit b n = false.
Proof.
  intros Hb Hn. destruct (decide (b = 0%Z)) as [->|Hne]; [apply Z.bits_0|].
  apply Z.bits_above_log2; [lia|].
  assert (Z.log2 b < 8)%Z; [|lia]. apply Z.log2_lt_pow2; lia.
Qed.

End RamRoundTrip.

(** X3: loading a state buffer into the RAM store and taking the snapshot
    back gives the buffer again: what a client writes into the buffer of
    a RAM64K part is what it reads after the step, as long as the step
    stores nothing.  The store has to cover the buffer. *)
Theorem ram_load_then_snapshot sts data sts0 :
  length sts0 = length sts → length sts ≤ 8 * length data →
  length sts ≤ GRCI_RAM64K_STATE_COUNT →
  snapshot_ram_states (load_ram_states sts data) sts0 = sts.
Proof.
  intros Hlen Hdata Hc. apply list_eq. intros i.
  destruct (decide (i < length sts)) as [Hi|Hi].
  - rewrite snapshot_ram_states_lookup by lia.
    assert (i / 8 < length data) as Hj.
    { apply Nat.Div0.div_lt_upper_bound. lia. }
    assert (8 * (i / 8) < GRCI_RAM64K_STATE_COUNT) as HN.
    { pose proof (Nat.Div0.mul_div_le i 8). lia. }
    rewrite load_ram_states_lookup by done. cbn [from_option id].
    rewrite pack_byte_bit by (apply Nat.mod_upper_bound; lia).
    rewrite <- Nat.div_mod_eq.
    destruct (lookup_lt_is_Some_2 sts i Hi) as [v ->]. done.
  - rewrite !lookup_ge_None_2; [done|lia|]. rewrite snapshot_ram_states_length. lia.
Qed.

Lemma ram_load_then_snapshot_witness :
  snapshot_ram_states
    (load_ram_states [true; false; true; true; false; false; false; true; true]
                     [0; 0]%Z)
    (replicate 9 false)
  = [true; false; true; true; false; false; false; true; true].
Proof.
  apply (ram_load_then_snapshot
           [true; false; true; true; false; false; false; true; true] [0; 0]%Z
           (replicate 9 false)).
  - reflexivity.
  - simpl. lia.
  - unfold GRCI_RAM64K_STATE_COUNT. cbn [length]. lia.
Defined.

(** X4: taking the snapshot of a RAM store and loading it back leaves
    every byte of the store as it was: a step whose buffer the client did
    not touch does not disturb the RAM contents.  Bytes are values in
    [0, 256) and the buffer has to cover the store. *)
Theorem ram_snapshot_then_load data sts data0 :
  length data0 = length data → 8 * length data ≤ length sts →
  8 * length data ≤ GRCI_RAM64K_STATE_COUNT →
  Forall (λ b, 0 ≤ b < 256)%Z data →
  load_ram_states (snapshot_ram_states data sts) data0 = data.
Proof.
  intros Hlen Hsts HN Hbytes. apply list_eq. intros j.
  destruct (decide (j < length data)) as [Hj|Hj].
  - rewrite load_ram_states_lookup by lia.
    destruct (lookup_lt_is_Some_2 data j Hj) as [b Hb]. rewrite Hb. f_equal.
    assert (0 ≤ b < 256)%Z as Hrange.
    { rewrite Forall_forall in Hbytes. apply Hbytes. by eapply list_elem_of_lookup_2. }
    apply Z.bits_inj'. intros n Hn.
    destruct (decide (n < 8)%Z) as [Hlt|Hge].
    + replace n with (Z.of_nat (Z.to_nat n)) by lia.
      rewrite pack_byte_bit by lia.
      rewrite snapshot_ram_states_lookup.
      * replace ((8 * j + Z.to_nat n) / 8) with j
          by (rewrite Nat.mul_comm, Nat.add_comm, Nat.div_add by lia;
              rewrite Nat.div_small; lia).
        replace ((8 * j + Z.to_nat n) mod 8) with (Z.to_nat n)
          by (rewrite Nat.mul_comm, Nat.add_comm, Nat.Div0.mod_add, Nat.mod_small; lia).
        by rewrite Hb.
      * lia.
      * lia.
    + unfold pack_byte. rewrite pack8_high by lia. symmetry. apply byte_high; lia.
  - rewrite !lookup_ge_None_2; [done|lia|].
    unfold load_ram_states. rewrite load_ram_loop_length. lia.
Qed.

Lemma ram_snapshot_then_load_witness :
  load_ram_states (snapshot_ram_states [5; 140]%Z (replicate 16 false)) [0; 0]%Z
  = [5; 140]%Z.
Proof.
  apply (ram_snapshot_then_load [5; 140]%Z (replicate 16 false) [0; 0]%Z).
  - reflexivity.
  - simpl. lia.
  - unfold GRCI_RAM64K_STATE_COUNT. cbn [length]. lia.
  - repeat constructor; lia.
Defined.

(** X5: in the two loops over the state buffer of a RAM64K part, bit [i]
    of byte [j] of the backing store sits at index
    [j * 8 + i] of the state buffer, in both directions: the load at the
    start of a step ([load_ram_states]) leaves in byte [j] a value whose
    bit [i] is buffer entry [j * 8 + i], and the snapshot at the end of a
    step ([snapshot_ram_states]) leaves in buffer entry [j * 8 + i] bit
    [i] of byte [j].  The index ranges over the 524288 entries; the
    store and the buffer have to be long enough to hold the byte and the
    entry, as the 64 KiB store and the full buffer are. *)
Theorem ram_loops_pack_low_bit_first sts data j i :
  i < 8 → j * 8 + i < GRCI_RAM64K_STATE_COUNT →
  j < length data → j * 8 + i < length sts →
  (∃ byte v, load_ram_states sts data !! j = Some byte ∧
             sts !! (j * 8 + i) = Some v ∧ Z.testbit byte (Z.of_nat i) = v) ∧
  (∃ byte, data !! j = Some byte ∧
           snapshot_ram_states data sts !! (j * 8 + i) = Some (Z.testbit byte (Z.of_nat i))).
Proof.
  intros Hi Hc Hj Hs.
  assert (GRCI_RAM64K_STATE_COUNT = 8 * Z.to_nat 65536) as HN
    by (unfold GRCI_RAM64K_STATE_COUNT; rewrite Z.mul_comm, Z2Nat.inj_mul by lia;
        by change (Z.to_nat 8) with 8).
  unfold load_ram_states, snapshot_ram_states. rewrite HN in Hc |- *. clear HN.
  revert Hc. generalize (Z.to_nat 65536). intros N Hc.
  destruct (lookup_lt_is_Some_2 sts (j * 8 + i) Hs) as [v Hv].
  destruct (lookup_lt_is_Some_2 data j Hj) as [byte Hbyte].
  split.
  - exists (pack_byte sts j), v.
    pose proof (load_bytes N sts 0 data j Hj) as H. rewrite Nat.mul_0_r in H.
    rewrite H, decide_True by lia. split; [done|]. split; [done|].
    rewrite pack_byte_bit by done. replace (8 * j + i) with (j * 8 + i) by lia.
    by rewrite Hv.
  - exists byte. split; [done|].
    rewrite snapshot_entries by done. rewrite decide_True by lia.
    replace ((j * 8 + i) / 8) with j by (rewrite Nat.add_comm, Nat.div_add by lia; rewrite Nat.div_small; lia).
    replace ((j * 8 + i) mod 8) with i by (rewrite Nat.add_comm, Nat.Div0.mod_add, Nat.mod_small; lia).
    by rewrite Hbyte.
Qed.

Lemma ram_loops_pack_low_bit_first_witness :
  (∃ byte v,
     load_ram_states [true; false; true; false; false; false; false; false;
                      false; false; true; true; false; false; false; true]
                     [5; 140]%Z !! 1 = Some byte ∧
     [true; false; true; false; false; false; false; false;
      false; false; true; true; false; false; false; true] !! (1 * 8 + 2) = Some v ∧
     Z.testbit byte (Z.of_nat 2) = v) ∧
  (∃ byte,
     [5; 140]%Z !! 1 = Some byte ∧
     snapshot_ram_states [5; 140]%Z
       [true; false; true; false; false; false; false; false;
        false; false; true; true; false; false; false; true] !! (1 * 8 + 2)
       = Some (Z.testbit byte (Z.of_nat 2))).
Proof.
  apply (ram_loops_pack_low_bit_first
           [true; false; true; false; false; false; false; false;
            false; false; true; true; false; false; false; true] [5; 140]%Z 1 2).
  - lia.
  - unfold GRCI_RAM64K_STATE_COUNT. lia.
  - simpl. lia.
  - simpl. lia.
Defined.


(** * Lookups *)

Section TableLookup.
Implicit Types (d e : grci_module_desc) (s : string).

Lemma module_desc_list_find_spec es s :
  match module_desc_list_find es s with
  | Some e => ∃ i, es !! i = Some e ∧ name e = s ∧
                   ∀ j e', j < i → es !! j = Some e' → name e' ≠ s
  | None => ∀ e, e ∈ es → name e ≠ s
  end.
Proof.
  induction es as [|cur es IH]; cbn [module_desc_list_find].
  - intros e He. by apply elem_of_nil in He.
  - unfold grci_strings_equal. destruct (String.eqb (name cur) s) eqn:E.
    + apply String.eqb_eq in E. exists 0. split; [done|]. split; [done|]. intros; lia.
    + apply String.eqb_neq in E. destruct (module_desc_list_find es s) as [e|].
      * destruct IH as (i & Hi & Hn & Hfirst). exists (S i). split; [done|]. split; [done|].
        intros [|j] e' Hj He'; [by injection He' as <-|].
        apply (Hfirst j e'); [lia|done].
      * intros e [->|He]%elem_of_cons; [done|by apply IH].
Qed.

Lemma module_desc_list_find_snoc es d s :
  module_desc_list_find (es ++ [d]) s =
    match module_desc_list_find es s with
    | Some e => Some e
    | None => if grci_strings_equal (name d) s then Some d else None
    end.
Proof.
  induction es as [|cur es IH]; cbn [module_desc_list_find app]; [done|].
  by destruct (grci_strings_equal (name cur) s).
Qed.

Lemma find_submodule_first names nm : ∀ i0 i,
  names !! i = Some (Some nm) → (∀ j, j < i → names !! j ≠ Some (Some nm)) →
  find_submodule names i0 nm = Some (i0 + i).
Proof.
  induction names as [|[x|] names IH]; intros i0 i Hi Hfirst; [done| |].
  - cbn [find_submodule]. unfold grci_string_matches.
    destruct i as [|i].
    + injection Hi as ->. rewrite String.eqb_refl. f_equal. lia.
    + destruct (String.eqb x nm) eqn:E.
      * apply String.eqb_eq in E as ->. by destruct (Hfirst 0); [lia|].
      * rewrite (IH (S i0) i); [f_equal; lia|done|].
        intros j Hj. apply (Hfirst (S j)). lia.
  - cbn [find_submodule]. destruct i as [|i]; [done|].
    rewrite (IH (S i0) i); [f_equal; lia|done|].
    intros j Hj. apply (Hfirst (S j)). lia.
Qed.

End TableLookup.

(** X6: [grci_module_desc_list_get] returns the first entry of the table
    with the requested name, and NULL exactly when no entry has it. *)
Theorem module_table_get_first defs s :
  match grci_module_desc_list_get defs s with
  | Some e => ∃ i, entries defs !! i = Some e ∧ name e = s ∧
                   ∀ j e', j < i → entries defs !! j = Some e' → name e' ≠ s
  | None => ∀ e, e ∈ entries defs → name e ≠ s
  end.
Proof. apply module_desc_list_find_spec. Qed.

(** X7: a successful [grci_module_desc_list_append] adds one entry at the
    end; a later lookup finds the new module only under a name that no
    earlier entry has, so a second definition of a name is never seen. *)
Theorem module_table_append_get defs module_def defs' s :
  grci_module_desc_list_append defs module_def = Some defs' →
  length (entries defs') = S (length (entries defs)) ∧
  grci_module_desc_list_get defs' s =
    match grci_module_desc_list_get defs s with
    | Some e => Some e
    | None => if grci_strings_equal (name module_def) s then Some module_def else None
    end.
Proof.
  unfold grci_module_desc_list_append, grci_module_desc_list_get.
  destruct (length (entries defs) <? GRCI_MAX_MODULES); [|done].
  intros [= <-]. cbn [entries]. split.
  - rewrite length_app. simpl. lia.
  - apply module_desc_list_find_snoc.
Qed.

Lemma module_table_append_get_witness :
  length (entries {| entries := [nand_decl; dff_decl; ram64K_decl; fake_nand_desc] |})
    = S (length (entries {| entries := [nand_decl; dff_decl; ram64K_decl] |})) ∧
  grci_module_desc_list_get
    {| entries := [nand_decl; dff_decl; ram64K_decl; fake_nand_desc] |} "Nand" =
    match grci_module_desc_list_get {| entries := [nand_decl; dff_decl; ram64K_decl] |}
            "Nand" with
    | Some e => Some e
    | None => if grci_strings_equal (name fake_nand_desc) "Nand"
              then Some fake_nand_desc else None
    end.
Proof.
  apply (module_table_append_get {| entries := [nand_decl; dff_decl; ram64K_decl] |}
           fake_nand_desc). reflexivity.
Defined.

(** X8: [grci_submodule] returns the first part that was given the
    requested name and leaves the error buffer as it is. *)
Theorem submodule_finds_first_named m submodule_name err_buf i :
  i < part_count (desc (m_module m)) →
  part_name (desc (m_module m)) i = Some submodule_name →
  (∀ j, j < i → part_name (desc (m_module m)) j ≠ Some submodule_name) →
  grci_submodule m submodule_name err_buf = (Some i, err_buf).
Proof.
  intros Hi Hnm Hfirst. unfold grci_submodule.
  rewrite (find_submodule_first _ submodule_name 0 i).
  - done.
  - apply lookup_take_Some. split; [|done]. unfold part_name in Hnm.
    destruct (part_names (desc (m_module m)) !! i) as [[x|]|]; by simplify_eq/=.
  - intros j Hj Hl. apply lookup_take_Some in Hl as [Hl _].
    apply (Hfirst j Hj). unfold part_name. by rewrite Hl.
Qed.

Lemma submodule_finds_first_named_witness :
  grci_submodule pair_module "d1" "stale" = (Some 2, "stale").
Proof.
  apply (submodule_finds_first_named pair_module "d1" "stale" 2).
  - vm_compute. lia.
  - reflexivity.
  - intros j Hj. destruct j as [|[|j]]; [vm_compute; discriminate..|lia].
Defined.


(** * The evaluators and the step as a whole *)

(** X9: on a well-formed netlist [grci_eval_dff] returns (no assertion
    fails, no NULL pointer is followed, the recursion ends) and writes
    only visited marks, cached bits and RAM bytes: no [last_state],
    constant or connection changes, the node is left visited, marks are
    never cleared, and the cached bit of every DFF other than an
    evaluated root is kept. *)
Theorem eval_dff_returns_and_frames s i root :
  sim_ok s → i < length (nodes s) →
  ∃ v s', grci_eval_dff s (Some i) root = Some (v, s') ∧
          sim_ok s' ∧
          node_ass s' = node_ass s ∧ dff_nodes s' = dff_nodes s ∧
          (∀ j, vis s j = true → vis s' j = true) ∧ vis s' i = true ∧
          (∀ j, dff_at s j = true → (root = true → j ≠ i) → cch s' j = cch s j).
Proof.
  intros Hok Hi.
  destruct (eval_dff_frame_vis s i root Hok Hi) as (v & s' & E & Hf & Hv).
  exists v, s'. split; [done|].
  split; [by eapply frame_sim_ok|].
  split; [apply Hf|]. split; [apply Hf|]. split; [apply Hf|]. split; [done|].
  intros j Hj Hne. apply (ef_cch _ _ _ Hf j Hj).
  destruct root; [|done]. intros [= ->]. by apply Hne.
Qed.

Lemma eval_dff_returns_and_frames_witness :
  ∃ v s', grci_eval_dff (m_sim pair_module) (Some 4) true = Some (v, s') ∧
          sim_ok s' ∧
          node_ass s' = node_ass (m_sim pair_module) ∧
          dff_nodes s' = dff_nodes (m_sim pair_module) ∧
          (∀ j, vis (m_sim pair_module) j = true → vis s' j = true) ∧ vis s' 4 = true ∧
          (∀ j, dff_at (m_sim pair_module) j = true → (true = true → j ≠ 4) →
                cch s' j = cch (m_sim pair_module) j).
Proof.
  apply (eval_dff_returns_and_frames (m_sim pair_module) 4 true).
  - exact (mo_sim _ pair_module_ok).
  - vm_compute. lia.
Defined.

(** X10: on a well-formed netlist [grci_eval_node] returns and changes no
    [last_state], constant or connection, clears no visited mark and
    keeps the cached bit of every DFF. *)
Theorem eval_node_returns_and_frames s i :
  sim_ok s → i < length (nodes s) →
  ∃ v s', grci_eval_node s (Some i) = Some (v, s') ∧
          sim_ok s' ∧
          node_ass s' = node_ass s ∧ dff_nodes s' = dff_nodes s ∧
          (∀ j, vis s j = true → vis s' j = true) ∧
          (∀ j, dff_at s j = true → cch s' j = cch s j).
Proof.
  intros Hok Hi.
  destruct (eval_node_frame s (Some i) Hok) as (v & s' & E & Hf).
  { simpl. by rewrite node_skels_length. }
  exists v, s'. split; [done|].
  split; [by eapply frame_sim_ok|].
  split; [apply Hf|]. split; [apply Hf|]. split; [apply Hf|].
  intros j Hj. by apply (ef_cch _ _ _ Hf j Hj).
Qed.

Lemma eval_node_returns_and_frames_witness :
  ∃ v s', grci_eval_node (m_sim pair_module) (Some 3) = Some (v, s') ∧
          sim_ok s' ∧
          node_ass s' = node_ass (m_sim pair_module) ∧
          dff_nodes s' = dff_nodes (m_sim pair_module) ∧
          (∀ j, vis (m_sim pair_module) j = true → vis s' j = true) ∧
          (∀ j, dff_at (m_sim pair_module) j = true → cch s' j = cch (m_sim pair_module) j).
Proof.
  apply (eval_node_returns_and_frames (m_sim pair_module) 3).
  - exact (mo_sim _ pair_module_ok).
  - vm_compute. lia.
Defined.

(** X11: a step of a well-formed module succeeds, returns the level it has
    flipped the clock to, and leaves a well-formed module with the same
    netlist structure, the same input vector and output and state
    buffers of the same sizes. *)
Theorem step_succeeds_and_keeps_structure m :
  module_ok m →
  ∃ c m', clock_level (m_sim m) = Some c ∧
          grci_step_module m = Some (m', negb c) ∧
          module_ok m' ∧
          same_skel (m_sim m) (m_sim m') ∧
          m_inputs m' = m_inputs m ∧
          length (m_outputs m') = length (m_outputs m) ∧
          same_sizes (submodules (m_module m)) (submodules (m_module m')).
Proof.
  intros Hm. destruct (mo_clock _ Hm) as [c Hc].
  destruct (step_trace_exists m c Hm Hc) as (s1&s2&s3&s5&s6&m'&Ht).
  exists c, m'. split; [done|]. split; [apply Ht|].
  split; [by eapply step_trace_ok|].
  split; [rewrite (st_sim _ _ _ _ _ _ _ _ Ht); apply Ht|].
  split; [apply Ht|]. split; apply Ht.
Qed.

Lemma step_succeeds_and_keeps_structure_witness :
  ∃ c m', clock_level (m_sim latch_module) = Some c ∧
          grci_step_module latch_module = Some (m', negb c) ∧
          module_ok m' ∧
          same_skel (m_sim latch_module) (m_sim m') ∧
          m_inputs m' = m_inputs latch_module ∧
          length (m_outputs m') = length (m_outputs latch_module) ∧
          same_sizes (submodules (m_module latch_module)) (submodules (m_module m')).
Proof.
  apply (step_succeeds_and_keeps_structure latch_module). exact latch_module_ok.
Defined.

(** * The tables of an instantiated module *)

(** X12: in the simulator of an instantiated module every DFF and every
    RAM-OUT node is on the DFF list, and each node on the output list of
    a RAM block is a RAM-OUT node that refers back to that block. *)
Theorem instantiated_module_is_linked defs module_name m :
  grci_init_module defs module_name = Some m →
  (∀ k, is_Some (lst (m_sim m) k) → k ∈ dff_nodes (m_sim m)) ∧
  (∀ r ram o, rams (m_sim m) !! r = Some ram → o ∈ ram_outputs ram →
              ∃ l, node_ass (m_sim m) !! o = Some (AsRam64KOut r l)).
Proof. intros E. exact (init_module_links defs module_name m E). Qed.

Lemma instantiated_module_is_linked_witness :
  (∀ k, is_Some (lst (m_sim board_module) k) → k ∈ dff_nodes (m_sim board_module)) ∧
  (∀ r ram o, rams (m_sim board_module) !! r = Some ram → o ∈ ram_outputs ram →
              ∃ l, node_ass (m_sim board_module) !! o = Some (AsRam64KOut r l)).
Proof.
  apply (instantiated_module_is_linked ram_defs "Board" board_module).
  exact board_module_init.
Defined.
